(** * go-tools: the SSI lifting pass (go/ir/lift.go) and the pattern matcher
    (pattern/match.go)

    A shallow embedding of the two engines of the repository, and the
    properties their specification states about them.

    - [IR]       blocks, instructions, [BlockSet], the reachability index
                 ([closure]), phi placement ([liftAlloc]) and the driver [lift].
    - [Pattern]  pattern nodes, the matcher state with its binding frames, and
                 the mutually recursive [match_] with every variant's [Match].
    - [ClosureFacts], [LiftingFacts], [PatternFacts]
                 what is proved about them.
    - [BlockSetFacts], [ReachabilityFacts], [DriverFacts], [PlacementFacts],
      [MatcherFacts], [FrontierFacts]
                 further properties of the same code: the block sets, the
                 reachability index, the compaction and numbering of [lift],
                 the tables of [liftAlloc], the binding frames of the
                 matcher, and the end of the placement loops.

    Go's [int] is modelled by [Z] or [nat] (positions in a slice), [uint32] and
    [uint64] by [Z] with the wrap-around written out, slices by lists, maps by
    [gmap]. A Go panic is an explicit result ([None] or [Panic]). *)

From Stdlib Require Import ZArith Lia Bool.
From stdpp Require Import base option list relations gmap strings.

(** * The lifting pass (go/ir/lift.go) *)

Module IR.

(** ** Data model *)

(** Operands. A block, an Alloc cell and a register are pointers in Go; here a
    block is named by its [Index] (its position in [Blocks]), a cell and a
    register by a number. *)
Inductive Value :=
| Cell (a : nat)
| CallValue (id : nat)
| Reg (r : nat)
| Const (c : Z).

(** A phi has one slot per predecessor of its block; a slot not yet filled by
    the renaming is [nil]. [block] becomes [nil] when a dead node is dropped. *)
Record PhiNode := mkPhi {
  Edges : list (option Value);
  phiBlock : option nat;
  phiLive : bool
}.

Record SigmaNode := mkSigma {
  From : nat;
  X : option Value;
  sigmaBlock : option nat;
  sigmaLive : bool
}.

Inductive Instruction :=
| Alloc (cell : nat)
| Store (Addr Val : Value)
| Load (X : Value)
| Phi (phi : PhiNode)
| Sigma (sigma : SigmaNode)
| DebugRef (X : option Value) (IsAddr : bool)
| Defer (DeferStack : option Value)
| RunDefers
| Call (id : nat) (Fn : Value) (Args : list Value)
| Other (tag : nat) (Operands : list Value).

(** [Instrs] holds [None] where the pass has left a tombstone ([nil]);
    [capacity] is [cap(b.Instrs)]. *)
Record BasicBlock := mkBlock {
  Index : nat;
  Preds : list nat;
  Succs : list nat;
  Instrs : list (option Instruction);
  capacity : nat;
  gaps : nat;
  rundefers : nat
}.

Definition is_Alloc (i : option Instruction) : bool :=
  match i with Some (Alloc _) => true | _ => false end.
Definition is_Defer (i : option Instruction) : bool :=
  match i with Some (Defer _) => true | _ => false end.
Definition is_RunDefers (i : option Instruction) : bool :=
  match i with Some RunDefers => true | _ => false end.
Definition is_nil (i : option Instruction) : bool :=
  match i with None => true | _ => false end.

(** ** The reachability index (lift.go, [closure]) *)

Module Closure.
Local Open Scope Z_scope.

Definition uint32 (z : Z) : Z := z mod 2 ^ 32.

Definition flagMask : Z := Z.shiftl 1 31.
Definition numBits : Z := 20.
Definition lengthBits : Z := 32 - numBits - 1.
Definition lengthMask : Z := Z.shiftl (Z.shiftl 1 lengthBits - 1) numBits.
Definition numMask : Z := Z.shiftl 1 numBits - 1.

(** [^uint32(0)], the "no run open" mark of [transitiveClosure]. *)
Definition noStart : Z := 2 ^ 32 - 1.

Record closure := mkClosure { span : list Z; reachables : list Z }.

(** The loop of [closure.has] over [r := c.reachable(s.Index)]. A large
    interval reads a second word ([i++; r[i]]); reading past the end is Go's
    index panic, [None]. *)
Fixpoint scan (idx : Z) (r : list Z) : option bool :=
  match r with
  | [] => Some false
  | inv :: r' =>
    if Z.land inv flagMask =? 0 then
      let start := Z.land inv numMask in
      let end_ := uint32 (start + Z.shiftr (Z.land inv lengthMask) numBits) in
      if (start <=? idx) && (idx <=? end_) then Some true else scan idx r'
    else
      match r' with
      | [] => None
      | e :: r'' =>
        let start := Z.land inv numMask in
        if (start <=? idx) && (idx <=? e) then Some true else scan idx r''
      end
  end.

(** [c.reachables[c.span[id]:c.span[id+1]]]; [None] is a Go panic (an index or
    slice bound out of range). *)
Definition reachable (c : closure) (id : nat) : option (list Z) :=
  lo ← span c !! id;
  hi ← span c !! S id;
  if (0 <=? lo) && (lo <=? hi) && (hi <=? Z.of_nat (length (reachables c)))
  then Some (take (Z.to_nat (hi - lo)) (drop (Z.to_nat lo) (reachables c)))
  else None.

Section Has.
(** [BasicBlock.Dominates] is defined with the dominator tree, outside
    lift.go; it is a parameter here. *)
Variable Dominates : nat -> nat -> bool.

Definition has (c : closure) (s v : nat) : option bool :=
  let idx := uint32 (Z.of_nat v) in
  if (idx =? 1) || Dominates s v then Some true
  else r ← reachable c s; scan idx r.
End Has.

(** [closure.walk]: a depth-first search that marks [visited]. The recursion
    is on the graph, so it carries fuel; [walk_total] shows that [length
    visited] is always enough. An index outside [visited] is a Go panic. *)
Fixpoint walk (fuel : nat) (blocks : list BasicBlock) (b : nat)
    (visited : list bool) : option (list bool) :=
  match fuel with
  | O => None
  | S fuel' =>
    blk ← blocks !! b;
    _ ← visited !! b;
    foldl (fun acc succ =>
             visited ← acc;
             seen ← visited !! succ;
             if seen : bool then Some visited
             else walk fuel' blocks succ (<[succ := true]> visited))
          (Some (<[b := true]> visited)) (Succs blk)
  end.

(** The closure [addInterval] of [transitiveClosure]; it returns the words it
    appends to [c.reachables]. *)
Definition addInterval (start end_ : Z) : list Z :=
  let l := uint32 (end_ - start) in
  if l <=? Z.shiftl 1 lengthBits - 1 then
    [Z.lor (uint32 (Z.shiftl l numBits)) start]
  else
    [Z.lor (Z.shiftl 1 31) start; end_].

(** The loop [for id, isReachable := range reachable] with its running
    [start]; it returns the words appended and the final [start]. *)
Fixpoint encodeRuns (reach : list bool) (id : Z) (start : Z) : list Z * Z :=
  match reach with
  | [] => ([], start)
  | isReachable :: rest =>
    if negb isReachable then
      if negb (start =? noStart) then
        let end_ := uint32 (uint32 id - 1) in
        let '(ws, st) := encodeRuns rest (id + 1) noStart in
        (addInterval start end_ ++ ws, st)
      else encodeRuns rest (id + 1) start
    else if start =? noStart then encodeRuns rest (id + 1) (uint32 id)
    else encodeRuns rest (id + 1) start
  end.

(** The words one iteration of the outer loop appends for block [b]. *)
Definition intervalsOf (blocks : list BasicBlock) (b : nat) : option (list Z) :=
  let n := length blocks in
  reach ← walk n blocks b (replicate n false);
  let '(ws, start) := encodeRuns reach 0 noStart in
  Some (if negb (start =? noStart)
        then ws ++ addInterval start (uint32 (uint32 (Z.of_nat (length reach)) - 1))
        else ws).

(** The outer loop [for i, b := range fn.Blocks[1:]], as a recursion on the
    blocks still to visit; [b] is the index of the next one ([i+1]). *)
Fixpoint closureLoop (blocks : list BasicBlock) (todo : list BasicBlock) (b : nat)
    (c : closure) : option closure :=
  match todo with
  | [] => Some c
  | _ :: todo' =>
    ws ← intervalsOf blocks b;
    let rs := reachables c ++ ws in
    if decide (S b < length (span c))%nat then
      closureLoop blocks todo' (S b)
        (mkClosure (<[S b := uint32 (Z.of_nat (length rs))]> (span c)) rs)
    else None
  end.

(** [fn.Blocks[1:]] panics on a function without blocks. *)
Definition transitiveClosure (blocks : list BasicBlock) : option closure :=
  match blocks with
  | [] => None
  | _ :: todo =>
    closureLoop blocks todo 1 (mkClosure (replicate (S (length blocks)) 0) [])
  end.

(** *** What the index holds, for the statements below *)

(** The words of one block: the runs closed inside the loop, then the run
    still open at its end. *)
Definition flush (reach : list bool) (id start : Z) : list Z :=
  let '(ws, st) := encodeRuns reach id start in
  if st =? noStart then ws
  else ws ++ addInterval st (id + Z.of_nat (length reach) - 1).

Definition covered (reach : list bool) (id start idx : Z) : bool :=
  (negb (start =? noStart) && (start <=? idx) && (idx <? id))
  || ((id <=? idx) && nth (Z.to_nat (idx - id)) reach false).

(** Every successor is a block of the function (in Go, a pointer into
    [fn.Blocks]). *)
Definition succs_in_range (blocks : list BasicBlock) : bool :=
  forallb (fun blk => forallb (fun s => s <? length blocks)%nat (Succs blk)) blocks.

Fixpoint unvisited (v : list bool) : nat :=
  match v with
  | [] => 0
  | x :: v' => ((if x then 0 else 1) + unvisited v')%nat
  end.

(** The set [walk] records for [s], as [transitiveClosure] calls it. *)
Definition reachedFrom (blocks : list BasicBlock) (s : nat) : list bool :=
  default [] (walk (length blocks) blocks s (replicate (length blocks) false)).

(** The answer the specification gives for [has(s, v)]: block 1, a dominated
    block, or a block the walk from [s] recorded. Block 0 is skipped by
    [transitiveClosure] ([fn.Blocks[1:]]), so nothing is recorded for it. *)
Definition hasSpec (Dominates : nat -> nat -> bool) (blocks : list BasicBlock)
    (s v : nat) : bool :=
  (Z.of_nat v =? 1) || Dominates s v
  || (negb (s =? 0)%nat && nth v (reachedFrom blocks s) false).

(** A function of three blocks, 0 -> 1, 0 -> 2, 2 -> 2. *)
Definition threeBlocks : list BasicBlock :=
  [ mkBlock 0 [] [1; 2]%nat [] 0 0 0;
    mkBlock 1 [0%nat] [] [] 0 0 0;
    mkBlock 2 [0; 2]%nat [2%nat] [] 0 0 0 ].

(** A function of [m + 1] blocks: 0 -> 1, 0 -> 2, 1 -> m, and the chain
    2 -> 3 -> ... -> m. Every block can be reached from block 0. *)
Fixpoint chain (m k len : nat) : list BasicBlock :=
  match len with
  | O => []
  | S len' =>
    match len' with
    | O => [mkBlock k [1; k - 1]%nat [] [] 0 0 0]
    | S _ => mkBlock k [(k - 1)%nat] [S k] [] 0 0 0 :: chain m (S k) len'
    end
  end.

Definition chainFn (m : nat) : list BasicBlock :=
  mkBlock 0 [] [1; 2]%nat [] 0 0 0
  :: mkBlock 1 [0%nat] [m] [] 0 0 0
  :: chain m 2 (m - 1).

Definition chainDominates (m s v : nat) : bool :=
  (s =? 0)%nat || (s =? v)%nat || ((2 <=? s)%nat && (s <=? v)%nat && (v <? m)%nat).

(** ** Reachability over the successor edges *)

(** [v] is a successor of block [u]. *)
Definition edge (blocks : list BasicBlock) (u v : nat) : Prop :=
  exists blk, blocks !! u = Some blk /\ v ∈ Succs blk.

(** [visited[x]] is set. *)
Definition marked (V : list bool) (x : nat) : Prop := V !! x = Some true.

(** Every successor of [x] is marked. *)
Definition closedAt (blocks : list BasicBlock) (V : list bool) (x : nat) : Prop :=
  forall y, edge blocks x y -> marked V y.

(** The body of the loop of [walk] over the successors of a block. *)
Definition walkStep (fuel : nat) (blocks : list BasicBlock)
    (acc : option (list bool)) (succ : nat) : option (list bool) :=
  visited ← acc;
  seen ← visited !! succ;
  if seen : bool then Some visited
  else walk fuel blocks succ (<[succ := true]> visited).

(** What one call of [walk] does to [visited]. *)
Definition walked (blocks : list BasicBlock) (b : nat) (V V' : list bool) : Prop :=
  (forall x, marked V x -> marked V' x)
  /\ marked V' b
  /\ (forall x, marked V' x -> marked V x \/ rtc (edge blocks) b x)
  /\ closedAt blocks V' b
  /\ (forall x, marked V' x -> ~ marked V x -> closedAt blocks V' x).

End Closure.

(** ** BlockSet (lift.go) *)

Record BlockSet := mkBlockSet { idx : nat; values : list bool; count : Z }.

Definition NewBlockSet (size : nat) : BlockSet :=
  mkBlockSet 0 (replicate size false) 0.

(** Go's [copy(dst, src)]: the first [min(len(dst), len(src))] elements. *)
Definition copy {A : Type} (dst src : list A) : list A :=
  take (length dst) src ++ drop (length src) dst.

Fixpoint countTrue (v : list bool) : Z :=
  match v with
  | [] => 0
  | x :: v' => ((if x then 1 else 0) + countTrue v')%Z
  end.

Definition BlockSet_Set (s s2 : BlockSet) : BlockSet :=
  let vs := copy (values s) (values s2) in
  mkBlockSet (idx s) vs (countTrue vs).

Definition BlockSet_Num (s : BlockSet) : Z := count s.

Definition BlockSet_Has (s : BlockSet) (b : nat) : bool :=
  if decide (length (values s) <= b) then false
  else default false (values s !! b).

(** [Add] reads [s.values[b.Index]]: out of range is a Go panic, [None]. *)
Definition BlockSet_Add (s : BlockSet) (b : nat) : option (bool * BlockSet) :=
  v ← values s !! b;
  if v : bool then Some (false, s)
  else Some (true, mkBlockSet b (<[b := true]> (values s)) (count s + 1)%Z).

Definition BlockSet_Clear (s : BlockSet) : BlockSet :=
  mkBlockSet (idx s) (replicate (length (values s)) false) 0.

Fixpoint firstTrueFrom (v : list bool) (i : nat) : option nat :=
  match v with
  | [] => None
  | x :: v' => if x then Some i else firstTrueFrom v' (S i)
  end.

(** [Take]: scan [[idx, end)], then [[0, idx)]; [None] is the [-1] of Go. *)
Definition BlockSet_Take (s : BlockSet) : option nat * BlockSet :=
  let found i :=
    (Some i, mkBlockSet i (<[i := false]> (values s)) (count s - 1)%Z) in
  match firstTrueFrom (drop (idx s) (values s)) (idx s) with
  | Some i => found i
  | None =>
    match firstTrueFrom (take (idx s) (values s)) 0 with
    | Some i => found i
    | None => (None, s)
    end
  end.

(** ** Phi and sigma placement (lift.go, [liftAlloc]) *)

(** newPhi is a pair of a newly introduced phi and the lifted Alloc it
    replaces; newSigma the sigmas of one Alloc at one block, one slot per
    successor. *)
Record newPhi := mkNewPhi { np_phi : PhiNode; np_alloc : nat }.
Record newSigma := mkNewSigma { ns_alloc : nat; ns_sigmas : list (option SigmaNode) }.

(** What [liftAlloc] reads of a referrer of the Alloc: the kind of
    instruction, its block, and the blocks of its own referrers. *)
Record Referrer := mkReferrer {
  ref_instr : Instruction;
  ref_block : nat;
  ref_users : list nat
}.

Record AllocInfo := mkAllocInfo {
  a_cell : nat;
  a_block : nat;
  a_referrers : list Referrer
}.

Record LiftState := mkLiftState {
  defblocks : BlockSet;
  useblocks : BlockSet;
  Aphi : BlockSet;
  Asigma : BlockSet;
  W : BlockSet;
  newPhis : list (list newPhi);
  newSigmas : list (list newSigma);
  change : bool
}.

(** The pass as a state transformer that may stop early: [None] is a Go panic
    or the end of the fuel, and the state is the one reached by then. *)
Definition M (A : Type) : Type := LiftState -> option A * LiftState.

#[export] Instance M_ret : MRet M := fun A a st => (Some a, st).
#[export] Instance M_bind : MBind M := fun A B k m st =>
  match m st with
  | (Some a, st') => k a st'
  | (None, st') => (None, st')
  end.

Definition stop {A : Type} : M A := fun st => (None, st).
Definition get : M LiftState := fun st => (Some st, st).
Definition modify (f : LiftState -> LiftState) : M unit := fun st => (Some tt, f st).
Definition orStop {A : Type} (o : option A) : M A :=
  match o with Some a => mret a | None => stop end.

Fixpoint forEach {A : Type} (l : list A) (body : A -> M unit) : M unit :=
  match l with
  | [] => mret tt
  | x :: l' => body x ;; forEach l' body
  end.

(** The five scratch sets of the function, by the name the code gives them. *)
Inductive SetName := Defblocks | Useblocks | APhi | ASigma | Work.

Definition getSet (n : SetName) (st : LiftState) : BlockSet :=
  match n with
  | Defblocks => defblocks st | Useblocks => useblocks st
  | APhi => Aphi st | ASigma => Asigma st | Work => W st
  end.

Definition putSet (n : SetName) (s : BlockSet) (st : LiftState) : LiftState :=
  match n with
  | Defblocks => mkLiftState s (useblocks st) (Aphi st) (Asigma st) (W st)
                   (newPhis st) (newSigmas st) (change st)
  | Useblocks => mkLiftState (defblocks st) s (Aphi st) (Asigma st) (W st)
                   (newPhis st) (newSigmas st) (change st)
  | APhi => mkLiftState (defblocks st) (useblocks st) s (Asigma st) (W st)
                   (newPhis st) (newSigmas st) (change st)
  | ASigma => mkLiftState (defblocks st) (useblocks st) (Aphi st) s (W st)
                   (newPhis st) (newSigmas st) (change st)
  | Work => mkLiftState (defblocks st) (useblocks st) (Aphi st) (Asigma st) s
                   (newPhis st) (newSigmas st) (change st)
  end.

Definition add (n : SetName) (b : nat) : M bool :=
  st ← get;
  r ← orStop (BlockSet_Add (getSet n st) b);
  modify (putSet n r.2) ;; mret r.1.

Definition setFrom (n n2 : SetName) : M unit :=
  modify (fun st => putSet n (BlockSet_Set (getSet n st) (getSet n2 st)) st).

Definition take_ (n : SetName) : M (option nat) :=
  st ← get;
  let r := BlockSet_Take (getSet n st) in
  modify (putSet n r.2) ;; mret r.1.

Definition setChange (c : bool) : M unit :=
  modify (fun st => mkLiftState (defblocks st) (useblocks st) (Aphi st) (Asigma st)
                      (W st) (newPhis st) (newSigmas st) c).

(** [newPhis[y.Index] = append(newPhis[y.Index], np)] *)
Definition appendPhi (y : nat) (np : newPhi) : M unit :=
  st ← get;
  nps ← orStop (newPhis st !! y);
  modify (fun st => mkLiftState (defblocks st) (useblocks st) (Aphi st) (Asigma st)
                      (W st) (<[y := nps ++ [np]]> (newPhis st)) (newSigmas st)
                      (change st)).

Definition appendSigma (y : nat) (ns : newSigma) : M unit :=
  st ← get;
  nss ← orStop (newSigmas st !! y);
  modify (fun st => mkLiftState (defblocks st) (useblocks st) (Aphi st) (Asigma st)
                      (W st) (newPhis st) (<[y := nss ++ [ns]]> (newSigmas st))
                      (change st)).

Definition is_Load (i : Instruction) : bool :=
  match i with Load _ => true | _ => false end.
Definition is_Store (i : Instruction) : bool :=
  match i with Store _ _ => true | _ => false end.

Section LiftAlloc.
Variable Dominates : nat -> nat -> bool.
Variable blocks : list BasicBlock.
(** [closure] is [nil] when the function has at most two blocks. *)
Variable closure : option Closure.closure.
Variables df rdf : list (list nat).

(** [for _, ref := range refs { if closure.has(from, ref.Block()) { live =
    true; break } }], over the referrers [keep] selects. *)
Fixpoint anyReachable (from : nat) (keep : Referrer -> bool) (c : Closure.closure)
    (refs : list Referrer) : option bool :=
  match refs with
  | [] => Some false
  | ref :: refs' =>
    if keep ref then
      h ← Closure.has Dominates c from (ref_block ref);
      if h : bool then Some true else anyReachable from keep c refs'
    else anyReachable from keep c refs'
  end.

Definition phiStep (alloc : AllocInfo) (y : nat) : M unit :=
  added ← add APhi y;
  if negb added then mret tt
  else if (length (a_referrers alloc) =? 0)%nat then mret tt
  else
    live ← match closure with
           | None => mret true
           | Some c =>
             orStop (anyReachable y (fun r => is_Load (ref_instr r)) c
                       (a_referrers alloc))
           end;
    if negb live then mret tt
    else
      yb ← orStop (blocks !! y);
      if (length (Preds yb) =? 0)%nat then mret tt
      else
        let phi := mkPhi (replicate (length (Preds yb)) None) (Some y) false in
        appendPhi y (mkNewPhi phi (a_cell alloc)) ;;
        forEach (Preds yb) (fun p => add Useblocks p ;; mret tt) ;;
        setChange true ;;
        d ← add Defblocks y;
        if d : bool then add Work y ;; mret tt else mret tt.

(** The sigmas of one block [y], one slot per successor. *)
Fixpoint sigmasFor (alloc : AllocInfo) (y : nat) (succs : list nat)
    : option (list (option SigmaNode) * bool) :=
  match succs with
  | [] => Some ([], false)
  | succ :: succs' =>
    live ← match closure with
           | None => Some (negb (length (a_referrers alloc) =? 0)%nat)
           | Some c => anyReachable succ (fun _ => true) c (a_referrers alloc)
           end;
    rest ← sigmasFor alloc y succs';
    Some ((if live : bool
           then Some (mkSigma y (Some (Cell (a_cell alloc))) (Some succ) false)
           else None) :: rest.1,
          live || rest.2)
  end.

Definition sigmaStep (alloc : AllocInfo) (y : nat) : M unit :=
  added ← add ASigma y;
  if negb added then mret tt
  else
    yb ← orStop (blocks !! y);
    r ← orStop (sigmasFor alloc y (Succs yb));
    if r.2 : bool then
      appendSigma y (mkNewSigma (a_cell alloc) r.1) ;;
      forEach (Succs yb) (fun s => add Defblocks s ;; mret tt) ;;
      setChange true ;;
      u ← add Useblocks y;
      if u : bool then add Work y ;; mret tt else mret tt
    else mret tt.

(** [for i := W.Take(); i != -1; i = W.Take() { ... }] over one frontier. *)
Fixpoint worklist (fuel : nat) (frontier : list (list nat)) (step : nat -> M unit)
    : M unit :=
  match fuel with
  | O => stop
  | S fuel' =>
    i ← take_ Work;
    match i with
    | None => mret tt
    | Some i =>
      _ ← orStop (blocks !! i);
      ys ← orStop (frontier !! i);
      forEach ys step ;; worklist fuel' frontier step
    end
  end.

(** [for change := true; change; { ... }] *)
Fixpoint placement (fuel : nat) (alloc : AllocInfo) : M unit :=
  match fuel with
  | O => stop
  | S fuel' =>
    setChange false ;;
    setFrom Work Defblocks ;;
    worklist fuel' df (phiStep alloc) ;;
    setFrom Work Useblocks ;;
    worklist fuel' rdf (sigmaStep alloc) ;;
    st ← get;
    if change st then placement fuel' alloc else mret tt
  end.

(** [fn.blockset(i)] hands out a cleared set of [len(fn.Blocks)] entries;
    its cursor is whatever the last use left. *)
Definition blockset (cursor : nat) : BlockSet :=
  mkBlockSet cursor (replicate (length blocks) false) 0.

Definition liftAlloc (fuel : nat) (cursors : SetName -> nat) (alloc : AllocInfo)
    : M unit :=
  modify (fun st => mkLiftState (blockset (cursors Defblocks))
                      (blockset (cursors Useblocks)) (blockset (cursors APhi))
                      (blockset (cursors ASigma)) (blockset (cursors Work))
                      (newPhis st) (newSigmas st) (change st)) ;;
  forEach (a_referrers alloc) (fun instr =>
    match ref_instr instr with
    | Store _ _ => add Defblocks (ref_block instr) ;; mret tt
    | Load _ =>
      add Useblocks (ref_block instr) ;;
      forEach (ref_users instr) (fun b => add Useblocks b ;; mret tt)
    | _ => mret tt
    end) ;;
  add Defblocks (a_block alloc) ;;
  placement fuel alloc.

(** [lift] makes [newPhis] and [newSigmas] with one empty entry per block and
    calls [liftAlloc] for every liftable Alloc in turn. *)
Definition initialState : LiftState :=
  mkLiftState (blockset 0) (blockset 0) (blockset 0) (blockset 0) (blockset 0)
    (replicate (length blocks) []) (replicate (length blocks) []) false.

Definition liftAllocs (fuel : nat) (cursors : SetName -> nat)
    (allocs : list AllocInfo) : option unit * LiftState :=
  forEach allocs (liftAlloc fuel cursors) initialState.

(** The part of [rename] that fills the phis of the successors of [u]
    (l. 1703-1733): [phi.Edges[i] = newval] with [i := v.predIndex(u)].
    [BasicBlock.predIndex] is defined outside lift.go, and the value written
    ([newval]: the sigma on the edge or the dominating name) is not a value
    of this model: both are parameters. Writing outside [Edges] is a Go
    panic. *)
Variable predIndex : nat -> nat -> nat.
Variable newval : nat -> nat -> newPhi -> Value.

Definition setEdge (i : nat) (v : Value) (np : newPhi) : option newPhi :=
  if decide (i < length (Edges (np_phi np))) then
    Some (mkNewPhi (mkPhi (<[i := Some v]> (Edges (np_phi np)))
                      (phiBlock (np_phi np)) (phiLive (np_phi np)))
            (np_alloc np))
  else None.

Definition renameEdges (u : nat) : M unit :=
  ub ← orStop (blocks !! u);
  forEach (imap (fun succi v => (succi, v)) (Succs ub)) (fun '(succi, v) =>
    st ← get;
    phis ← orStop (newPhis st !! v);
    if (length phis =? 0)%nat then mret tt
    else
      let i := predIndex v u in
      phis' ← orStop (mapM (fun np => setEdge i (newval u succi np) np) phis);
      modify (fun st => mkLiftState (defblocks st) (useblocks st) (Aphi st)
                          (Asigma st) (W st) (<[v := phis']> (newPhis st))
                          (newSigmas st) (change st))).
End LiftAlloc.

(** *** Every phi has one slot per predecessor *)

Definition phi_ok (blocks : list BasicBlock) (j : nat) (np : newPhi) : Prop :=
  phiBlock (np_phi np) = Some j
  /\ exists b, blocks !! j = Some b
       /\ 0 < length (Preds b)
       /\ length (Edges (np_phi np)) = length (Preds b).

Definition phis_ok (blocks : list BasicBlock) (st : LiftState) : Prop :=
  forall j l np, newPhis st !! j = Some l -> np ∈ l -> phi_ok blocks j np.

Definition preserves (P : LiftState -> Prop) {A : Type} (m : M A) : Prop :=
  forall st, P st -> P (m st).2.

(** *** The slots are filled in predecessor order *)

(** Every phi recorded satisfies [good], at its block. *)
Definition allPhis (good : nat -> newPhi -> Prop) (st : LiftState) : Prop :=
  forall j l np, newPhis st !! j = Some l -> np ∈ l -> good j np.

(** No slot of the phi has been filled yet. *)
Definition unfilled (np : newPhi) : Prop :=
  Forall (fun e => e = None) (Edges (np_phi np)).

(** The edges of the function are recorded on both sides: every successor
    [v] of a block [u] is a block of the function that has [u] among its
    predecessors, and [predIndex v u] is a position of [u] in [v.Preds]. *)
Definition edgesIndexed (blocks : list BasicBlock) (predIndex : nat -> nat -> nat)
    : bool :=
  forallb (fun u =>
    match blocks !! u with
    | Some ub =>
      forallb (fun v =>
        match blocks !! v with
        | Some vb => bool_decide (Preds vb !! predIndex v u = Some u)
        | None => false
        end) (Succs ub)
    | None => true
    end) (seq 0 (length blocks)).

(** [x], a value in slot [i] of a phi of block [v], is what the renaming of
    a block [u] computes for an edge from [u] to [v] and the Alloc of the
    phi, where [u] is the [i]-th predecessor of [v] and [i] the position
    that [predIndex] gives. *)
Definition fromPred (blocks : list BasicBlock) (predIndex : nat -> nat -> nat)
    (newval : nat -> nat -> newPhi -> Value) (v : nat) (np : newPhi) (i : nat)
    (x : Value) : Prop :=
  exists u ub vb succi np0,
    blocks !! u = Some ub /\ Succs ub !! succi = Some v
    /\ blocks !! v = Some vb /\ Preds vb !! i = Some u /\ predIndex v u = i
    /\ np_alloc np0 = np_alloc np /\ x = newval u succi np0.

(** The filled slots are in predecessor order. *)
Definition inOrder (blocks : list BasicBlock) (predIndex : nat -> nat -> nat)
    (newval : nat -> nat -> newPhi -> Value) (st : LiftState) : Prop :=
  allPhis (fun v np =>
             forall i x, Edges (np_phi np) !! i = Some (Some x) ->
                         fromPred blocks predIndex newval v np i x) st.

(** What the renaming does to a phi: a slot that is filled stays filled, and
    the phi stays the phi of its Alloc. *)
Definition grows (np np' : newPhi) : Prop :=
  np_alloc np' = np_alloc np
  /\ forall i x, Edges (np_phi np) !! i = Some (Some x) ->
                 exists x', Edges (np_phi np') !! i = Some (Some x').

(** The same for every phi of every block, none being added or dropped. *)
Definition growsAll (st st' : LiftState) : Prop :=
  forall j l', newPhis st' !! j = Some l' ->
               exists l, newPhis st !! j = Some l /\ Forall2 grows l l'.

(** Every phi of block [v] has the slot of the edge from [u] filled. *)
Definition filledFrom (predIndex : nat -> nat -> nat) (u v : nat) (st : LiftState)
    : Prop :=
  forall l np, newPhis st !! v = Some l -> np ∈ l ->
               exists x, Edges (np_phi np) !! predIndex v u = Some (Some x).

(** ** The driver (lift.go, [lift]) *)

(** [allocIndex] is [alloc.index] of every cell (absent: Go's zero value 0),
    [allocHeap] its [Heap] flag, [cellReferrers] its [Referrers()];
    [deferstackVar] is [fn.vars[fn.deferstack]] when that is an [*Alloc]. *)
Record Function := mkFunction {
  Blocks : list BasicBlock;
  Locals : list nat;
  allocIndex : gmap nat Z;
  allocHeap : nat -> bool;
  cellReferrers : nat -> list Instruction;
  deferstackVar : option nat
}.

Definition index_of (fn : Function) (cell : nat) : Z :=
  default 0%Z (allocIndex fn !! cell).

(** [deferstackPreamble]: the Alloc of [fn.deferstack] and the call stored
    into it. *)
Definition deferstackPreamble (fn : Function) : option (nat * nat) :=
  match deferstackVar fn with
  | Some alloc =>
    let fix find (refs : list Instruction) : option (nat * nat) :=
      match refs with
      | [] => None
      | Store (Cell a) (CallValue call) :: refs' =>
        if decide (a = alloc) then Some (alloc, call) else find refs'
      | _ :: refs' => find refs'
      end in
    find (cellReferrers fn alloc)
  | None => None
  end.

(** What the numbering loop of [lift] (lines 224-275) carries. *)
Record ScanState := mkScan {
  sc_index : gmap nat Z;
  sc_numAllocs : Z;
  sc_usesDefer : bool
}.

Section Lift.
(** [liftable] (lines 898-1171) decides per Alloc; its prescriptions are
    part of [Edits] below. *)
Variable liftable : nat -> bool.
(** [BasicBlock.succIndex] is defined outside lift.go. *)
Variable succIndex : nat -> nat -> Z.

Definition scanInstr (eliminateDeferStack : bool)
    (acc : ScanState * nat * list (option Instruction))
    (instr : option Instruction) : ScanState * nat * list (option Instruction) :=
  let '(sc, rundefers, done) := acc in
  match instr with
  | Some (Alloc cell) =>
    if negb (liftable cell) then
      (mkScan (<[cell := (-1)%Z]> (sc_index sc)) (sc_numAllocs sc) (sc_usesDefer sc),
       rundefers, done ++ [instr])
    else
      (mkScan (<[cell := sc_numAllocs sc]> (sc_index sc)) (sc_numAllocs sc + 1)%Z
         (sc_usesDefer sc),
       rundefers, done ++ [instr])
  | Some (Defer ds) =>
    (mkScan (sc_index sc) (sc_numAllocs sc) true, rundefers,
     done ++ [if eliminateDeferStack then Some (Defer None) else instr])
  | Some RunDefers => (sc, S rundefers, done ++ [instr])
  | _ => (sc, rundefers, done ++ [instr])
  end.

(** One block of the numbering loop: [b.gaps = 0; b.rundefers = 0] and the
    switch over its instructions. *)
Definition scanBlock (eliminateDeferStack : bool)
    (acc : ScanState * list BasicBlock) (b : BasicBlock)
    : ScanState * list BasicBlock :=
  let '(sc, done) := acc in
  let '(sc', rd, instrs) :=
    foldl (scanInstr eliminateDeferStack) (sc, 0, []) (Instrs b) in
  (sc', done ++ [mkBlock (Index b) (Preds b) (Succs b) instrs (capacity b) 0 rd]).

(** What the lifting proper does to the instruction vectors once some Alloc
    is liftable (lines 277-337). It is not embedded instruction by
    instruction; every write it makes to a [b.Instrs] is one of:
    - [replace(instr_, rename.from, rename.to)] (l. 282): operands of
      [Instrs[i]] rewritten in place, the instruction stays what it is;
    - [b.Instrs = newInstrs] (l. 290-297): the split prescription puts new
      Alloc, Load and Store instructions before [Instrs[i]];
    - [u.Instrs[i] = nil; u.gaps++] in [rename] (l. 1622, 1641, 1666, 1686)
      for an Alloc, Store, Load or DebugRef, and in l. 331 for the
      [ssa:deferstack()] call.
    An edit of another shape is not one the code makes and is ignored. *)
Inductive Edit :=
| Replace (b i : nat) (instr : Instruction)
| Insert (b i : nat) (new : list Instruction) (cap : nat)
| Kill (b i : nat).

Definition sameKind (old new : Instruction) : bool :=
  match old, new with
  | Alloc _, Alloc _ | Store _ _, Store _ _ | Load _, Load _
  | Phi _, Phi _ | Sigma _, Sigma _ | DebugRef _ _, DebugRef _ _
  | Defer _, Defer _ | RunDefers, RunDefers | Call _ _ _, Call _ _ _ => true
  | Other t _, Other t' _ => (t =? t')%nat
  | _, _ => false
  end.

Definition insertable (i : Instruction) : bool :=
  match i with Alloc _ | Load _ | Store _ _ => true | _ => false end.

Definition killable (i : Instruction) : bool :=
  match i with
  | Alloc _ | Store _ _ | Load _ | DebugRef _ _ | Call _ _ _ => true
  | _ => false
  end.

Definition editBlock (e : Edit) (b : BasicBlock) : BasicBlock :=
  match e with
  | Replace _ i instr =>
    match Instrs b !! i with
    | Some (Some old) =>
      if sameKind old instr
      then mkBlock (Index b) (Preds b) (Succs b) (<[i := Some instr]> (Instrs b))
             (capacity b) (gaps b) (rundefers b)
      else b
    | _ => b
    end
  | Insert _ i new cap =>
    if forallb insertable new && bool_decide (i < length (Instrs b)) then
      let instrs := take i (Instrs b) ++ map Some new ++ drop i (Instrs b) in
      mkBlock (Index b) (Preds b) (Succs b) instrs (Nat.max cap (length instrs))
        (gaps b) (rundefers b)
    else b
  | Kill _ i =>
    match Instrs b !! i with
    | Some (Some old) =>
      if killable old
      then mkBlock (Index b) (Preds b) (Succs b) (<[i := None]> (Instrs b))
             (capacity b) (S (gaps b)) (rundefers b)
      else b
    | _ => b
    end
  end.

Definition editTarget (e : Edit) : nat :=
  match e with Replace b _ _ | Insert b _ _ _ | Kill b _ => b end.

Definition applyEdit (blocks : list BasicBlock) (e : Edit) : list BasicBlock :=
  match blocks !! editTarget e with
  | Some b => <[editTarget e := editBlock e b]> blocks
  | None => blocks
  end.

(** The phis and sigmas left when [markLiveNodes] returns. *)
Record Lifted := mkLifted {
  l_edits : list Edit;
  l_newPhis : list (list newPhi);
  l_newSigmas : list (list newSigma)
}.

(** Lines 341-374: the live sigmas of the incoming edges, then the live
    phis. An index outside [newSigmas] or [sigmas] is a Go panic. *)
Fixpoint liveSigmas (idx : Z) (nss : list newSigma) : option (list Instruction) :=
  match nss with
  | [] => Some []
  | ns :: nss' =>
    if decide (0 <= idx)%Z then
      sigma ← ns_sigmas ns !! Z.to_nat idx;
      rest ← liveSigmas idx nss';
      Some (match sigma with
            | Some sg => if sigmaLive sg then Sigma sg :: rest else rest
            | None => rest
            end)
    else None
  end.

Fixpoint sigmaHead (newSigmas : list (list newSigma)) (b : nat) (preds : list nat)
    : option (list Instruction) :=
  match preds with
  | [] => Some []
  | pred :: preds' =>
    nss ← newSigmas !! pred;
    here ← liveSigmas (succIndex pred b) nss;
    rest ← sigmaHead newSigmas b preds';
    Some (here ++ rest)
  end.

Definition phiHead (nps : list newPhi) : list Instruction :=
  map (fun np => Phi (np_phi np)) (filter (fun np => phiLive (np_phi np) = true) nps).

Definition headOf (l : option Lifted) (b : BasicBlock) : option (list Instruction) :=
  match l with
  | None => Some []
  | Some l =>
    nps ← l_newPhis l !! Index b;
    sigmas ← sigmaHead (l_newSigmas l) (Index b) (Preds b);
    Some (sigmas ++ phiHead nps)
  end.

(** The in-place loop (l. 401-413): [n] counts the slots still to read,
    [i] is the next slot to write. *)
Fixpoint moveDown (usesDefer : bool) (n : nat) (dst : list (option Instruction))
    (i : Z) : list (option Instruction) * Z :=
  match n with
  | O => (dst, i)
  | S n' =>
    let instr := default None (dst !! n') in
    if is_nil instr then moveDown usesDefer n' dst i
    else if negb usesDefer && is_RunDefers instr then moveDown usesDefer n' dst i
    else moveDown usesDefer n' (<[Z.to_nat i := instr]> dst) (i - 1)%Z
  end.

(** The copying loop (l. 426-437); writing past [dst] is a Go panic. *)
Fixpoint fillUp (usesDefer : bool) (instrs dst : list (option Instruction)) (j : nat)
    : option (list (option Instruction)) :=
  match instrs with
  | [] => Some dst
  | instr :: instrs' =>
    if is_nil instr then fillUp usesDefer instrs' dst j
    else if negb usesDefer && is_RunDefers instr then fillUp usesDefer instrs' dst j
    else if decide (j < length dst)
         then fillUp usesDefer instrs' (<[j := instr]> dst) (S j)
         else None
  end.

(** Lines 376-439 for one block. *)
Definition compact (usesDefer : bool) (head : list Instruction) (b : BasicBlock)
    : option BasicBlock :=
  let rundefersToKill := if usesDefer then 0 else rundefers b in
  let j := length head in
  if (j + gaps b + rundefersToKill =? 0)%nat then Some b
  else
    let ns := (Z.of_nat (length (Instrs b)) + Z.of_nat j
               - Z.of_nat (gaps b) - Z.of_nat rundefersToKill)%Z in
    if decide (ns <= Z.of_nat (capacity b))%Z then
      let dst := Instrs b ++ replicate (capacity b - length (Instrs b)) None in
      let '(dst, i) :=
        moveDown usesDefer (length (Instrs b)) dst (Z.of_nat (length dst) - 1) in
      let off := (i + 1 - Z.of_nat j)%Z in
      if decide (0 <= off <= Z.of_nat (length dst))%Z then
        let dst := drop (Z.to_nat off) dst in
        Some (mkBlock (Index b) (Preds b) (Succs b) (copy dst (map Some head))
                (length dst) (gaps b) (rundefers b))
      else None
    else if decide (0 <= ns)%Z then
      let dst := copy (replicate (Z.to_nat ns) None) (map Some head) in
      instrs ← fillUp usesDefer (Instrs b) dst j;
      Some (mkBlock (Index b) (Preds b) (Succs b) instrs (Z.to_nat ns)
              (gaps b) (rundefers b))
    else None.

Fixpoint compactAll (usesDefer : bool) (l : option Lifted) (blocks : list BasicBlock)
    : option (list BasicBlock) :=
  match blocks with
  | [] => Some []
  | b :: blocks' =>
    head ← headOf l b;
    b' ← compact usesDefer head b;
    rest ← compactAll usesDefer l blocks';
    Some (b' :: rest)
  end.

(** [lift]; [middle] is what the lifting proper does when some Alloc is
    liftable, and is not consulted otherwise. [None] is a Go panic. *)
Definition lift (middle : Lifted) (fn : Function) : option (Function * bool) :=
  let pre := deferstackPreamble fn in
  let eliminateDeferStack :=
    match pre with
    | Some (alloc, _) => negb (allocHeap fn alloc)
    | None => false
    end in
  let '(sc, blocks) :=
    foldl (scanBlock eliminateDeferStack)
      (mkScan (allocIndex fn) 0 false, []) (Blocks fn) in
  let lifted := if (0 <? sc_numAllocs sc)%Z then Some middle else None in
  let blocks :=
    match lifted with
    | Some l => foldl applyEdit blocks (l_edits l)
    | None => blocks
    end in
  blocks ← compactAll (sc_usesDefer sc) lifted blocks;
  let index cell := default 0%Z (sc_index sc !! cell) in
  let locals := filter (fun l => (index l < 0)%Z) (Locals fn) in
  Some (mkFunction blocks locals (sc_index sc) (allocHeap fn) (cellReferrers fn)
          (deferstackVar fn),
        (0 <? sc_numAllocs sc)%Z).
End Lift.

(** *** What the compaction leaves in a block *)

(** The instructions both loops of the compaction keep, in order. *)
Fixpoint kept (usesDefer : bool) (instrs : list (option Instruction))
    : list (option Instruction) :=
  match instrs with
  | [] => []
  | instr :: instrs' =>
    if is_nil instr then kept usesDefer instrs'
    else if negb usesDefer && is_RunDefers instr then kept usesDefer instrs'
    else instr :: kept usesDefer instrs'
  end.

(** *** Counting instructions of one kind *)

Fixpoint countIf (p : option Instruction -> bool) (instrs : list (option Instruction))
    : nat :=
  match instrs with
  | [] => 0
  | instr :: instrs' => (if p instr then 1 else 0) + countIf p instrs'
  end.

Definition countRD : list (option Instruction) -> nat := countIf is_RunDefers.
Definition countDefer : list (option Instruction) -> nat := countIf is_Defer.

Definition usesDeferOf (blocks : list BasicBlock) : bool :=
  existsb (fun b => existsb is_Defer (Instrs b)) blocks.

Definition noAllocs (blocks : list BasicBlock) : bool :=
  forallb (fun b => forallb (fun i => negb (is_Alloc i)) (Instrs b)) blocks.

Definition noRunDefers (blocks : list BasicBlock) : bool :=
  forallb (fun b => forallb (fun i => negb (is_RunDefers i)) (Instrs b)) blocks.

(** Every Local, and the Alloc of [fn.deferstack], is an Alloc instruction
    of the function. *)
Definition allocated (fn : Function) (cell : nat) : bool :=
  existsb (fun b => existsb (fun i => match i with
                                      | Some (Alloc c) => (c =? cell)%nat
                                      | _ => false
                                      end) (Instrs b)) (Blocks fn).

Definition cells_allocated (fn : Function) : bool :=
  forallb (allocated fn) (Locals fn)
  && match deferstackVar fn with Some a => allocated fn a | None => true end.

(** [eliminateDeferStack] of [lift] (l. 209-210). *)
Definition eliminatesDeferStack (fn : Function) : bool :=
  match deferstackPreamble fn with
  | Some (alloc, _) => negb (allocHeap fn alloc)
  | None => false
  end.

(** Two blocks with the same code: everything but the scratch counters
    [gaps] and [rundefers]. *)
Definition sameCode (b b' : BasicBlock) : Prop :=
  Index b' = Index b /\ Preds b' = Preds b /\ Succs b' = Succs b
  /\ Instrs b' = Instrs b /\ capacity b' = capacity b.

Definition clearDefer (e : bool) (instr : option Instruction) : option Instruction :=
  match instr with
  | Some (Defer _) => if e then Some (Defer None) else instr
  | _ => instr
  end.

(** A block as the numbering loop leaves it. *)
Definition scanned (e : bool) (b : BasicBlock) : BasicBlock :=
  mkBlock (Index b) (Preds b) (Succs b) (map (clearDefer e) (Instrs b))
    (capacity b) 0 (countRD (Instrs b)).

(** A kind of instruction the lifting proper neither makes nor removes. *)
Record tracked (p : option Instruction -> bool) : Prop := mkTracked {
  tracked_nil : p None = false;
  tracked_clear : forall e x, p (clearDefer e x) = p x;
  tracked_same : forall old new, sameKind old new = true -> p (Some new) = p (Some old);
  tracked_insert : forall i, insertable i = true -> p (Some i) = false;
  tracked_kill : forall i, killable i = true -> p (Some i) = false;
  tracked_phi : forall phi, p (Some (Phi phi)) = false;
  tracked_sigma : forall sg, p (Some (Sigma sg)) = false
}.

Definition counted (b : BasicBlock) : Prop := rundefers b = countRD (Instrs b).

(** Block by block, [bs'] has the shape of [bs] and as many [p]. *)
Definition sameCount (p : option Instruction -> bool) (bs bs' : list BasicBlock) : Prop :=
  Forall2 (fun b b' => countIf p (Instrs b') = countIf p (Instrs b)
                       /\ Index b' = Index b /\ Preds b' = Preds b) bs bs'.

(** *** Sample functions *)

(** A function with one liftable cell and a RunDefers but no Defer, and what
    the lifting proper does to it: the Alloc, the Store and the Load are
    turned into tombstones. *)
Definition oneCell : Function :=
  mkFunction
    [mkBlock 0 [] []
       [Some (Alloc 0); Some (Store (Cell 0) (Const 42)); Some (Load (Cell 0));
        Some RunDefers; Some (Other 0 [Reg 2])] 5 0 0]
    [0] ∅ (fun _ => false) (fun _ => []) None.

Definition oneCellLifted : Lifted :=
  mkLifted [Kill 0 0; Kill 0 1; Kill 0 2] [[]] [[]].

(** A function of one block, [rundefers; return], without Alloc or Defer. *)
Definition justRunDefers : Function :=
  mkFunction [mkBlock 0 [] [] [Some RunDefers; Some (Other 0 [])] 2 0 0]
    [] ∅ (fun _ => false) (fun _ => []) None.

(** The same with a Defer before the RunDefers. *)
Definition deferAndRun : Function :=
  mkFunction
    [mkBlock 0 [] [] [Some (Defer None); Some RunDefers; Some (Other 0 [])] 3 0 0]
    [] ∅ (fun _ => false) (fun _ => []) None.

(** [defer; rundefers; return] and two Locals whose Alloc is in no block:
    cell 3 has index -1, cell 4 has never been numbered (index 0). *)
Definition strayLocals : Function :=
  mkFunction
    [mkBlock 0 [] [] [Some (Defer None); Some RunDefers; Some (Other 0 [])] 3 0 0]
    [3; 4] {[3 := (-1)%Z]} (fun _ => false) (fun _ => []) None.

(** The frontiers of [threeBlocks], and an Alloc of block 0 with a Store in
    block 2 and a Load in block 1. *)
Definition threeFrontiers : list (list nat) := [[]; []; [2]].
Definition threePostFrontiers : list (list nat) := [[]; [0]; [0; 2]].
Definition storedAndLoaded : AllocInfo :=
  mkAllocInfo 0 0 [mkReferrer (Store (Cell 0) (Const 1)) 2 [];
                   mkReferrer (Load (Cell 0)) 1 [1]].

(** The positions of the predecessors in [threeBlocks]: block 2 has the
    predecessors 0 and 2, in this order. *)
Definition threePredIndex (v u : nat) : nat :=
  if ((v =? 2) && (u =? 2))%nat then 1 else 0.

(** ** What the properties of the sets, the driver and the placement speak of *)

(** What the operations of a [BlockSet] keep: [count] is the number of
    members and the cursor [idx] is inside [values] (or at its end). *)
Definition BlockSet_wf (s : BlockSet) : Prop :=
  count s = countTrue (values s) /\ idx s <= length (values s).

(** The cells of the Alloc instructions of the function, in the order the
    numbering loop meets them. *)
Definition allocsIn (instrs : list (option Instruction)) : list nat :=
  omap (fun i => match i with Some (Alloc c) => Some c | _ => None end) instrs.

Definition allocsOf (blocks : list BasicBlock) : list nat :=
  concat (map (fun b => allocsIn (Instrs b)) blocks).

(* def to go into IR *)
(** What the numbering loop does to [alloc.index] and [numAllocs] at one
    Alloc (l. 231-255). *)
Definition number (liftable : nat -> bool) (acc : gmap nat Z * Z) (cell : nat)
    : gmap nat Z * Z :=
  if liftable cell then (<[cell := acc.2]> acc.1, (acc.2 + 1)%Z)
  else (<[cell := (-1)%Z]> acc.1, acc.2).

(** What [liftAlloc] records for the sigmas of one Alloc at block [y]: one slot
    per successor of [y], at least one of them filled, and the sigma in slot
    [i] goes from [y] to the [i]-th successor and reads the Alloc. *)
Definition sigma_ok (blocks : list BasicBlock) (y : nat) (ns : newSigma) : Prop :=
  exists yb, blocks !! y = Some yb
    /\ length (ns_sigmas ns) = length (Succs yb)
    /\ (exists i sg, ns_sigmas ns !! i = Some (Some sg))
    /\ forall i sg, ns_sigmas ns !! i = Some (Some sg) ->
         From sg = y /\ X sg = Some (Cell (ns_alloc ns))
         /\ sigmaBlock sg = Succs yb !! i /\ sigmaLive sg = false.

Definition sigmas_ok (blocks : list BasicBlock) (st : LiftState) : Prop :=
  forall j l ns, newSigmas st !! j = Some l -> ns ∈ l -> sigma_ok blocks j ns.

(** An invariant of the two tables that the scratch sets and the [change]
    flag have no part in. *)
Definition tablesOnly (P : LiftState -> Prop) : Prop :=
  forall st st', newPhis st' = newPhis st -> newSigmas st' = newSigmas st ->
    P st -> P st'.

(** The entries of the two tables belong to the cells [cells], and no block
    has two entries of one cell. *)
Definition onePerAlloc (cells : list nat) (st : LiftState) : Prop :=
  (forall j l, newPhis st !! j = Some l ->
     NoDup (map np_alloc l) /\ forall c, c ∈ map np_alloc l -> c ∈ cells)
  /\ (forall j l, newSigmas st !! j = Some l ->
        NoDup (map ns_alloc l) /\ forall c, c ∈ map ns_alloc l -> c ∈ cells).

(** [onePerAlloc] while the Alloc of cell [c] is being lifted: a block with
    an entry of [c] is in [Aphi], respectively [Asigma]. *)
Definition lifting (cells : list nat) (c : nat) (st : LiftState) : Prop :=
  (forall j l, newPhis st !! j = Some l ->
     NoDup (map np_alloc l)
     /\ (forall x, x ∈ map np_alloc l -> x ∈ c :: cells)
     /\ (c ∈ map np_alloc l -> BlockSet_Has (Aphi st) j = true))
  /\ (forall j l, newSigmas st !! j = Some l ->
        NoDup (map ns_alloc l)
        /\ (forall x, x ∈ map ns_alloc l -> x ∈ c :: cells)
        /\ (c ∈ map ns_alloc l -> BlockSet_Has (Asigma st) j = true)).

(** [m] takes a state with [P] to a state with [Q], whether it stops or not. *)
Definition hoare (P : LiftState -> Prop) {A : Type} (m : M A)
    (Q : LiftState -> Prop) : Prop :=
  forall st, P st -> Q (m st).2.

(** The same with a postcondition on the value [m] returns; [Q] is for the
    state at which it stops. *)
Definition triple (P : LiftState -> Prop) {A : Type} (m : M A)
    (R : A -> LiftState -> Prop) (Q : LiftState -> Prop) : Prop :=
  forall st, P st -> match m st with
                     | (Some a, st') => R a st'
                     | (None, st') => Q st'
                     end.

(** Block [x] is a member of the set. *)
Definition mem (s : BlockSet) (x : nat) : Prop := values s !! x = Some true.

(** The number of members of the set, counted over [values]. *)
Definition members (s : BlockSet) : Z := countTrue (values s).

(** Every scratch set and both tables have one entry per block. *)
Definition sized (n : nat) (st : LiftState) : Prop :=
  (forall name, length (values (getSet name st)) = n)
  /\ length (newPhis st) = n /\ length (newSigmas st) = n.

Definition inBlocks (n : nat) (l : list nat) : Prop := Forall (fun x => x < n) l.

(** What [liftAlloc] takes for granted of its input: the frontiers have one
    entry per block, every block named by a frontier, an edge, the Alloc or
    one of its referrers is a block of the function, and [closure.has]
    answers on the blocks of the function. *)
Definition wellFormed (Dominates : nat -> nat -> bool) (blocks : list BasicBlock)
    (closure : option Closure.closure) (df rdf : list (list nat))
    (alloc : AllocInfo) : Prop :=
  let n := length blocks in
  length df = n /\ length rdf = n
  /\ (forall i ys, df !! i = Some ys -> inBlocks n ys)
  /\ (forall i ys, rdf !! i = Some ys -> inBlocks n ys)
  /\ (forall i b, blocks !! i = Some b -> inBlocks n (Preds b) /\ inBlocks n (Succs b))
  /\ a_block alloc < n
  /\ Forall (fun r => ref_block r < n /\ inBlocks n (ref_users r)) (a_referrers alloc)
  /\ (forall c s v, closure = Some c -> s < n -> v < n ->
        is_Some (Closure.has Dominates c s v)).

(** [y] is in the frontier of a member of [s]. *)
Definition inFrontier (frontier : list (list nat)) (s : BlockSet) (y : nat) : Prop :=
  exists x ys, mem s x /\ frontier !! x = Some ys /\ y ∈ ys.

(** The frontier of [x] is inside the set [a]. *)
Definition frontierIn (frontier : list (list nat)) (a : BlockSet) (x : nat) : Prop :=
  forall ys y, frontier !! x = Some ys -> y ∈ ys -> mem a y.

(** The blocks of the function that are not in the set. *)
Definition free (n : nat) (s : BlockSet) : Z := (Z.of_nat n - members s)%Z.

(** The blocks left for [Aphi] and [Asigma], and one more while [change] is
    set: what bounds the rounds of the outer loop. *)
Definition psi (n : nat) (st : LiftState) : Z :=
  (free n (Aphi st) + free n (Asigma st) + (if change st then 1 else 0))%Z.

(** Whether the Alloc is live at block [y], as the phi step finds out. *)
Definition liveAt (Dominates : nat -> nat -> bool) (closure : option Closure.closure)
    (alloc : AllocInfo) (y : nat) : option bool :=
  match closure with
  | None => Some true
  | Some c => anyReachable Dominates y (fun r => is_Load (ref_instr r)) c
                (a_referrers alloc)
  end.

(** The conditions under which a block that enters [Aphi] gets a phi: the
    Alloc has referrers and is live at the block, and the block has
    predecessors. *)
Definition wantsPhi (Dominates : nat -> nat -> bool) (blocks : list BasicBlock)
    (closure : option Closure.closure) (alloc : AllocInfo) (y : nat) : bool :=
  negb (length (a_referrers alloc) =? 0)
  && bool_decide (liveAt Dominates closure alloc y = Some true)
  && match blocks !! y with
     | Some yb => negb (length (Preds yb) =? 0)
     | None => false
     end.

(** The condition under which a block that enters [Asigma] gets sigmas: the
    Alloc is live at one of its successors. *)
Definition wantsSigma (Dominates : nat -> nat -> bool) (blocks : list BasicBlock)
    (closure : option Closure.closure) (alloc : AllocInfo) (y : nat) : bool :=
  match blocks !! y with
  | Some yb =>
    match sigmasFor Dominates closure alloc y (Succs yb) with
    | Some r => r.2
    | None => false
    end
  | None => false
  end.

(** The tables hold a phi, or sigmas, of the cell at block [y]. *)
Definition hasPhi (cell : nat) (st : LiftState) (y : nat) : Prop :=
  exists l, newPhis st !! y = Some l /\ cell ∈ map np_alloc l.

Definition hasSigma (cell : nat) (st : LiftState) (y : nat) : Prop :=
  exists l, newSigmas st !! y = Some l /\ cell ∈ map ns_alloc l.

(** The entries of the Alloc in the tables are at the blocks that had one
    before ([baseP], [baseS]) and at the blocks of [Aphi] and [Asigma] that
    want one. *)
Definition tablesMatch (Dominates : nat -> nat -> bool) (blocks : list BasicBlock)
    (closure : option Closure.closure) (alloc : AllocInfo)
    (baseP baseS : nat -> Prop) (st : LiftState) : Prop :=
  (forall y, hasPhi (a_cell alloc) st y
             <-> baseP y
                 \/ mem (Aphi st) y /\ wantsPhi Dominates blocks closure alloc y = true)
  /\ (forall y, hasSigma (a_cell alloc) st y
                <-> baseS y
                    \/ mem (Asigma st) y
                       /\ wantsSigma Dominates blocks closure alloc y = true).

(** How a step at block [y] changes a table: a block that is new to the set
    and wants an entry gets one of the cell, at the end; nothing else
    changes. *)
Definition appended {X : Type} (key : X -> nat) (cell y : nat) (old wants : bool)
    (t t' : list (list X)) : Prop :=
  if negb old && wants
  then exists l e, t !! y = Some l /\ key e = cell /\ t' = <[y := l ++ [e]]> t
  else t' = t.

(** The blocks [liftAlloc] starts [defblocks] and [useblocks] with: the block
    of the Alloc and of every Store to it; the block of every Load of it and
    of every instruction that uses such a Load. *)
Definition seedsDef (alloc : AllocInfo) (x : nat) : Prop :=
  x = a_block alloc
  \/ exists r, r ∈ a_referrers alloc /\ is_Store (ref_instr r) = true /\ ref_block r = x.

Definition seedsUse (alloc : AllocInfo) (x : nat) : Prop :=
  exists r, r ∈ a_referrers alloc /\ is_Load (ref_instr r) = true
            /\ (ref_block r = x \/ x ∈ ref_users r).

(** How a step at block [y] changes [defblocks] and [useblocks]: when the
    block is new and gets an entry, it joins the one set ([own]) and its
    neighbours ([edges]) join the other ([far]); otherwise nothing changes. *)
Definition spread (blocks : list BasicBlock) (edges : BasicBlock -> list nat)
    (y : nat) (old wants : bool) (own own' far far' : BlockSet) : Prop :=
  if negb old && wants
  then (forall x, mem own' x <-> mem own x \/ x = y)
       /\ exists yb, blocks !! y = Some yb
                     /\ forall x, mem far' x <-> mem far x \/ x ∈ edges yb
  else values own' = values own /\ values far' = values far.

(** Four sets of blocks that are closed under the rules of the placement:
    they hold the seeds, the frontiers of [D] and [U] are in [P] and [S], a
    block of [P] that gets a phi is in [D] and its predecessors are in [U],
    a block of [S] that gets sigmas is in [U] and its successors are in
    [D]. *)
Definition closedSets (Dominates : nat -> nat -> bool) (blocks : list BasicBlock)
    (closure : option Closure.closure) (df rdf : list (list nat))
    (alloc : AllocInfo) (D U P S : nat -> Prop) : Prop :=
  (forall x, seedsDef alloc x -> D x)
  /\ (forall x, seedsUse alloc x -> U x)
  /\ (forall x ys y, D x -> df !! x = Some ys -> y ∈ ys -> P y)
  /\ (forall x ys y, U x -> rdf !! x = Some ys -> y ∈ ys -> S y)
  /\ (forall y yb, P y -> wantsPhi Dominates blocks closure alloc y = true ->
        blocks !! y = Some yb -> D y /\ forall x, x ∈ Preds yb -> U x)
  /\ (forall y yb, S y -> wantsSigma Dominates blocks closure alloc y = true ->
        blocks !! y = Some yb -> U y /\ forall x, x ∈ Succs yb -> D x).

(** The sets of the state obey the last two rules and are inside every
    closed family of sets. *)
Definition minimal (Dominates : nat -> nat -> bool) (blocks : list BasicBlock)
    (closure : option Closure.closure) (df rdf : list (list nat))
    (alloc : AllocInfo) (st : LiftState) : Prop :=
  (forall y yb, mem (Aphi st) y ->
     wantsPhi Dominates blocks closure alloc y = true -> blocks !! y = Some yb ->
     mem (defblocks st) y /\ forall x, x ∈ Preds yb -> mem (useblocks st) x)
  /\ (forall y yb, mem (Asigma st) y ->
        wantsSigma Dominates blocks closure alloc y = true -> blocks !! y = Some yb ->
        mem (useblocks st) y /\ forall x, x ∈ Succs yb -> mem (defblocks st) x)
  /\ (forall D U P S, closedSets Dominates blocks closure df rdf alloc D U P S ->
        (forall x, mem (defblocks st) x -> D x)
        /\ (forall x, mem (useblocks st) x -> U x)
        /\ (forall x, mem (Aphi st) x -> P x)
        /\ (forall x, mem (Asigma st) x -> S x)).

(** What holds all through the placement of one Alloc: the sizes, the blocks
    that [defblocks] and [useblocks] started with, the bound of the round,
    that [Aphi] and [Asigma] hold frontier blocks only, and the tables. *)
Definition placing (Dominates : nat -> nat -> bool) (blocks : list BasicBlock)
    (closure : option Closure.closure) (alloc : AllocInfo)
    (df rdf : list (list nat)) (seedD seedU baseP baseS : nat -> Prop)
    (p0 : Z) (st : LiftState) : Prop :=
  let n := length blocks in
  sized n st
  /\ (forall x, seedD x -> mem (defblocks st) x)
  /\ (forall x, seedU x -> mem (useblocks st) x)
  /\ (psi n st <= p0)%Z
  /\ (forall y, mem (Aphi st) y -> inFrontier df (defblocks st) y)
  /\ (forall y, mem (Asigma st) y -> inFrontier rdf (useblocks st) y)
  /\ tablesMatch Dominates blocks closure alloc baseP baseS st
  /\ minimal Dominates blocks closure df rdf alloc st.

(** The invariant of the phi worklist, and its form while the frontier of
    block [i] is gone through. *)
Definition phiInv (df : list (list nat)) (st : LiftState) : Prop :=
  (forall x, mem (W st) x -> mem (defblocks st) x)
  /\ (forall x, mem (defblocks st) x -> mem (W st) x \/ frontierIn df (Aphi st) x).

Definition phiMid (df : list (list nat)) (i : nat) (done_ : list nat)
    (st : LiftState) : Prop :=
  (forall x, mem (W st) x -> mem (defblocks st) x)
  /\ mem (defblocks st) i
  /\ (forall x, mem (defblocks st) x -> mem (W st) x \/ x = i \/ frontierIn df (Aphi st) x)
  /\ (forall y, y ∈ done_ -> mem (Aphi st) y).

Definition phiMu (n : nat) (st : LiftState) : Z :=
  (2 * free n (defblocks st) + members (W st))%Z.

(** The same for the sigma worklist, where a change of [defblocks] sets
    [change]. *)
Definition sigmaInv (df rdf : list (list nat)) (st : LiftState) : Prop :=
  (forall x, mem (W st) x -> mem (useblocks st) x)
  /\ (forall x, mem (useblocks st) x -> mem (W st) x \/ frontierIn rdf (Asigma st) x)
  /\ (change st = true \/ forall x, mem (defblocks st) x -> frontierIn df (Aphi st) x).

Definition sigmaMid (df rdf : list (list nat)) (i : nat) (done_ : list nat)
    (st : LiftState) : Prop :=
  (forall x, mem (W st) x -> mem (useblocks st) x)
  /\ mem (useblocks st) i
  /\ (forall x, mem (useblocks st) x ->
        mem (W st) x \/ x = i \/ frontierIn rdf (Asigma st) x)
  /\ (forall y, y ∈ done_ -> mem (Asigma st) y)
  /\ (change st = true \/ forall x, mem (defblocks st) x -> frontierIn df (Aphi st) x).

Definition sigmaMu (n : nat) (st : LiftState) : Z :=
  (2 * free n (useblocks st) + members (W st))%Z.

(** What [liftAlloc] leaves when it returns. *)
Definition placed (Dominates : nat -> nat -> bool) (blocks : list BasicBlock)
    (closure : option Closure.closure) (alloc : AllocInfo)
    (df rdf : list (list nat)) (seedD seedU baseP baseS : nat -> Prop)
    (st : LiftState) : Prop :=
  sized (length blocks) st
  /\ (forall x, seedD x -> mem (defblocks st) x)
  /\ (forall x, seedU x -> mem (useblocks st) x)
  /\ (forall y, mem (Aphi st) y <-> inFrontier df (defblocks st) y)
  /\ (forall y, mem (Asigma st) y <-> inFrontier rdf (useblocks st) y)
  /\ change st = false
  /\ (forall k, ~ mem (W st) k)
  /\ tablesMatch Dominates blocks closure alloc baseP baseS st
  /\ minimal Dominates blocks closure df rdf alloc st.

End IR.

(** * The pattern matcher (pattern/match.go) *)

Module Pattern.

#[local] Set Warnings "-register-all".

(** ** What the matcher is given: syntax trees and type information *)

(** Named types, as [go/types] hands them out. A [TypeName] is identified by
    its qualified name; [tn_pkgLevel] is [obj.Parent() == obj.Pkg().Scope()]. *)
Record TypeName := mkTypeName { tn_name : string; tn_pkgLevel : bool }.

Inductive GoType :=
| Basic (name : string)
| Named (obj : TypeName)
| TypeParam (obj : TypeName)
| Alias (obj : TypeName) (rhs : GoType)
| OtherType (str : string).

Inductive TypesObject :=
| Func (fullName : string)
| BuiltinObject (name : string)
| TypeNameObject (obj : TypeName)
| Const (pkg : option string) (pkgLevel : bool) (name : string)
| Var (pkg : option string) (pkgLevel : bool) (name : string)
| OtherObject (id : nat).

#[export] Instance TypeName_eq_dec : EqDecision TypeName.
Proof. solve_decision. Defined.

#[export] Instance TypesObject_eq_dec : EqDecision TypesObject.
Proof. solve_decision. Defined.

(** [types.TypeAndValue]: [Value] is the constant's [String()], if any. *)
Record TypeAndValue := mkTypeAndValue { tv_Value : option string }.

Inductive SliceKind := ExprSlice | StmtSlice | FieldSlice | OtherSlice.

#[export] Instance SliceKind_eq_dec : EqDecision SliceKind.
Proof. solve_decision. Defined.

(** The values of the right-hand side: Go's untyped [nil], strings, tokens,
    the scalar fields of syntax nodes, slices (a [nil] slice is [VSlice k
    None]), pointers to syntax nodes ([VNode ty None] is a typed nil pointer),
    objects of the type checker, and the [reflect.Value] that [matchAST]
    returns for a nil node. *)
Inductive value :=
| VNil
| VString (s : string)
| VToken (t : Z)
| VInt (z : Z)
| VBool (b : bool)
| VPos (p : Z)
| VScopeObject
| VCommentGroup
| VSlice (k : SliceKind) (elems : option (list value))
| VNode (ty : string) (fields : option (list (string * value)))
| VObject (o : TypesObject)
| VTypeAndValue (tv : TypeAndValue)
| VReflected (v : value).

(** [types.Info] and the parts of [go/types] the matcher consults. *)
Record TypesInfo := mkTypesInfo {
  ObjectOf : value -> option TypesObject;
  Types : value -> option TypeAndValue;
  UniverseLookup : string -> option TypesObject;
  TypeOf : TypeName -> GoType;
  IsAlias : TypeName -> bool
}.

(** ** Patterns *)

(** [NoNode] is Go's [nil] in a field of type [Node]; [Struct] is a pattern
    node that is not a [matcher] (Ident, CallExpr, ...: a struct named like the
    syntax node, with its fields in order). *)
Inductive Node :=
| NoNode
| Any
| Nil
| String_ (s : string)
| Token (t : Z)
| List (Head Tail : Node)
| Binding (Name : string) (idx : Z) (Node_ : Node)
| Or (Nodes : list Node)
| Not (Node_ : Node)
| Builtin (Name : Node)
| Object (Name : Node)
| Symbol (Name : Node)
| IntegerLiteral (Value : Node)
| TrulyConstantExpression (Value : Node)
| Struct (ty : string) (fields : list (string * Node)).

Record Pattern := mkPattern { Root : Node; Bindings : list string }.

(** The left-hand side of [match] is a pattern or, when a bound value is
    recalled or two syntax trees are compared, a value. *)
Inductive lhs :=
| LNode (n : Node)
| LValue (v : value).

(** ** The matcher state *)

Record Matcher := mkMatcher {
  State : gmap string value;
  bindingsMapping : list string;
  setBindings : list Z
}.

Inductive result :=
| Ret (m : Matcher) (v : value) (ok : bool)
| Panic
| OutOfFuel.

Definition andThen (r : result) (k : Matcher -> value -> bool -> result) : result :=
  match r with
  | Ret m v ok => k m v ok
  | Panic => Panic
  | OutOfFuel => OutOfFuel
  end.

Definition uint64 (z : Z) : Z := (z mod 2 ^ 64)%Z.

(** [1 << i] on a [uint64]; a negative count is a Go panic. *)
Definition bit (i : Z) : option Z :=
  if (i <? 0)%Z then None else Some (uint64 (Z.shiftl 1 i)).

Definition dropLast {A : Type} (l : list A) : list A := take (length l - 1) l.

Definition set (m : Matcher) (name : string) (idx : Z) (v : value) : option Matcher :=
  top ← last (setBindings m);
  b ← bit idx;
  Some (mkMatcher (<[name := v]> (State m)) (bindingsMapping m)
          (dropLast (setBindings m) ++ [Z.lor top b])).

Definition push (m : Matcher) : Matcher :=
  mkMatcher (State m) (bindingsMapping m) (setBindings m ++ [0%Z]).

(** The loop of [pop] over [m.bindingsMapping], from index [i]. *)
Fixpoint unset (frame : Z) (names : list string) (i : Z) (st : gmap string value)
    : gmap string value :=
  match names with
  | [] => st
  | key :: names' =>
    let st' := if (Z.land frame (uint64 (Z.shiftl 1 i)) =? 0)%Z then st
               else delete key st in
    unset frame names' (i + 1)%Z st'
  end.

Definition pop (m : Matcher) : option Matcher :=
  top ← last (setBindings m);
  let st := if (top =? 0)%Z then State m
            else unset top (bindingsMapping m) 0 (State m) in
  Some (mkMatcher st (bindingsMapping m) (dropLast (setBindings m))).

Definition merge (m : Matcher) : option Matcher :=
  if decide (setBindings m = []) then None
  else Some (mkMatcher (State m) (bindingsMapping m) (dropLast (setBindings m))).

(** ** Helpers *)

Definition tokensByString : list (string * Z) :=
  [ ("INT", 5); ("FLOAT", 6); ("IMAG", 7); ("CHAR", 8); ("STRING", 9);
    ("+", 12); ("-", 13); ("*", 14); ("/", 15); ("%", 16);
    ("&", 17); ("|", 18); ("^", 19); ("<<", 20); (">>", 21); ("&^", 22);
    ("+=", 23); ("-=", 24); ("*=", 25); ("/=", 26); ("%=", 27);
    ("&=", 28); ("|=", 29); ("^=", 30); ("<<=", 31); (">>=", 32); ("&^=", 33);
    ("&&", 34); ("||", 35); ("<-", 36); ("++", 37); ("--", 38);
    ("==", 39); ("<", 40); (">", 41); ("=", 42); ("!", 43);
    ("!=", 44); ("<=", 45); (">=", 46); (":=", 47); ("...", 48);
    ("IMPORT", 75); ("VAR", 85); ("TYPE", 84); ("CONST", 64);
    ("BREAK", 61); ("CONTINUE", 65); ("GOTO", 73); ("FALLTHROUGH", 69) ]%Z.

Fixpoint assoc {A : Type} (key : string) (l : list (string * A)) : option A :=
  match l with
  | [] => None
  | (k, a) :: l' => if String.eqb k key then Some a else assoc key l'
  end.

Definition maybeToken (s : string) : option Z := assoc s tokensByString.

Definition isNil (n : Node) : bool :=
  match n with NoNode | Nil => true | _ => false end.

Definition exprTypes : list string :=
  [ "BadExpr"; "Ident"; "Ellipsis"; "BasicLit"; "FuncLit"; "CompositeLit";
    "ParenExpr"; "SelectorExpr"; "IndexExpr"; "IndexListExpr"; "SliceExpr";
    "TypeAssertExpr"; "CallExpr"; "StarExpr"; "UnaryExpr"; "BinaryExpr";
    "KeyValueExpr"; "ArrayType"; "StructType"; "FuncType"; "InterfaceType";
    "MapType"; "ChanType" ]%string.

Definition stmtTypes : list string :=
  [ "BadStmt"; "DeclStmt"; "EmptyStmt"; "LabeledStmt"; "ExprStmt"; "SendStmt";
    "IncDecStmt"; "AssignStmt"; "GoStmt"; "DeferStmt"; "ReturnStmt";
    "BranchStmt"; "BlockStmt"; "IfStmt"; "CaseClause"; "SwitchStmt";
    "TypeSwitchStmt"; "CommClause"; "SelectStmt"; "ForStmt"; "RangeStmt" ]%string.

Definition isA (types : list string) (ty : string) : bool :=
  existsb (String.eqb ty) types.

(** The type assertion to [ast.Expr], [ast.Stmt] or a pointer to [ast.Field],
    for the element kind. *)
Definition castsTo (k : SliceKind) (v : value) : bool :=
  match v, k with
  | VNode ty _, ExprSlice => isA exprTypes ty
  | VNode ty _, StmtSlice => isA stmtTypes ty
  | VNode ty _, FieldSlice => String.eqb ty "Field"
  | _, _ => false
  end.

Definition elemsOf (elems : option (list value)) : list value := default [] elems.

Definition isAstNode (v : value) : bool :=
  match v with VNode _ _ => true | _ => false end.

Definition isVNil (v : value) : bool :=
  match v with VNil => true | _ => false end.

Definition isNone {A : Type} (o : option A) : bool :=
  match o with None => true | Some _ => false end.

(** ** [match] and the [Match] of every variant

    The functions call each other through [rec], which [match_] below ties to
    itself with one unit of fuel less. *)

Section Match.
Variable info : TypesInfo.
Variable rec : Matcher -> lhs -> value -> result.

Definition Any_Match (m : Matcher) (node : value) : result := Ret m node true.

Definition Binding_Match (m : Matcher) (Name : string) (idx : Z) (Node_ : Node)
    (node : value) : result :=
  let store sub :=
    match State m !! Name with
    | Some _ => Panic
    | None =>
      andThen (rec m (LNode sub) node) (fun m new ret =>
        if ret then
          match set m Name idx new with
          | Some m' => Ret m' new ret
          | None => Panic
          end
        else Ret m new ret)
    end in
  if isNil Node_ then
    match State m !! Name with
    | Some v => rec m (LValue v) node
    | None => store Any
    end
  else store Node_.

Definition List_Match (m : Matcher) (Head Tail : Node) (node : value) : result :=
  match node with
  | VSlice k elems =>
    if isNil Head then Ret m node (length (elemsOf elems) =? 0)%nat
    else
      match elemsOf elems with
      | [] => Ret m VNil false
      | first :: rest =>
        andThen (rec m (LNode Head) first) (fun m _ ok1 =>
        andThen (rec m (LNode Tail) (VSlice k (Some rest))) (fun m _ ok2 =>
        Ret m node (ok1 && ok2)))
      end
  | _ => Ret m VNil false
  end.

Definition String_Match (m : Matcher) (s : string) (node : value) : result :=
  match node with
  | VToken _ =>
    match maybeToken s with
    | Some tok => rec m (LNode (Token tok)) node
    | None => Ret m VNil false
    end
  | VString o => Ret m node (String.eqb s o)
  | VTypeAndValue o =>
    Ret m node (match tv_Value o with
                | Some str => String.eqb str s
                | None => false
                end)
  | _ => Ret m VNil false
  end.

Definition Token_Match (m : Matcher) (tok : Z) (node : value) : result :=
  match node with
  | VToken o => Ret m node (tok =? o)%Z
  | _ => Ret m VNil false
  end.

Definition Nil_Match (m : Matcher) (node : value) : result :=
  match node with
  | VNil => Ret m VNil true
  | VNode _ fields => Ret m VNil (isNone fields)
  | VSlice _ elems => Ret m VNil (isNone elems)
  | _ => Ret m VNil false
  end.

Definition fieldOf (name : string) (v : value) : option value :=
  match v with
  | VNode _ (Some fields) => assoc name fields
  | _ => None
  end.

(** [ident.Name] of an [*ast.Ident]. *)
Definition identName (v : value) : option string :=
  match v with
  | VNode "Ident" _ =>
    match fieldOf "Name" v with Some (VString s) => Some s | _ => None end
  | _ => None
  end.

Definition objectValue (o : option TypesObject) : value :=
  match o with Some o => VObject o | None => VNil end.

Definition Builtin_Match (m : Matcher) (Name : Node) (node : value) : result :=
  andThen (rec m (LNode (Struct "Ident" [("Name", Name)])) node) (fun m r ok =>
    if negb ok then Ret m VNil false
    else
      match identName r with
      | None => Panic
      | Some name =>
        if bool_decide (ObjectOf info r = UniverseLookup info name)
        then Ret m r true else Ret m VNil false
      end).

Definition Object_Match (m : Matcher) (Name : Node) (node : value) : result :=
  andThen (rec m (LNode (Struct "Ident" [("Name", Name)])) node) (fun m r ok =>
    if negb ok then Ret m VNil false
    else
      match identName r with
      | None => Panic
      | Some name =>
        andThen (rec m (LNode Name) (VString name)) (fun m _ ok =>
          Ret m (objectValue (ObjectOf info r)) ok)
      end).

Fixpoint Unalias (t : GoType) : GoType :=
  match t with
  | Alias _ rhs => Unalias rhs
  | _ => t
  end.

(** [types.TypeString(t, nil)] *)
Definition TypeString (t : GoType) : string :=
  match t with
  | Basic name => name
  | Named obj | TypeParam obj | Alias obj _ => tn_name obj
  | OtherType str => str
  end.

(** The [for] loop of [Symbol.Match] over a [*types.TypeName]. *)
Fixpoint typeNameLoop (fuel : nat) (m : Matcher) (Name : Node)
    (origObj obj : TypeName) : result :=
  match fuel with
  | O => OutOfFuel
  | S fuel' =>
    if negb (tn_pkgLevel obj) then Ret m VNil false
    else
      let name := TypeString (TypeOf info obj) in
      andThen (rec m (LNode Name) (VString name)) (fun m _ ok =>
        if ok || negb (IsAlias info obj)
        then Ret m (VObject (TypeNameObject origObj)) ok
        else
          match Unalias (TypeOf info obj) with
          | Named obj' | TypeParam obj' => typeNameLoop fuel' m Name origObj obj'
          | Basic typName => rec m (LNode Name) (VString typName)
          | _ => Ret m VNil false
          end)
  end.

Fixpoint Unparen (v : value) : value :=
  match v with
  | VNode "ParenExpr" (Some fields) =>
    (fix go (fs : list (string * value)) : value :=
       match fs with
       | [] => v
       | (name, x) :: fs' => if String.eqb name "X" then Unparen x else go fs'
       end) fields
  | _ => v
  end.

Definition symbolBase : list Node :=
  [ Struct "Ident" [("Name", Any)];
    Struct "SelectorExpr" [("X", Any); ("Sel", Any)] ].

Definition symbolPattern : Node :=
  Or (symbolBase ++
      [ Struct "IndexExpr" [("X", Or symbolBase); ("Index", Any)];
        Struct "IndexListExpr" [("X", Or symbolBase); ("Indices", Any)] ]).

Definition Symbol_Match (fuel : nat) (m : Matcher) (Name : Node) (node : value)
    : result :=
  andThen (rec m (LNode symbolPattern) node) (fun m r ok =>
    if negb ok then Ret m VNil false
    else if negb (castsTo ExprSlice r) then Panic
    else
      let fun_ :=
        match r with
        | VNode "IndexExpr" _ | VNode "IndexListExpr" _ =>
          match fieldOf "X" r with Some x => Some x | None => None end
        | _ => Some r
        end in
      match fun_ with
      | None => Panic
      | Some fun_ =>
        let fun_ := Unparen fun_ in
        let obj :=
          match fun_ with
          | VNode "Ident" (Some _) => Some (ObjectOf info fun_)
          | VNode "SelectorExpr" (Some _) =>
            match fieldOf "Sel" fun_ with
            | Some sel => Some (ObjectOf info sel)
            | None => None
            end
          | _ => None
          end in
        match obj with
        | None => Panic
        | Some obj =>
          let finish name :=
            andThen (rec m (LNode Name) (VString name)) (fun m _ ok =>
              Ret m (objectValue obj) ok) in
          match obj with
          | Some (Func fullName) => finish fullName
          | Some (BuiltinObject name) => finish name
          | Some (TypeNameObject tn) => typeNameLoop fuel m Name tn tn
          | Some (Const pkg pkgLevel name) | Some (Var pkg pkgLevel name) =>
            match pkg with
            | None => Ret m VNil false
            | Some path =>
              if negb pkgLevel then Ret m VNil false
              else finish (path ++ "." ++ name)%string
            end
          | _ => Ret m VNil false
          end
        end
      end).

(** The loop of [Or.Match]. *)
Fixpoint Or_Match (m : Matcher) (Nodes : list Node) (node : value) : result :=
  match Nodes with
  | [] => Ret m VNil false
  | opt :: Nodes' =>
    andThen (rec (push m) (LNode opt) node) (fun m ret ok =>
      if ok then
        match merge m with Some m' => Ret m' ret true | None => Panic end
      else
        match pop m with Some m' => Or_Match m' Nodes' node | None => Panic end)
  end.

Definition Not_Match (m : Matcher) (Node_ : Node) (node : value) : result :=
  andThen (rec m (LNode Node_) node) (fun m _ ok =>
    if ok then Ret m VNil false else Ret m node true).

(** [(Or (BasicLit "INT" _) (UnaryExpr (Or "+" "-") (IntegerLiteral _)))] *)
Definition integerLiteralQ : Node :=
  Or [ Struct "BasicLit" [("Kind", String_ "INT"); ("Value", Any)];
       Struct "UnaryExpr" [("Op", Or [String_ "+"; String_ "-"]);
                           ("X", IntegerLiteral Any)] ].

Definition IntegerLiteral_Match (m : Matcher) (Value : Node) (node : value)
    : result :=
  andThen (rec m (LNode integerLiteralQ) node) (fun m matched ok =>
    if negb ok then Ret m VNil false
    else if negb (castsTo ExprSlice matched) then Panic
    else
      match Types info matched with
      | None => Ret m VNil false
      | Some tv =>
        match tv_Value tv with
        | None => Ret m VNil false
        | Some _ =>
          andThen (rec m (LNode Value) (VTypeAndValue tv)) (fun m _ ok =>
            Ret m matched ok)
        end
      end).

(** [ast.Inspect] finding an [*ast.Ident] below [v]. *)
Fixpoint hasIdent (v : value) : bool :=
  match v with
  | VNode ty (Some fields) =>
    String.eqb ty "Ident"
    || (fix go (fs : list (string * value)) : bool :=
          match fs with
          | [] => false
          | (_, x) :: fs' => hasIdent x || go fs'
          end) fields
  | VSlice _ (Some elems) =>
    (fix go (vs : list value) : bool :=
       match vs with
       | [] => false
       | x :: vs' => hasIdent x || go vs'
       end) elems
  | _ => false
  end.

Definition TrulyConstantExpression_Match (m : Matcher) (Value : Node)
    (node : value) : result :=
  if negb (castsTo ExprSlice node) then Ret m VNil false
  else
    match Types info node with
    | None => Ret m VNil false
    | Some tv =>
      match tv_Value tv with
      | None => Ret m VNil false
      | Some _ =>
        if hasIdent node then Ret m VNil false
        else
          andThen (rec m (LNode Value) (VTypeAndValue tv)) (fun m _ ok =>
            Ret m node ok)
      end
    end.

(** The field loop of [matchNodeAST]. *)
Fixpoint matchFields (m : Matcher) (fields : list (string * Node)) (b : value)
    : result :=
  match fields with
  | [] => Ret m b true
  | (fieldName, ai) :: fields' =>
    match fieldOf fieldName b with
    | None => Panic
    | Some bi =>
      match ai with
      | NoNode => Ret m b (isVNil bi)
      | _ =>
        andThen (rec m (LNode ai) bi) (fun m _ ok =>
          if ok then matchFields m fields' b else Ret m b false)
      end
    end
  end.

Definition matchNodeAST (m : Matcher) (a : Node) (b : value) : result :=
  match b with
  | VSlice OtherSlice _ => Panic
  | VSlice _ elems =>
    match elemsOf elems with
    | [b0] => rec m (LNode a) b0
    | _ => Ret m VNil false
    end
  | VNode tb None => Panic
  | VNode tb (Some _) =>
    match a with
    | Struct ta fields =>
      if negb (String.eqb ta tb) then Ret m VNil false
      else matchFields m fields b
    | _ => Panic
    end
  | VNil => Ret m VNil false
  | VString _ | VToken _ => Ret m VNil false
  | _ => Panic
  end.

(** [for i, ll := range ln { match(m, ll, rn[i]) }] of the slice cases, and
    the loop over a slice field in [matchAST], which first asserts that both
    elements are [ast.Node]s. [inl None] is a panic, [inr] the end of the
    fuel. *)
Fixpoint matchAll (assertNode : bool) (m : Matcher) (ln rn : list value)
    : option (Matcher * bool) + unit :=
  match ln, rn with
  | [], _ => inl (Some (m, true))
  | ll :: ln', rr :: rn' =>
    if assertNode && negb (isAstNode ll && isAstNode rr) then inl None
    else
      match rec m (LValue ll) rr with
      | Ret m _ ok =>
        if ok then matchAll assertNode m ln' rn' else inl (Some (m, false))
      | Panic => inl None
      | OutOfFuel => inr tt
      end
  | _ :: _, [] => inl None
  end.

Definition allResult (r : option (Matcher * bool) + unit) (v : value) : result :=
  match r with
  | inl (Some (m, true)) => Ret m v true
  | inl (Some (m, false)) => Ret m VNil false
  | inl None => Panic
  | inr _ => OutOfFuel
  end.

(** The field loop of [matchAST]. *)
Fixpoint matchASTFields (m : Matcher) (fa fb : list (string * value)) (b : value)
    : result :=
  match fa, fb with
  | [], _ => Ret m b true
  | (_, af) :: fa', (_, bf) :: fb' =>
    let next m := matchASTFields m fa' fb' b in
    match af with
    | VPos _ | VScopeObject | VCommentGroup => next m
    | VSlice _ ea =>
      match bf with
      | VSlice _ eb =>
        if negb (length (elemsOf ea) =? length (elemsOf eb))%nat
        then Ret m VNil false
        else
          match matchAll true m (elemsOf ea) (elemsOf eb) with
          | inl (Some (m, true)) => next m
          | other => allResult other VNil
          end
      | _ => Panic
      end
    | VString sa =>
      match bf with
      | VString sb => if String.eqb sa sb then next m else Ret m VNil false
      | _ => Panic
      end
    | VInt za | VToken za =>
      match bf with
      | VInt zb | VToken zb => if (za =? zb)%Z then next m else Ret m VNil false
      | _ => Panic
      end
    | VBool ba =>
      match bf with
      | VBool bb => if Bool.eqb ba bb then next m else Ret m VNil false
      | _ => Panic
      end
    | VNode _ _ | VNil | VObject _ =>
      andThen (rec m (LValue af) bf) (fun m _ ok =>
        if ok then next m else Ret m VNil false)
    | _ => Panic
    end
  | _ :: _, [] => Panic
  end.

Definition matchAST (m : Matcher) (a b : value) : result :=
  match a, b with
  | VNode ta fa, VNode tb fb =>
    if negb (String.eqb ta tb) then Ret m VNil false
    else
      match fa, fb with
      | Some fa, Some fb => matchASTFields m fa fb b
      | _, _ => Ret m (VReflected b) (isNone fa && isNone fb)
      end
  | _, _ => Panic
  end.

(** The three slice cases at the end of [match], for one element kind. *)
Definition matchSlices (m : Matcher) (k : SliceKind) (l r : value) : option result :=
  let run ln rn :=
    if negb (length ln =? length rn)%nat then Ret m VNil false
    else allResult (matchAll false m ln rn) r in
  match l, r with
  | VSlice kl el, VSlice kr er =>
    if bool_decide (kl = k) && bool_decide (kr = k)
    then Some (run (elemsOf el) (elemsOf er))
    else if bool_decide (kl = k)
    then Some (Ret m VNil false)
    else if bool_decide (kr = k)
    then Some (Ret m VNil false)
    else None
  | VSlice kl el, _ =>
    if bool_decide (kl = k)
    then Some (if castsTo k r then run (elemsOf el) [r] else Ret m VNil false)
    else None
  | _, VSlice kr er =>
    if bool_decide (kr = k)
    then Some (if castsTo k l then run [l] (elemsOf er) else Ret m VNil false)
    else None
  | _, _ => None
  end.

(** The field a transparent node is unwrapped to. *)
Definition transparent (ty : string) : option string :=
  if String.eqb ty "ParenExpr" then Some "X"
  else if String.eqb ty "ExprStmt" then Some "X"
  else if String.eqb ty "DeclStmt" then Some "Decl"
  else if String.eqb ty "LabeledStmt" then Some "Stmt"
  else if String.eqb ty "BlockStmt" then Some "List"
  else if String.eqb ty "FieldList" then Some "List"
  else None.

(** What [match] does after both sides have been unwrapped. *)
Definition dispatch (fuel : nat) (m : Matcher) (l : lhs) (r : value) : result :=
  match l with
  | LNode Any => Any_Match m r
  | LNode Nil => Nil_Match m r
  | LNode (String_ s) => String_Match m s r
  | LNode (Token t) => Token_Match m t r
  | LNode (List Head Tail) => List_Match m Head Tail r
  | LNode (Binding Name idx Node_) => Binding_Match m Name idx Node_ r
  | LNode (Or Nodes) => Or_Match m Nodes r
  | LNode (Not Node_) => Not_Match m Node_ r
  | LNode (Builtin Name) => Builtin_Match m Name r
  | LNode (Object Name) => Object_Match m Name r
  | LNode (Symbol Name) => Symbol_Match fuel m Name r
  | LNode (IntegerLiteral Value) => IntegerLiteral_Match m Value r
  | LNode (TrulyConstantExpression Value) => TrulyConstantExpression_Match m Value r
  | LNode (Struct ty fields) => matchNodeAST m (Struct ty fields) r
  | LNode NoNode => Ret m VNil (isVNil r)
  | LValue VNil => Ret m VNil (isVNil r)
  | LValue l =>
    if isVNil r then Ret m VNil false
    else if isAstNode l && isAstNode r then matchAST m l r
    else
      match l with
      | VObject obj =>
        match r with
        | VNode "Ident" _ =>
          Ret m l (bool_decide (Some obj = ObjectOf info r))
        | VNode "SelectorExpr" _ =>
          match fieldOf "Sel" r with
          | Some sel => Ret m l (bool_decide (Some obj = ObjectOf info sel))
          | None => Panic
          end
        | _ => Ret m l false
        end
      | _ =>
        match matchSlices m ExprSlice l r with
        | Some res => res
        | None =>
          match matchSlices m StmtSlice l r with
          | Some res => res
          | None =>
            match matchSlices m FieldSlice l r with
            | Some res => res
            | None => Ret m VNil false
            end
          end
        end
      end
  end.

(** [match]: unwrap the left side, then the right side, then dispatch. *)
Definition match_body (fuel : nat) (m : Matcher) (l : lhs) (r : value) : result :=
  let unwrapRight :=
    match r with
    | VNode ty fields =>
      match transparent ty, fields with
      | Some field, Some _ =>
        match fieldOf field r with
        | Some inner => Some (rec m l inner)
        | None => Some Panic
        end
      | Some field, None =>
        if String.eqb ty "BlockStmt" || String.eqb ty "FieldList"
        then Some (rec m l VNil) else Some Panic
      | None, None =>
        if String.eqb ty "BasicLit" then Some (rec m l VNil) else None
      | None, Some _ => None
      end
    | _ => None
    end in
  let afterLeft :=
    match unwrapRight with
    | Some res => res
    | None => dispatch fuel m l r
    end in
  match l with
  | LValue (VNode ty fields) =>
    match transparent ty, fields with
    | Some field, Some _ =>
      match fieldOf field (VNode ty fields) with
      | Some inner => rec m (LValue inner) r
      | None => Panic
      end
    | Some field, None =>
      if String.eqb ty "FieldList" then rec m (LValue VNil) r else Panic
    | None, _ => afterLeft
    end
  | _ => afterLeft
  end.
End Match.

Fixpoint match_ (info : TypesInfo) (fuel : nat) (m : Matcher) (l : lhs) (r : value)
    : result :=
  match fuel with
  | O => OutOfFuel
  | S fuel' => match_body info (match_ info fuel') fuel' m l r
  end.

(** [Matcher.Match] (l. 127-137): the names of the pattern and a fresh state,
    one frame pushed around the match of the root and merged after it; the
    frames the Matcher came with are kept, and a frame left on the stack is a
    panic. *)
Definition Matcher_Match (info : TypesInfo) (fuel : nat) (m0 : Matcher) (a : Pattern)
    (b : value) : result :=
  let m := push (mkMatcher ∅ (Bindings a) (setBindings m0)) in
  andThen (match_ info fuel m (LNode (Root a)) b) (fun m v ok =>
    match merge m with
    | Some m' => if decide (setBindings m' = []) then Ret m' v ok else Panic
    | None => Panic
    end).

(** The function [Match] (l. 139-143): [Matcher.Match] on a new Matcher. *)
Definition Match (info : TypesInfo) (fuel : nat) (a : Pattern) (b : value) : result :=
  Matcher_Match info fuel (mkMatcher ∅ [] []) a b.

(** ** Wrapped nodes and sample inputs *)

(** What [match] does with its right side before it dispatches: a
    transparent wrapper (ParenExpr, ExprStmt, DeclStmt, LabeledStmt,
    BlockStmt, FieldList) is replaced by what it wraps and a nil BasicLit
    pointer by nil ([Some (Some inner)]), a nil pointer to one of the first
    four is dereferenced ([Some None]), anything else is left alone
    ([None]). *)
Definition unwrapped (r : value) : option (option value) :=
  match r with
  | VNode ty fields =>
    match transparent ty, fields with
    | Some field, Some _ => Some (fieldOf field r)
    | Some field, None =>
      if String.eqb ty "BlockStmt" || String.eqb ty "FieldList"
      then Some (Some VNil) else Some None
    | None, None => if String.eqb ty "BasicLit" then Some (Some VNil) else None
    | None, Some _ => None
    end
  | _ => None
  end.

Definition emptyInfo : TypesInfo :=
  mkTypesInfo (fun _ => None) (fun _ => None) (fun _ => None)
    (fun _ => OtherType "") (fun _ => false).

Definition ident (name : string) : value :=
  VNode "Ident" (Some [("NamePos", VPos 1); ("Name", VString name);
                       ("Obj", VScopeObject)]).

(** [{ foo }]: a block of one expression statement, the identifier [foo]. *)
Definition blockOfFoo : value :=
  VNode "BlockStmt"
    (Some [("Lbrace", VPos 1);
           ("List", VSlice StmtSlice (Some [VNode "ExprStmt" (Some [("X", ident "foo")])]));
           ("Rbrace", VPos 7)]).

(** A matcher inside a [Match]: no binding yet, one frame. *)
Definition fresh (names : list string) : Matcher := mkMatcher ∅ names [0%Z].

(** [x@_ : _ : []]: binds [x] to the first element, then needs a second one. *)
Definition bindThenFail : Node :=
  List (Binding "x" 0 Any) (List Any (List NoNode NoNode)).

(** [(Or (Or x@_):_:[] _)]: the first alternative binds [x] inside an inner
    [Or] and then fails; the second matches anything. *)
Definition innerOrThenFail : Node :=
  List (Or [Binding "x" 0 Any]) (List Any (List NoNode NoNode)).

(** [type C struct{}; type B = C; type A = B], and an identifier [A]. *)
Definition tnA : TypeName := mkTypeName "pkg.A" true.
Definition tnB : TypeName := mkTypeName "pkg.B" true.
Definition tnC : TypeName := mkTypeName "pkg.C" true.

Definition aliasChain : TypesInfo :=
  mkTypesInfo
    (fun v => match v with
              | VNode "Ident" (Some [_; (_, VString "A"); _]) => Some (TypeNameObject tnA)
              | _ => None
              end)
    (fun _ => None) (fun _ => None)
    (fun tn => if String.eqb (tn_name tn) "pkg.A" then Alias tnA (Alias tnB (Named tnC))
               else if String.eqb (tn_name tn) "pkg.B" then Alias tnB (Named tnC)
               else Named tnC)
    (fun tn => negb (String.eqb (tn_name tn) "pkg.C")).

(** ** The same tree

    What [match] takes for the same syntax when its left side is a value (a
    recalled binding, or a part of one) and not a pattern.  A transparent
    wrapper on either side is looked through; two nodes are the same when
    they have the same type and their fields are the same one by one,
    positions, scope objects and comments not being compared; a slice is the
    same as a slice of its kind with the same elements, and a slice of one
    element is the same as that element; an object of the type checker is
    the same as an identifier or selector that denotes it. *)
Inductive sameTree (info : TypesInfo) : value -> value -> Prop :=
| same_nil : sameTree info VNil VNil
| same_left_wrapped (ty : string) (fields : list (string * value)) (field : string)
    (inner r : value) :
    transparent ty = Some field ->
    fieldOf field (VNode ty (Some fields)) = Some inner ->
    sameTree info inner r ->
    sameTree info (VNode ty (Some fields)) r
| same_left_nilFieldList (r : value) :
    sameTree info VNil r -> sameTree info (VNode "FieldList" None) r
| same_right_wrapped (l r inner : value) :
    unwrapped r = Some (Some inner) -> sameTree info l inner -> sameTree info l r
| same_nilptr (ty : string) : sameTree info (VNode ty None) (VNode ty None)
| same_node (ty : string) (fa fb : list (string * value)) :
    sameFields info fa fb -> sameTree info (VNode ty (Some fa)) (VNode ty (Some fb))
| same_object_ident (obj : TypesObject) (fields : option (list (string * value))) :
    ObjectOf info (VNode "Ident" fields) = Some obj ->
    sameTree info (VObject obj) (VNode "Ident" fields)
| same_object_selector (obj : TypesObject) (fields : option (list (string * value)))
    (sel : value) :
    fieldOf "Sel" (VNode "SelectorExpr" fields) = Some sel ->
    ObjectOf info sel = Some obj ->
    sameTree info (VObject obj) (VNode "SelectorExpr" fields)
| same_slices (k : SliceKind) (ea eb : option (list value)) :
    k <> OtherSlice ->
    Forall2 (sameTree info) (elemsOf ea) (elemsOf eb) ->
    sameTree info (VSlice k ea) (VSlice k eb)
| same_slice_one (k : SliceKind) (ea : option (list value)) (r : value) :
    castsTo k r = true ->
    Forall2 (sameTree info) (elemsOf ea) [r] ->
    sameTree info (VSlice k ea) r
| same_one_slice (k : SliceKind) (l : value) (eb : option (list value)) :
    castsTo k l = true ->
    Forall2 (sameTree info) [l] (elemsOf eb) ->
    sameTree info l (VSlice k eb)
with sameFields (info : TypesInfo)
    : list (string * value) -> list (string * value) -> Prop :=
| fields_nil (fb : list (string * value)) : sameFields info [] fb
| fields_cons (na nb : string) (af bf : value) (fa fb : list (string * value)) :
    sameField info af bf -> sameFields info fa fb ->
    sameFields info ((na, af) :: fa) ((nb, bf) :: fb)
with sameField (info : TypesInfo) : value -> value -> Prop :=
| field_pos (p : Z) (bf : value) : sameField info (VPos p) bf
| field_object (bf : value) : sameField info VScopeObject bf
| field_comment (bf : value) : sameField info VCommentGroup bf
| field_slice (ka kb : SliceKind) (ea eb : option (list value)) :
    Forall2 (sameTree info) (elemsOf ea) (elemsOf eb) ->
    sameField info (VSlice ka ea) (VSlice kb eb)
| field_string (s : string) : sameField info (VString s) (VString s)
| field_int (a b : value) (z : Z) :
    a = VInt z \/ a = VToken z -> b = VInt z \/ b = VToken z -> sameField info a b
| field_bool (b : bool) : sameField info (VBool b) (VBool b)
| field_tree (af bf : value) : sameTree info af bf -> sameField info af bf.

(** ** What the properties of the matcher speak of *)

(** The bindings a pattern mentions, with their bit index. *)
Fixpoint bindingsOf (n : Node) : list (string * Z) :=
  match n with
  | Binding Name idx Node_ => (Name, idx) :: bindingsOf Node_
  | List Head Tail => bindingsOf Head ++ bindingsOf Tail
  | Or Nodes =>
    (fix go (ns : list Node) : list (string * Z) :=
       match ns with
       | [] => []
       | n :: ns' => bindingsOf n ++ go ns'
       end) Nodes
  | Not n | Builtin n | Object n | Symbol n | IntegerLiteral n
  | TrulyConstantExpression n => bindingsOf n
  | Struct _ fields =>
    (fix go (fs : list (string * Node)) : list (string * Z) :=
       match fs with
       | [] => []
       | (_, n) :: fs' => bindingsOf n ++ go fs'
       end) fields
  | _ => []
  end.

(** Every binding of the pattern satisfies [okB]. *)
Definition good (okB : string -> Z -> Prop) (n : Node) : Prop :=
  Forall (fun b => okB b.1 b.2) (bindingsOf n).

Definition goodLhs (okB : string -> Z -> Prop) (l : lhs) : Prop :=
  match l with LNode n => good okB n | LValue _ => True end.

(** The alternatives of the [Or]s of a pattern, those of nested [Or]s
    included. *)
Fixpoint altsOf (n : Node) : list Node :=
  match n with
  | Binding _ _ Node_ => altsOf Node_
  | List Head Tail => altsOf Head ++ altsOf Tail
  | Or Nodes =>
    (fix go (ns : list Node) : list Node :=
       match ns with
       | [] => []
       | a :: ns' => (a :: altsOf a) ++ go ns'
       end) Nodes
  | Not n | Builtin n | Object n | Symbol n | IntegerLiteral n
  | TrulyConstantExpression n => altsOf n
  | Struct _ fields =>
    (fix go (fs : list (string * Node)) : list Node :=
       match fs with
       | [] => []
       | (_, n) :: fs' => altsOf n ++ go fs'
       end) fields
  | _ => []
  end.

(** Every binding of the pattern satisfies [okB] and every alternative of an
    [Or] in it satisfies [okAlt]. *)
Definition goodAlts (okB : string -> Z -> Prop) (okAlt : Node -> Prop) (n : Node)
    : Prop :=
  good okB n /\ Forall okAlt (altsOf n).

Definition goodAltsLhs (okB : string -> Z -> Prop) (okAlt : Node -> Prop) (l : lhs)
    : Prop :=
  match l with LNode n => goodAlts okB okAlt n | LValue _ => True end.

(** A relation between the matcher before and after a match that holds for
    every [match] that returns, on patterns whose bindings satisfy [okB]. *)
Definition keeps (okB : string -> Z -> Prop) (Q : Matcher -> Matcher -> Prop)
    (rec : Matcher -> lhs -> value -> result) : Prop :=
  forall m l r m' v ok, goodLhs okB l -> rec m l r = Ret m' v ok -> Q m m'.

(** The same on the patterns whose alternatives satisfy [okAlt]. *)
Definition keepsAlts (okB : string -> Z -> Prop) (okAlt : Node -> Prop)
    (Q : Matcher -> Matcher -> Prop) (rec : Matcher -> lhs -> value -> result)
    : Prop :=
  forall m l r m' v ok,
    goodAltsLhs okB okAlt l -> rec m l r = Ret m' v ok -> Q m m'.

(** The frames of [m'] are those of [m] but for the top one, and the names of
    the bits are the same. *)
Definition sameFrames (m m' : Matcher) : Prop :=
  bindingsMapping m' = bindingsMapping m
  /\ length (setBindings m') = length (setBindings m)
  /\ dropLast (setBindings m') = dropLast (setBindings m).

(** A binding whose bit index is the position of its name in [names], as
    the parser numbers them. *)
Definition numbered (names : list string) (name : string) (idx : Z) : Prop :=
  (0 <= idx)%Z /\ names !! Z.to_nat idx = Some name.

(** What a match does to the bindings when the pattern's bindings are
    numbered by [names]: none that was there is lost or changed, and a bit
    that is new in the top frame belongs to a name that was not bound. *)
Definition extends (names : list string) (m m' : Matcher) : Prop :=
  bindingsMapping m = names ->
  sameFrames m m'
  /\ (forall x v, State m !! x = Some v -> State m' !! x = Some v)
  /\ (forall top top' i name,
        last (setBindings m) = Some top -> last (setBindings m') = Some top' ->
        (0 <= i)%Z -> names !! Z.to_nat i = Some name ->
        Z.land top' (uint64 (Z.shiftl 1 i)) <> 0%Z ->
        Z.land top (uint64 (Z.shiftl 1 i)) <> 0%Z \/ State m !! name = None).

(** The list pattern [p1 : p2 : ... : []]. *)
Definition listOf (ps : list Node) : Node := foldr List (List NoNode NoNode) ps.

(** Bit [i] of a frame, as [pop] tests it. *)
Definition hasBit (frame i : Z) : Prop :=
  Z.land frame (uint64 (Z.shiftl 1 i)) <> 0%Z.

(** [extends], and the top frame has lost no bit and holds the bit of every
    name that the match has bound. *)
Definition recorded (names : list string) (m m' : Matcher) : Prop :=
  extends names m m'
  /\ (bindingsMapping m = names ->
      forall top top',
        last (setBindings m) = Some top -> last (setBindings m') = Some top' ->
        (forall i, hasBit top i -> hasBit top' i)
        /\ (forall x, State m !! x = None -> is_Some (State m' !! x) ->
              exists idx, numbered names x idx /\ (idx < 64)%Z /\ hasBit top' idx)).

(** The alternatives that [Or] rolls back exactly: their bindings are
    numbered by [names] with a bit index below 64, and none of their own
    [Or]s holds a binding. *)
Definition flat (names : list string) (alt : Node) : Prop :=
  Forall (fun b => numbered names b.1 b.2 /\ (b.2 < 64)%Z) (bindingsOf alt)
  /\ Forall (fun a => bindingsOf a = []) (altsOf alt).

End Pattern.

(** * Properties of the reachability index *)

Module ClosureFacts.
Import IR IR.Closure.
Local Open Scope Z_scope.

(** *** Decoding what [addInterval] encodes *)

Lemma small_word (l start : Z) :
  0 <= l <= 2047 -> 0 <= start < 2 ^ 20 ->
  Z.lor (uint32 (Z.shiftl l numBits)) start = l * 2 ^ 20 + start.
Proof.
  intros Hl Hs. unfold uint32, numBits.
  rewrite Z.shiftl_mul_pow2 by lia.
  rewrite Z.mod_small by lia.
  rewrite <- Z.lxor_lor, <- Z.add_nocarry_lxor; try reflexivity.
  all: rewrite <- (Z.mod_small start (2 ^ 20)) by lia.
  all: rewrite <- Z.land_ones by lia.
  all: rewrite (Z.land_comm start), Z.land_assoc.
  all: rewrite (Z.land_ones (l * 2 ^ 20)) by lia.
  all: rewrite Z.mod_mul by lia.
  all: reflexivity.
Qed.

Lemma decode_start (l start : Z) :
  0 <= l -> 0 <= start < 2 ^ 20 ->
  Z.land (l * 2 ^ 20 + start) numMask = start.
Proof.
  intros Hl Hs. change numMask with (Z.ones 20).
  rewrite Z.land_ones by lia.
  rewrite Z.add_comm, Z.mod_add by lia. apply Z.mod_small; lia.
Qed.

Lemma decode_length (l start : Z) :
  0 <= l <= 2047 -> 0 <= start < 2 ^ 20 ->
  Z.shiftr (Z.land (l * 2 ^ 20 + start) lengthMask) numBits = l.
Proof.
  intros Hl Hs. change lengthMask with (Z.shiftl (Z.ones 11) 20). unfold numBits.
  rewrite Z.shiftr_land, Z.shiftr_shiftl_l by lia.
  change (20 - 20) with 0. rewrite Z.shiftl_0_r.
  rewrite Z.land_ones by lia.
  rewrite Z.shiftr_div_pow2 by lia.
  rewrite Z.add_comm, Z.div_add by lia.
  rewrite Z.div_small by lia. apply Z.mod_small. lia.
Qed.

Lemma decode_flag_small (w : Z) : 0 <= w < 2 ^ 31 -> Z.land w flagMask = 0.
Proof.
  intros Hw. apply Z.bits_inj'. intros n Hn.
  rewrite Z.land_spec, Z.bits_0. unfold flagMask.
  rewrite Z.shiftl_spec by lia.
  destruct (Z.eq_dec n 31) as [->|Hne].
  - rewrite (Z.bits_above_log2 w 31); [reflexivity | lia |].
    destruct (Z.eq_dec w 0) as [->|]; [simpl; lia|].
    apply Z.log2_lt_pow2; lia.
  - destruct (Z_lt_dec n 31).
    + rewrite (Z.testbit_neg_r 1) by lia. apply andb_false_r.
    + rewrite (Z.bits_above_log2 1) by (simpl; lia). apply andb_false_r.
Qed.

Lemma large_word (start : Z) :
  0 <= start < 2 ^ 20 -> Z.lor (Z.shiftl 1 31) start = 2 ^ 31 + start.
Proof.
  intros Hs. change (Z.shiftl 1 31) with (2 ^ 31).
  rewrite <- Z.lxor_lor, <- Z.add_nocarry_lxor; try reflexivity.
  all: rewrite <- (Z.mod_small start (2 ^ 20)) by lia.
  all: rewrite <- Z.land_ones by lia.
  all: rewrite (Z.land_comm start), Z.land_assoc; reflexivity.
Qed.

Lemma decode_flag_large (start : Z) :
  0 <= start < 2 ^ 20 -> Z.land (2 ^ 31 + start) flagMask <> 0.
Proof.
  intros Hs. rewrite <- large_word by lia.
  rewrite Z.land_lor_distr_l.
  change (Z.land (Z.shiftl 1 31) flagMask) with (2 ^ 31).
  rewrite decode_flag_small by lia. rewrite Z.lor_0_r. lia.
Qed.

Lemma decode_start_large (start : Z) :
  0 <= start < 2 ^ 20 -> Z.land (2 ^ 31 + start) numMask = start.
Proof.
  intros Hs. change numMask with (Z.ones 20).
  rewrite Z.land_ones by lia.
  change (2 ^ 31) with (2 ^ 11 * 2 ^ 20).
  rewrite Z.add_comm, Z.mod_add by lia. apply Z.mod_small; lia.
Qed.

Lemma scan_addInterval (idx start end_ : Z) (rest : list Z) :
  0 <= start < 2 ^ 20 -> start <= end_ < 2 ^ 32 ->
  scan idx (addInterval start end_ ++ rest) =
  if (start <=? idx) && (idx <=? end_) then Some true else scan idx rest.
Proof.
  intros Hs He. unfold addInterval.
  assert (Hl : uint32 (end_ - start) = end_ - start)
    by (apply Z.mod_small; lia).
  rewrite Hl. change (Z.shiftl 1 lengthBits - 1) with 2047.
  destruct (Z.leb_spec (end_ - start) 2047) as [Hle | Hgt]; simpl.
  - rewrite small_word by lia.
    rewrite decode_flag_small by lia. simpl.
    rewrite decode_start, decode_length by lia.
    unfold uint32. rewrite Z.mod_small by lia.
    replace (start + (end_ - start)) with end_ by lia. reflexivity.
  - rewrite large_word by lia.
    destruct (Z.eqb_spec (Z.land (2 ^ 31 + start) flagMask) 0) as [E | _].
    + exfalso. revert E. apply decode_flag_large. lia.
    + rewrite decode_start_large by lia. reflexivity.
Qed.

Lemma nth_cons_Z (r : bool) (reach : list bool) (id idx : Z) :
  id <= idx ->
  nth (Z.to_nat (idx - id)) (r :: reach) false =
  if idx =? id then r else nth (Z.to_nat (idx - (id + 1))) reach false.
Proof.
  intros H. destruct (Z.eqb_spec idx id) as [-> | Hne].
  - by rewrite Z.sub_diag.
  - replace (Z.to_nat (idx - id)) with (S (Z.to_nat (idx - (id + 1)))) by lia.
    reflexivity.
Qed.

Ltac split_comparisons :=
  repeat match goal with
  | |- context [Z.eqb ?a ?b] => destruct (Z.eqb_spec a b)
  | |- context [Z.leb ?a ?b] => destruct (Z.leb_spec a b)
  | |- context [Z.ltb ?a ?b] => destruct (Z.ltb_spec a b)
  end.

Lemma covered_cons (r : bool) (reach : list bool) (id start idx : Z) :
  covered (r :: reach) id start idx =
  (negb (start =? noStart) && (start <=? idx) && (idx <? id))
  || (if idx =? id then r else covered reach (id + 1) noStart idx).
Proof.
  unfold covered. change (noStart =? noStart) with true. simpl negb.
  destruct (Z.leb_spec id idx) as [Hle | Hgt].
  - rewrite nth_cons_Z by done. split_comparisons; simpl; try lia; reflexivity.
  - split_comparisons; simpl; try lia; reflexivity.
Qed.

Lemma covered_open (reach : list bool) (id start idx : Z) :
  start <> noStart -> start <= id ->
  covered reach (id + 1) start idx =
  ((start <=? idx) && (idx <? id)) || (idx =? id) || covered reach (id + 1) noStart idx.
Proof.
  intros Hne Hle. unfold covered. change (noStart =? noStart) with true.
  destruct (nth _ reach false); split_comparisons; simpl; try lia; reflexivity.
Qed.

Lemma scan_flush (reach : list bool) : forall (id start idx : Z),
  0 <= id -> id + Z.of_nat (length reach) <= 2 ^ 20 ->
  start = noStart \/ 0 <= start < id ->
  scan idx (flush reach id start) = Some (covered reach id start idx).
Proof.
  induction reach as [| r reach IH]; intros id start idx Hid Hlen Hstart.
  - unfold flush, covered; simpl.
    destruct (Z.eqb_spec start noStart) as [-> | Hne]; simpl.
    + destruct (id <=? idx), (Z.to_nat (idx - id)); reflexivity.
    + destruct Hstart as [? | Hstart]; [done |].
      rewrite <- (app_nil_r (addInterval _ _)).
      rewrite scan_addInterval by lia. simpl.
      change (Z.of_nat 0) with 0.
      destruct (Z.to_nat (idx - id)); split_comparisons; simpl; try lia; reflexivity.
  - assert (Hu : uint32 id = id) by (apply Z.mod_small; lia).
    assert (HnoStart : id <> noStart) by (unfold noStart; lia).
    assert (Hnext : flush (r :: reach) id start
              = (let '(ws, st) := encodeRuns (r :: reach) id start in
                 if st =? noStart then ws
                 else ws ++ addInterval st (id + 1 + Z.of_nat (length reach) - 1))).
    { unfold flush. destruct (encodeRuns _ _ _) as [ws st].
      destruct (st =? noStart); [done |]. do 2 f_equal. simpl length. lia. }
    rewrite Hnext. clear Hnext. simpl encodeRuns. simpl length in Hlen.
    rewrite covered_cons.
    destruct r; simpl negb; cbv iota.
    + (* a reachable block: a run starts or goes on *)
      destruct (Z.eqb_spec start noStart) as [-> | Hne]; simpl negb.
      * rewrite Hu. specialize (IH (id + 1) id idx).
        unfold flush in IH. rewrite IH by lia.
        rewrite covered_open by lia.
        f_equal. split_comparisons; simpl; try lia; reflexivity.
      * destruct Hstart as [? | Hstart]; [done |].
        specialize (IH (id + 1) start idx).
        unfold flush in IH. rewrite IH by lia.
        rewrite covered_open by lia.
        f_equal. destruct (covered reach (id + 1) noStart idx);
          split_comparisons; simpl; try lia; reflexivity.
    + (* an unreachable block: the open run, if any, is closed *)
      destruct (Z.eqb_spec start noStart) as [-> | Hne]; simpl negb; cbv iota.
      * specialize (IH (id + 1) noStart idx).
        unfold flush in IH. rewrite IH by lia.
        f_equal. unfold covered. change (noStart =? noStart) with true.
        split_comparisons; simpl; try lia; reflexivity.
      * destruct Hstart as [? | Hstart]; [done |].
        rewrite Hu. assert (Hu' : uint32 (id - 1) = id - 1) by (apply Z.mod_small; lia).
        rewrite Hu'.
        specialize (IH (id + 1) noStart idx). unfold flush in IH.
        destruct (encodeRuns reach (id + 1) noStart) as [ws st].
        assert (Hflush : (if st =? noStart then addInterval start (id - 1) ++ ws
                  else (addInterval start (id - 1) ++ ws)
                         ++ addInterval st (id + 1 + Z.of_nat (length reach) - 1))
                = addInterval start (id - 1) ++
                  (if st =? noStart then ws
                   else ws ++ addInterval st (id + 1 + Z.of_nat (length reach) - 1))).
        { destruct (st =? noStart); [done |]. by rewrite app_assoc. }
        rewrite Hflush, scan_addInterval by lia. rewrite IH by lia.
        unfold covered. change (noStart =? noStart) with true.
        split_comparisons; simpl; try lia; reflexivity.
Qed.

(** *** [walk] terminates *)

Lemma unvisited_insert_le (v : list bool) (i : nat) :
  (unvisited (<[i := true]> v) <= unvisited v)%nat.
Proof.
  revert i. induction v as [| x v IH]; intros [| i]; simpl; try lia.
  specialize (IH i). lia.
Qed.

Lemma unvisited_insert_lt (v : list bool) (i : nat) :
  v !! i = Some false -> (unvisited (<[i := true]> v) < unvisited v)%nat.
Proof.
  revert i. induction v as [| x v IH]; intros [| i]; simpl; intros H; try done.
  - injection H as ->. lia.
  - specialize (IH i H). lia.
Qed.

Lemma succs_in_range_lookup (blocks : list BasicBlock) (b : nat) (blk : BasicBlock) :
  succs_in_range blocks = true -> blocks !! b = Some blk ->
  Forall (fun s => s < length blocks)%nat (Succs blk).
Proof.
  intros Hwf Hb. unfold succs_in_range in Hwf.
  rewrite forallb_forall in Hwf.
  specialize (Hwf blk). rewrite <- list_elem_of_In in Hwf.
  specialize (Hwf (list_elem_of_lookup_2 _ _ _ Hb)).
  rewrite forallb_forall in Hwf. apply Forall_forall. intros x Hx.
  apply Nat.ltb_lt, Hwf. by apply list_elem_of_In.
Qed.

Lemma walk_total (blocks : list BasicBlock) :
  succs_in_range blocks = true ->
  forall (fuel b : nat) (visited : list bool),
    length visited = length blocks -> (b < length blocks)%nat ->
    (unvisited (<[b := true]> visited) < fuel)%nat ->
    exists v', walk fuel blocks b visited = Some v'
               /\ length v' = length blocks
               /\ (unvisited v' <= unvisited (<[b := true]> visited))%nat.
Proof.
  intros Hwf. induction fuel as [| fuel IH]; intros b visited Hlen Hb Hfuel; [lia |].
  destruct (lookup_lt_is_Some_2 blocks b Hb) as [blk Hblk].
  destruct (lookup_lt_is_Some_2 visited b ltac:(lia)) as [vb Hvb].
  simpl. rewrite Hblk, Hvb. simpl.
  pose proof (succs_in_range_lookup _ _ _ Hwf Hblk) as Hsuccs.
  assert (Hlen0 : length (<[b := true]> visited) = length blocks)
    by (by rewrite length_insert).
  assert (Hf0 : (unvisited (<[b := true]> visited) <= fuel)%nat) by lia.
  revert Hlen0 Hf0.
  generalize (<[b := true]> visited) at 1 2 3 4 as va.
  induction (Succs blk) as [| succ succs IHs]; intros va Hva Hfa.
  - exists va. simpl. split_and!; [done | done | lia].
  - apply Forall_cons in Hsuccs as [Hsucc Hsuccs]. simpl.
    destruct (lookup_lt_is_Some_2 va succ ltac:(lia)) as [seen Hseen].
    rewrite Hseen. simpl. destruct seen.
    + by apply IHs.
    + pose proof (unvisited_insert_lt _ _ Hseen) as Hlt.
      destruct (IH succ (<[succ := true]> va)) as (v1 & -> & Hl1 & Hu1).
      { by rewrite length_insert. } { done. }
      { rewrite list_insert_insert_eq. lia. }
      rewrite list_insert_insert_eq in Hu1.
      destruct (IHs Hsuccs v1 Hl1 ltac:(lia)) as (v' & -> & Hl' & Hu').
      exists v'. split_and!; [done | done | lia].
Qed.

Lemma reachedFrom_walk (blocks : list BasicBlock) (s : nat) :
  succs_in_range blocks = true -> (s < length blocks)%nat ->
  walk (length blocks) blocks s (replicate (length blocks) false)
    = Some (reachedFrom blocks s)
  /\ length (reachedFrom blocks s) = length blocks.
Proof.
  intros Hwf Hs. unfold reachedFrom.
  destruct (walk_total blocks Hwf (length blocks) s (replicate (length blocks) false))
    as (v' & -> & Hl & _); [by rewrite length_replicate | done | | done].
  assert (Hrep : forall n, unvisited (replicate n false) = n)
    by (induction n; simpl; lia).
  pose proof (unvisited_insert_lt (replicate (length blocks) false) s) as Hlt.
  rewrite Hrep in Hlt. apply Hlt. apply lookup_replicate_2. done.
Qed.

Lemma intervalsOf_flush (blocks : list BasicBlock) (s : nat) :
  succs_in_range blocks = true -> (s < length blocks)%nat ->
  Z.of_nat (length blocks) <= 2 ^ 32 ->
  intervalsOf blocks s = Some (flush (reachedFrom blocks s) 0 noStart).
Proof.
  intros Hwf Hs Hn. destruct (reachedFrom_walk blocks s Hwf Hs) as [Hwalk Hlen].
  unfold intervalsOf. rewrite Hwalk. simpl. unfold flush.
  destruct (encodeRuns _ 0 noStart) as [ws st]. f_equal.
  destruct (st =? noStart); [done |]. simpl. do 2 f_equal.
  rewrite Hlen. unfold uint32.
  destruct (Z.eq_dec (Z.of_nat (length blocks)) (2 ^ 32)) as [-> | Hne].
  - reflexivity.
  - rewrite (Z.mod_small (Z.of_nat _)) by lia. rewrite Z.mod_small by lia. lia.
Qed.

(** *** The slices [transitiveClosure] records *)

Lemma closureLoop_frame (blocks : list BasicBlock) :
  forall (todo : list BasicBlock) (b : nat) (c c' : closure),
    closureLoop blocks todo b c = Some c' ->
    (exists more, reachables c' = reachables c ++ more)
    /\ length (span c') = length (span c)
    /\ (forall k, (k <= b)%nat -> span c' !! k = span c !! k).
Proof.
  induction todo as [| blk todo IH]; intros b c c' Hloop; simpl in Hloop.
  - injection Hloop as <-. split_and!; [by exists []; rewrite app_nil_r | done | done].
  - destruct (intervalsOf blocks b) as [ws |]; [simpl in Hloop | done].
    destruct (decide _) as [Hlt | ]; [| done].
    destruct (IH _ _ _ Hloop) as ([more Hmore] & Hlen & Hspan). simpl in *.
    split_and!.
    + exists (ws ++ more). by rewrite Hmore, app_assoc.
    + by rewrite Hlen, length_insert.
    + intros k Hk. rewrite Hspan by lia. apply list_lookup_insert_ne. lia.
Qed.

Lemma reachable_slice (c : closure) (s : nat) (pre ws post : list Z) :
  reachables c = pre ++ ws ++ post ->
  span c !! s = Some (Z.of_nat (length pre)) ->
  span c !! S s = Some (Z.of_nat (length (pre ++ ws))) ->
  reachable c s = Some ws.
Proof.
  intros Hr Hlo Hhi. unfold reachable. rewrite Hlo, Hhi. simpl.
  rewrite Hr, !length_app.
  destruct (Z.leb_spec 0 (Z.of_nat (length pre))); [| lia].
  destruct (Z.leb_spec (Z.of_nat (length pre)) (Z.of_nat (length pre + length ws)));
    [| lia].
  destruct (Z.leb_spec (Z.of_nat (length pre + length ws))
              (Z.of_nat (length pre + (length ws + length post)))); [| lia].
  simpl. f_equal.
  rewrite Nat2Z.id. rewrite drop_app_length.
  replace (Z.to_nat _) with (length ws) by lia.
  by rewrite take_app_length.
Qed.

Lemma closureLoop_first (blocks : list BasicBlock) (blk : BasicBlock)
    (todo : list BasicBlock) (b : nat) (c c' : closure) (ws : list Z) :
  closureLoop blocks (blk :: todo) b c = Some c' ->
  intervalsOf blocks b = Some ws ->
  span c !! b = Some (Z.of_nat (length (reachables c))) ->
  Z.of_nat (length (reachables c ++ ws)) < 2 ^ 32 ->
  reachable c' b = Some ws.
Proof.
  intros Hloop Hws Hb Hsmall. simpl in Hloop. rewrite Hws in Hloop. simpl in Hloop.
  destruct (decide _) as [Hlt | ]; [| done].
  destruct (closureLoop_frame _ _ _ _ _ Hloop) as ([more Hmore] & Hlen & Hspan).
  simpl in *.
  apply (reachable_slice c' b (reachables c) ws more).
  - by rewrite Hmore, app_assoc.
  - rewrite Hspan by lia. rewrite list_lookup_insert_ne by lia. done.
  - rewrite Hspan by lia. rewrite list_lookup_insert_eq by lia.
    f_equal. apply Z.mod_small. lia.
Qed.

Lemma closureLoop_reachable (blocks : list BasicBlock) :
  forall (todo : list BasicBlock) (b : nat) (c c' : closure),
    closureLoop blocks todo b c = Some c' ->
    span c !! b = Some (Z.of_nat (length (reachables c))) ->
    Z.of_nat (length (reachables c')) < 2 ^ 32 ->
    forall s, (b <= s < b + length todo)%nat -> reachable c' s = intervalsOf blocks s.
Proof.
  induction todo as [| blk todo IH]; intros b c c' Hloop Hb Hsmall s Hs;
    [simpl in Hs; lia |].
  pose proof Hloop as Hloop'. simpl in Hloop.
  destruct (intervalsOf blocks b) as [ws |] eqn:Hws; [simpl in Hloop | done].
  destruct (decide _) as [Hlt | ]; [| done].
  destruct (closureLoop_frame _ _ _ _ _ Hloop) as ([more Hmore] & _ & _).
  simpl in Hmore.
  assert (Hrs : Z.of_nat (length (reachables c ++ ws)) < 2 ^ 32).
  { rewrite Hmore, length_app in Hsmall. lia. }
  destruct (decide (s = b)) as [-> | Hne].
  - rewrite Hws. by eapply closureLoop_first.
  - apply (IH _ _ _ Hloop); simpl in *; [| done | lia].
    rewrite list_lookup_insert_eq by lia. f_equal. apply Z.mod_small. lia.
Qed.

Lemma closureLoop_total (blocks : list BasicBlock) :
  succs_in_range blocks = true ->
  forall (todo : list BasicBlock) (b : nat) (c : closure),
    (b + length todo <= length blocks)%nat ->
    (length blocks < length (span c))%nat ->
    exists c', closureLoop blocks todo b c = Some c'.
Proof.
  intros Hwf. induction todo as [| blk todo IH]; intros b c Hb Hspan; simpl.
  - by exists c.
  - simpl in Hb.
    destruct (reachedFrom_walk blocks b Hwf ltac:(lia)) as [Hwalk _].
    unfold intervalsOf. rewrite Hwalk. simpl.
    destruct (encodeRuns _ 0 noStart) as [ws st]. simpl.
    destruct (decide _) as [Hlt | Hge]; [| lia].
    apply IH; simpl; [lia | by rewrite length_insert].
Qed.

Lemma transitiveClosure_total (blocks : list BasicBlock) :
  succs_in_range blocks = true -> (0 < length blocks)%nat ->
  exists c, transitiveClosure blocks = Some c.
Proof.
  intros Hwf Hn. destruct blocks as [| b0 todo]; [simpl in Hn; lia |].
  unfold transitiveClosure. apply closureLoop_total; simpl; [done | lia |].
  rewrite length_replicate. lia.
Qed.

Lemma transitiveClosure_reachable (blocks : list BasicBlock) (c : closure) (s : nat) :
  transitiveClosure blocks = Some c ->
  Z.of_nat (length (reachables c)) < 2 ^ 32 ->
  (s < length blocks)%nat ->
  reachable c s = if decide (s = 0%nat) then Some [] else intervalsOf blocks s.
Proof.
  intros Hc Hsmall Hs. destruct blocks as [| b0 todo]; [done |].
  unfold transitiveClosure in Hc.
  destruct (decide (s = 0%nat)) as [-> | Hne].
  - destruct (closureLoop_frame _ _ _ _ _ Hc) as (_ & _ & Hspan). simpl in Hspan.
    apply (reachable_slice c 0 [] [] (reachables c)); [done | |].
    + by rewrite Hspan by lia.
    + by rewrite Hspan by lia.
  - apply (closureLoop_reachable _ _ _ _ _ Hc); simpl in *; [done | done | lia].
Qed.

(** *** What [has] answers *)

Lemma has_hasSpec (Dominates : nat -> nat -> bool) (blocks : list BasicBlock)
    (c : closure) (s v : nat) :
  Z.of_nat (length blocks) <= 2 ^ 20 -> succs_in_range blocks = true ->
  transitiveClosure blocks = Some c ->
  Z.of_nat (length (reachables c)) < 2 ^ 32 ->
  (s < length blocks)%nat -> (v < length blocks)%nat ->
  has Dominates c s v = Some (hasSpec Dominates blocks s v).
Proof.
  intros Hn Hwf Hc Hsmall Hs Hv. unfold has, hasSpec.
  assert (Hidx : uint32 (Z.of_nat v) = Z.of_nat v) by (apply Z.mod_small; lia).
  rewrite Hidx. destruct ((Z.of_nat v =? 1) || Dominates s v); [done |].
  rewrite (transitiveClosure_reachable blocks c s Hc Hsmall Hs). simpl.
  destruct (decide (s = 0%nat)) as [-> | Hne]; [done |].
  rewrite intervalsOf_flush by (done || lia). simpl.
  destruct (reachedFrom_walk blocks s Hwf Hs) as [_ Hlen].
  rewrite scan_flush by (rewrite ?Hlen; lia || by left).
  f_equal. unfold covered. change (noStart =? noStart) with true.
  destruct (Nat.eqb_spec s 0); [done |]. simpl.
  destruct (Z.leb_spec 0 (Z.of_nat v)); [| lia]. simpl.
  by rewrite Z.sub_0_r, Nat2Z.id.
Qed.

(** C9, as amended: for a function of more than 2 and at most 2^20 blocks whose
    index words fit a [uint32] offset, [transitiveClosure] returns an index on
    which [has(s, v)] is true for block 1 and for a block [s] dominates, and
    otherwise exactly when the walk from [s] recorded [v] (nothing is recorded
    for block 0); an interval of length 0..2047 is one word, start in the low
    20 bits, length in the next 11, top bit 0, and a longer one is two words. *)
Theorem closure_has_decodes_walk (Dominates : nat -> nat -> bool)
    (blocks : list BasicBlock) :
  (2 < length blocks)%nat -> Z.of_nat (length blocks) <= 2 ^ 20 ->
  succs_in_range blocks = true ->
  exists c, transitiveClosure blocks = Some c
    /\ (Z.of_nat (length (reachables c)) < 2 ^ 32 ->
        forall s v, (s < length blocks)%nat -> (v < length blocks)%nat ->
          has Dominates c s v = Some (hasSpec Dominates blocks s v))
    /\ (forall start end_, 0 <= start <= end_ -> start < 2 ^ 20 -> end_ < 2 ^ 32 ->
          addInterval start end_ =
          if end_ - start <=? 2047
          then [(end_ - start) * 2 ^ 20 + start]
          else [2 ^ 31 + start; end_]).
Proof.
  intros Hn Hmax Hwf.
  destruct (transitiveClosure_total blocks Hwf ltac:(lia)) as [c Hc].
  exists c. split_and!; [done | |].
  - intros Hsmall s v Hs Hv. by apply has_hasSpec.
  - intros start end_ Hse Hs He. unfold addInterval.
    assert (Hl : uint32 (end_ - start) = end_ - start) by (apply Z.mod_small; lia).
    rewrite Hl. change (Z.shiftl 1 lengthBits - 1) with 2047.
    destruct (Z.leb_spec (end_ - start) 2047).
    + by rewrite small_word by lia.
    + by rewrite large_word by lia.
Qed.

Lemma closure_has_decodes_walk_witness :
  (2 < length threeBlocks)%nat
  /\ Z.of_nat (length threeBlocks) <= 2 ^ 20
  /\ succs_in_range threeBlocks = true
  /\ exists c, transitiveClosure threeBlocks = Some c
       /\ Z.of_nat (length (reachables c)) < 2 ^ 32
       /\ has (fun s v => (s =? 0)%nat || (s =? v)%nat) c 2 0 = Some false
       /\ has (fun s v => (s =? 0)%nat || (s =? v)%nat) c 2 2 = Some true.
Proof.
  assert (H1 : (2 < length threeBlocks)%nat) by (simpl; lia).
  assert (H2 : Z.of_nat (length threeBlocks) <= 2 ^ 20) by (simpl; lia).
  assert (H3 : succs_in_range threeBlocks = true) by reflexivity.
  split_and!; [exact H1 | exact H2 | exact H3 |].
  destruct (closure_has_decodes_walk (fun s v => (s =? 0)%nat || (s =? v)%nat)
              threeBlocks H1 H2 H3) as (c & Hc & Hhas & _).
  exists c. split; [exact Hc |].
  assert (Hsmall : Z.of_nat (length (reachables c)) < 2 ^ 32).
  { vm_compute in Hc. injection Hc as <-. simpl. lia. }
  split; [exact Hsmall |].
  split; rewrite (Hhas Hsmall) by (simpl; lia); vm_compute; reflexivity.
Defined.

Lemma chain_length (m : nat) : forall k len, length (chain m k len) = len.
Proof.
  intros k len. revert k. induction len as [| len IH]; intros k; [done |].
  destruct len as [| len]; [done |]. simpl in *. by rewrite IH.
Qed.

Lemma chain_succs (m n : nat) : forall len k, (k + len <= n)%nat ->
  forallb (fun blk => forallb (fun s => s <? n)%nat (Succs blk)) (chain m k len) = true.
Proof.
  induction len as [| len IH]; intros k Hk; [done |].
  destruct len as [| len]; [done |].
  change (chain m k (S (S len)))
    with (mkBlock k [(k - 1)%nat] [S k] [] 0 0 0 :: chain m (S k) (S len)).
  cbn [forallb Succs]. rewrite IH by lia.
  destruct (Nat.ltb_spec (S k) n); [done | lia].
Qed.

Lemma chainFn_in_range (m : nat) : (2 <= m)%nat -> succs_in_range (chainFn m) = true.
Proof.
  intros Hm. unfold succs_in_range.
  assert (Hlen : length (chainFn m) = S m).
  { unfold chainFn. cbn [length]. rewrite chain_length. lia. }
  rewrite Hlen. unfold chainFn. cbn [forallb Succs].
  rewrite chain_succs by lia.
  destruct (Nat.ltb_spec 1 (S m)); [| lia].
  destruct (Nat.ltb_spec 2 (S m)); [| lia].
  destruct (Nat.ltb_spec m (S m)); [done | lia].
Qed.

Lemma chainFn_first (m : nat) (c : closure) (ws : list Z) :
  transitiveClosure (chainFn m) = Some c ->
  intervalsOf (chainFn m) 1 = Some ws ->
  Z.of_nat (length ws) < 2 ^ 32 ->
  reachable c 1 = Some ws.
Proof.
  intros Hc Hws Hsmall. unfold transitiveClosure, chainFn in Hc. fold (chainFn m) in Hc.
  eapply closureLoop_first; [exact Hc | exact Hws | done | done].
Qed.

Lemma chainFn_refutes (m : nat) (ws : list Z) :
  (2 <=? m)%nat = true ->
  intervalsOf (chainFn m) 1 = Some ws ->
  (Z.of_nat (length ws) <? 2 ^ 32) = true ->
  hasSpec (chainDominates m) (chainFn m) 1 m = true ->
  (uint32 (Z.of_nat m) =? 1) || chainDominates m 1 m = false ->
  scan (uint32 (Z.of_nat m)) ws = Some false ->
  ~ (forall (Dominates : nat -> nat -> bool) (blocks : list BasicBlock),
       (2 < length blocks)%nat -> succs_in_range blocks = true ->
       exists c, transitiveClosure blocks = Some c
         /\ forall s v, (s < length blocks)%nat -> (v < length blocks)%nat ->
              has Dominates c s v = Some (hasSpec Dominates blocks s v)).
Proof.
  intros Hm Hws Hsmall Hspec Hshort Hscan H.
  apply Nat.leb_le in Hm. apply Z.ltb_lt in Hsmall.
  assert (Hlen : length (chainFn m) = S m).
  { unfold chainFn. cbn [length]. rewrite chain_length. lia. }
  destruct (H (chainDominates m) (chainFn m)) as (c & Hc & Hhas).
  { rewrite Hlen. lia. } { by apply chainFn_in_range. }
  specialize (Hhas 1%nat m). rewrite Hlen in Hhas.
  specialize (Hhas ltac:(lia) ltac:(lia)).
  unfold has in Hhas.
  rewrite Hshort, (chainFn_first m c ws Hc Hws Hsmall), Hspec in Hhas.
  simpl in Hhas. rewrite Hscan in Hhas. discriminate.
Qed.

(** C9, as stated, fails on a function with more than 2^20 blocks: block 2^20
    is recorded as reachable from block 1, but its interval is encoded with a
    start that does not fit the 20 bits, and [has] answers false. *)
Lemma closure_has_start_overflow :
  ~ (forall (Dominates : nat -> nat -> bool) (blocks : list BasicBlock),
       (2 < length blocks)%nat -> succs_in_range blocks = true ->
       exists c, transitiveClosure blocks = Some c
         /\ forall s v, (s < length blocks)%nat -> (v < length blocks)%nat ->
              has Dominates c s v = Some (hasSpec Dominates blocks s v)).
Proof.
  apply (chainFn_refutes (2 ^ 20) [1; 2 ^ 20]); vm_compute; reflexivity.
Qed.

End ClosureFacts.

(** * Properties of the lifting pass *)

Module LiftingFacts.
Import IR.

Section Preserves.
Variable P : LiftState -> Prop.

Lemma preserves_ret {A : Type} (a : A) : preserves P (mret a).
Proof. by intros st H. Qed.

Lemma preserves_stop {A : Type} : preserves P (@stop A).
Proof. by intros st H. Qed.

Lemma preserves_get : preserves P get.
Proof. by intros st H. Qed.

Lemma preserves_orStop {A : Type} (o : option A) : preserves P (orStop o).
Proof. destruct o; by intros st H. Qed.

Lemma preserves_bind {A B : Type} (m : M A) (k : A -> M B) :
  preserves P m -> (forall a, preserves P (k a)) -> preserves P (m ≫= k).
Proof.
  intros Hm Hk st H. unfold mbind, M_bind. specialize (Hm st H).
  destruct (m st) as [[a |] st']; simpl in *; [by apply Hk | done].
Qed.

Lemma preserves_modify (f : LiftState -> LiftState) :
  (forall st, P st -> P (f st)) -> preserves P (modify f).
Proof. intros Hf st H. by apply Hf. Qed.

Lemma preserves_forEach {A : Type} (l : list A) (body : A -> M unit) :
  (forall x, preserves P (body x)) -> preserves P (forEach l body).
Proof.
  intros Hbody. induction l as [| x l IH]; simpl.
  - apply preserves_ret.
  - apply preserves_bind; [apply Hbody | by intros _].
Qed.
End Preserves.

Section PhisOk.
Variable Dominates : nat -> nat -> bool.
Variable blocks : list BasicBlock.
Variable closure : option Closure.closure.
Variables df rdf : list (list nat).

#[local] Abbreviation ok := (phis_ok blocks).

Lemma ok_putSet (n : SetName) (s : BlockSet) (st : LiftState) :
  ok st -> ok (putSet n s st).
Proof. by destruct n. Qed.

Lemma preserves_add (n : SetName) (b : nat) : preserves ok (add n b).
Proof.
  apply preserves_bind; [apply preserves_get | intros st].
  apply preserves_bind; [apply preserves_orStop | intros r].
  apply preserves_bind; [| intros _; apply preserves_ret].
  apply preserves_modify. intros st'. apply ok_putSet.
Qed.

Lemma preserves_add_ (n : SetName) (b : nat) :
  preserves ok (add n b ;; mret tt).
Proof. apply preserves_bind; [apply preserves_add | intros _; apply preserves_ret]. Qed.

Lemma preserves_setFrom (n n2 : SetName) : preserves ok (setFrom n n2).
Proof. apply preserves_modify. intros st. apply ok_putSet. Qed.

Lemma preserves_take (n : SetName) : preserves ok (take_ n).
Proof.
  apply preserves_bind; [apply preserves_get | intros st].
  apply preserves_bind; [| intros _; apply preserves_ret].
  apply preserves_modify. intros st'. apply ok_putSet.
Qed.

Lemma preserves_setChange (c : bool) : preserves ok (setChange c).
Proof. by apply preserves_modify. Qed.

Lemma preserves_appendSigma (y : nat) (ns : newSigma) :
  preserves ok (appendSigma y ns).
Proof.
  apply preserves_bind; [apply preserves_get | intros st].
  apply preserves_bind; [apply preserves_orStop | intros nss].
  by apply preserves_modify.
Qed.

Lemma preserves_appendPhi (y : nat) (np : newPhi) :
  phi_ok blocks y np -> preserves ok (appendPhi y np).
Proof.
  intros Hnp st0 Hst0. unfold appendPhi, mbind, M_bind, get. simpl.
  destruct (newPhis st0 !! y) as [nps |] eqn:Hy; simpl; [| done].
  intros j l np' Hj Hin. simpl in Hj.
  destruct (decide (j = y)) as [-> | Hne].
  - rewrite list_lookup_insert_eq in Hj by (by eapply lookup_lt_Some).
    injection Hj as <-. apply elem_of_app in Hin as [Hin | Hin].
    + by eapply Hst0.
    + apply list_elem_of_singleton in Hin as ->. done.
  - rewrite list_lookup_insert_ne in Hj by done. by eapply Hst0.
Qed.

Lemma preserves_phiStep (alloc : AllocInfo) (y : nat) :
  preserves ok (phiStep Dominates blocks closure alloc y).
Proof.
  unfold phiStep.
  apply preserves_bind; [apply preserves_add | intros added].
  destruct (negb added); [apply preserves_ret |].
  destruct (_ =? _); [apply preserves_ret |].
  apply preserves_bind.
  { destruct closure; [apply preserves_orStop | apply preserves_ret]. }
  intros live. destruct (negb live); [apply preserves_ret |].
  intros st0 Hst0. unfold mbind at 1, M_bind at 1.
  destruct (blocks !! y) as [yb |] eqn:Hyb; simpl; [| done].
  destruct (Nat.eqb_spec (length (Preds yb)) 0) as [| Hpreds]; [done |].
  revert st0 Hst0. apply preserves_bind.
  { apply preserves_appendPhi. split; [done |].
    exists yb. split_and!; [done | lia | simpl; by rewrite length_replicate]. }
  intros _. apply preserves_bind.
  { apply preserves_forEach. intros p. apply preserves_add_. }
  intros _. apply preserves_bind; [apply preserves_setChange | intros _].
  apply preserves_bind; [apply preserves_add | intros d].
  destruct d; [apply preserves_add_ | apply preserves_ret].
Qed.

Lemma preserves_sigmaStep (alloc : AllocInfo) (y : nat) :
  preserves ok (sigmaStep Dominates blocks closure alloc y).
Proof.
  unfold sigmaStep.
  apply preserves_bind; [apply preserves_add | intros added].
  destruct (negb added); [apply preserves_ret |].
  apply preserves_bind; [apply preserves_orStop | intros yb].
  apply preserves_bind; [apply preserves_orStop | intros r].
  destruct r.2; [| apply preserves_ret].
  apply preserves_bind; [apply preserves_appendSigma | intros _].
  apply preserves_bind.
  { apply preserves_forEach. intros p. apply preserves_add_. }
  intros _. apply preserves_bind; [apply preserves_setChange | intros _].
  apply preserves_bind; [apply preserves_add | intros d].
  destruct d; [apply preserves_add_ | apply preserves_ret].
Qed.

Lemma preserves_worklist (frontier : list (list nat)) (step : nat -> M unit) :
  (forall y, preserves ok (step y)) ->
  forall fuel, preserves ok (worklist blocks fuel frontier step).
Proof.
  intros Hstep. induction fuel as [| fuel IH]; simpl; [apply preserves_stop |].
  apply preserves_bind; [apply preserves_take | intros [i |]];
    [| apply preserves_ret].
  apply preserves_bind; [apply preserves_orStop | intros _].
  apply preserves_bind; [apply preserves_orStop | intros ys].
  apply preserves_bind; [by apply preserves_forEach | by intros _].
Qed.

Lemma preserves_placement (alloc : AllocInfo) :
  forall fuel, preserves ok (placement Dominates blocks closure df rdf fuel alloc).
Proof.
  induction fuel as [| fuel IH]; simpl; [apply preserves_stop |].
  apply preserves_bind; [apply preserves_setChange | intros _].
  apply preserves_bind; [apply preserves_setFrom | intros _].
  apply preserves_bind;
    [apply preserves_worklist, preserves_phiStep | intros _].
  apply preserves_bind; [apply preserves_setFrom | intros _].
  apply preserves_bind;
    [apply preserves_worklist, preserves_sigmaStep | intros _].
  apply preserves_bind; [apply preserves_get | intros st].
  destruct (change st); [apply IH | apply preserves_ret].
Qed.

Lemma preserves_liftAlloc (fuel : nat) (cursors : SetName -> nat)
    (alloc : AllocInfo) :
  preserves ok (liftAlloc Dominates blocks closure df rdf fuel cursors alloc).
Proof.
  unfold liftAlloc.
  apply preserves_bind; [by apply preserves_modify | intros _].
  apply preserves_bind.
  { apply preserves_forEach. intros r.
    destruct (ref_instr r); try apply preserves_ret; [apply preserves_add_ |].
    apply preserves_bind; [apply preserves_add | intros _].
    apply preserves_forEach. intros b. apply preserves_add_. }
  intros _. apply preserves_bind; [apply preserves_add | intros _].
  apply preserves_placement.
Qed.

Lemma ok_initialState : ok (initialState blocks).
Proof.
  intros j l np Hj Hin. simpl in Hj.
  apply lookup_replicate in Hj as [-> _]. by apply elem_of_nil in Hin.
Qed.

Variable predIndex : nat -> nat -> nat.
Variable newval : nat -> nat -> newPhi -> Value.

Lemma setEdge_spec (i : nat) (v : Value) (np np' : newPhi) :
  setEdge i v np = Some np' ->
  Edges (np_phi np') = <[i := Some v]> (Edges (np_phi np))
  /\ i < length (Edges (np_phi np))
  /\ phiBlock (np_phi np') = phiBlock (np_phi np)
  /\ np_alloc np' = np_alloc np.
Proof.
  unfold setEdge. destruct (decide _) as [Hi |]; [| done].
  by intros [= <-].
Qed.

Lemma setEdge_ok (i j : nat) (v : Value) (np np' : newPhi) :
  setEdge i v np = Some np' -> phi_ok blocks j np -> phi_ok blocks j np'.
Proof.
  intros Hset (Hblock & b & Hb & Hpos & Hlen).
  apply setEdge_spec in Hset as (HE & _ & HB & _).
  split; [congruence |]. exists b. split_and!; [done | done |].
  by rewrite HE, length_insert.
Qed.

Lemma preserves_renameEdges (u : nat) :
  preserves ok (renameEdges blocks predIndex newval u).
Proof.
  unfold renameEdges.
  apply preserves_bind; [apply preserves_orStop | intros ub].
  apply preserves_forEach. intros [succi v] st0 Hst0.
  unfold mbind, M_bind, get. simpl.
  destruct (newPhis st0 !! v) as [phis |] eqn:Hv; simpl; [| done].
  destruct (length phis =? 0); [done |].
  destruct (mapM _ phis) as [phis' |] eqn:Hmap; simpl; [| done].
  intros j l np' Hj Hin. simpl in Hj.
  destruct (decide (j = v)) as [-> | Hne].
  - rewrite list_lookup_insert_eq in Hj by (by eapply lookup_lt_Some).
    injection Hj as <-.
    apply mapM_Some_1 in Hmap.
    apply list_elem_of_lookup in Hin as [k Hk].
    destruct (Forall2_lookup_r _ _ _ _ _ Hmap Hk) as (np & Hnp & Hset).
    eapply setEdge_ok; [exact Hset |].
    eapply Hst0; [exact Hv |]. by eapply list_elem_of_lookup_2.
  - rewrite list_lookup_insert_ne in Hj by done. by eapply Hst0.
Qed.
End PhisOk.

Section AllPhis.
Variable Dominates : nat -> nat -> bool.
Variable blocks : list BasicBlock.
Variable closure : option Closure.closure.
Variables df rdf : list (list nat).
Variable good : nat -> newPhi -> Prop.
Hypothesis good_new : forall y yb cell,
  blocks !! y = Some yb -> length (Preds yb) <> 0 ->
  good y (mkNewPhi (mkPhi (replicate (length (Preds yb)) None) (Some y) false) cell).

#[local] Abbreviation all := (allPhis good).

Lemma all_putSet (n : SetName) (s : BlockSet) (st : LiftState) :
  all st -> all (putSet n s st).
Proof. by destruct n. Qed.

Lemma all_add (n : SetName) (b : nat) : preserves all (add n b).
Proof.
  apply preserves_bind; [apply preserves_get | intros st].
  apply preserves_bind; [apply preserves_orStop | intros r].
  apply preserves_bind; [| intros _; apply preserves_ret].
  apply preserves_modify. intros st'. apply all_putSet.
Qed.

Lemma all_add_ (n : SetName) (b : nat) : preserves all (add n b ;; mret tt).
Proof. apply preserves_bind; [apply all_add | intros _; apply preserves_ret]. Qed.

Lemma all_setFrom (n n2 : SetName) : preserves all (setFrom n n2).
Proof. apply preserves_modify. intros st. apply all_putSet. Qed.

Lemma all_take (n : SetName) : preserves all (take_ n).
Proof.
  apply preserves_bind; [apply preserves_get | intros st].
  apply preserves_bind; [| intros _; apply preserves_ret].
  apply preserves_modify. intros st'. apply all_putSet.
Qed.

Lemma all_setChange (c : bool) : preserves all (setChange c).
Proof. by apply preserves_modify. Qed.

Lemma all_appendSigma (y : nat) (ns : newSigma) : preserves all (appendSigma y ns).
Proof.
  apply preserves_bind; [apply preserves_get | intros st].
  apply preserves_bind; [apply preserves_orStop | intros nss].
  by apply preserves_modify.
Qed.

Lemma all_appendPhi (y : nat) (np : newPhi) :
  good y np -> preserves all (appendPhi y np).
Proof.
  intros Hnp st0 Hst0. unfold appendPhi, mbind, M_bind, get. simpl.
  destruct (newPhis st0 !! y) as [nps |] eqn:Hy; simpl; [| done].
  intros j l np' Hj Hin. simpl in Hj.
  destruct (decide (j = y)) as [-> | Hne].
  - rewrite list_lookup_insert_eq in Hj by (by eapply lookup_lt_Some).
    injection Hj as <-. apply elem_of_app in Hin as [Hin | Hin].
    + by eapply Hst0.
    + apply list_elem_of_singleton in Hin as ->. done.
  - rewrite list_lookup_insert_ne in Hj by done. by eapply Hst0.
Qed.

Lemma all_phiStep (alloc : AllocInfo) (y : nat) :
  preserves all (phiStep Dominates blocks closure alloc y).
Proof.
  unfold phiStep.
  apply preserves_bind; [apply all_add | intros added].
  destruct (negb added); [apply preserves_ret |].
  destruct (_ =? _); [apply preserves_ret |].
  apply preserves_bind.
  { destruct closure; [apply preserves_orStop | apply preserves_ret]. }
  intros live. destruct (negb live); [apply preserves_ret |].
  intros st0 Hst0. unfold mbind at 1, M_bind at 1.
  destruct (blocks !! y) as [yb |] eqn:Hyb; simpl; [| done].
  destruct (Nat.eqb_spec (length (Preds yb)) 0) as [| Hpreds]; [done |].
  revert st0 Hst0. apply preserves_bind.
  { apply all_appendPhi. by apply good_new. }
  intros _. apply preserves_bind.
  { apply preserves_forEach. intros p. apply all_add_. }
  intros _. apply preserves_bind; [apply all_setChange | intros _].
  apply preserves_bind; [apply all_add | intros d].
  destruct d; [apply all_add_ | apply preserves_ret].
Qed.

Lemma all_sigmaStep (alloc : AllocInfo) (y : nat) :
  preserves all (sigmaStep Dominates blocks closure alloc y).
Proof.
  unfold sigmaStep.
  apply preserves_bind; [apply all_add | intros added].
  destruct (negb added); [apply preserves_ret |].
  apply preserves_bind; [apply preserves_orStop | intros yb].
  apply preserves_bind; [apply preserves_orStop | intros r].
  destruct r.2; [| apply preserves_ret].
  apply preserves_bind; [apply all_appendSigma | intros _].
  apply preserves_bind.
  { apply preserves_forEach. intros p. apply all_add_. }
  intros _. apply preserves_bind; [apply all_setChange | intros _].
  apply preserves_bind; [apply all_add | intros d].
  destruct d; [apply all_add_ | apply preserves_ret].
Qed.

Lemma all_worklist (frontier : list (list nat)) (step : nat -> M unit) :
  (forall y, preserves all (step y)) ->
  forall fuel, preserves all (worklist blocks fuel frontier step).
Proof.
  intros Hstep. induction fuel as [| fuel IH]; simpl; [apply preserves_stop |].
  apply preserves_bind; [apply all_take | intros [i |]];
    [| apply preserves_ret].
  apply preserves_bind; [apply preserves_orStop | intros _].
  apply preserves_bind; [apply preserves_orStop | intros ys].
  apply preserves_bind; [by apply preserves_forEach | by intros _].
Qed.

Lemma all_placement (alloc : AllocInfo) :
  forall fuel, preserves all (placement Dominates blocks closure df rdf fuel alloc).
Proof.
  induction fuel as [| fuel IH]; simpl; [apply preserves_stop |].
  apply preserves_bind; [apply all_setChange | intros _].
  apply preserves_bind; [apply all_setFrom | intros _].
  apply preserves_bind; [apply all_worklist, all_phiStep | intros _].
  apply preserves_bind; [apply all_setFrom | intros _].
  apply preserves_bind; [apply all_worklist, all_sigmaStep | intros _].
  apply preserves_bind; [apply preserves_get | intros st].
  destruct (change st); [apply IH | apply preserves_ret].
Qed.

Lemma all_liftAlloc (fuel : nat) (cursors : SetName -> nat) (alloc : AllocInfo) :
  preserves all (liftAlloc Dominates blocks closure df rdf fuel cursors alloc).
Proof.
  unfold liftAlloc.
  apply preserves_bind; [by apply preserves_modify | intros _].
  apply preserves_bind.
  { apply preserves_forEach. intros r.
    destruct (ref_instr r); try apply preserves_ret; [apply all_add_ |].
    apply preserves_bind; [apply all_add | intros _].
    apply preserves_forEach. intros b. apply all_add_. }
  intros _. apply preserves_bind; [apply all_add | intros _].
  apply all_placement.
Qed.

Lemma all_liftAllocs (fuel : nat) (cursors : SetName -> nat)
    (allocs : list AllocInfo) :
  all (liftAllocs Dominates blocks closure df rdf fuel cursors allocs).2.
Proof.
  unfold liftAllocs. apply (preserves_forEach all).
  - intros alloc. apply all_liftAlloc.
  - intros j l np Hj Hin. simpl in Hj.
    apply lookup_replicate in Hj as [-> _]. by apply elem_of_nil in Hin.
Qed.
End AllPhis.

Lemma bind_Some {A B : Type} (m : M A) (k : A -> M B) (st st' : LiftState) (b : B) :
  (m ≫= k) st = (Some b, st') ->
  exists a st1, m st = (Some a, st1) /\ k a st1 = (Some b, st').
Proof.
  unfold mbind, M_bind. destruct (m st) as [[a |] st1]; [| done].
  intros H. by exists a, st1.
Qed.

Lemma preserves_forEach_in (P : LiftState -> Prop) {A : Type} (l : list A)
    (body : A -> M unit) :
  (forall x, x ∈ l -> preserves P (body x)) -> preserves P (forEach l body).
Proof.
  induction l as [| x l IH]; intros Hbody; simpl.
  - apply preserves_ret.
  - apply preserves_bind; [apply Hbody; by left |].
    intros _. apply IH. intros y Hy. apply Hbody. by right.
Qed.

Lemma grows_refl (np : newPhi) : grows np np.
Proof. split; [done |]. intros i x H. by exists x. Qed.

Lemma grows_trans (np1 np2 np3 : newPhi) :
  grows np1 np2 -> grows np2 np3 -> grows np1 np3.
Proof.
  intros [Ha1 H1] [Ha2 H2]. split; [congruence |].
  intros i x Hx. destruct (H1 i x Hx) as [x' Hx']. by eapply H2.
Qed.

Lemma growsAll_refl (st : LiftState) : growsAll st st.
Proof.
  intros j l Hl. exists l. split; [done |].
  apply Forall2_same_length_lookup_2; [done |].
  intros i np np' H1 H2. rewrite H1 in H2. injection H2 as <-. apply grows_refl.
Qed.

Lemma growsAll_trans (st1 st2 st3 : LiftState) :
  growsAll st1 st2 -> growsAll st2 st3 -> growsAll st1 st3.
Proof.
  intros H12 H23 j l3 Hl3.
  destruct (H23 j l3 Hl3) as (l2 & Hl2 & F23).
  destruct (H12 j l2 Hl2) as (l1 & Hl1 & F12).
  exists l1. split; [done |]. clear -F12 F23.
  revert l3 F23. induction F12 as [| x y l1 l2 Hxy _ IH]; intros l3 F23.
  - inversion F23. constructor.
  - inversion F23 as [| ? z ? l3' Hyz F]; subst.
    constructor; [by eapply grows_trans | by apply IH].
Qed.

Lemma filledFrom_grows (predIndex : nat -> nat -> nat) (u v : nat)
    (st st' : LiftState) :
  filledFrom predIndex u v st -> growsAll st st' -> filledFrom predIndex u v st'.
Proof.
  intros Hfilled Hgrows l' np' Hl' Hin.
  destruct (Hgrows v l' Hl') as (l & Hl & F).
  apply list_elem_of_lookup in Hin as [k Hk].
  destruct (Forall2_lookup_r _ _ _ _ _ F Hk) as (np & Hnp & _ & Hmono).
  destruct (Hfilled l np Hl) as [x Hx]; [by eapply list_elem_of_lookup_2 |].
  by eapply Hmono.
Qed.

(** A loop whose every round lets the phis grow and establishes [post] of
    its element, which growing keeps. *)
Lemma forEach_grows {A : Type} (post : A -> LiftState -> Prop) (body : A -> M unit)
    (l : list A) :
  (forall x st st', x ∈ l -> body x st = (Some tt, st') ->
                    growsAll st st' /\ post x st') ->
  (forall x st st', post x st -> growsAll st st' -> post x st') ->
  forall st st', forEach l body st = (Some tt, st') ->
                 growsAll st st' /\ forall x, x ∈ l -> post x st'.
Proof.
  intros Hbody Hkeep. induction l as [| x l IH]; intros st st' Hrun.
  - simpl in Hrun. injection Hrun as <-. split; [apply growsAll_refl |].
    intros x Hx. by apply elem_of_nil in Hx.
  - simpl in Hrun. apply bind_Some in Hrun as ([] & st1 & Hx & Hrest).
    destruct (Hbody x st st1) as [Hg1 Hpost]; [by left | done |].
    destruct IH with (st := st1) (st' := st') as [Hg2 Hposts]; [| done |].
    { intros y s s' Hy. apply Hbody. by right. }
    split; [by eapply growsAll_trans |].
    intros y [-> | Hy]%elem_of_cons; [by eapply Hkeep | by apply Hposts].
Qed.

Section Filling.
Variable blocks : list BasicBlock.
Variable predIndex : nat -> nat -> nat.
Variable newval : nat -> nat -> newPhi -> Value.

Lemma edgesIndexed_spec (u v : nat) (ub : BasicBlock) :
  edgesIndexed blocks predIndex = true ->
  blocks !! u = Some ub -> v ∈ Succs ub ->
  exists vb, blocks !! v = Some vb /\ Preds vb !! predIndex v u = Some u.
Proof.
  unfold edgesIndexed. rewrite forallb_forall. intros Hall Hu Hv.
  specialize (Hall u). rewrite Hu in Hall.
  assert (Hin : In u (seq 0 (length blocks))).
  { apply in_seq. apply lookup_lt_Some in Hu. lia. }
  specialize (Hall Hin). rewrite forallb_forall in Hall.
  specialize (Hall v). rewrite <- list_elem_of_In in Hall. specialize (Hall Hv).
  destruct (blocks !! v) as [vb |]; [| done].
  exists vb. split; [done |]. by apply bool_decide_eq_true in Hall.
Qed.

(** One round of the loop of [rename] over the successors of [u]. *)
Lemma fill_round (u succi v : nat) (st st' : LiftState) :
  (st0 ← get;
   phis ← orStop (newPhis st0 !! v);
   if (length phis =? 0)%nat then mret tt
   else
     phis' ← orStop (mapM (fun np => setEdge (predIndex v u) (newval u succi np) np)
                          phis);
     modify (fun st => mkLiftState (defblocks st) (useblocks st) (Aphi st)
                         (Asigma st) (W st) (<[v := phis']> (newPhis st))
                         (newSigmas st) (change st))) st = (Some tt, st') ->
  exists phis phis',
    newPhis st !! v = Some phis
    /\ newPhis st' = <[v := phis']> (newPhis st)
    /\ Forall2 (fun np np' =>
                  setEdge (predIndex v u) (newval u succi np) np = Some np')
         phis phis'.
Proof.
  unfold mbind, M_bind, get. simpl.
  destruct (newPhis st !! v) as [phis |] eqn:Hv; simpl; [| done].
  destruct (Nat.eqb_spec (length phis) 0) as [Hlen |].
  - intros [= <-]. exists phis, phis. split_and!; [done | |].
    + by rewrite list_insert_id.
    + by destruct phis.
  - destruct (mapM _ phis) as [phis' |] eqn:Hmap; simpl; [| done].
    intros [= <-]. exists phis, phis'. simpl. split_and!; [done | done |].
    by apply mapM_Some_1.
Qed.

Lemma setEdge_grows (i : nat) (x : Value) (np np' : newPhi) :
  setEdge i x np = Some np' ->
  grows np np' /\ Edges (np_phi np') !! i = Some (Some x).
Proof.
  intros (HE & Hi & _ & Ha)%setEdge_spec. split; [split; [done |] |].
  - intros k y Hk. rewrite HE. destruct (decide (k = i)) as [-> | Hne].
    + exists x. by apply list_lookup_insert_eq.
    + exists y. by rewrite list_lookup_insert_ne.
  - rewrite HE. by apply list_lookup_insert_eq.
Qed.

Lemma fill_round_grows (u succi v : nat) (st st' : LiftState) :
  (st0 ← get;
   phis ← orStop (newPhis st0 !! v);
   if (length phis =? 0)%nat then mret tt
   else
     phis' ← orStop (mapM (fun np => setEdge (predIndex v u) (newval u succi np) np)
                          phis);
     modify (fun st => mkLiftState (defblocks st) (useblocks st) (Aphi st)
                         (Asigma st) (W st) (<[v := phis']> (newPhis st))
                         (newSigmas st) (change st))) st = (Some tt, st') ->
  growsAll st st' /\ filledFrom predIndex u v st'.
Proof.
  intros (phis & phis' & Hv & Hst' & Hset)%fill_round.
  assert (Hlt : v < length (newPhis st)) by (by eapply lookup_lt_Some).
  split.
  - intros j l' Hl'. rewrite Hst' in Hl'.
    destruct (decide (j = v)) as [-> | Hne].
    + rewrite list_lookup_insert_eq in Hl' by done. injection Hl' as <-.
      exists phis. split; [done |].
      eapply Forall2_impl; [exact Hset |].
      intros np np' H. by apply setEdge_grows in H as [? _].
    + rewrite list_lookup_insert_ne in Hl' by done.
      by apply growsAll_refl.
  - intros l' np' Hl' Hin. rewrite Hst', list_lookup_insert_eq in Hl' by done.
    injection Hl' as <-. apply list_elem_of_lookup in Hin as [k Hk].
    destruct (Forall2_lookup_r _ _ _ _ _ Hset Hk) as (np & _ & H).
    apply setEdge_grows in H as [_ H]. by eexists.
Qed.

Lemma renameEdges_grows (u : nat) (st st' : LiftState) :
  renameEdges blocks predIndex newval u st = (Some tt, st') ->
  growsAll st st'
  /\ forall ub v, blocks !! u = Some ub -> v ∈ Succs ub ->
                  filledFrom predIndex u v st'.
Proof.
  unfold renameEdges. intros (ub & st1 & Hub & Hloop)%bind_Some.
  destruct (blocks !! u) as [ub' |] eqn:Hu; [| done].
  simpl in Hub. injection Hub as -> ->.
  apply (forEach_grows (fun p => filledFrom predIndex u p.2)) in Hloop
    as [Hgrows Hfilled].
  - split; [done |]. intros ub' v [= <-] Hv.
    apply list_elem_of_lookup in Hv as [succi Hsucci].
    apply (Hfilled (succi, v)).
    apply list_elem_of_lookup. exists succi.
    by rewrite list_lookup_imap, Hsucci.
  - intros [succi v] s s' _. apply fill_round_grows.
  - intros [succi v] s s'. apply filledFrom_grows.
Qed.

Lemma renaming_grows (renamed : list nat) (st st' : LiftState) :
  forEach renamed (renameEdges blocks predIndex newval) st = (Some tt, st') ->
  forall u ub v, u ∈ renamed -> blocks !! u = Some ub -> v ∈ Succs ub ->
                 filledFrom predIndex u v st'.
Proof.
  intros Hrun u ub v Hin.
  apply (forEach_grows
           (fun u st => forall ub v, blocks !! u = Some ub -> v ∈ Succs ub ->
                                     filledFrom predIndex u v st)) in Hrun
    as [_ Hfilled].
  - by apply Hfilled.
  - intros x s s' _. apply renameEdges_grows.
  - intros x s s' Hpost Hgrows ub' v' Hub' Hv'.
    eapply filledFrom_grows; [by eapply Hpost | done].
Qed.

Hypothesis indexed : edgesIndexed blocks predIndex = true.

Lemma inOrder_renameEdges (u : nat) :
  preserves (inOrder blocks predIndex newval) (renameEdges blocks predIndex newval u).
Proof.
  intros st Hst. unfold renameEdges, mbind at 1, M_bind at 1.
  destruct (blocks !! u) as [ub |] eqn:Hu; simpl; [| done].
  revert st Hst. apply preserves_forEach_in.
  intros [succi v] Hin st0 Hst0.
  apply list_elem_of_lookup in Hin as [k Hk].
  rewrite list_lookup_imap in Hk.
  destruct (Succs ub !! k) as [v' |] eqn:Hsucc; [| done].
  simpl in Hk. injection Hk as -> ->.
  destruct (edgesIndexed_spec u v ub indexed Hu) as (vb & Hvb & Hpred).
  { by eapply list_elem_of_lookup_2. }
  unfold mbind, M_bind, get. simpl.
  destruct (newPhis st0 !! v) as [phis |] eqn:Hv; simpl; [| done].
  destruct (length phis =? 0); [done |].
  destruct (mapM _ phis) as [phis' |] eqn:Hmap; simpl; [| done].
  intros j l np' Hj Hin i x Hx. simpl in Hj.
  destruct (decide (j = v)) as [-> | Hne].
  - rewrite list_lookup_insert_eq in Hj by (by eapply lookup_lt_Some).
    injection Hj as <-. apply mapM_Some_1 in Hmap.
    apply list_elem_of_lookup in Hin as [n Hn].
    destruct (Forall2_lookup_r _ _ _ _ _ Hmap Hn) as (np & Hnp & Hset).
    apply setEdge_spec in Hset as (HE & Hi & _ & Ha).
    rewrite HE in Hx. destruct (decide (i = predIndex v u)) as [-> | Hi'].
    + rewrite list_lookup_insert_eq in Hx by done. injection Hx as <-.
      by exists u, ub, vb, succi, np.
    + rewrite list_lookup_insert_ne in Hx by done.
      destruct (Hst0 v phis np Hv (list_elem_of_lookup_2 _ _ _ Hnp) i x Hx)
        as (u0 & ub0 & vb0 & succi0 & np0 & ? & ? & ? & ? & ? & ? & ?).
      exists u0, ub0, vb0, succi0, np0. split_and!; try done. congruence.
  - rewrite list_lookup_insert_ne in Hj by done. by eapply Hst0.
Qed.

Lemma inOrder_unfilled (st : LiftState) :
  allPhis (fun _ np => unfilled np) st -> inOrder blocks predIndex newval st.
Proof.
  intros Hst j l np Hj Hin i x Hx. exfalso.
  specialize (Hst j l np Hj Hin). unfold unfilled in Hst.
  rewrite Forall_forall in Hst. by specialize (Hst _ (list_elem_of_lookup_2 _ _ _ Hx)).
Qed.
End Filling.

(** C4: whatever Allocs are lifted and however long the placement runs, every
    phi that [liftAlloc] has created sits in the entry of [newPhis] of its own
    block, that block has at least one predecessor, and the phi has exactly
    one edge slot per predecessor, every slot still nil; a block without
    predecessors holds no phi.  The renaming changes neither the block of a
    phi nor the number of its slots, and where the edges of the function are
    recorded on both sides it fills the slots in predecessor order: a slot
    [i] that is filled holds the value computed for an edge from the [i]-th
    predecessor, and once the renaming has gone through the blocks
    [renamed], every phi of a successor [v] of one of them, [u], has the slot
    at the position of [u] in [v.Preds] filled. *)
Theorem liftAlloc_phi_edges_match_preds (Dominates : nat -> nat -> bool)
    (blocks : list BasicBlock) (closure : option Closure.closure)
    (df rdf : list (list nat)) (fuel : nat) (cursors : SetName -> nat)
    (allocs : list AllocInfo) (predIndex : nat -> nat -> nat)
    (newval : nat -> nat -> newPhi -> Value) (renamed : list nat) :
  let placed := (liftAllocs Dominates blocks closure df rdf fuel cursors allocs).2 in
  let renaming := forEach renamed (renameEdges blocks predIndex newval) placed in
  let filled := renaming.2 in
  phis_ok blocks placed
  /\ allPhis (fun _ np => unfilled np) placed
  /\ phis_ok blocks filled
  /\ (forall j b l, blocks !! j = Some b -> Preds b = [] ->
        (newPhis placed !! j = Some l -> l = [])
        /\ (newPhis filled !! j = Some l -> l = []))
  /\ (edgesIndexed blocks predIndex = true ->
      inOrder blocks predIndex newval filled
      /\ (renaming.1 = Some tt ->
          forall u ub v l np,
            u ∈ renamed -> blocks !! u = Some ub -> v ∈ Succs ub ->
            newPhis filled !! v = Some l -> np ∈ l ->
            exists vb x,
              blocks !! v = Some vb /\ Preds vb !! predIndex v u = Some u
              /\ Edges (np_phi np) !! predIndex v u = Some (Some x))).
Proof.
  intros placed renaming filled.
  assert (Hplaced : phis_ok blocks placed).
  { unfold placed, liftAllocs.
    apply (preserves_forEach (phis_ok blocks)); [| apply ok_initialState].
    intros alloc. apply preserves_liftAlloc. }
  assert (Hnil : allPhis (fun _ np => unfilled np) placed).
  { apply all_liftAllocs. intros y yb cell _ _. unfold unfilled. simpl.
    apply Forall_forall. by intros e [-> _]%elem_of_replicate. }
  assert (Hfilled : phis_ok blocks filled).
  { unfold filled, renaming. apply (preserves_forEach (phis_ok blocks)); [| done].
    intros u. apply preserves_renameEdges. }
  assert (Hnone : forall st j b l, phis_ok blocks st -> blocks !! j = Some b ->
            Preds b = [] -> newPhis st !! j = Some l -> l = []).
  { intros st j b l Hst Hb Hpreds Hl. destruct l as [| np l]; [done |].
    destruct (Hst j _ np Hl) as (_ & b' & Hb' & Hpos & _); [by left |].
    rewrite Hb in Hb'. injection Hb' as <-. rewrite Hpreds in Hpos.
    simpl in Hpos. lia. }
  split_and!; [done | done | done | |].
  - intros j b l Hb Hpreds. split; by eapply Hnone.
  - intros Hcfg. split.
    + unfold filled, renaming.
      apply (preserves_forEach (inOrder blocks predIndex newval)).
      * intros u. by apply inOrder_renameEdges.
      * by apply inOrder_unfilled.
    + intros Hrun u ub v l np Hu Hub Hv Hl Hin.
      destruct (edgesIndexed_spec blocks predIndex u v ub Hcfg Hub Hv)
        as (vb & Hvb & Hpred).
      assert (Hwhole : renaming = (Some tt, filled)).
      { unfold filled. destruct renaming as [r st']. simpl in *. by subst. }
      destruct (renaming_grows blocks predIndex newval renamed placed filled
                  Hwhole u ub v Hu Hub Hv l np Hl Hin) as [x Hx].
      by exists vb, x.
Qed.

Lemma liftAlloc_phi_edges_match_preds_witness :
  let newval := fun (u _ : nat) (_ : newPhi) => Reg u in
  let placed :=
    (liftAllocs (fun _ _ => false) Closure.threeBlocks None threeFrontiers
       threePostFrontiers 14 (fun _ => 0) [storedAndLoaded]).2 in
  let renaming :=
    forEach [0; 2; 1] (renameEdges Closure.threeBlocks threePredIndex newval) placed in
  edgesIndexed Closure.threeBlocks threePredIndex = true
  /\ newPhis placed = [[]; []; [mkNewPhi (mkPhi [None; None] (Some 2) false) 0]]
  /\ renaming.1 = Some tt
  /\ newPhis renaming.2
     = [[]; []; [mkNewPhi (mkPhi [Some (Reg 0); Some (Reg 2)] (Some 2) false) 0]]
  /\ inOrder Closure.threeBlocks threePredIndex newval renaming.2
  /\ (forall u ub v l np,
        u ∈ [0; 2; 1] -> Closure.threeBlocks !! u = Some ub -> v ∈ Succs ub ->
        newPhis renaming.2 !! v = Some l -> np ∈ l ->
        exists vb x,
          Closure.threeBlocks !! v = Some vb
          /\ Preds vb !! threePredIndex v u = Some u
          /\ Edges (np_phi np) !! threePredIndex v u = Some (Some x)).
Proof.
  intros newval placed renaming.
  assert (H1 : edgesIndexed Closure.threeBlocks threePredIndex = true) by reflexivity.
  assert (H2 : renaming.1 = Some tt) by reflexivity.
  destruct (liftAlloc_phi_edges_match_preds (fun _ _ => false) Closure.threeBlocks
              None threeFrontiers threePostFrontiers 14 (fun _ => 0)
              [storedAndLoaded] threePredIndex newval [0; 2; 1])
    as (_ & _ & _ & _ & Hfill).
  destruct (Hfill H1) as [Horder Hall].
  split_and!; [exact H1 | reflexivity | exact H2 | reflexivity | exact Horder
               | exact (Hall H2)].
Defined.

Lemma kept_app (usesDefer : bool) (l1 l2 : list (option Instruction)) :
  kept usesDefer (l1 ++ l2) = kept usesDefer l1 ++ kept usesDefer l2.
Proof.
  induction l1 as [| x l1 IH]; simpl; [done |].
  destruct (is_nil x); [done |]. destruct (negb usesDefer && is_RunDefers x); [done |].
  by rewrite IH.
Qed.

Lemma kept_length (usesDefer : bool) (l : list (option Instruction)) :
  length (kept usesDefer l) <= length l.
Proof.
  induction l as [| x l IH]; simpl; [done |].
  destruct (is_nil x); [lia |]. destruct (negb usesDefer && is_RunDefers x); simpl; lia.
Qed.

Lemma moveDown_spec (usesDefer : bool) :
  forall (n : nat) (dst : list (option Instruction)) (i : Z),
    n <= length dst -> (Z.of_nat n - 1 <= i < Z.of_nat (length dst))%Z ->
    let '(dst', i') := moveDown usesDefer n dst i in
    i' = (i - Z.of_nat (length (kept usesDefer (take n dst))))%Z
    /\ length dst' = length dst
    /\ drop (Z.to_nat (i' + 1)) dst'
       = kept usesDefer (take n dst) ++ drop (Z.to_nat (i + 1)) dst.
Proof.
  induction n as [| n IH]; intros dst i Hn Hi.
  - simpl. split_and!; [lia | done | done].
  - destruct (lookup_lt_is_Some_2 dst n ltac:(lia)) as [instr Hinstr].
    rewrite (take_S_r _ _ _ Hinstr), kept_app. simpl moveDown. rewrite Hinstr.
    simpl default. simpl kept.
    destruct (is_nil instr) eqn:Hnil.
    { specialize (IH dst i ltac:(lia) ltac:(lia)).
      destruct (moveDown usesDefer n dst i) as [dst' i'].
      by rewrite app_nil_r. }
    destruct (negb usesDefer && is_RunDefers instr) eqn:Hrd.
    { specialize (IH dst i ltac:(lia) ltac:(lia)).
      destruct (moveDown usesDefer n dst i) as [dst' i'].
      by rewrite app_nil_r. }
    specialize (IH (<[Z.to_nat i := instr]> dst) (i - 1)%Z).
    rewrite length_insert in IH. specialize (IH ltac:(lia) ltac:(lia)).
    destruct (moveDown _ n _ _) as [dst' i'].
    rewrite take_insert_ge in IH by lia.
    destruct IH as (Hi' & Hlen & Hdrop). rewrite length_app. simpl length.
    split_and!; [lia | done |].
    rewrite Hdrop, <- app_assoc. f_equal. simpl.
    replace (Z.to_nat (i - 1 + 1)) with (Z.to_nat i) by lia.
    replace (Z.to_nat (i + 1)) with (S (Z.to_nat i)) by lia.
    rewrite (drop_S _ instr) by (apply list_lookup_insert_eq; lia).
    by rewrite drop_insert_lt by lia.
Qed.

Lemma fillUp_spec (usesDefer : bool) :
  forall (instrs dst : list (option Instruction)) (j : nat),
    j + length (kept usesDefer instrs) <= length dst ->
    fillUp usesDefer instrs dst j
    = Some (take j dst ++ kept usesDefer instrs
              ++ drop (j + length (kept usesDefer instrs)) dst).
Proof.
  induction instrs as [| instr instrs IH]; intros dst j Hj; simpl in *.
  - by rewrite Nat.add_0_r, take_drop.
  - destruct (is_nil instr); [by apply IH |].
    destruct (negb usesDefer && is_RunDefers instr); [by apply IH |].
    simpl in Hj. destruct (decide (j < length dst)) as [Hlt |]; [| lia].
    rewrite IH by (rewrite length_insert; lia). f_equal.
    rewrite (take_S_r _ j instr) by (apply list_lookup_insert_eq; lia).
    rewrite take_insert_ge by lia.
    rewrite drop_insert_lt by lia.
    replace (S j + length (kept usesDefer instrs))
      with (j + S (length (kept usesDefer instrs))) by lia.
    by rewrite <- app_assoc.
Qed.

Lemma tracked_RunDefers : tracked is_RunDefers.
Proof.
  split; try done.
  - by intros [] [[] |].
  - by intros [] [].
  - by intros [].
  - by intros [].
Qed.

Lemma tracked_Defer : tracked is_Defer.
Proof.
  split; try done.
  - by intros [] [[] |].
  - by intros [] [].
  - by intros [].
  - by intros [].
Qed.

Section Count.
Variable p : option Instruction -> bool.

Lemma countIf_app (l1 l2 : list (option Instruction)) :
  countIf p (l1 ++ l2) = countIf p l1 + countIf p l2.
Proof. induction l1 as [| x l1 IH]; simpl; [done |]. rewrite IH. lia. Qed.

Lemma countIf_le (l : list (option Instruction)) : countIf p l <= length l.
Proof. induction l as [| x l IH]; simpl; [done |]. destruct (p x); lia. Qed.

Lemma countIf_insert (l : list (option Instruction)) (i : nat)
    (x y : option Instruction) :
  l !! i = Some x -> p y = p x -> countIf p (<[i := y]> l) = countIf p l.
Proof.
  revert i. induction l as [| z l IH]; intros [| i] Hi Hxy; simpl in *; try done.
  - injection Hi as ->. by rewrite Hxy.
  - by rewrite (IH i).
Qed.

Lemma countIf_take_drop (l : list (option Instruction)) (n : nat) :
  countIf p (take n l) + countIf p (drop n l) = countIf p l.
Proof. by rewrite <- countIf_app, take_drop. Qed.

Lemma countIf_zero (l : list (option Instruction)) :
  Forall (fun x => p x = false) l -> countIf p l = 0.
Proof. induction 1 as [| x l Hx _ IH]; simpl; [done |]. by rewrite Hx, IH. Qed.

Lemma countIf_exists (l : list (option Instruction)) :
  existsb p l = (0 <? countIf p l).
Proof.
  induction l as [| x l IH]; simpl; [done |]. rewrite IH. by destruct (p x).
Qed.

Lemma countIf_forall (l : list (option Instruction)) :
  forallb (fun i => negb (p i)) l = (countIf p l =? 0).
Proof.
  induction l as [| x l IH]; simpl; [done |]. rewrite IH. by destruct (p x).
Qed.

Hypothesis p_tracked : tracked p.

Lemma countIf_clearDefer (e : bool) (l : list (option Instruction)) :
  countIf p (map (clearDefer e) l) = countIf p l.
Proof.
  induction l as [| x l IH]; simpl; [done |].
  by rewrite IH, (tracked_clear p p_tracked).
Qed.

Lemma countIf_head (head : list Instruction) :
  Forall (fun i => p (Some i) = false) head -> countIf p (map Some head) = 0.
Proof. intros H. apply countIf_zero, Forall_map. done. Qed.

Lemma countIf_copy_head (head : list Instruction) (dst : list (option Instruction)) :
  Forall (fun i => p (Some i) = false) head ->
  countIf p (copy dst (map Some head)) <= countIf p dst.
Proof.
  intros Hhead. unfold copy. rewrite countIf_app, length_map.
  rewrite (countIf_zero (take _ _)).
  - pose proof (countIf_take_drop dst (length head)). lia.
  - apply Forall_take, Forall_map. done.
Qed.

Lemma editBlock_countIf (e : Edit) (b : BasicBlock) :
  countIf p (Instrs (editBlock e b)) = countIf p (Instrs b)
  /\ rundefers (editBlock e b) = rundefers b
  /\ Index (editBlock e b) = Index b /\ Preds (editBlock e b) = Preds b.
Proof.
  destruct e as [t i instr | t i new cap | t i]; simpl.
  - destruct (Instrs b !! i) as [[old |] |] eqn:Hi; try done.
    destruct (sameKind old instr) eqn:Hk; [| done]. simpl. split_and!; try done.
    apply (countIf_insert _ _ (Some old)); [done |].
    by apply (tracked_same p p_tracked).
  - destruct (forallb insertable new && bool_decide _) eqn:Hok; [| done].
    apply andb_true_iff in Hok as [Hnew _]. simpl. split_and!; try done.
    rewrite !countIf_app, (countIf_zero (map Some new)).
    + apply countIf_take_drop.
    + apply Forall_map, Forall_forall. intros x Hx.
      rewrite forallb_forall in Hnew. specialize (Hnew x).
      rewrite <- list_elem_of_In in Hnew.
      by apply (tracked_insert p p_tracked), Hnew.
  - destruct (Instrs b !! i) as [[old |] |] eqn:Hi; try done.
    destruct (killable old) eqn:Hk; [| done]. simpl. split_and!; try done.
    apply (countIf_insert _ _ (Some old)); [done |].
    by rewrite (tracked_nil p p_tracked), (tracked_kill p p_tracked).
Qed.

Lemma sameCount_refl (bs : list BasicBlock) : sameCount p bs bs.
Proof.
  apply Forall2_same_length_lookup. split; [done |].
  intros j x y Hx Hy. rewrite Hx in Hy. by injection Hy as <-.
Qed.

Lemma sameCount_trans (bs1 bs2 bs3 : list BasicBlock) :
  sameCount p bs1 bs2 -> sameCount p bs2 bs3 -> sameCount p bs1 bs3.
Proof.
  intros H12 H23. revert bs3 H23.
  induction H12 as [| b1 b2 bs1 bs2 (? & ? & ?) _ IH]; intros bs3 H23.
  - inversion H23. constructor.
  - inversion H23 as [| ? b3 ? bs3' (? & ? & ?) ?]; subst.
    constructor; [split_and!; congruence | by apply IH].
Qed.

Lemma applyEdit_sameCount (blocks : list BasicBlock) (e : Edit) :
  sameCount p blocks (applyEdit blocks e).
Proof.
  unfold applyEdit. destruct (blocks !! editTarget e) as [b |] eqn:Hb;
    [| apply sameCount_refl].
  destruct (editBlock_countIf e b) as (Hrd & Hf & Hi & Hp).
  apply Forall2_same_length_lookup. split; [by rewrite length_insert |].
  intros j x y Hx Hy. destruct (decide (j = editTarget e)) as [-> | Hne].
  - rewrite list_lookup_insert_eq in Hy by (by eapply lookup_lt_Some).
    injection Hy as <-. rewrite Hb in Hx. by injection Hx as <-.
  - rewrite list_lookup_insert_ne in Hy by done.
    rewrite Hx in Hy. by injection Hy as <-.
Qed.

Lemma applyEdits_sameCount (edits : list Edit) : forall (blocks : list BasicBlock),
  sameCount p blocks (foldl applyEdit blocks edits).
Proof.
  induction edits as [| e edits IH]; intros blocks; simpl;
    [apply sameCount_refl |].
  eapply sameCount_trans; [apply applyEdit_sameCount | apply IH].
Qed.

Lemma scanned_sameCount (e : bool) (blocks : list BasicBlock) :
  sameCount p blocks (map (scanned e) blocks).
Proof.
  induction blocks as [| b blocks IH]; constructor; [| done].
  simpl. by rewrite countIf_clearDefer.
Qed.
End Count.

Lemma clearDefer_false (l : list (option Instruction)) : map (clearDefer false) l = l.
Proof.
  induction l as [| x l IH]; simpl; [done |]. rewrite IH. by destruct x as [[] |].
Qed.

Lemma countIf_kept (p : option Instruction -> bool) (usesDefer : bool)
    (l : list (option Instruction)) :
  p None = false -> p (Some RunDefers) = false ->
  countIf p (kept usesDefer l) = countIf p l.
Proof.
  intros Hnil Hrd. induction l as [| x l IH]; simpl; [done |].
  destruct x as [[] |], usesDefer; simpl; rewrite ?Hnil, ?Hrd, ?IH; done.
Qed.

Lemma countRD_kept (usesDefer : bool) (l : list (option Instruction)) :
  countRD (kept usesDefer l) = if usesDefer then countRD l else 0.
Proof.
  unfold countRD. induction l as [| x l IH]; simpl; [by destruct usesDefer |].
  destruct x as [[] |], usesDefer; simpl in *; lia.
Qed.

Lemma kept_count (l : list (option Instruction)) :
  length (kept false l) + countRD l <= length l.
Proof.
  unfold countRD. induction l as [| x l IH]; simpl; [done |].
  destruct x as [[] |]; simpl in *; lia.
Qed.

Lemma applyEdits_counted (edits : list Edit) (blocks : list BasicBlock) :
  Forall counted blocks -> Forall counted (foldl applyEdit blocks edits).
Proof.
  revert blocks. induction edits as [| e edits IH]; intros blocks Hc; simpl; [done |].
  apply IH. unfold applyEdit.
  destruct (blocks !! editTarget e) as [b |] eqn:Hb; [| done].
  apply Forall_insert; [done |].
  destruct (editBlock_countIf is_RunDefers tracked_RunDefers e b) as (Hrd & Hf & _).
  unfold counted, countRD. rewrite Hrd, Hf. by eapply Forall_lookup_1 in Hc.
Qed.

Lemma fillUp_room (usesDefer : bool) :
  forall (instrs dst r : list (option Instruction)) (j : nat),
    fillUp usesDefer instrs dst j = Some r ->
    (kept usesDefer instrs = [] /\ r = dst)
    \/ j + length (kept usesDefer instrs) <= length dst.
Proof.
  induction instrs as [| instr instrs IH]; intros dst r j Hfill; simpl in *.
  - left. by injection Hfill as <-.
  - destruct (is_nil instr); [by eapply IH |].
    destruct (negb usesDefer && is_RunDefers instr); [by eapply IH |].
    destruct (decide (j < length dst)) as [Hlt |]; [| done].
    right. simpl. destruct (IH _ _ _ Hfill) as [[-> _] | Hroom]; simpl; [lia |].
    rewrite length_insert in Hroom. lia.
Qed.

Section Compact.
Variable usesDefer : bool.
Variable head : list Instruction.
Variable p : option Instruction -> bool.
Hypothesis p_tracked : tracked p.
Hypothesis head_nodes : Forall (fun i => p (Some i) = false) head.

(** Either the block is left as it is (the fast path), or it holds as many
    [p] as the instructions it keeps. *)
Lemma compact_countIf (b b' : BasicBlock) :
  compact usesDefer head b = Some b' ->
  Index b' = Index b /\ Preds b' = Preds b /\ Succs b' = Succs b
  /\ ((b' = b /\ (usesDefer = false -> rundefers b = 0))
      \/ countIf p (Instrs b') = countIf p (kept usesDefer (Instrs b))).
Proof.
  unfold compact.
  destruct (Nat.eqb_spec (length head + gaps b
                          + (if usesDefer then 0 else rundefers b)) 0) as [Hfast |_].
  { intros [= <-]. split_and!; try done. left. split; [done |].
    intros ->. lia. }
  destruct (decide _) as [Hroom | Hnoroom].
  - (* the block is compacted in place *)
    set (dst := Instrs b ++ replicate (capacity b - length (Instrs b)) None).
    pose proof (moveDown_spec usesDefer (length (Instrs b)) dst
                  (Z.of_nat (length dst) - 1)) as Hmove.
    assert (Hdst : length (Instrs b) <= length dst)
      by (unfold dst; rewrite length_app; lia).
    specialize (Hmove Hdst ltac:(lia)).
    destruct (moveDown _ _ _ _) as [dst' i'].
    destruct Hmove as (Hi' & Hlen & Hdrop).
    replace (take (length (Instrs b)) dst) with (Instrs b) in *
      by (unfold dst; by rewrite take_app_length).
    replace (Z.to_nat (Z.of_nat (length dst) - 1 + 1)) with (length dst) in Hdrop
      by lia.
    rewrite drop_all, app_nil_r in Hdrop.
    destruct (decide _) as [Hoff |]; [| done].
    intros [= <-]. simpl. split_and!; try done. right.
    set (off := Z.to_nat (i' + 1 - Z.of_nat (length head))) in *.
    assert (Hsplit : drop off dst' = take (length head) (drop off dst')
                                       ++ kept usesDefer (Instrs b)).
    { rewrite <- (take_drop (length head) (drop off dst')) at 1. f_equal.
      rewrite drop_drop, <- Hdrop. f_equal. lia. }
    assert (Hhl : length (take (length head) (drop off dst')) = length head).
    { rewrite length_take, length_drop. lia. }
    unfold copy. rewrite length_map, countIf_app.
    rewrite take_ge by (rewrite length_map, length_drop; lia).
    rewrite countIf_head by done.
    by rewrite Hsplit, drop_app_length' by done.
  - (* a new slice is allocated *)
    destruct (decide _) as [Hns |]; [| done].
    destruct (fillUp _ _ _ _) as [instrs |] eqn:Hfill; [| done].
    intros [= <-]. simpl. split_and!; try done. right.
    set (dst := copy _ _) in Hfill.
    assert (Hdst0 : countIf p dst = 0).
    { pose proof (countIf_copy_head p head
                    (replicate (Z.to_nat (Z.of_nat (length (Instrs b))
                       + Z.of_nat (length head) - Z.of_nat (gaps b)
                       - Z.of_nat (if usesDefer then 0 else rundefers b))) None)
                    head_nodes) as Hle.
      rewrite (countIf_zero p (replicate _ _)) in Hle
        by (apply Forall_replicate, (tracked_nil p p_tracked)).
      fold dst in Hle. lia. }
    destruct (fillUp_room _ _ _ _ _ Hfill) as [[Hkept ->] | Hroom].
    + by rewrite Hdst0, Hkept.
    + rewrite fillUp_spec in Hfill by done. injection Hfill as <-.
      rewrite !countIf_app.
      pose proof (countIf_take_drop p dst (length head)).
      pose proof (countIf_take_drop p dst
                    (length head + length (kept usesDefer (Instrs b)))).
      lia.
Qed.
End Compact.

Section Scan.
Variable liftable : nat -> bool.
Variable e : bool.

Lemma scanInstr_fold (instrs : list (option Instruction)) :
  forall (sc : ScanState) (rd : nat) (done_ : list (option Instruction)),
    let '(sc', rd', done') := foldl (scanInstr liftable e) (sc, rd, done_) instrs in
    rd' = rd + countRD instrs
    /\ done' = done_ ++ map (clearDefer e) instrs
    /\ sc_usesDefer sc' = sc_usesDefer sc || existsb is_Defer instrs
    /\ (forallb (fun i => negb (is_Alloc i)) instrs = true ->
        sc_index sc' = sc_index sc /\ sc_numAllocs sc' = sc_numAllocs sc).
Proof.
  induction instrs as [| instr instrs IH]; intros sc rd done_.
  - simpl. rewrite app_nil_r, orb_false_r. split_and!; (done || lia).
  - cbn [foldl].
    assert (Hstep : exists sc1 rd1,
               scanInstr liftable e (sc, rd, done_) instr
               = (sc1, rd1, done_ ++ [clearDefer e instr])
               /\ rd1 = rd + (if is_RunDefers instr then 1 else 0)
               /\ sc_usesDefer sc1 = sc_usesDefer sc || is_Defer instr
               /\ (is_Alloc instr = false ->
                   sc_index sc1 = sc_index sc /\ sc_numAllocs sc1 = sc_numAllocs sc)).
    { destruct instr as [[] |]; simpl; try destruct (negb (liftable cell));
        eexists _, _; (split; [reflexivity |]); simpl;
        rewrite ?orb_false_r, ?orb_true_r; split_and!; try done; lia. }
    destruct Hstep as (sc1 & rd1 & -> & -> & Hu1 & Ha1).
    specialize (IH sc1 (rd + (if is_RunDefers instr then 1 else 0))
                  (done_ ++ [clearDefer e instr])).
    destruct (foldl _ _ instrs) as [[sc' rd'] done'].
    destruct IH as (-> & -> & Hu & Ha). simpl.
    split_and!.
    + unfold countRD. simpl. lia.
    + by rewrite <- app_assoc.
    + rewrite Hu, Hu1. by rewrite orb_assoc.
    + intros [Hi Hrest]%andb_true_iff. apply negb_true_iff in Hi.
      destruct (Ha Hrest) as [-> ->]. by apply Ha1.
Qed.

Lemma scanBlock_fold (blocks : list BasicBlock) :
  forall (sc : ScanState) (done_ : list BasicBlock),
    let '(sc', done') := foldl (scanBlock liftable e) (sc, done_) blocks in
    done' = done_ ++ map (scanned e) blocks
    /\ sc_usesDefer sc' = sc_usesDefer sc || usesDeferOf blocks
    /\ (noAllocs blocks = true ->
        sc_index sc' = sc_index sc /\ sc_numAllocs sc' = sc_numAllocs sc).
Proof.
  induction blocks as [| b blocks IH]; intros sc done_.
  - simpl. rewrite app_nil_r, orb_false_r. done.
  - cbn [foldl]. unfold scanBlock at 2.
    pose proof (scanInstr_fold (Instrs b) sc 0 []) as Hb.
    destruct (foldl _ _ (Instrs b)) as [[sc1 rd1] instrs1].
    destruct Hb as (-> & -> & Hu1 & Ha1).
    specialize (IH sc1 (done_ ++ [mkBlock (Index b) (Preds b) (Succs b)
                                    ([] ++ map (clearDefer e) (Instrs b))
                                    (capacity b) 0 (0 + countRD (Instrs b))])).
    destruct (foldl _ _ blocks) as [sc' done'].
    destruct IH as (-> & Hu & Ha). split_and!.
    + by rewrite <- app_assoc.
    + rewrite Hu, Hu1. simpl. by rewrite orb_assoc.
    + simpl. intros [Hb Hrest]%andb_true_iff.
      destruct (Ha Hrest) as [-> ->]. by apply Ha1.
Qed.
End Scan.

(** *** The heads are phis and sigmas *)

Section Heads.
Variable succIndex : nat -> nat -> Z.
Variable p : option Instruction -> bool.
Hypothesis p_tracked : tracked p.

Lemma liveSigmas_nodes (idx : Z) (nss : list newSigma) (head : list Instruction) :
  liveSigmas idx nss = Some head -> Forall (fun i => p (Some i) = false) head.
Proof.
  revert head. induction nss as [| ns nss IH]; intros head; simpl.
  - by intros [= <-].
  - destruct (decide _); [| done].
    destruct (ns_sigmas ns !! _) as [sigma |]; [simpl | done].
    destruct (liveSigmas idx nss) as [rest |]; [simpl | done].
    intros [= <-]. specialize (IH rest eq_refl).
    destruct sigma as [sg |]; [| done]. destruct (sigmaLive sg); [| done].
    constructor; [apply (tracked_sigma p p_tracked) | done].
Qed.

Lemma sigmaHead_nodes (newSigmas : list (list newSigma)) (b : nat)
    (preds : list nat) (head : list Instruction) :
  sigmaHead succIndex newSigmas b preds = Some head ->
  Forall (fun i => p (Some i) = false) head.
Proof.
  revert head. induction preds as [| pred preds IH]; intros head; simpl.
  - by intros [= <-].
  - destruct (newSigmas !! pred) as [nss |]; [simpl | done].
    destruct (liveSigmas _ nss) as [here |] eqn:Hhere; [simpl | done].
    destruct (sigmaHead _ _ _ preds) as [rest |]; [simpl | done].
    intros [= <-]. apply Forall_app. split; [by eapply liveSigmas_nodes | by apply IH].
Qed.

Lemma headOf_nodes (l : option Lifted) (b : BasicBlock) (head : list Instruction) :
  headOf succIndex l b = Some head -> Forall (fun i => p (Some i) = false) head.
Proof.
  destruct l as [l |]; simpl; [| by intros [= <-]].
  destruct (l_newPhis l !! Index b) as [nps |]; [simpl | done].
  destruct (sigmaHead _ _ _ _) as [sigmas |] eqn:Hs; [simpl | done].
  intros [= <-]. apply Forall_app. split; [by eapply sigmaHead_nodes |].
  unfold phiHead. apply Forall_map, Forall_forall. intros np _.
  apply (tracked_phi p p_tracked).
Qed.

Lemma compactAll_countIf (usesDefer : bool) (l : option Lifted)
    (blocks : list BasicBlock) : forall blocks',
  compactAll succIndex usesDefer l blocks = Some blocks' ->
  Forall2 (fun b b' =>
             Index b' = Index b /\ Preds b' = Preds b /\ Succs b' = Succs b
             /\ ((b' = b /\ (usesDefer = false -> rundefers b = 0))
                 \/ countIf p (Instrs b') = countIf p (kept usesDefer (Instrs b))))
    blocks blocks'.
Proof.
  induction blocks as [| b blocks IH]; intros blocks'; simpl.
  - intros [= <-]. constructor.
  - destruct (headOf _ l b) as [head |] eqn:Hhead; [simpl | done].
    destruct (compact usesDefer head b) as [b' |] eqn:Hb; [simpl | done].
    destruct (compactAll _ _ _ blocks) as [rest |]; [simpl | done].
    intros [= <-]. constructor; [| by apply IH].
    eapply compact_countIf; [done | | done]. by eapply headOf_nodes.
Qed.
End Heads.

(** *** Without a head and without gaps the compaction cannot fail *)

Lemma copy_nil {A : Type} (dst : list A) : copy dst [] = dst.
Proof. unfold copy. by rewrite take_nil. Qed.

Lemma compact_nohead (usesDefer : bool) (b : BasicBlock) :
  gaps b = 0 -> rundefers b = countRD (Instrs b) ->
  (exists b', compact usesDefer [] b = Some b')
  /\ (usesDefer = true \/ countRD (Instrs b) = 0 -> compact usesDefer [] b = Some b).
Proof.
  intros Hgaps Hrd. unfold compact. rewrite Hgaps, Hrd. simpl length. split.
  - destruct (Nat.eqb_spec (0 + 0 + (if usesDefer then 0 else countRD (Instrs b))) 0);
      [by eexists |].
    assert (Hu : usesDefer = false) by (by destruct usesDefer). subst usesDefer.
    pose proof (countIf_le is_RunDefers (Instrs b)) as Hle. fold countRD in Hle.
    pose proof (kept_count (Instrs b)) as Hkept.
    destruct (decide _) as [Hroom | Hnoroom].
    + set (dst := Instrs b ++ replicate (capacity b - length (Instrs b)) None).
      pose proof (moveDown_spec false (length (Instrs b)) dst
                    (Z.of_nat (length dst) - 1)) as Hmove.
      assert (Hdst : length (Instrs b) <= length dst)
        by (unfold dst; rewrite length_app; lia).
      specialize (Hmove Hdst ltac:(lia)).
      destruct (moveDown _ _ _ _) as [dst' i'].
      destruct Hmove as (Hi' & Hlen & _).
      pose proof (kept_length false (take (length (Instrs b)) dst)) as Hk.
      rewrite length_take in Hk.
      destruct (decide _) as [Hoff | Hoff]; [by eexists | exfalso].
      clearbody dst. lia.
    + destruct (decide _) as [Hns | Hns]; [| exfalso; lia].
      rewrite fillUp_spec; [by eexists |].
      simpl map. rewrite copy_nil, length_replicate. lia.
  - intros Hfast.
    destruct (Nat.eqb_spec (0 + 0 + (if usesDefer then 0 else countRD (Instrs b))) 0);
      [done |].
    destruct Hfast as [-> | Hz]; [lia |]. destruct usesDefer; lia.
Qed.

Lemma compactAll_nolift (succIndex : nat -> nat -> Z) (usesDefer : bool)
    (blocks : list BasicBlock) :
  Forall (fun b => gaps b = 0 /\ rundefers b = countRD (Instrs b)) blocks ->
  (exists blocks', compactAll succIndex usesDefer None blocks = Some blocks')
  /\ (usesDefer = true \/ Forall (fun b => countRD (Instrs b) = 0) blocks ->
      compactAll succIndex usesDefer None blocks = Some blocks).
Proof.
  induction 1 as [| b blocks [Hgaps Hrd] _ [[rest IH1] IH2]]; simpl.
  - split; [by eexists | done].
  - destruct (compact_nohead usesDefer b Hgaps Hrd) as [[b' Hb'] Hfast]. split.
    + rewrite Hb', IH1. simpl. by eexists.
    + intros Hcase. rewrite Hfast, IH2; [done | |].
      * destruct Hcase as [-> | Hall]; [by left | right].
        by apply Forall_cons in Hall as [_ ?].
      * destruct Hcase as [-> | Hall]; [by left | right].
        by apply Forall_cons in Hall as [? _].
Qed.

(** *** RunDefers and Defer across [lift] *)

Lemma Forall2_compose {A : Type} (R S T : A -> A -> Prop) (P : A -> Prop)
    (l1 l2 l3 : list A) :
  (forall x y z, R x y -> P y -> S y z -> T x z) ->
  Forall2 R l1 l2 -> Forall P l2 -> Forall2 S l2 l3 -> Forall2 T l1 l3.
Proof.
  intros HT H12. revert l3. induction H12 as [| x y l1 l2 Hxy _ IH]; intros l3 HP H23.
  - inversion H23. constructor.
  - inversion H23 as [| ? z ? l3' Hyz ?]; subst.
    apply Forall_cons in HP as [Hy HP]. constructor; [by eapply HT | by apply IH].
Qed.

Lemma usesDeferOf_count (bs bs' : list BasicBlock) :
  Forall2 (fun b b' => countDefer (Instrs b') = countDefer (Instrs b)) bs bs' ->
  usesDeferOf bs' = usesDeferOf bs.
Proof.
  induction 1 as [| b b' bs bs' Hb _ IH]; [done |].
  unfold usesDeferOf in *. cbn [existsb]. rewrite IH, !countIf_exists.
  fold countDefer. by rewrite Hb.
Qed.

Lemma scanned_counted (e : bool) (blocks : list BasicBlock) :
  Forall (fun b => gaps b = 0 /\ counted b) (map (scanned e) blocks).
Proof.
  apply Forall_map, Forall_forall. intros b _. split; [done |].
  unfold counted, countRD. simpl.
  by rewrite (countIf_clearDefer _ tracked_RunDefers).
Qed.

Section LiftFacts.
Variable liftable : nat -> bool.
Variable succIndex : nat -> nat -> Z.
Variable middle : Lifted.

(** The stages of [lift]: the numbering loop, the edits of the lifting
    proper, the compaction. *)
Lemma lift_stages (fn fn' : Function) (r : bool) :
  lift liftable succIndex middle fn = Some (fn', r) ->
  exists (e : bool) (lifted : option Lifted) (blocks2 : list BasicBlock),
    compactAll succIndex (usesDeferOf (Blocks fn)) lifted blocks2
      = Some (Blocks fn')
    /\ Forall counted blocks2
    /\ (forall p, tracked p -> sameCount p (Blocks fn) blocks2).
Proof.
  unfold lift. set (e := match deferstackPreamble fn with
                         | Some (alloc, _) => negb (allocHeap fn alloc)
                         | None => false
                         end).
  pose proof (scanBlock_fold liftable e (Blocks fn)
                (mkScan (allocIndex fn) 0 false) []) as Hscan.
  destruct (foldl _ _ (Blocks fn)) as [sc blocks1].
  destruct Hscan as (-> & Hu & _). simpl in Hu. rewrite Hu.
  change ([] ++ map (scanned e) (Blocks fn)) with (map (scanned e) (Blocks fn)).
  set (lifted := if (0 <? sc_numAllocs sc)%Z then Some middle else None).
  set (blocks2 := match lifted with
                  | Some l => foldl applyEdit (map (scanned e) (Blocks fn)) (l_edits l)
                  | None => map (scanned e) (Blocks fn)
                  end).
  destruct (compactAll _ _ _ blocks2) as [blocks3 |] eqn:Hcompact; [simpl | done].
  intros [= <- <-]. exists e, lifted, blocks2. simpl. split; [done |].
  assert (Hc1 : Forall counted (map (scanned e) (Blocks fn))).
  { eapply Forall_impl; [apply scanned_counted |]. by intros b [_ ?]. }
  unfold blocks2. destruct lifted as [l |].
  - split; [by apply applyEdits_counted |]. intros p Hp.
    eapply sameCount_trans; [by apply scanned_sameCount |].
    by apply applyEdits_sameCount.
  - split; [done |]. intros p Hp. by apply scanned_sameCount.
Qed.
End LiftFacts.

(** C6: when [lift] returns, the function has a Defer exactly when it had one
    before; if it has none, no block holds a RunDefers any more; if it has
    one, every block holds as many RunDefers as before. *)
Theorem lift_rundefers_follow_defers (liftable : nat -> bool)
    (succIndex : nat -> nat -> Z) (middle : Lifted) (fn fn' : Function) (r : bool) :
  lift liftable succIndex middle fn = Some (fn', r) ->
  usesDeferOf (Blocks fn') = usesDeferOf (Blocks fn)
  /\ Forall2 (fun b b' => countRD (Instrs b')
                          = if usesDeferOf (Blocks fn') then countRD (Instrs b) else 0)
       (Blocks fn) (Blocks fn').
Proof.
  intros Hlift.
  destruct (lift_stages _ _ _ _ _ _ Hlift) as (e & lifted & blocks2 & Hc & Hcnt & Hsame).
  assert (Hdefer : usesDeferOf (Blocks fn') = usesDeferOf (Blocks fn)).
  { apply usesDeferOf_count.
    eapply (Forall2_compose _ _ _ (fun _ => True));
      [| apply (Hsame is_Defer tracked_Defer) | by apply Forall_true
       | apply (compactAll_countIf succIndex is_Defer tracked_Defer _ _ _ _ Hc)].
    intros b b2 b3 (H2 & _) _ (_ & _ & _ & [[-> _] | H3]); [done |].
    unfold countDefer. by rewrite H3, countIf_kept, H2. }
  split; [done |]. rewrite Hdefer.
  eapply Forall2_compose;
    [| apply (Hsame is_RunDefers tracked_RunDefers) | exact Hcnt
     | apply (compactAll_countIf succIndex is_RunDefers tracked_RunDefers _ _ _ _ Hc)].
  intros b b2 b3 (H2 & _) Hb2 (_ & _ & _ & [[-> Hfast] | H3]); simpl in *.
  - unfold counted, countRD in *. rewrite H2 in *.
    destruct (usesDeferOf (Blocks fn)); [done |]. rewrite <- Hb2. by apply Hfast.
  - fold countRD in H3. unfold countRD in H2. rewrite H3, countRD_kept.
    unfold countRD. by rewrite H2.
Qed.

Lemma lift_rundefers_follow_defers_witness :
  exists fn', lift (fun _ => true) (fun _ _ => 0%Z) oneCellLifted oneCell = Some (fn', true)
    /\ map Instrs (Blocks fn') = [[Some (Other 0 [Reg 2])]]
    /\ usesDeferOf (Blocks fn') = usesDeferOf (Blocks oneCell)
    /\ Forall2 (fun b b' => countRD (Instrs b')
                            = if usesDeferOf (Blocks fn') then countRD (Instrs b) else 0)
         (Blocks oneCell) (Blocks fn').
Proof.
  destruct (lift (fun _ => true) (fun _ _ => 0%Z) oneCellLifted oneCell)
    as [[fn' r] |] eqn:Hlift; [| vm_compute in Hlift; discriminate].
  pose proof (lift_rundefers_follow_defers _ _ _ _ _ _ Hlift) as [Hdefer Hrd].
  exists fn'. vm_compute in Hlift. injection Hlift as <- <-.
  split_and!; [reflexivity | reflexivity | exact Hdefer | exact Hrd].
Defined.

(** *** A function without Allocs *)

Lemma allocated_noAllocs (fn : Function) (cell : nat) :
  noAllocs (Blocks fn) = true -> allocated fn cell = false.
Proof.
  unfold noAllocs, allocated. induction (Blocks fn) as [| b bs IH]; simpl; [done |].
  intros [Hb Hbs]%andb_true_iff. rewrite (IH Hbs), orb_false_r. clear IH Hbs.
  induction (Instrs b) as [| i is_ IH]; simpl in *; [done |].
  apply andb_true_iff in Hb as [Hi His]. rewrite (IH His), orb_false_r.
  by destruct i as [[] |].
Qed.

Lemma noRunDefers_count (blocks : list BasicBlock) :
  noRunDefers blocks = true -> Forall (fun b => countRD (Instrs b) = 0) blocks.
Proof.
  unfold noRunDefers. induction blocks as [| b bs IH]; simpl; [done |].
  intros [Hb Hbs]%andb_true_iff. constructor; [| by apply IH].
  rewrite countIf_forall in Hb. by apply Nat.eqb_eq in Hb.
Qed.

(** C2, as amended: for a function without Alloc instructions [lift] returns
    false and leaves every cell's index as it was; of [Locals] it keeps those
    with a negative index, in their order; every block keeps its edges; if
    the function has a Defer, or has no RunDefers, every block keeps its
    instructions and its capacity, but for the [_DeferStack] of each Defer,
    which is cleared when [eliminateDeferStack] holds (only the scratch
    counters [gaps] and [rundefers] are reset); if it has no Defer, no block
    holds a RunDefers afterwards. *)
Theorem lift_without_allocs (liftable : nat -> bool) (succIndex : nat -> nat -> Z)
    (middle : Lifted) (fn : Function) :
  noAllocs (Blocks fn) = true ->
  exists fn', lift liftable succIndex middle fn = Some (fn', false)
    /\ allocIndex fn' = allocIndex fn
    /\ Locals fn' = filter (fun l => (index_of fn l < 0)%Z) (Locals fn)
    /\ Forall2 (fun b b' => Index b' = Index b /\ Preds b' = Preds b
                            /\ Succs b' = Succs b) (Blocks fn) (Blocks fn')
    /\ (usesDeferOf (Blocks fn) || noRunDefers (Blocks fn) = true ->
        Forall2 (fun b b' =>
                   Instrs b' = map (clearDefer (eliminatesDeferStack fn)) (Instrs b)
                   /\ capacity b' = capacity b) (Blocks fn) (Blocks fn')
        /\ (eliminatesDeferStack fn = false ->
            Forall2 sameCode (Blocks fn) (Blocks fn')))
    /\ (usesDeferOf (Blocks fn) = false ->
        Forall (fun b' => countRD (Instrs b') = 0) (Blocks fn')).
Proof.
  intros Hno. unfold lift, eliminatesDeferStack.
  set (e := match deferstackPreamble fn with
            | Some (alloc, _) => negb (allocHeap fn alloc)
            | None => false
            end).
  pose proof (scanBlock_fold liftable e (Blocks fn)
                (mkScan (allocIndex fn) 0 false) []) as Hscan.
  destruct (foldl _ _ (Blocks fn)) as [sc blocks1].
  destruct Hscan as (-> & Hu & Ha). destruct (Ha Hno) as [Hidx Hnum].
  simpl in Hu, Hidx, Hnum. rewrite Hu, Hidx, Hnum. simpl app.
  change (0 <? 0)%Z with false. cbv iota.
  assert (Hcounted : Forall (fun b => gaps b = 0 /\ rundefers b = countRD (Instrs b))
                       (map (scanned e) (Blocks fn))).
  { eapply Forall_impl; [apply scanned_counted |]. by intros b [? ?]. }
  destruct (compactAll_nolift succIndex (usesDeferOf (Blocks fn))
              (map (scanned e) (Blocks fn)) Hcounted) as [[blocks3 Hc] Hfast].
  rewrite Hc. simpl. eexists. split; [reflexivity |]. simpl.
  pose proof (compactAll_countIf succIndex is_RunDefers tracked_RunDefers _ _ _ _ Hc)
    as Hshape.
  split_and!; [done | done | | |].
  - apply Forall2_fmap_l in Hshape. eapply Forall2_impl; [exact Hshape |].
    intros b b' (? & ? & ? & _). done.
  - intros Hcase.
    assert (Hsame : blocks3 = map (scanned e) (Blocks fn)).
    { rewrite Hfast in Hc; [by injection Hc |].
      apply orb_true_iff in Hcase as [-> | Hnrd]; [by left | right].
      apply Forall_map, Forall_forall. intros b Hb.
      apply noRunDefers_count in Hnrd. rewrite Forall_forall in Hnrd.
      unfold countRD. simpl. rewrite (countIf_clearDefer _ tracked_RunDefers).
      by apply Hnrd. }
    rewrite Hsame. split.
    + apply Forall2_fmap_r, Forall2_same_length_lookup_2; [done |].
      by intros i b b' Hb [= <-]%(eq_trans (eq_sym Hb)).
    + intros ->. apply Forall2_fmap_r, Forall2_same_length_lookup_2; [done |].
      intros i b b' Hb Hb'. rewrite Hb in Hb'. injection Hb' as <-.
      unfold sameCode. simpl. by rewrite clearDefer_false.
  - intros Hnodefer. rewrite Hnodefer in Hshape.
    eapply Forall2_Forall_r; [exact Hshape |].
    apply Forall_map, Forall_forall.
    intros b _ b' (_ & _ & _ & [[-> Hzero] | Hkept]).
    + specialize (Hzero eq_refl). simpl in Hzero. unfold countRD in *. simpl.
      by rewrite (countIf_clearDefer _ tracked_RunDefers).
    + fold countRD in Hkept. by rewrite Hkept, countRD_kept.
Qed.

Lemma lift_without_allocs_witness :
  noAllocs (Blocks strayLocals) = true
  /\ exists fn', lift (fun _ => true) (fun _ _ => 0%Z) (mkLifted [] [] []) strayLocals
                   = Some (fn', false)
       /\ Locals strayLocals = [3; 4]
       /\ Locals fn' = [3]
       /\ Forall2 sameCode (Blocks strayLocals) (Blocks fn').
Proof.
  assert (H1 : noAllocs (Blocks strayLocals) = true) by reflexivity.
  split; [exact H1 |].
  destruct (lift_without_allocs (fun _ => true) (fun _ _ => 0%Z) (mkLifted [] [] [])
              strayLocals H1) as (fn' & Hlift & _ & Hlocals & _ & Hsame & _).
  exists fn'. split_and!; [exact Hlift | reflexivity | exact Hlocals |].
  apply Hsame; reflexivity.
Defined.

(** C2, as stated, fails: the function [rundefers; return] has no Alloc, and
    [lift] returns false but has removed the RunDefers. *)
Lemma lift_without_allocs_drops_rundefers :
  ~ (forall (liftable : nat -> bool) (succIndex : nat -> nat -> Z) (middle : Lifted)
       (fn : Function),
       noAllocs (Blocks fn) = true -> cells_allocated fn = true ->
       exists fn', lift liftable succIndex middle fn = Some (fn', false)
         /\ map Instrs (Blocks fn') = map Instrs (Blocks fn)
         /\ Locals fn' = Locals fn).
Proof.
  intros H.
  destruct (H (fun _ => true) (fun _ _ => 0%Z) (mkLifted [] [] []) justRunDefers
              eq_refl eq_refl) as (fn' & Hlift & Hinstrs & _).
  vm_compute in Hlift. injection Hlift as <-. discriminate Hinstrs.
Qed.

End LiftingFacts.

(** * Properties of the pattern matcher *)

Module PatternFacts.
Import Pattern.

Lemma match_unwrapped (info : TypesInfo) (fuel : nat) (m : Matcher) (n : Node)
    (r : value) :
  match_ info (S fuel) m (LNode n) r
  = match unwrapped r with
    | Some (Some inner) => match_ info fuel m (LNode n) inner
    | Some None => Panic
    | None => dispatch info (match_ info fuel) fuel m (LNode n) r
    end.
Proof.
  simpl. unfold match_body.
  destruct r as [| | | | | | | | | ty fields | | |]; try reflexivity.
  cbn [unwrapped].
  destruct (transparent ty) as [field |], fields as [fields |]; try reflexivity.
  - by destruct (fieldOf field (VNode ty (Some fields))).
  - by destruct (String.eqb ty "BlockStmt" || String.eqb ty "FieldList").
  - by destruct (String.eqb ty "BasicLit").
Qed.

Lemma set_lookup (m m' : Matcher) (name : string) (idx : Z) (v : value) :
  set m name idx v = Some m' ->
  State m' = <[name := v]> (State m) /\ State m' !! name = Some v.
Proof.
  unfold set. intros H.
  destruct (last (setBindings m)); [| done]. simpl in H.
  destruct (bit idx); [| done]. simpl in H.
  injection H as <-. simpl. split; [done | apply lookup_insert_eq].
Qed.

(** C10: an [Or] without alternatives fails on every node and returns the
    matcher it was given, state and frames untouched: so does [Or.Match]
    called with any matching function for the alternatives, and so does
    [match] on every node it dispatches on (a wrapped node is first replaced
    by what it wraps, [match_unwrapped]). *)
Theorem Or_without_alternatives_fails (info : TypesInfo) (fuel : nat) (m : Matcher)
    (rec : Matcher -> lhs -> value -> result) (r : value) :
  unwrapped r = None ->
  Or_Match rec m [] r = Ret m VNil false
  /\ match_ info (S fuel) m (LNode (Or [])) r = Ret m VNil false.
Proof.
  intros Hr. split; [reflexivity |].
  by rewrite match_unwrapped, Hr.
Qed.

Lemma Or_without_alternatives_fails_witness :
  Or_Match (match_ emptyInfo 0) (fresh ["x"]) [] (ident "foo")
  = Ret (fresh ["x"]) VNil false
  /\ match_ emptyInfo 1 (fresh ["x"]) (LNode (Or [])) (ident "foo")
     = Ret (fresh ["x"]) VNil false.
Proof.
  apply (Or_without_alternatives_fails emptyInfo 0 (fresh ["x"])
           (match_ emptyInfo 0) (ident "foo")).
  reflexivity.
Defined.

(** C7, as amended: the empty list pattern (a [List] whose head is nil)
    returns the matcher unchanged, and answers true exactly on a slice value
    without elements, whether the slice is an empty one or a nil one of its
    slice type; on the untyped nil, as on every value that is no slice, it
    answers false. *)
Theorem empty_List_matches_empty_slices (info : TypesInfo) (fuel : nat) (m : Matcher)
    (Head Tail : Node) (r : value) :
  isNil Head = true ->
  unwrapped r = None ->
  exists v ok,
    match_ info (S fuel) m (LNode (List Head Tail)) r = Ret m v ok
    /\ (ok = true <-> exists k elems, r = VSlice k elems /\ length (elemsOf elems) = 0%nat)
    /\ (r = VNil -> ok = false).
Proof.
  intros HHead Hr. rewrite match_unwrapped, Hr. cbn [dispatch]. unfold List_Match.
  destruct r as [| | | | | | | | k elems | | | |];
    try (eexists _, false; split; [reflexivity |];
         split; [split; [done | by intros (? & ? & ? & _)] | done]).
  rewrite HHead. eexists _, _; split; [reflexivity |]. split; [| done].
  rewrite Nat.eqb_eq. split.
  - intros Hlen. by exists k, elems.
  - intros (k' & elems' & Heq & Hlen). by injection Heq as -> ->.
Qed.

Lemma empty_List_matches_empty_slices_witness :
  exists v ok,
    match_ emptyInfo 1 (fresh []) (LNode (List NoNode NoNode)) (VSlice StmtSlice None)
    = Ret (fresh []) v ok
    /\ (ok = true <-> exists k elems, VSlice StmtSlice None = VSlice k elems
                                      /\ length (elemsOf elems) = 0%nat)
    /\ (VSlice StmtSlice None = VNil -> ok = false).
Proof.
  apply (empty_List_matches_empty_slices emptyInfo 0 (fresh []) NoNode NoNode
           (VSlice StmtSlice None)); reflexivity.
Defined.

(** C7, as stated, fails: the nil slice of statements, [[]ast.Stmt(nil)], is
    a null value (the pattern [Nil] matches it), and the empty list pattern
    matches it, since [List.Match] asks for [v.Len() == 0] only. *)
Lemma empty_List_matches_nil_slice :
  match_ emptyInfo 1 (fresh []) (LNode (List NoNode NoNode)) (VSlice StmtSlice None)
  = Ret (fresh []) (VSlice StmtSlice None) true
  /\ match_ emptyInfo 1 (fresh []) (LNode Nil) (VSlice StmtSlice None)
     = Ret (fresh []) VNil true
  /\ match_ emptyInfo 1 (fresh []) (LNode (List NoNode NoNode)) VNil
     = Ret (fresh []) VNil false.
Proof. split_and!; reflexivity. Qed.

(** *** A recall succeeds on the same tree only, and binds nothing *)

#[local] Arguments castsTo : simpl never.

Section Sound.
Variable info : TypesInfo.
Variable rec : Matcher -> lhs -> value -> result.
Hypothesis rec_sound : forall m v r m' v',
  rec m (LValue v) r = Ret m' v' true -> sameTree info v r.

Lemma matchAll_sound (assertNode : bool) (ln : list value) :
  forall (m : Matcher) (rn : list value) (m' : Matcher),
    matchAll rec assertNode m ln rn = inl (Some (m', true)) ->
    length ln = length rn -> Forall2 (sameTree info) ln rn.
Proof.
  induction ln as [| ll ln IH]; intros m rn m' Hall Hlen.
  - destruct rn; [constructor | done].
  - destruct rn as [| rr rn]; [done |]. simpl in Hall.
    destruct (assertNode && negb (isAstNode ll && isAstNode rr)); [done |].
    destruct (rec m (LValue ll) rr) as [m1 v1 ok1 | |] eqn:Hrec; try done.
    destruct ok1; [| done].
    constructor; [by eapply rec_sound | eapply IH; [exact Hall | by injection Hlen]].
Qed.

Lemma matchASTFields_sound (b : value) (fa : list (string * value)) :
  forall (m : Matcher) (fb : list (string * value)) (m' : Matcher) (v' : value),
    matchASTFields rec m fa fb b = Ret m' v' true -> sameFields info fa fb.
Proof.
  induction fa as [| [na af] fa IH]; intros m fb m' v' H; [constructor |].
  destruct fb as [| [nb bf] fb]; [done |]. simpl in H.
  destruct af as [| sa | za | za | ba | p | | | ka ea | ta fta | o | tv | w];
    try done.
  - (* VNil *)
    destruct (rec m (LValue VNil) bf) as [m1 v1 ok1 | |] eqn:Hrec; try done.
    simpl in H. destruct ok1; [| done].
    constructor; [apply field_tree; by eapply rec_sound | by eapply IH].
  - destruct bf; try done. destruct (String.eqb_spec sa s); [subst | done].
    constructor; [constructor | by eapply IH].
  - destruct bf as [| | zb | zb | | | | | | | | |]; try done;
      (destruct (Z.eqb_spec za zb); [subst | done]);
      (constructor; [eapply field_int; eauto | by eapply IH]).
  - destruct bf as [| | zb | zb | | | | | | | | |]; try done;
      (destruct (Z.eqb_spec za zb); [subst | done]);
      (constructor; [eapply field_int; eauto | by eapply IH]).
  - destruct bf as [| | | | bb | | | | | | | |]; try done.
    destruct (Bool.eqb_spec ba bb); [subst | done].
    constructor; [constructor | by eapply IH].
  - constructor; [constructor | by eapply IH].
  - constructor; [constructor | by eapply IH].
  - constructor; [constructor | by eapply IH].
  - destruct bf as [| | | | | | | | kb eb | | | |]; try done.
    destruct (Nat.eqb_spec (length (elemsOf ea)) (length (elemsOf eb))) as [Hlen |];
      [| done]. simpl in H.
    destruct (matchAll rec true m (elemsOf ea) (elemsOf eb))
      as [[[m1 []] |] | []] eqn:Hall; try done.
    constructor; [| by eapply IH].
    apply field_slice. by eapply matchAll_sound.
  - destruct (rec m (LValue (VNode ta fta)) bf) as [m1 v1 ok1 | |] eqn:Hrec; try done.
    simpl in H. destruct ok1; [| done].
    constructor; [apply field_tree; by eapply rec_sound | by eapply IH].
  - destruct (rec m (LValue (VObject o)) bf) as [m1 v1 ok1 | |] eqn:Hrec; try done.
    simpl in H. destruct ok1; [| done].
    constructor; [apply field_tree; by eapply rec_sound | by eapply IH].
Qed.

Lemma matchAST_sound (m : Matcher) (a b : value) (m' : Matcher) (v' : value) :
  matchAST rec m a b = Ret m' v' true -> sameTree info a b.
Proof.
  unfold matchAST. destruct a as [| | | | | | | | | ta fa | | |]; try done.
  destruct b as [| | | | | | | | | tb fb | | |]; try done.
  destruct (String.eqb_spec ta tb) as [<- |]; [simpl | done].
  destruct fa as [fa |], fb as [fb |]; try done.
  - intros H. apply same_node. by eapply matchASTFields_sound.
  - intros _. apply same_nilptr.
Qed.

Lemma run_sound (m : Matcher) (ln rn : list value) (r : value) (m' : Matcher)
    (v' : value) :
  (if negb (length ln =? length rn)%nat then Ret m VNil false
   else allResult (matchAll rec false m ln rn) r) = Ret m' v' true ->
  Forall2 (sameTree info) ln rn.
Proof.
  destruct (Nat.eqb_spec (length ln) (length rn)) as [Hlen |]; [simpl | done].
  destruct (matchAll rec false m ln rn) as [[[m1 []] |] | []] eqn:Hall; try done.
  intros _. by eapply matchAll_sound.
Qed.

Lemma matchSlices_sound (m : Matcher) (k : SliceKind) (l r : value) (m' : Matcher)
    (v' : value) :
  k <> OtherSlice ->
  matchSlices rec m k l r = Some (Ret m' v' true) -> sameTree info l r.
Proof.
  intros Hk. unfold matchSlices.
  destruct l as [| | | | | | | | kl el | tl fl | | |];
    destruct r as [| | | | | | | | kr er | tr fr | | |]; try done;
    repeat case_bool_decide; cbn [andb]; subst; try done;
    try (destruct (castsTo _ _) eqn:Hcast; [| done]);
    intros [= H].
  - pose proof (run_sound m (elemsOf el) (elemsOf er) _ _ _ H).
    by apply same_slices.
  - pose proof (run_sound m (elemsOf el) [VNode tr fr] _ _ _ H).
    by apply same_slice_one.
  - pose proof (run_sound m [VNode tl fl] (elemsOf er) _ _ _ H).
    by apply same_one_slice.
Qed.

Lemma slices_sound (m : Matcher) (l r : value) (m' : Matcher) (v' : value) :
  match matchSlices rec m ExprSlice l r with
  | Some res => res
  | None =>
    match matchSlices rec m StmtSlice l r with
    | Some res => res
    | None =>
      match matchSlices rec m FieldSlice l r with
      | Some res => res
      | None => Ret m VNil false
      end
    end
  end = Ret m' v' true -> sameTree info l r.
Proof.
  destruct (matchSlices rec m ExprSlice l r) as [res |] eqn:H1.
  { intros ->. by eapply matchSlices_sound; [| exact H1]. }
  destruct (matchSlices rec m StmtSlice l r) as [res |] eqn:H2.
  { intros ->. by eapply matchSlices_sound; [| exact H2]. }
  destruct (matchSlices rec m FieldSlice l r) as [res |] eqn:H3; [| done].
  intros ->. by eapply matchSlices_sound; [| exact H3].
Qed.

Lemma dispatch_sound (fuel : nat) (m : Matcher) (v r : value) (m' : Matcher)
    (v' : value) :
  dispatch info rec fuel m (LValue v) r = Ret m' v' true -> sameTree info v r.
Proof.
  unfold dispatch.
  destruct v as [| s | t | z | b | p | | | k el | ty fields | o | tv | w].
  - destruct r; try done. intros _. constructor.
  - destruct (isVNil r); [done |]. cbn [isAstNode andb]. apply slices_sound.
  - destruct (isVNil r); [done |]. cbn [isAstNode andb]. apply slices_sound.
  - destruct (isVNil r); [done |]. cbn [isAstNode andb]. apply slices_sound.
  - destruct (isVNil r); [done |]. cbn [isAstNode andb]. apply slices_sound.
  - destruct (isVNil r); [done |]. cbn [isAstNode andb]. apply slices_sound.
  - destruct (isVNil r); [done |]. cbn [isAstNode andb]. apply slices_sound.
  - destruct (isVNil r); [done |]. cbn [isAstNode andb]. apply slices_sound.
  - destruct (isVNil r); [done |]. cbn [isAstNode andb]. apply slices_sound.
  - destruct (isVNil r); [done |].
    destruct (isAstNode (VNode ty fields) && isAstNode r) eqn:Hn.
    + apply matchAST_sound.
    + apply slices_sound.
  - destruct (isVNil r); [done |]. cbn [isAstNode andb].
    destruct r as [| | | | | | | | | tr fr | | |]; try done.
    destruct (decide (tr = "Ident")) as [-> | Hid].
    { intros [= _ _ Hobj]. apply bool_decide_eq_true in Hobj.
      by apply same_object_ident. }
    destruct (decide (tr = "SelectorExpr")) as [-> | Hsel].
    { destruct (fieldOf "Sel" _) as [sel |] eqn:Hf; [| done].
      intros [= _ _ Hobj]. apply bool_decide_eq_true in Hobj.
      by eapply same_object_selector. }
    intros H. exfalso. revert H.
    repeat match goal with
           | |- context [match ?x with _ => _ end] =>
             is_var x; destruct x; try done
           end.
  - destruct (isVNil r); [done |]. cbn [isAstNode andb]. apply slices_sound.
  - destruct (isVNil r); [done |]. cbn [isAstNode andb]. apply slices_sound.
Qed.

Lemma match_body_sound (fuel : nat) (m : Matcher) (v r : value) (m' : Matcher)
    (v' : value) :
  match_body info rec fuel m (LValue v) r = Ret m' v' true -> sameTree info v r.
Proof.
  assert (Hafter : forall l,
    match
      match r with
      | VNode ty fields =>
        match transparent ty, fields with
        | Some field, Some _ =>
          match fieldOf field r with
          | Some inner => Some (rec m (LValue l) inner)
          | None => Some Panic
          end
        | Some field, None =>
          if String.eqb ty "BlockStmt" || String.eqb ty "FieldList"
          then Some (rec m (LValue l) VNil) else Some Panic
        | None, None =>
          if String.eqb ty "BasicLit" then Some (rec m (LValue l) VNil) else None
        | None, Some _ => None
        end
      | _ => None
      end
    with
    | Some res => res
    | None => dispatch info rec fuel m (LValue l) r
    end = Ret m' v' true -> sameTree info l r).
  { intros l.
    destruct r as [| | | | | | | | | ty fields | | |]; try apply dispatch_sound.
    destruct (transparent ty) as [field |] eqn:Ht, fields as [fields |].
    - destruct (fieldOf field _) as [inner |] eqn:Hf; [| done].
      intros H. eapply same_right_wrapped; [| by eapply rec_sound].
      simpl. by rewrite Ht, <- Hf.
    - destruct (String.eqb ty "BlockStmt" || String.eqb ty "FieldList") eqn:Hb;
        [| done].
      intros H. eapply same_right_wrapped; [| by eapply rec_sound].
      simpl. by rewrite Ht, Hb.
    - apply dispatch_sound.
    - destruct (String.eqb ty "BasicLit") eqn:Hb; [| apply dispatch_sound].
      intros H. eapply same_right_wrapped; [| by eapply rec_sound].
      simpl. by rewrite Ht, Hb. }
  unfold match_body.
  destruct v as [| | | | | | | | | ty fields | | |]; try apply Hafter.
  destruct (transparent ty) as [field |] eqn:Ht; [| apply Hafter].
  destruct fields as [fields |].
  - destruct (fieldOf field _) as [inner |] eqn:Hf; [| done].
    intros H. eapply same_left_wrapped; [done | done | by eapply rec_sound].
  - destruct (String.eqb_spec ty "FieldList") as [-> |]; [| done].
    intros H. apply same_left_nilFieldList. by eapply rec_sound.
Qed.
End Sound.

Lemma match_sound (info : TypesInfo) (fuel : nat) :
  forall m v r m' v',
    match_ info fuel m (LValue v) r = Ret m' v' true -> sameTree info v r.
Proof.
  induction fuel as [| fuel IH]; intros m v r m' v' H; [done |].
  exact (match_body_sound info (match_ info fuel) IH fuel m v r m' v' H).
Qed.

Section Recall.
Variable info : TypesInfo.
Variable rec : Matcher -> lhs -> value -> result.
Hypothesis rec_same : forall m v r m' v' ok,
  rec m (LValue v) r = Ret m' v' ok -> m' = m.

Lemma matchAll_same (assertNode : bool) (ln : list value) :
  forall (m : Matcher) (rn : list value) (m' : Matcher) (ok : bool),
    matchAll rec assertNode m ln rn = inl (Some (m', ok)) -> m' = m.
Proof.
  induction ln as [| ll ln IH]; intros m rn m' ok Hall.
  - simpl in Hall. by injection Hall as <- _.
  - destruct rn as [| rr rn]; [done |]. simpl in Hall.
    destruct (assertNode && negb (isAstNode ll && isAstNode rr)); [done |].
    destruct (rec m (LValue ll) rr) as [m1 v1 ok1 | |] eqn:Hrec; try done.
    apply rec_same in Hrec as ->.
    destruct ok1; [by eapply IH | by injection Hall as <- _].
Qed.

Lemma allResult_same (assertNode : bool) (m : Matcher) (ln rn : list value)
    (v : value) (m' : Matcher) (v' : value) (ok : bool) :
  allResult (matchAll rec assertNode m ln rn) v = Ret m' v' ok -> m' = m.
Proof.
  destruct (matchAll rec assertNode m ln rn) as [[[m1 ok1] |] | []] eqn:Hall;
    try done.
  apply matchAll_same in Hall as ->. by destruct ok1; intros [= <- _ _].
Qed.

Lemma matchASTFields_same (b : value) (fa : list (string * value)) :
  forall (m : Matcher) (fb : list (string * value)) (m' : Matcher) (v' : value)
         (ok : bool),
    matchASTFields rec m fa fb b = Ret m' v' ok -> m' = m.
Proof.
  induction fa as [| [na af] fa IH]; intros m fb m' v' ok H.
  - simpl in H. by injection H as <- _ _.
  - destruct fb as [| [nb bf] fb]; [done |]. simpl in H.
    destruct af as [| sa | za | za | ba | p | | | ka ea | ta fta | o | tv | w];
      try done; try (by eapply IH).
    + destruct (rec m (LValue VNil) bf) as [m1 v1 ok1 | |] eqn:Hrec; try done.
      apply rec_same in Hrec as ->. simpl in H.
      destruct ok1; [by eapply IH | by injection H as <- _ _].
    + destruct bf; try done.
      destruct (String.eqb sa s); [by eapply IH | by injection H as <- _ _].
    + destruct bf as [| | zb | zb | | | | | | | | |]; try done;
        (destruct (za =? zb)%Z; [by eapply IH | by injection H as <- _ _]).
    + destruct bf as [| | zb | zb | | | | | | | | |]; try done;
        (destruct (za =? zb)%Z; [by eapply IH | by injection H as <- _ _]).
    + destruct bf as [| | | | bb | | | | | | | |]; try done.
      destruct (Bool.eqb ba bb); [by eapply IH | by injection H as <- _ _].
    + destruct bf as [| | | | | | | | kb eb | | | |]; try done.
      destruct (negb _); [by injection H as <- _ _ |].
      destruct (matchAll rec true m (elemsOf ea) (elemsOf eb))
        as [[[m1 ok1] |] | []] eqn:Hall; try done.
      apply matchAll_same in Hall as ->.
      destruct ok1; [by eapply IH | by injection H as <- _ _].
    + destruct (rec m (LValue (VNode ta fta)) bf) as [m1 v1 ok1 | |] eqn:Hrec;
        try done.
      apply rec_same in Hrec as ->. simpl in H.
      destruct ok1; [by eapply IH | by injection H as <- _ _].
    + destruct (rec m (LValue (VObject o)) bf) as [m1 v1 ok1 | |] eqn:Hrec;
        try done.
      apply rec_same in Hrec as ->. simpl in H.
      destruct ok1; [by eapply IH | by injection H as <- _ _].
Qed.

Lemma matchAST_same (m : Matcher) (a b : value) (m' : Matcher) (v' : value)
    (ok : bool) :
  matchAST rec m a b = Ret m' v' ok -> m' = m.
Proof.
  unfold matchAST. destruct a as [| | | | | | | | | ta fa | | |]; try done.
  destruct b as [| | | | | | | | | tb fb | | |]; try done.
  destruct (negb _); [by intros [= <- _ _] |].
  destruct fa as [fa |], fb as [fb |]; try (by intros [= <- _ _]).
  apply matchASTFields_same.
Qed.

Lemma matchSlices_same (m : Matcher) (k : SliceKind) (l r : value) (m' : Matcher)
    (v' : value) (ok : bool) :
  matchSlices rec m k l r = Some (Ret m' v' ok) -> m' = m.
Proof.
  unfold matchSlices.
  destruct l as [| | | | | | | | kl el | tl fl | | |];
    destruct r as [| | | | | | | | kr er | tr fr | | |]; try done;
    repeat case_bool_decide; cbn [andb]; try done;
    try (destruct (castsTo _ _); [| by intros [= <- _ _]]);
    try (by intros [= <- _ _]);
    intros Hres%(inj Some); revert Hres;
    (destruct (negb _); [by intros [= <- _ _] | apply allResult_same]).
Qed.

Lemma slices_same (m : Matcher) (l r : value) (m' : Matcher) (v' : value)
    (ok : bool) :
  match matchSlices rec m ExprSlice l r with
  | Some res => res
  | None =>
    match matchSlices rec m StmtSlice l r with
    | Some res => res
    | None =>
      match matchSlices rec m FieldSlice l r with
      | Some res => res
      | None => Ret m VNil false
      end
    end
  end = Ret m' v' ok -> m' = m.
Proof.
  destruct (matchSlices rec m ExprSlice l r) as [res |] eqn:H1.
  { intros ->. by eapply matchSlices_same. }
  destruct (matchSlices rec m StmtSlice l r) as [res |] eqn:H2.
  { intros ->. by eapply matchSlices_same. }
  destruct (matchSlices rec m FieldSlice l r) as [res |] eqn:H3.
  { intros ->. by eapply matchSlices_same. }
  by intros [= <- _ _].
Qed.

Lemma dispatch_same (fuel : nat) (m : Matcher) (v r : value) (m' : Matcher)
    (v' : value) (ok : bool) :
  dispatch info rec fuel m (LValue v) r = Ret m' v' ok -> m' = m.
Proof.
  unfold dispatch.
  destruct v as [| s | t | z | b | p | | | k el | ty fields | o | tv | w];
    try (by intros [= <- _ _]);
    (destruct (isVNil r); [by intros [= <- _ _] |]);
    try (cbn [isAstNode andb]; apply slices_same).
  - destruct (isAstNode (VNode ty fields) && isAstNode r).
    + apply matchAST_same.
    + apply slices_same.
  - cbn [isAstNode andb]. intros H.
    assert (Hcases : (exists b, Ret m (VObject o) b = Ret m' v' ok)
                     \/ Panic = Ret m' v' ok).
    { revert H.
      repeat match goal with
             | |- context [match ?x with _ => _ end] =>
               is_var x; destruct x; try (intros <-; by eauto)
             end.
      destruct (fieldOf _ _); intros <-; by eauto. }
    by destruct Hcases as [[b [= <- _ _]] | ?].
Qed.

Lemma match_body_same (fuel : nat) (m : Matcher) (v r : value) (m' : Matcher)
    (v' : value) (ok : bool) :
  match_body info rec fuel m (LValue v) r = Ret m' v' ok -> m' = m.
Proof.
  assert (Hafter : forall l,
    match
      match r with
      | VNode ty fields =>
        match transparent ty, fields with
        | Some field, Some _ =>
          match fieldOf field r with
          | Some inner => Some (rec m (LValue l) inner)
          | None => Some Panic
          end
        | Some field, None =>
          if String.eqb ty "BlockStmt" || String.eqb ty "FieldList"
          then Some (rec m (LValue l) VNil) else Some Panic
        | None, None =>
          if String.eqb ty "BasicLit" then Some (rec m (LValue l) VNil) else None
        | None, Some _ => None
        end
      | _ => None
      end
    with
    | Some res => res
    | None => dispatch info rec fuel m (LValue l) r
    end = Ret m' v' ok -> m' = m).
  { intros l.
    destruct r as [| | | | | | | | | ty fields | | |]; try apply dispatch_same.
    destruct (transparent ty) as [field |], fields as [fields |].
    - destruct (fieldOf field _) as [inner |]; [apply rec_same | done].
    - destruct (String.eqb ty "BlockStmt" || String.eqb ty "FieldList");
        [apply rec_same | done].
    - apply dispatch_same.
    - destruct (String.eqb ty "BasicLit"); [apply rec_same | apply dispatch_same]. }
  unfold match_body.
  destruct v as [| | | | | | | | | ty fields | | |]; try apply Hafter.
  destruct (transparent ty) as [field |]; [| apply Hafter].
  destruct fields as [fields |].
  - destruct (fieldOf field _) as [inner |]; [apply rec_same | done].
  - destruct (String.eqb ty "FieldList"); [apply rec_same | done].
Qed.
End Recall.

Lemma recall_keeps_matcher (info : TypesInfo) (fuel : nat) :
  forall m v r m' v' ok,
    match_ info fuel m (LValue v) r = Ret m' v' ok -> m' = m.
Proof.
  induction fuel as [| fuel IH]; intros m v r m' v' ok H; [done |].
  exact (match_body_same info (match_ info fuel) IH fuel m v r m' v' ok H).
Qed.

Lemma sameTree_ident (info : TypesInfo) (a b : string) :
  sameTree info (ident a) (ident b) -> a = b.
Proof.
  unfold ident. intros H. inversion H as
    [ | ? ? ? ? ? Ht | | ? ? ? Hu | | ? ? ? Hf | | | | | ]; subst; try done.
  inversion Hf as [| ? ? ? ? ? ? _ Hrest]; subst.
  inversion Hrest as [| ? ? ? ? ? ? Hname _]; subst.
  inversion Hname as [ | | | | | ? ? ? [? | ?] | | ? ? Ht]; subst; try done.
  inversion Ht; subst; done.
Qed.

(** C8: a [Binding] matched against a node that [match] dispatches on.
    While its name is unbound it matches its sub-pattern ([Any] for a nil
    one) and, when that succeeds in a matcher with a frame and a valid bit
    index, succeeds with the state extended by the name and the value the
    sub-pattern returned; when the sub-pattern fails it fails and stores
    nothing.  When the name is bound, a nil sub-pattern matches the node
    against the stored value: the matcher, and so the binding, stays as it
    was, and the match succeeds only if the node is the same tree as the
    stored value ([sameTree]); any other sub-pattern is a panic. *)
Theorem Binding_binds_recalls_or_panics (info : TypesInfo) (fuel : nat) (m : Matcher)
    (name : string) (idx : Z) (sub : Node) (r : value) :
  unwrapped r = None ->
  let whole := match_ info (S fuel) m (LNode (Binding name idx sub)) r in
  let first := match_ info fuel m (LNode (if isNil sub then Any else sub)) r in
  (State m !! name = None ->
   forall m' new,
     (first = Ret m' new true -> setBindings m' <> [] -> (0 <= idx)%Z ->
      exists m'', whole = Ret m'' new true
                  /\ State m'' = <[name := new]> (State m')
                  /\ State m'' !! name = Some new)
     /\ (first = Ret m' new false -> whole = Ret m' new false))
  /\ (forall v, State m !! name = Some v -> isNil sub = true ->
      whole = match_ info fuel m (LValue v) r
      /\ forall m' v' ok, whole = Ret m' v' ok ->
           m' = m /\ (ok = true -> sameTree info v r))
  /\ (forall v, State m !! name = Some v -> isNil sub = false -> whole = Panic).
Proof.
  intros Hr whole first. subst whole first.
  rewrite match_unwrapped, Hr. cbn [dispatch]. unfold Binding_Match.
  split; [| split].
  - intros Hfree m' new. rewrite Hfree.
    assert (Hwhole :
      (if isNil sub
       then andThen (match_ info fuel m (LNode Any) r) (fun m new ret =>
              if ret then match set m name idx new with
                          | Some m' => Ret m' new ret
                          | None => Panic
                          end
              else Ret m new ret)
       else andThen (match_ info fuel m (LNode sub) r) (fun m new ret =>
              if ret then match set m name idx new with
                          | Some m' => Ret m' new ret
                          | None => Panic
                          end
              else Ret m new ret))
      = andThen (match_ info fuel m (LNode (if isNil sub then Any else sub)) r)
          (fun m new ret =>
             if ret then match set m name idx new with
                         | Some m' => Ret m' new ret
                         | None => Panic
                         end
             else Ret m new ret)) by (by destruct (isNil sub)).
    rewrite Hwhole. clear Hwhole. split.
    + intros -> Hframe Hidx. simpl.
      destruct (set m' name idx new) as [m'' |] eqn:Hset.
      * exists m''. by destruct (set_lookup _ _ _ _ _ Hset).
      * exfalso. unfold set in Hset.
        destruct (last (setBindings m')) as [top |] eqn:Hlast.
        -- simpl in Hset. unfold bit in Hset.
           destruct (idx <? 0)%Z eqn:Hneg; [lia | done].
        -- by apply last_None in Hlast.
    + by intros ->.
  - intros v Hbound Hnil. rewrite Hnil, Hbound. split; [done |].
    intros m' v' ok Hrecall. split.
    + by eapply recall_keeps_matcher.
    + intros ->. by eapply match_sound.
  - intros v Hbound Hnil. by rewrite Hnil, Hbound.
Qed.

Lemma Binding_binds_recalls_or_panics_witness :
  let bound := mkMatcher {["x" := ident "foo"]} ["x"] [1%Z] in
  (exists m'',
     match_ emptyInfo 2 (fresh ["x"]) (LNode (Binding "x" 0 NoNode)) (ident "foo")
     = Ret m'' (ident "foo") true
     /\ State m'' !! "x" = Some (ident "foo"))
  /\ (exists v',
        match_ emptyInfo 7 bound (LNode (Binding "x" 0 NoNode)) (ident "foo")
        = Ret bound v' true
        /\ sameTree emptyInfo (ident "foo") (ident "foo"))
  /\ (exists v',
        match_ emptyInfo 7 bound (LNode (Binding "x" 0 NoNode)) (ident "bar")
        = Ret bound v' false)
  /\ match_ emptyInfo 2 bound (LNode (Binding "x" 0 Any)) (ident "bar") = Panic.
Proof.
  intros bound. split_and!.
  - destruct (Binding_binds_recalls_or_panics emptyInfo 1 (fresh ["x"]) "x" 0 NoNode
                (ident "foo") eq_refl) as (Hfirst & _ & _).
    destruct (Hfirst eq_refl (fresh ["x"]) (ident "foo")) as (Hbind & _).
    destruct (Hbind eq_refl) as (m'' & Hwhole & _ & Hx); [done | lia |].
    by exists m''.
  - destruct (Binding_binds_recalls_or_panics emptyInfo 6 bound "x" 0 NoNode
                (ident "foo") eq_refl) as (_ & Hrecall & _).
    destruct (Hrecall (ident "foo") eq_refl eq_refl) as (_ & Hsame).
    eexists. split; [vm_compute; reflexivity |].
    eapply Hsame; [vm_compute; reflexivity | reflexivity].
  - destruct (Binding_binds_recalls_or_panics emptyInfo 6 bound "x" 0 NoNode
                (ident "bar") eq_refl) as (_ & Hrecall & _).
    destruct (Hrecall (ident "foo") eq_refl eq_refl) as (Hwhole & _).
    eexists. etrans; [exact Hwhole |]. vm_compute. reflexivity.
  - destruct (Binding_binds_recalls_or_panics emptyInfo 1 bound "x" 0 Any
                (ident "bar") eq_refl) as (_ & _ & Hrebind).
    apply (Hrebind (ident "foo")); reflexivity.
Defined.

(** [Not.Match] has no [push], [pop] or [merge]: matching [Not{q}] returns
    exactly when matching [q] does, with the opposite answer and with the
    matcher that the match of [q] returned. *)
Lemma Not_returns_child_matcher (info : TypesInfo) (fuel : nat) (m : Matcher)
    (q : Node) (r : value) (m' : Matcher) (ok : bool) :
  (exists v, match_ info (S fuel) m (LNode (Not q)) r = Ret m' v ok)
  <-> (exists v, match_ info fuel m (LNode q) r = Ret m' v (negb ok)).
Proof.
  revert r. induction fuel as [| fuel IH]; intros r.
  - rewrite match_unwrapped. cbn [dispatch]. unfold Not_Match. simpl.
    destruct (unwrapped r) as [[inner |] |]; split; by intros (? & ?).
  - rewrite match_unwrapped.
    destruct (unwrapped r) as [[inner |] |] eqn:Hr.
    + rewrite (match_unwrapped info fuel m q r), Hr. apply IH.
    + rewrite (match_unwrapped info fuel m q r), Hr. split; by intros (? & ?).
    + cbn [dispatch]. unfold Not_Match.
      destruct (match_ info (S fuel) m (LNode q) r) as [mq vq okq | |];
        simpl; [| split; by intros (? & ?) ..].
      destruct okq, ok; split; intros (v & Hv); try done;
        injection Hv as <-; by eexists.
Qed.

(** C1: [Not{q}] succeeds exactly when [q] fails, but it hands on the matcher
    that the match of [q] left, whatever [q] has bound.  In [(Not x@_:_:[])]
    matched against the block [{ foo }], whose statement list has one
    element, the child binds [x] to the identifier and then fails for want of
    a second element; the finished [Match] succeeds with [x] still bound.
    [Or] undoes the same failed child: [(Or x@_:_:[])] fails with [x]
    unbound. *)
Theorem Not_keeps_failed_child_binding :
  (forall (info : TypesInfo) (fuel : nat) (m : Matcher) (q : Node) (r : value)
          (m' : Matcher) (ok : bool),
     (exists v, match_ info (S fuel) m (LNode (Not q)) r = Ret m' v ok)
     <-> (exists v, match_ info fuel m (LNode q) r = Ret m' v (negb ok)))
  /\ (exists m1 v1,
        match_ emptyInfo 7 (fresh ["x"]) (LNode bindThenFail) blockOfFoo
        = Ret m1 v1 false
        /\ State (fresh ["x"]) !! "x" = None
        /\ State m1 !! "x" = Some (ident "foo"))
  /\ (exists m v,
        Match emptyInfo 8 (mkPattern (Not bindThenFail) ["x"]) blockOfFoo
        = Ret m v true
        /\ State m !! "x" = Some (ident "foo"))
  /\ (exists m v,
        Match emptyInfo 8 (mkPattern (Or [bindThenFail]) ["x"]) blockOfFoo
        = Ret m v false
        /\ State m !! "x" = None).
Proof.
  split; [apply Not_returns_child_matcher |]. split_and!.
  - eexists _, _. split_and!; vm_compute; reflexivity.
  - eexists _, _. split; vm_compute; reflexivity.
  - eexists _, _. split; vm_compute; reflexivity.
Qed.

(** C3: in [(Or (Or x@_):_:[] _)] matched against the block [{ foo }], whose
    statement list has one element, the first alternative fails after its
    inner [Or] has bound [x], the second matches, and the finished [Match]
    still has [x] bound to the identifier.  Without the inner [Or],
    [(Or x@_:_:[] _)], the binding is removed. *)
Theorem Or_failed_alternative_keeps_inner_binding :
  (exists m1 v1,
     match_ emptyInfo 7 (push (fresh ["x"])) (LNode innerOrThenFail) blockOfFoo
     = Ret m1 v1 false)
  /\ (exists m v,
        Match emptyInfo 8 (mkPattern (Or [innerOrThenFail; Any]) ["x"]) blockOfFoo
        = Ret m v true
        /\ State m !! "x" = Some (ident "foo"))
  /\ (exists m v,
        Match emptyInfo 8 (mkPattern (Or [bindThenFail; Any]) ["x"]) blockOfFoo
        = Ret m v true
        /\ State m !! "x" = None).
Proof.
  split; [| split].
  - eexists _, _. vm_compute. reflexivity.
  - eexists _, _. split; [vm_compute; reflexivity |]. vm_compute. reflexivity.
  - eexists _, _. split; [vm_compute; reflexivity |]. vm_compute. reflexivity.
Qed.

(** C5: with [type C struct{}; type B = C; type A = B] at package level and
    an identifier that resolves to [A], [Symbol] matches the names [pkg.A]
    and [pkg.C] and does not match [pkg.B]: after the name of [A] itself the
    loop goes to the end of the alias chain at once. *)
Theorem Symbol_skips_inner_alias :
  let symbol name := mkPattern (Symbol (String_ name)) [] in
  let m := mkMatcher ∅ [] [] in
  let A := VObject (TypeNameObject tnA) in
  Match aliasChain 12 (symbol "pkg.A") (ident "A") = Ret m A true
  /\ Match aliasChain 12 (symbol "pkg.C") (ident "A") = Ret m A true
  /\ Match aliasChain 12 (symbol "pkg.B") (ident "A") = Ret m A false.
Proof.
  repeat split; vm_compute; reflexivity.
Qed.

End PatternFacts.

(** * The block sets: membership, counting and the worklist order *)

Module BlockSetFacts.
Import IR.

Lemma Has_lookup (s : BlockSet) (b : nat) :
  BlockSet_Has s b = default false (values s !! b).
Proof.
  unfold BlockSet_Has. destruct (decide _) as [Hle | Hlt]; [| done].
  rewrite lookup_ge_None_2 by lia. done.
Qed.

Lemma countTrue_nonneg (v : list bool) : (0 <= countTrue v)%Z.
Proof. induction v as [| [] v IH]; simpl; lia. Qed.

Lemma countTrue_insert (v : list bool) (i : nat) (old new : bool) :
  v !! i = Some old ->
  countTrue (<[i := new]> v)
  = (countTrue v - (if old then 1 else 0) + (if new then 1 else 0))%Z.
Proof.
  revert i. induction v as [| x v IH]; intros [| i] H; simpl in *; try done.
  - injection H as ->. lia.
  - rewrite (IH i H). lia.
Qed.

Lemma countTrue_replicate (n : nat) : countTrue (replicate n false) = 0%Z.
Proof. induction n; simpl; lia. Qed.

Lemma countTrue_zero (v : list bool) :
  countTrue v = 0%Z <-> forall k, v !! k <> Some true.
Proof.
  induction v as [| x v IH]; simpl.
  - split; [by intros _ k | done].
  - pose proof (countTrue_nonneg v). split.
    + intros H0 [| k]; simpl.
      * destruct x; [lia | done].
      * apply IH. destruct x; lia.
    + intros Hk. destruct x; [by specialize (Hk 0) |].
      assert (countTrue v = 0%Z) as ->; [| done].
      apply IH. intros k. apply (Hk (S k)).
Qed.

Lemma firstTrueFrom_Some (v : list bool) (i j : nat) :
  firstTrueFrom v i = Some j ->
  i <= j /\ v !! (j - i) = Some true /\ forall k, k < j - i -> v !! k = Some false.
Proof.
  revert i. induction v as [| x v IH]; intros i H; simpl in H; [done |].
  destruct x.
  - injection H as <-. rewrite Nat.sub_diag. split_and!; [lia | done | lia].
  - destruct (IH _ H) as (Hle & Hj & Hk).
    replace (j - i) with (S (j - S i)) by lia. split_and!; [lia | done |].
    intros [| k] Hlt; simpl; [done |]. apply Hk. lia.
Qed.

Lemma firstTrueFrom_None (v : list bool) (i : nat) :
  firstTrueFrom v i = None -> forall k, v !! k <> Some true.
Proof.
  revert i. induction v as [| x v IH]; intros i H k; simpl in H; [done |].
  destruct x; [done |]. destruct k as [| k]; simpl; [done |]. by eapply IH.
Qed.

(** X1: on a set whose counter is the number of its members and whose cursor
    is inside the set, [Clear], [Set], [Add] and [Take] keep both properties,
    and none of them changes the size of the set. *)
Theorem BlockSet_count_is_number_of_members (s : BlockSet) :
  BlockSet_wf s ->
  (BlockSet_wf (BlockSet_Clear s)
   /\ length (values (BlockSet_Clear s)) = length (values s))
  /\ (forall s2, BlockSet_wf (BlockSet_Set s s2)
                 /\ length (values (BlockSet_Set s s2)) = length (values s))
  /\ (forall b changed s', BlockSet_Add s b = Some (changed, s') ->
        BlockSet_wf s' /\ length (values s') = length (values s))
  /\ BlockSet_wf (BlockSet_Take s).2
  /\ length (values (BlockSet_Take s).2) = length (values s).
Proof.
  intros [Hcount Hidx]. split_and!.
  - unfold BlockSet_Clear, BlockSet_wf. simpl.
    rewrite countTrue_replicate, length_replicate. done.
  - simpl. by rewrite length_replicate.
  - intros s2.
    assert (Hlen : length (copy (values s) (values s2)) = length (values s)).
    { unfold copy. rewrite length_app, length_take, length_drop. lia. }
    unfold BlockSet_Set, BlockSet_wf. simpl. rewrite Hlen. done.
  - intros b changed s' Hadd. unfold BlockSet_Add in Hadd.
    destruct (values s !! b) as [v |] eqn:Hb; [| done]. simpl in Hadd.
    destruct v; injection Hadd as <- <-; [done |].
    unfold BlockSet_wf. simpl. rewrite length_insert.
    rewrite (countTrue_insert _ _ false) by done.
    apply lookup_lt_Some in Hb. split; [split|]; lia.
  - unfold BlockSet_Take.
    destruct (firstTrueFrom (drop (idx s) (values s)) (idx s)) as [i |] eqn:H1.
    + apply firstTrueFrom_Some in H1 as (Hle & Hi & _).
      rewrite lookup_drop in Hi. replace (idx s + (i - idx s)) with i in Hi by lia.
      unfold BlockSet_wf. simpl. rewrite length_insert.
      rewrite (countTrue_insert _ _ true) by done.
      apply lookup_lt_Some in Hi. split; lia.
    + destruct (firstTrueFrom (take (idx s) (values s)) 0) as [i |] eqn:H2; [| done].
      apply firstTrueFrom_Some in H2 as (_ & Hi & _). rewrite Nat.sub_0_r in Hi.
      apply lookup_take_Some in Hi as [Hi Hlt].
      unfold BlockSet_wf. simpl. rewrite length_insert.
      rewrite (countTrue_insert _ _ true) by done.
      apply lookup_lt_Some in Hi. split; lia.
  - unfold BlockSet_Take.
    destruct (firstTrueFrom (drop (idx s) (values s)) (idx s)); simpl;
      [by rewrite length_insert |].
    destruct (firstTrueFrom (take (idx s) (values s)) 0); simpl;
      [by rewrite length_insert | done].
Qed.

Lemma BlockSet_count_is_number_of_members_witness :
  (BlockSet_wf (BlockSet_Clear (NewBlockSet 3))
   /\ length (values (BlockSet_Clear (NewBlockSet 3)))
      = length (values (NewBlockSet 3)))
  /\ (forall s2, BlockSet_wf (BlockSet_Set (NewBlockSet 3) s2)
                 /\ length (values (BlockSet_Set (NewBlockSet 3) s2))
                    = length (values (NewBlockSet 3)))
  /\ (forall b changed s', BlockSet_Add (NewBlockSet 3) b = Some (changed, s') ->
        BlockSet_wf s' /\ length (values s') = length (values (NewBlockSet 3)))
  /\ BlockSet_wf (BlockSet_Take (NewBlockSet 3)).2
  /\ length (values (BlockSet_Take (NewBlockSet 3)).2)
     = length (values (NewBlockSet 3)).
Proof.
  apply (BlockSet_count_is_number_of_members (NewBlockSet 3)).
  split; simpl; lia.
Defined.

(** X2: [Add] on a block outside the set is an index panic (where [Has]
    answers false); inside, it reports whether the block was missing, makes
    it a member, leaves every other block as it was, and counts it once. *)
Theorem BlockSet_Add_adds (s : BlockSet) (b : nat) :
  match BlockSet_Add s b with
  | None => length (values s) <= b /\ BlockSet_Has s b = false
  | Some (changed, s') =>
    b < length (values s)
    /\ changed = negb (BlockSet_Has s b)
    /\ BlockSet_Has s' b = true
    /\ (forall b', b' <> b -> BlockSet_Has s' b' = BlockSet_Has s b')
    /\ BlockSet_Num s' = (BlockSet_Num s + (if changed then 1 else 0))%Z
    /\ (changed = false -> s' = s)
    /\ (changed = true -> idx s' = b)
  end.
Proof.
  unfold BlockSet_Add. rewrite !Has_lookup.
  destruct (values s !! b) as [v |] eqn:Hb; simpl.
  - pose proof (lookup_lt_Some _ _ _ Hb) as Hlt.
    destruct v; simpl.
    + rewrite Has_lookup, Hb. split_and!; try done. unfold BlockSet_Num. lia.
    + rewrite Has_lookup. simpl. rewrite list_lookup_insert_eq by done.
      split_and!; try done.
      intros b' Hne. rewrite !Has_lookup. simpl.
      by rewrite list_lookup_insert_ne.
  - apply lookup_ge_None in Hb. done.
Qed.

(** X3: [Take] on a set whose counter is right. It answers -1 exactly on the
    empty set, which it leaves alone. Otherwise it removes one member and
    returns it: the first one at or after the cursor, or else the first one
    of the set; the cursor moves there and the counter drops by one. *)
Theorem BlockSet_Take_takes (s : BlockSet) :
  BlockSet_wf s ->
  match BlockSet_Take s with
  | (None, s') =>
    s' = s /\ BlockSet_Num s = 0%Z /\ forall b, BlockSet_Has s b = false
  | (Some i, s') =>
    BlockSet_Has s i = true
    /\ BlockSet_Has s' i = false
    /\ (forall b, b <> i -> BlockSet_Has s' b = BlockSet_Has s b)
    /\ BlockSet_Num s' = (BlockSet_Num s - 1)%Z
    /\ (0 < BlockSet_Num s)%Z
    /\ idx s' = i
    /\ ((idx s <= i /\ forall b, idx s <= b < i -> BlockSet_Has s b = false)
        \/ (i < idx s
            /\ (forall b, idx s <= b -> BlockSet_Has s b = false)
            /\ forall b, b < i -> BlockSet_Has s b = false))
  end.
Proof.
  intros [Hcount Hidx]. unfold BlockSet_Take.
  assert (Hfound : forall i, values s !! i = Some true ->
    BlockSet_Has s i = true
    /\ BlockSet_Has (mkBlockSet i (<[i := false]> (values s)) (count s - 1)) i = false
    /\ (forall b, b <> i ->
          BlockSet_Has (mkBlockSet i (<[i := false]> (values s)) (count s - 1)) b
          = BlockSet_Has s b)
    /\ BlockSet_Num (mkBlockSet i (<[i := false]> (values s)) (count s - 1))
       = (BlockSet_Num s - 1)%Z
    /\ (0 < BlockSet_Num s)%Z).
  { intros i Hi. rewrite !Has_lookup. simpl. rewrite Hi.
    rewrite list_lookup_insert_eq by (by eapply lookup_lt_Some).
    split_and!; try done.
    - intros b Hne. rewrite !Has_lookup. simpl. by rewrite list_lookup_insert_ne.
    - unfold BlockSet_Num. rewrite Hcount.
      pose proof (countTrue_insert _ _ _ false Hi) as Hc.
      pose proof (countTrue_nonneg (<[i := false]> (values s))). simpl in Hc. lia. }
  destruct (firstTrueFrom (drop (idx s) (values s)) (idx s)) as [i |] eqn:H1.
  - apply firstTrueFrom_Some in H1 as (Hle & Hi & Hbefore).
    rewrite lookup_drop in Hi. replace (idx s + (i - idx s)) with i in Hi by lia.
    destruct (Hfound i Hi) as (? & ? & ? & ? & ?). split_and!; try done.
    left. split; [done |]. intros b Hb. rewrite Has_lookup.
    specialize (Hbefore (b - idx s) ltac:(lia)). rewrite lookup_drop in Hbefore.
    replace (idx s + (b - idx s)) with b in Hbefore by lia. by rewrite Hbefore.
  - pose proof (firstTrueFrom_None _ _ H1) as Hafter.
    assert (Hnone : forall b, idx s <= b -> BlockSet_Has s b = false).
    { intros b Hb. rewrite Has_lookup. specialize (Hafter (b - idx s)).
      rewrite lookup_drop in Hafter.
      replace (idx s + (b - idx s)) with b in Hafter by lia.
      by destruct (values s !! b) as [[] |]. }
    destruct (firstTrueFrom (take (idx s) (values s)) 0) as [i |] eqn:H2.
    + apply firstTrueFrom_Some in H2 as (_ & Hi & Hbefore).
      rewrite Nat.sub_0_r in Hi, Hbefore.
      apply lookup_take_Some in Hi as [Hi Hlt].
      destruct (Hfound i Hi) as (? & ? & ? & ? & ?). split_and!; try done.
      right. split_and!; [done | done |]. intros b Hb. rewrite Has_lookup.
      specialize (Hbefore b Hb). apply lookup_take_Some in Hbefore as [-> _]. done.
    + pose proof (firstTrueFrom_None _ _ H2) as Hbefore.
      assert (Hall : forall k, values s !! k <> Some true).
      { intros k Hk. destruct (decide (k < idx s)) as [Hlt | Hge].
        - apply (Hbefore k). by rewrite lookup_take_lt.
        - specialize (Hnone k ltac:(lia)). rewrite Has_lookup, Hk in Hnone. done. }
      split_and!; [done | |].
      * unfold BlockSet_Num. rewrite Hcount. by apply countTrue_zero.
      * intros b. rewrite Has_lookup. specialize (Hall b).
        by destruct (values s !! b) as [[] |].
Qed.

Lemma BlockSet_Take_takes_witness :
  match BlockSet_Take (mkBlockSet 2 [true; false; false; true] 2) with
  | (None, s') =>
    s' = mkBlockSet 2 [true; false; false; true] 2
    /\ BlockSet_Num (mkBlockSet 2 [true; false; false; true] 2) = 0%Z
    /\ forall b, BlockSet_Has (mkBlockSet 2 [true; false; false; true] 2) b = false
  | (Some i, s') =>
    BlockSet_Has (mkBlockSet 2 [true; false; false; true] 2) i = true
    /\ BlockSet_Has s' i = false
    /\ (forall b, b <> i ->
          BlockSet_Has s' b = BlockSet_Has (mkBlockSet 2 [true; false; false; true] 2) b)
    /\ BlockSet_Num s' = (BlockSet_Num (mkBlockSet 2 [true; false; false; true] 2) - 1)%Z
    /\ (0 < BlockSet_Num (mkBlockSet 2 [true; false; false; true] 2))%Z
    /\ idx s' = i
    /\ ((idx (mkBlockSet 2 [true; false; false; true] 2) <= i
         /\ forall b, idx (mkBlockSet 2 [true; false; false; true] 2) <= b < i ->
              BlockSet_Has (mkBlockSet 2 [true; false; false; true] 2) b = false)
        \/ (i < idx (mkBlockSet 2 [true; false; false; true] 2)
            /\ (forall b, idx (mkBlockSet 2 [true; false; false; true] 2) <= b ->
                  BlockSet_Has (mkBlockSet 2 [true; false; false; true] 2) b = false)
            /\ forall b, b < i ->
                 BlockSet_Has (mkBlockSet 2 [true; false; false; true] 2) b = false))
  end.
Proof.
  apply (BlockSet_Take_takes (mkBlockSet 2 [true; false; false; true] 2)).
  split; simpl; lia.
Defined.

(** X4: the block that [Add] has just put into the set is the one the next
    [Take] returns, and that [Take] restores the members and the counter of
    the set before the [Add]. *)
Theorem BlockSet_Take_after_Add (s s' : BlockSet) (b : nat) :
  BlockSet_Add s b = Some (true, s') ->
  exists s'', BlockSet_Take s' = (Some b, s'')
    /\ values s'' = values s /\ count s'' = count s /\ idx s'' = b.
Proof.
  unfold BlockSet_Add. intros Hadd.
  destruct (values s !! b) as [v |] eqn:Hb; [| done]. simpl in Hadd.
  destruct v; [done |]. injection Hadd as <-.
  pose proof (lookup_lt_Some _ _ _ Hb) as Hlt.
  unfold BlockSet_Take. simpl.
  assert (Hfirst : firstTrueFrom (drop b (<[b := true]> (values s))) b = Some b).
  { rewrite drop_insert_ge by lia. rewrite Nat.sub_diag.
    destruct (drop b (values s)) as [| x rest] eqn:Hd.
    - apply (f_equal length) in Hd. rewrite length_drop in Hd. simpl in Hd. lia.
    - done. }
  rewrite Hfirst. eexists. split; [reflexivity |]. simpl.
  split_and!; [| lia | done].
  rewrite list_insert_insert_eq. by apply list_insert_id.
Qed.

Lemma BlockSet_Take_after_Add_witness :
  exists s'', BlockSet_Take (mkBlockSet 1 [false; true; false] 2) = (Some 1, s'')
    /\ values s'' = values (mkBlockSet 0 [false; false; false] 1)
    /\ count s'' = count (mkBlockSet 0 [false; false; false] 1)
    /\ idx s'' = 1.
Proof.
  apply (BlockSet_Take_after_Add (mkBlockSet 0 [false; false; false] 1)
           (mkBlockSet 1 [false; true; false] 2) 1).
  reflexivity.
Defined.

(** X5: [Clear] empties the set. [Set] copies the members of another set and
    counts them afresh, whatever the counters were: up to the shorter of the
    two sizes the members are those of the other set, and beyond it the set
    keeps its own. *)
Theorem BlockSet_Set_copies_and_recounts (s s2 : BlockSet) (b : nat) :
  BlockSet_Has (BlockSet_Clear s) b = false
  /\ BlockSet_Num (BlockSet_Clear s) = 0%Z
  /\ BlockSet_Has (BlockSet_Set s s2) b
     = (if decide (b < length (values s2))
        then bool_decide (b < length (values s)) && BlockSet_Has s2 b
        else BlockSet_Has s b)
  /\ BlockSet_Num (BlockSet_Set s s2) = countTrue (values (BlockSet_Set s s2))
  /\ (length (values s) = length (values s2) ->
      values (BlockSet_Set s s2) = values s2).
Proof.
  split_and!.
  - rewrite Has_lookup. simpl.
    destruct (replicate (length (values s)) false !! b) as [x |] eqn:Hx; [| done].
    by apply lookup_replicate in Hx as [-> _].
  - done.
  - rewrite !Has_lookup. unfold BlockSet_Set, copy. simpl.
    destruct (decide (b < length (values s2))) as [H2 | H2].
    + case_bool_decide as H1.
      * rewrite lookup_app_l by (rewrite length_take; lia).
        rewrite lookup_take_lt by lia. done.
      * rewrite lookup_ge_None_2; [done |].
        rewrite length_app, length_take, length_drop. lia.
    + rewrite lookup_app_r by (rewrite length_take; lia).
      rewrite length_take, lookup_drop.
      destruct (decide (length (values s) <= length (values s2))) as [Hle | Hgt].
      * rewrite !lookup_ge_None_2; [done | lia | lia].
      * f_equal. f_equal. lia.
  - done.
  - intros Hlen. unfold BlockSet_Set, copy. simpl.
    rewrite Hlen, firstn_all, drop_ge by lia. apply app_nil_r.
Qed.

End BlockSetFacts.

(** * The reachability index answers graph reachability *)

Module ReachabilityFacts.
Import IR IR.Closure.

Lemma walk_unfold (fuel : nat) (blocks : list BasicBlock) (b : nat) (V : list bool) :
  walk (S fuel) blocks b V
  = blk ← blocks !! b; _ ← V !! b;
    foldl (walkStep fuel blocks) (Some (<[b := true]> V)) (Succs blk).
Proof. reflexivity. Qed.

Lemma foldl_walkStep_None (fuel : nat) (blocks : list BasicBlock) (succs : list nat) :
  foldl (walkStep fuel blocks) None succs = None.
Proof. induction succs; simpl; done. Qed.

Lemma marked_insert (V : list bool) (b x : nat) :
  marked (<[b := true]> V) x -> marked V x \/ x = b.
Proof.
  unfold marked. intros H. destruct (decide (x = b)) as [-> | Hne]; [by right |].
  left. by rewrite list_lookup_insert_ne in H.
Qed.

Lemma marked_insert_mono (V : list bool) (b x : nat) :
  marked V x -> marked (<[b := true]> V) x.
Proof.
  unfold marked. intros H. destruct (decide (x = b)) as [-> | Hne].
  - rewrite list_lookup_insert_eq; [done | by eapply lookup_lt_Some].
  - by rewrite list_lookup_insert_ne.
Qed.

Lemma walk_walked (blocks : list BasicBlock) (fuel : nat) :
  forall b V V', walk fuel blocks b V = Some V' -> walked blocks b V V'.
Proof.
  induction fuel as [| fuel IH]; intros b V V' Hwalk; [done |].
  rewrite walk_unfold in Hwalk.
  destruct (blocks !! b) as [blk |] eqn:Hblk; [| done]. simpl in Hwalk.
  destruct (V !! b) as [vb |] eqn:Hvb; [| done]. simpl in Hwalk.
  assert (Hloop : forall succs V1 V',
    foldl (walkStep fuel blocks) (Some V1) succs = Some V' ->
    (forall x, marked V1 x -> marked V' x)
    /\ (forall s, s ∈ succs -> marked V' s)
    /\ (forall x, marked V' x ->
          marked V1 x \/ exists s, s ∈ succs /\ rtc (edge blocks) s x)
    /\ (forall x, marked V' x -> ~ marked V1 x -> closedAt blocks V' x)).
  { clear V V' Hwalk Hvb. intros succs.
    induction succs as [| succ succs IHs]; intros V1 V' Hfold; cbn [foldl] in Hfold.
    - injection Hfold as <-. split_and!; try done.
      + by intros s Hs%elem_of_nil.
      + by left.
    - destruct (walkStep fuel blocks (Some V1) succ) as [V2 |] eqn:Hstep;
        [| by rewrite foldl_walkStep_None in Hfold].
      destruct (IHs _ _ Hfold) as (Hmono2 & Hall2 & Hsound2 & Hclosed2).
      assert (Hstep' :
        (forall x, marked V1 x -> marked V2 x)
        /\ marked V2 succ
        /\ (forall x, marked V2 x -> marked V1 x \/ rtc (edge blocks) succ x)
        /\ (forall x, marked V2 x -> ~ marked V1 x -> closedAt blocks V2 x)).
      { unfold walkStep in Hstep. simpl in Hstep.
        destruct (V1 !! succ) as [seen |] eqn:Hseen; [| done]. simpl in Hstep.
        destruct seen.
        - injection Hstep as <-. split_and!; try done. by left.
        - destruct (IH _ _ _ Hstep) as (Hm & Hb & Hs & Hcb & Hcn).
          split_and!.
          + intros x Hx. apply Hm. by apply marked_insert_mono.
          + done.
          + intros x Hx. destruct (Hs x Hx) as [[H1 | ->]%marked_insert | Hr];
              [by left | by right | by right].
          + intros x Hx Hnot. destruct (decide (x = succ)) as [-> | Hne]; [done |].
            apply Hcn; [done |]. intros [H1 | ->]%marked_insert; done. }
      destruct Hstep' as (Hmono1 & Hsucc & Hsound1 & Hclosed1).
      split_and!.
      + intros x Hx. by apply Hmono2, Hmono1.
      + intros s [-> | Hs]%elem_of_cons; [by apply Hmono2 | by apply Hall2].
      + intros x Hx. destruct (Hsound2 x Hx) as [H2 | (s & Hs & Hr)].
        * destruct (Hsound1 x H2) as [H1 | Hr]; [by left |].
          right. exists succ. split; [by left | done].
        * right. exists s. split; [by right | done].
      + intros x Hx Hnot. destruct (decide (V2 !! x = Some true)) as [H2 | H2].
        * intros y Hy. apply Hmono2. by apply (Hclosed1 x H2 Hnot).
        * by apply Hclosed2. }
  destruct (Hloop _ _ _ Hwalk) as (Hmono & Hall & Hsound & Hclosed).
  assert (Hb : marked (<[b := true]> V) b).
  { unfold marked. rewrite list_lookup_insert_eq; [done | by eapply lookup_lt_Some]. }
  assert (Hcb : closedAt blocks V' b).
  { intros y (blk' & Hblk' & Hy). rewrite Hblk in Hblk'. injection Hblk' as <-.
    by apply Hall. }
  split_and!.
  - intros x Hx. by apply Hmono, marked_insert_mono.
  - by apply Hmono.
  - intros x Hx. destruct (Hsound x Hx) as [[H1 | ->]%marked_insert | (s & Hs & Hr)].
    + by left.
    + by right.
    + right. eapply rtc_l; [| exact Hr]. by exists blk.
  - done.
  - intros x Hx Hnot. destruct (decide (x = b)) as [-> | Hne]; [done |].
    apply Hclosed; [done |]. intros [H1 | ->]%marked_insert; done.
Qed.

Lemma walk_marks_reachable_aux (blocks : list BasicBlock) (s : nat) :
  succs_in_range blocks = true ->
  (s < length blocks)%nat ->
  length (reachedFrom blocks s) = length blocks
  /\ forall v, reachedFrom blocks s !! v = Some true <-> rtc (edge blocks) s v.
Proof.
  intros Hwf Hs.
  destruct (ClosureFacts.reachedFrom_walk blocks s Hwf Hs) as [Hwalk Hlen].
  split; [done |].
  destruct (walk_walked _ _ _ _ _ Hwalk) as (_ & Hb & Hsound & Hcb & Hnew).
  assert (Hfresh : forall x, ~ marked (replicate (length blocks) false) x).
  { intros x Hx. unfold marked in Hx. by apply lookup_replicate in Hx as [? _]. }
  intros v. split.
  - intros Hv. destruct (Hsound v Hv) as [H0 | Hr]; [by apply Hfresh in H0 | done].
  - revert v. apply rtc_ind_r; [exact Hb |].
    intros y z _ Hyz IH. by apply (Hnew y IH (Hfresh y)).
Qed.

(** X6: [walk], started as [transitiveClosure] starts it (nothing visited yet,
    on a function whose successors are its own blocks), returns, and what it
    has marked is exactly what can be reached from the block along successor
    edges, the block itself included. *)
Theorem walk_marks_what_is_reachable (blocks : list BasicBlock) (s : nat) :
  succs_in_range blocks = true ->
  (s < length blocks)%nat ->
  exists visited,
    walk (length blocks) blocks s (replicate (length blocks) false) = Some visited
    /\ length visited = length blocks
    /\ forall v, visited !! v = Some true <-> rtc (edge blocks) s v.
Proof.
  intros Hwf Hs.
  destruct (ClosureFacts.reachedFrom_walk blocks s Hwf Hs) as [Hwalk Hlen].
  exists (reachedFrom blocks s). split_and!; [done | done |].
  by apply walk_marks_reachable_aux.
Qed.

Lemma walk_marks_what_is_reachable_witness :
  exists visited,
    walk (length threeBlocks) threeBlocks 2 (replicate (length threeBlocks) false)
    = Some visited
    /\ length visited = length threeBlocks
    /\ forall v, visited !! v = Some true <-> rtc (edge threeBlocks) 2 v.
Proof.
  apply (walk_marks_what_is_reachable threeBlocks 2); [reflexivity | simpl; lia].
Defined.

(** X7: on the index of a function with at most 2^20 blocks, [has(s, v)]
    returns, and it answers true exactly when [v] is block 1, or [s]
    dominates [v], or [s] is not block 0 and [v] can be reached from [s]
    along successor edges. *)
Theorem closure_has_is_reachability (Dominates : nat -> nat -> bool)
    (blocks : list BasicBlock) (c : closure) (s v : nat) :
  (Z.of_nat (length blocks) <= 2 ^ 20)%Z ->
  succs_in_range blocks = true ->
  transitiveClosure blocks = Some c ->
  (Z.of_nat (length (reachables c)) < 2 ^ 32)%Z ->
  (s < length blocks)%nat -> (v < length blocks)%nat ->
  exists answer,
    has Dominates c s v = Some answer
    /\ (answer = true <->
        v = 1%nat \/ Dominates s v = true \/ (s <> 0%nat /\ rtc (edge blocks) s v)).
Proof.
  intros Hmax Hwf Hc Hsmall Hs Hv.
  rewrite (ClosureFacts.has_hasSpec Dominates blocks c s v) by done.
  eexists. split; [reflexivity |].
  destruct (walk_marks_reachable_aux blocks s Hwf Hs) as (Hlen & Hreach).
  unfold hasSpec. rewrite !orb_true_iff, andb_true_iff, negb_true_iff.
  rewrite Z.eqb_eq, Nat.eqb_neq.
  assert (Hnth : nth v (reachedFrom blocks s) false = true <-> rtc (edge blocks) s v).
  { rewrite <- Hreach.
    destruct (lookup_lt_is_Some_2 (reachedFrom blocks s) v ltac:(lia)) as [x Hx].
    rewrite (nth_lookup_Some _ _ false _ Hx), Hx. split; [by intros -> | by intros [= ->]]. }
  rewrite Hnth. split.
  - intros [[H1 | H2] | [H3 H4]]; [left; lia | by right; left | by right; right].
  - intros [H1 | [H2 | [H3 H4]]]; [left; left; lia | by left; right | by right].
Qed.

Lemma closure_has_is_reachability_witness :
  exists answer,
    has (fun _ _ => false) (mkClosure [0; 0; 1; 2]%Z [1; 2]%Z) 2 2 = Some answer
    /\ (answer = true <->
        2%nat = 1%nat \/ false = true \/ (2%nat <> 0%nat /\ rtc (edge threeBlocks) 2 2)).
Proof.
  apply (closure_has_is_reachability (fun _ _ => false) threeBlocks);
    try reflexivity; simpl; lia.
Defined.

End ReachabilityFacts.

(** * The driver: numbering of the cells and compaction of the blocks *)

Module DriverFacts.
Import IR LiftingFacts.

Lemma kept_nil_free (usesDefer : bool) (l : list (option Instruction)) :
  Forall (fun i => is_nil i = false) (kept usesDefer l).
Proof.
  induction l as [| x l IH]; simpl; [constructor |].
  destruct (is_nil x) eqn:Hx; [done |].
  destruct (negb usesDefer && is_RunDefers x); [done | by constructor].
Qed.

Lemma kept_length_exact (usesDefer : bool) (l : list (option Instruction)) :
  length (kept usesDefer l) + countIf is_nil l
  + (if usesDefer then 0 else countRD l) = length l.
Proof.
  unfold countRD. induction l as [| x l IH]; simpl; [by destruct usesDefer |].
  destruct x as [[] |], usesDefer; simpl in *; lia.
Qed.

Lemma kept_all (usesDefer : bool) (l : list (option Instruction)) :
  countIf is_nil l = 0 -> (if usesDefer then 0 else countRD l) = 0 ->
  kept usesDefer l = l.
Proof.
  unfold countRD. induction l as [| x l IH]; simpl; [done |].
  destruct x as [[] |], usesDefer; simpl; intros H1 H2; try lia;
    f_equal; apply IH; simpl in *; lia.
Qed.

Lemma compact_keeps_survivors_in_order_aux (usesDefer : bool) (head : list Instruction)
    (b : BasicBlock) :
  gaps b = countIf is_nil (Instrs b) ->
  rundefers b = countRD (Instrs b) ->
  length (Instrs b) <= capacity b ->
  exists b',
    compact usesDefer head b = Some b'
    /\ Instrs b' = map Some head ++ kept usesDefer (Instrs b)
    /\ Forall (fun i => is_nil i = false) (Instrs b')
    /\ length (Instrs b') <= capacity b'
    /\ Index b' = Index b /\ Preds b' = Preds b /\ Succs b' = Succs b.
Proof.
  intros Hgaps Hrd Hcap.
  pose proof (kept_length_exact usesDefer (Instrs b)) as HK.
  rewrite <- Hgaps in HK.
  assert (Hrdk : (if usesDefer then 0 else rundefers b)
                 = (if usesDefer then 0 else countRD (Instrs b)))
    by (by destruct usesDefer; rewrite ?Hrd).
  rewrite <- Hrdk in HK.
  assert (Hfree : Forall (fun i => is_nil i = false)
                    (map Some head ++ kept usesDefer (Instrs b))).
  { apply Forall_app. split; [| apply kept_nil_free].
    apply Forall_map, Forall_forall. by intros. }
  unfold compact.
  destruct (Nat.eqb_spec (length head + gaps b
                          + (if usesDefer then 0 else rundefers b)) 0) as [Hfast | _].
  { exists b. destruct head as [| h head]; [| simpl in Hfast; lia].
    simpl in *. rewrite kept_all by (rewrite <- ?Hgaps, <- ?Hrdk; lia).
    split_and!; try done. by rewrite kept_all in Hfree by (rewrite <- ?Hgaps, <- ?Hrdk; lia). }
  destruct (decide _) as [Hroom | Hnoroom].
  - set (dst := Instrs b ++ replicate (capacity b - length (Instrs b)) None).
    assert (Hdstlen : length dst = capacity b).
    { unfold dst. rewrite length_app, length_replicate. lia. }
    pose proof (moveDown_spec usesDefer (length (Instrs b)) dst
                  (Z.of_nat (length dst) - 1)) as Hmove.
    specialize (Hmove ltac:(lia) ltac:(lia)).
    destruct (moveDown _ _ _ _) as [dst' i'].
    destruct Hmove as (Hi' & Hlen & Hdrop).
    replace (take (length (Instrs b)) dst) with (Instrs b) in *
      by (unfold dst; by rewrite take_app_length).
    replace (Z.to_nat (Z.of_nat (length dst) - 1 + 1)) with (length dst) in Hdrop
      by lia.
    rewrite drop_all, app_nil_r in Hdrop.
    destruct (decide _) as [Hoff | Hoff]; [| lia].
    eexists. split; [reflexivity |]. simpl.
    set (off := Z.to_nat (i' + 1 - Z.of_nat (length head))) in *.
    assert (Hinstrs : copy (drop off dst') (map Some head)
                      = map Some head ++ kept usesDefer (Instrs b)).
    { unfold copy. rewrite length_map.
      rewrite take_ge by (rewrite length_map, length_drop; lia).
      f_equal. rewrite drop_drop, <- Hdrop. f_equal. lia. }
    rewrite Hinstrs. split_and!; try done.
    rewrite length_app, length_map, length_drop. lia.
  - destruct (decide _) as [Hns | Hns]; [| lia].
    set (ns := (Z.of_nat (length (Instrs b)) + Z.of_nat (length head)
                - Z.of_nat (gaps b)
                - Z.of_nat (if usesDefer then 0 else rundefers b))%Z) in *.
    assert (Hnsval : Z.to_nat ns = length head + length (kept usesDefer (Instrs b)))
      by lia.
    assert (Hdst : copy (replicate (Z.to_nat ns) None) (map Some head)
                   = map Some head
                     ++ replicate (length (kept usesDefer (Instrs b))) None).
    { unfold copy. rewrite length_replicate, length_map.
      rewrite take_ge by (rewrite length_map; lia).
      f_equal. rewrite drop_replicate. f_equal. lia. }
    rewrite Hdst, fillUp_spec
      by (rewrite length_app, length_map, length_replicate; lia).
    simpl. eexists. split; [reflexivity |]. simpl.
    assert (Hinstrs :
      take (length head)
        (map Some head ++ replicate (length (kept usesDefer (Instrs b))) None)
      ++ kept usesDefer (Instrs b)
      ++ drop (length head + length (kept usesDefer (Instrs b)))
           (map Some head ++ replicate (length (kept usesDefer (Instrs b))) None)
      = map Some head ++ kept usesDefer (Instrs b)).
    { rewrite take_app_length' by (by rewrite length_map).
      rewrite drop_ge by (rewrite length_app, length_map, length_replicate; lia).
      by rewrite app_nil_r. }
    rewrite Hinstrs. split_and!; try done.
    rewrite length_app, length_map. lia.
Qed.

(** X8: the compaction of one block whose counters are right (as many gaps as
    nil instructions, the RunDefers counted, the instructions within the
    capacity) does not panic, on either of its paths; the block then holds the
    head followed by the instructions that are neither nil nor a RunDefers to
    kill, in their order, so no nil is left. *)
Theorem compact_keeps_survivors_in_order (usesDefer : bool) (head : list Instruction)
    (b : BasicBlock) :
  gaps b = countIf is_nil (Instrs b) ->
  rundefers b = countRD (Instrs b) ->
  length (Instrs b) <= capacity b ->
  exists b',
    compact usesDefer head b = Some b'
    /\ Instrs b' = map Some head ++ kept usesDefer (Instrs b)
    /\ Forall (fun i => is_nil i = false) (Instrs b')
    /\ length (Instrs b') <= capacity b'
    /\ Index b' = Index b /\ Preds b' = Preds b /\ Succs b' = Succs b.
Proof. apply compact_keeps_survivors_in_order_aux. Qed.

Lemma compact_keeps_survivors_in_order_witness :
  exists b',
    compact false [Phi (mkPhi [None] (Some 0) true)]
      (mkBlock 0 [] [] [None; Some RunDefers; Some (Other 0 [])] 3 1 1) = Some b'
    /\ Instrs b'
       = map Some [Phi (mkPhi [None] (Some 0) true)]
         ++ kept false [None; Some RunDefers; Some (Other 0 [])]
    /\ Forall (fun i => is_nil i = false) (Instrs b')
    /\ length (Instrs b') <= capacity b'
    /\ Index b' = 0 /\ Preds b' = [] /\ Succs b' = [].
Proof.
  apply (compact_keeps_survivors_in_order false [Phi (mkPhi [None] (Some 0) true)]
           (mkBlock 0 [] [] [None; Some RunDefers; Some (Other 0 [])] 3 1 1));
    [reflexivity | reflexivity | simpl; lia].
Defined.

Lemma scanInstr_numbers (liftable : nat -> bool) (e : bool) :
  forall instrs sc rd done_,
    let '(sc', _, _) := foldl (scanInstr liftable e) (sc, rd, done_) instrs in
    (sc_index sc', sc_numAllocs sc')
    = foldl (number liftable) (sc_index sc, sc_numAllocs sc) (allocsIn instrs).
Proof.
  induction instrs as [| instr instrs IH]; intros sc rd done_; [done |].
  cbn [foldl].
  destruct instr as [[cell | | | | | | | | |] |]; simpl;
    try (unfold number at 2; simpl; destruct (liftable cell); simpl);
    match goal with
    | |- context [foldl (scanInstr _ _) (?s, ?r, ?d) instrs] => exact (IH s r d)
    end.
Qed.

Lemma scanBlock_numbers (liftable : nat -> bool) (e : bool) :
  forall blocks sc done_,
    let '(sc', _) := foldl (scanBlock liftable e) (sc, done_) blocks in
    (sc_index sc', sc_numAllocs sc')
    = foldl (number liftable) (sc_index sc, sc_numAllocs sc) (allocsOf blocks).
Proof.
  induction blocks as [| b blocks IH]; intros sc done_; [done |].
  cbn [foldl]. unfold scanBlock at 2.
  pose proof (scanInstr_numbers liftable e (Instrs b) sc 0 []) as Hb.
  destruct (foldl (scanInstr liftable e) (sc, 0, []) (Instrs b)) as [[sc1 rd] instrs].
  specialize (IH sc1 (done_ ++ [mkBlock (Index b) (Preds b) (Succs b) instrs
                                   (capacity b) 0 rd])).
  destruct (foldl (scanBlock liftable e) _ blocks) as [sc' done'].
  rewrite IH. unfold allocsOf. simpl. by rewrite foldl_app, Hb.
Qed.

Lemma number_fold (liftable : nat -> bool) :
  forall cells idx n idx' n',
    foldl (number liftable) (idx, n) cells = (idx', n') ->
    n' = (n + Z.of_nat (length (filter (fun c => liftable c = true) cells)))%Z
    /\ (forall c, c ∉ cells -> idx' !! c = idx !! c)
    /\ (forall c, c ∈ cells -> liftable c = false -> idx' !! c = Some (-1)%Z)
    /\ (forall c, c ∈ cells -> liftable c = true ->
          exists k, idx' !! c = Some k /\ (n <= k < n')%Z)
    /\ (NoDup (filter (fun c => liftable c = true) cells) ->
        forall i c, filter (fun c => liftable c = true) cells !! i = Some c ->
          idx' !! c = Some (n + Z.of_nat i)%Z).
Proof.
  induction cells as [| c0 cells IH]; intros idx n idx' n' Hfold.
  - injection Hfold as <- <-. simpl. split_and!; try done.
    + lia.
    + by intros c Hc%elem_of_nil.
    + by intros c Hc%elem_of_nil.
  - cbn [foldl] in Hfold. unfold number at 2 in Hfold. simpl in Hfold.
    destruct (liftable c0) eqn:Hc0.
    + destruct (IH _ _ _ _ Hfold) as (Hn & Hout & Hno & Hyes & Hdense).
      rewrite filter_cons_True by done. simpl. split_and!.
      * lia.
      * intros c Hc. apply not_elem_of_cons in Hc as [Hne Hc].
        rewrite (Hout c Hc). by rewrite lookup_insert_ne.
      * intros c [-> | Hc]%elem_of_cons Hl; [congruence | by apply Hno].
      * intros c Hc Hl. destruct (decide (c ∈ cells)) as [Hin | Hnin].
        -- destruct (Hyes c Hin Hl) as (k & Hk & Hr). exists k. split; [done | lia].
        -- apply elem_of_cons in Hc as [-> | Hc]; [| done].
           exists n. rewrite (Hout c0 Hnin), lookup_insert_eq. split; [done | lia].
      * intros Hnd i c Hi. apply NoDup_cons in Hnd as [Hc0nin Hnd].
        destruct i as [| i]; simpl in Hi.
        -- injection Hi as <-. rewrite Hout, lookup_insert_eq; [f_equal; lia |].
           intros Hin. apply Hc0nin. by apply list_elem_of_filter.
        -- rewrite (Hdense Hnd i c Hi). f_equal. lia.
    + destruct (IH _ _ _ _ Hfold) as (Hn & Hout & Hno & Hyes & Hdense).
      rewrite filter_cons_False by congruence. split_and!.
      * done.
      * intros c Hc. apply not_elem_of_cons in Hc as [Hne Hc].
        rewrite (Hout c Hc). by rewrite lookup_insert_ne.
      * intros c Hc Hl. destruct (decide (c ∈ cells)) as [Hin | Hnin];
          [by apply Hno |].
        apply elem_of_cons in Hc as [-> | Hc]; [| done].
        by rewrite (Hout c0 Hnin), lookup_insert_eq.
      * intros c [-> | Hc]%elem_of_cons Hl; [congruence | by apply Hyes].
      * done.
Qed.

Lemma filter_agree {A : Type} (P1 P2 : A -> Prop) `{!forall x, Decision (P1 x)}
    `{!forall x, Decision (P2 x)} (l : list A) :
  Forall (fun x => P1 x <-> P2 x) l -> filter P1 l = filter P2 l.
Proof.
  induction 1 as [| x l Hx _ IH]; [done |].
  destruct (decide (P1 x)) as [H1 | H1].
  - rewrite !filter_cons_True by tauto. by rewrite IH.
  - rewrite !filter_cons_False by tauto. done.
Qed.

Lemma lift_parts (liftable : nat -> bool) (succIndex : nat -> nat -> Z)
    (middle : Lifted) (fn fn' : Function) (r : bool) :
  lift liftable succIndex middle fn = Some (fn', r) ->
  exists idx' n',
    foldl (number liftable) (allocIndex fn, 0%Z) (allocsOf (Blocks fn)) = (idx', n')
    /\ r = (0 <? n')%Z
    /\ allocIndex fn' = idx'
    /\ Locals fn' = filter (fun l => (default 0%Z (idx' !! l) < 0)%Z) (Locals fn).
Proof.
  unfold lift.
  set (e := match deferstackPreamble fn with
            | Some (alloc, _) => negb (allocHeap fn alloc)
            | None => false
            end).
  pose proof (scanBlock_numbers liftable e (Blocks fn)
                (mkScan (allocIndex fn) 0 false) []) as Hnum.
  destruct (foldl _ _ (Blocks fn)) as [sc blocks1]. simpl in Hnum.
  destruct (compactAll _ _ _ _) as [blocks3 |]; [simpl | done].
  intros [= <- <-]. exists (sc_index sc), (sc_numAllocs sc). by rewrite Hnum.
Qed.

(** X9: [lift] numbers the liftable Allocs densely in the order it meets them
    (0, 1, 2, ... when none occurs twice), gives every other Alloc the index
    -1 and touches the index of no cell without an Alloc instruction; it
    returns true exactly when some Alloc is liftable; and when every Local is
    an Alloc of the function, the Locals left are the ones that are not
    liftable, in their order. *)
Theorem lift_numbers_the_lifted_allocs (liftable : nat -> bool)
    (succIndex : nat -> nat -> Z) (middle : Lifted) (fn fn' : Function) (r : bool) :
  lift liftable succIndex middle fn = Some (fn', r) ->
  let lifted := filter (fun c => liftable c = true) (allocsOf (Blocks fn)) in
  (r = true <-> lifted <> [])
  /\ (forall c, c ∈ allocsOf (Blocks fn) -> liftable c = false ->
        allocIndex fn' !! c = Some (-1)%Z)
  /\ (forall c, c ∈ lifted ->
        exists k, allocIndex fn' !! c = Some k /\ (0 <= k < Z.of_nat (length lifted))%Z)
  /\ (NoDup lifted ->
      forall i c, lifted !! i = Some c -> allocIndex fn' !! c = Some (Z.of_nat i))
  /\ (forall c, c ∉ allocsOf (Blocks fn) -> allocIndex fn' !! c = allocIndex fn !! c)
  /\ (Forall (fun l => l ∈ allocsOf (Blocks fn)) (Locals fn) ->
      Locals fn' = filter (fun l => liftable l = false) (Locals fn)).
Proof.
  intros Hlift lifted.
  destruct (lift_parts _ _ _ _ _ _ Hlift) as (idx' & n' & Hfold & -> & -> & HL).
  destruct (number_fold _ _ _ _ _ _ Hfold) as (Hn & Hout & Hno & Hyes & Hdense).
  fold lifted in Hn, Hdense. split_and!.
  - rewrite Z.ltb_lt. destruct lifted; simpl in *; split; (done || lia).
  - done.
  - intros c [Hl Hc]%list_elem_of_filter.
    destruct (Hyes c Hc Hl) as (k & Hk & Hr). exists k. split; [done | lia].
  - intros Hnd i c Hi. rewrite (Hdense Hnd i c Hi). f_equal.
  - done.
  - intros Hlocals. rewrite HL. apply filter_agree.
    eapply Forall_impl; [exact Hlocals |]. intros l Hl. simpl.
    destruct (liftable l) eqn:Hlift'.
    + destruct (Hyes l Hl Hlift') as (k & -> & Hk). simpl. split; [lia | done].
    + rewrite (Hno l Hl Hlift'). simpl. split; [done | lia].
Qed.

Lemma lift_numbers_the_lifted_allocs_witness :
  exists fn', lift (fun _ => true) (fun _ _ => 0%Z) oneCellLifted oneCell = Some (fn', true)
    /\ allocIndex fn' !! 0 = Some 0%Z
    /\ Locals fn' = [].
Proof.
  destruct (lift (fun _ => true) (fun _ _ => 0%Z) oneCellLifted oneCell)
    as [[fn' r] |] eqn:Hlift; [| vm_compute in Hlift; discriminate].
  pose proof (lift_numbers_the_lifted_allocs _ _ _ _ _ _ Hlift)
    as (_ & _ & _ & Hdense & _ & Hlocals).
  exists fn'. split_and!.
  - vm_compute in Hlift. by injection Hlift as <- <-.
  - apply (Hdense ltac:(vm_compute; apply NoDup_singleton) 0 0). reflexivity.
  - rewrite Hlocals; [reflexivity |].
    repeat constructor.
Defined.

End DriverFacts.

(** * The placement: sigma slots and one node per cell and block *)

Module PlacementFacts.
Import IR LiftingFacts BlockSetFacts.

Section Tables.
Variable Dominates : nat -> nat -> bool.
Variable blocks : list BasicBlock.
Variable closure : option Closure.closure.
Variables df rdf : list (list nat).
Variable P : LiftState -> Prop.
Hypothesis P_tables : tablesOnly P.

Lemma tables_putSet (n : SetName) (s : BlockSet) (st : LiftState) :
  P st -> P (putSet n s st).
Proof. apply P_tables; by destruct n. Qed.

Lemma tables_add (n : SetName) (b : nat) : preserves P (add n b).
Proof.
  apply preserves_bind; [apply preserves_get | intros st].
  apply preserves_bind; [apply preserves_orStop | intros r].
  apply preserves_bind; [| intros _; apply preserves_ret].
  apply preserves_modify. intros st'. apply tables_putSet.
Qed.

Lemma tables_add_ (n : SetName) (b : nat) : preserves P (add n b ;; mret tt).
Proof. apply preserves_bind; [apply tables_add | intros _; apply preserves_ret]. Qed.

Lemma tables_setFrom (n n2 : SetName) : preserves P (setFrom n n2).
Proof. apply preserves_modify. intros st. apply tables_putSet. Qed.

Lemma tables_take (n : SetName) : preserves P (take_ n).
Proof.
  apply preserves_bind; [apply preserves_get | intros st].
  apply preserves_bind; [| intros _; apply preserves_ret].
  apply preserves_modify. intros st'. apply tables_putSet.
Qed.

Lemma tables_setChange (c : bool) : preserves P (setChange c).
Proof. apply preserves_modify. intros st. by apply P_tables. Qed.

Lemma tables_worklist (frontier : list (list nat)) (step : nat -> M unit) :
  (forall y, preserves P (step y)) ->
  forall fuel, preserves P (worklist blocks fuel frontier step).
Proof.
  intros Hstep. induction fuel as [| fuel IH]; simpl; [apply preserves_stop |].
  apply preserves_bind; [apply tables_take | intros [i |]];
    [| apply preserves_ret].
  apply preserves_bind; [apply preserves_orStop | intros _].
  apply preserves_bind; [apply preserves_orStop | intros ys].
  apply preserves_bind; [by apply preserves_forEach | by intros _].
Qed.

Lemma tables_placement (alloc : AllocInfo) :
  (forall y, preserves P (phiStep Dominates blocks closure alloc y)) ->
  (forall y, preserves P (sigmaStep Dominates blocks closure alloc y)) ->
  forall fuel, preserves P (placement Dominates blocks closure df rdf fuel alloc).
Proof.
  intros Hphi Hsigma.
  induction fuel as [| fuel IH]; simpl; [apply preserves_stop |].
  apply preserves_bind; [apply tables_setChange | intros _].
  apply preserves_bind; [apply tables_setFrom | intros _].
  apply preserves_bind; [by apply tables_worklist | intros _].
  apply preserves_bind; [apply tables_setFrom | intros _].
  apply preserves_bind; [by apply tables_worklist | intros _].
  apply preserves_bind; [apply preserves_get | intros st].
  destruct (change st); [apply IH | apply preserves_ret].
Qed.

Lemma tables_liftAlloc (fuel : nat) (cursors : SetName -> nat) (alloc : AllocInfo) :
  (forall y, preserves P (phiStep Dominates blocks closure alloc y)) ->
  (forall y, preserves P (sigmaStep Dominates blocks closure alloc y)) ->
  preserves P (liftAlloc Dominates blocks closure df rdf fuel cursors alloc).
Proof.
  intros Hphi Hsigma. unfold liftAlloc.
  apply preserves_bind.
  { apply preserves_modify. intros st. by apply P_tables. }
  intros _. apply preserves_bind.
  { apply preserves_forEach. intros r.
    destruct (ref_instr r); try apply preserves_ret; [apply tables_add_ |].
    apply preserves_bind; [apply tables_add | intros _].
    apply preserves_forEach. intros b. apply tables_add_. }
  intros _. apply preserves_bind; [apply tables_add | intros _].
  by apply tables_placement.
Qed.

(** The two steps, given what the invariant needs of an append. *)
Lemma tables_phiStep (alloc : AllocInfo) (y : nat) :
  (forall yb, blocks !! y = Some yb -> length (Preds yb) <> 0 ->
     a_referrers alloc <> [] ->
     preserves P (appendPhi y (mkNewPhi (mkPhi (replicate (length (Preds yb)) None)
                                            (Some y) false) (a_cell alloc)))) ->
  preserves P (phiStep Dominates blocks closure alloc y).
Proof.
  intros Happend. unfold phiStep.
  apply preserves_bind; [apply tables_add | intros added].
  destruct (negb added); [apply preserves_ret |].
  destruct (Nat.eqb_spec (length (a_referrers alloc)) 0) as [| Hrefs];
    [apply preserves_ret |].
  apply preserves_bind.
  { destruct closure; [apply preserves_orStop | apply preserves_ret]. }
  intros live. destruct (negb live); [apply preserves_ret |].
  intros st0 Hst0. unfold mbind at 1, M_bind at 1.
  destruct (blocks !! y) as [yb |] eqn:Hyb; simpl; [| done].
  destruct (Nat.eqb_spec (length (Preds yb)) 0) as [| Hpreds]; [done |].
  revert st0 Hst0. apply preserves_bind.
  { apply Happend; [done | done |]. by destruct (a_referrers alloc). }
  intros _. apply preserves_bind.
  { apply preserves_forEach. intros p. apply tables_add_. }
  intros _. apply preserves_bind; [apply tables_setChange | intros _].
  apply preserves_bind; [apply tables_add | intros d].
  destruct d; [apply tables_add_ | apply preserves_ret].
Qed.

Lemma tables_sigmaStep (alloc : AllocInfo) (y : nat) :
  (forall yb sigmas, blocks !! y = Some yb ->
     sigmasFor Dominates closure alloc y (Succs yb) = Some (sigmas, true) ->
     preserves P (appendSigma y (mkNewSigma (a_cell alloc) sigmas))) ->
  preserves P (sigmaStep Dominates blocks closure alloc y).
Proof.
  intros Happend. unfold sigmaStep.
  apply preserves_bind; [apply tables_add | intros added].
  destruct (negb added); [apply preserves_ret |].
  intros st0 Hst0. unfold mbind at 1, M_bind at 1.
  destruct (blocks !! y) as [yb |] eqn:Hyb; simpl; [| done].
  unfold mbind at 1, M_bind at 1.
  destruct (sigmasFor _ _ _ _ _) as [[sigmas anyLive] |] eqn:Hs; simpl; [| done].
  destruct anyLive; [| done].
  revert st0 Hst0. apply preserves_bind; [by eapply Happend | intros _].
  apply preserves_bind.
  { apply preserves_forEach. intros p. apply tables_add_. }
  intros _. apply preserves_bind; [apply tables_setChange | intros _].
  apply preserves_bind; [apply tables_add | intros d].
  destruct d; [apply tables_add_ | apply preserves_ret].
Qed.
End Tables.

Lemma sigmasFor_spec (Dominates : nat -> nat -> bool)
    (closure : option Closure.closure) (alloc : AllocInfo) (y : nat) :
  forall succs sigmas anyLive,
    sigmasFor Dominates closure alloc y succs = Some (sigmas, anyLive) ->
    length sigmas = length succs
    /\ (anyLive = true <-> exists i sg, sigmas !! i = Some (Some sg))
    /\ (forall i sg, sigmas !! i = Some (Some sg) ->
          From sg = y /\ X sg = Some (Cell (a_cell alloc))
          /\ sigmaBlock sg = succs !! i /\ sigmaLive sg = false)
    /\ (a_referrers alloc = [] -> anyLive = false).
Proof.
  induction succs as [| succ succs IH]; intros sigmas anyLive H; simpl in H.
  - injection H as <- <-. split_and!; try done.
    split; [done | by intros (i & sg & ?)].
  - destruct (match closure with Some _ => _ | None => _ end) as [live |] eqn:Hlive;
      [| done]. simpl in H.
    destruct (sigmasFor _ _ _ _ succs) as [[rest restLive] |] eqn:Hrest; [| done].
    simpl in H. injection H as <- <-.
    destruct (IH _ _ eq_refl) as (Hlen & Hany & Hslots & Hunused).
    split_and!.
    + simpl. by rewrite Hlen.
    + rewrite orb_true_iff, Hany. split.
      * intros [-> | (i & sg & Hi)]; [by eexists 0, _ | by exists (S i), sg].
      * intros ([| i] & sg & Hi); simpl in Hi; [| right; by exists i, sg].
        left. by destruct live.
    + intros [| i] sg Hi; simpl in Hi; [| by apply Hslots].
      destruct live; [| done]. by injection Hi as <-.
    + intros Hrefs. rewrite (Hunused Hrefs), orb_false_r.
      destruct closure; rewrite Hrefs in Hlive; simpl in Hlive; by injection Hlive.
Qed.

Lemma sigmas_ok_tables (blocks : list BasicBlock) : tablesOnly (sigmas_ok blocks).
Proof. intros st st' _ Hs H j l ns Hj. rewrite Hs in Hj. by apply H. Qed.

Lemma appendPhi_newSigmas (y : nat) (np : newPhi) (st : LiftState) :
  newSigmas (appendPhi y np st).2 = newSigmas st.
Proof.
  unfold appendPhi, mbind, M_bind, get. simpl.
  by destruct (newPhis st !! y).
Qed.

Lemma appendSigma_newPhis (y : nat) (ns : newSigma) (st : LiftState) :
  newPhis (appendSigma y ns st).2 = newPhis st.
Proof.
  unfold appendSigma, mbind, M_bind, get. simpl.
  by destruct (newSigmas st !! y).
Qed.

(** X11: whatever Allocs are lifted and however long the placement runs, every
    entry of [newSigmas] at a block has one slot per successor of that block,
    at least one slot is filled, and the sigma in a slot goes from the block
    to the successor of that slot, reads the Alloc of the entry and is not
    yet live. *)
Theorem liftAlloc_sigma_slots_match_succs (Dominates : nat -> nat -> bool)
    (blocks : list BasicBlock) (closure : option Closure.closure)
    (df rdf : list (list nat)) (fuel : nat) (cursors : SetName -> nat)
    (allocs : list AllocInfo) :
  sigmas_ok blocks (liftAllocs Dominates blocks closure df rdf fuel cursors allocs).2.
Proof.
  unfold liftAllocs.
  apply (preserves_forEach (sigmas_ok blocks)).
  - intros alloc. apply tables_liftAlloc; [apply sigmas_ok_tables | |].
    + intros y. apply tables_phiStep; [apply sigmas_ok_tables |].
      intros yb _ _ _ st Hst j l ns Hj. rewrite appendPhi_newSigmas in Hj.
      by apply Hst.
    + intros y. apply tables_sigmaStep; [apply sigmas_ok_tables |].
      intros yb sigmas Hyb Hfor st0 Hst0.
      unfold appendSigma, mbind, M_bind, get. simpl.
      destruct (newSigmas st0 !! y) as [nss |] eqn:Hy; simpl; [| done].
      intros j l ns Hj Hin. simpl in Hj.
      destruct (decide (j = y)) as [-> | Hne].
      * rewrite list_lookup_insert_eq in Hj by (by eapply lookup_lt_Some).
        injection Hj as <-. apply elem_of_app in Hin as [Hin | Hin].
        -- by eapply Hst0.
        -- apply list_elem_of_singleton in Hin as ->.
           destruct (sigmasFor_spec _ _ _ _ _ _ _ Hfor) as (Hlen & Hany & Hslots & _).
           exists yb. simpl. split_and!; [done | done | by apply Hany | done].
      * rewrite list_lookup_insert_ne in Hj by done. by eapply Hst0.
  - intros j l ns Hj Hin. simpl in Hj.
    apply lookup_replicate in Hj as [-> _]. by apply elem_of_nil in Hin.
Qed.



Lemma bind_triple_hoare {A B : Type} (P Q : LiftState -> Prop)
    (R : A -> LiftState -> Prop) (m : M A) (k : A -> M B) :
  triple P m R Q -> (forall a, hoare (R a) (k a) Q) -> hoare P (m ≫= k) Q.
Proof.
  intros Hm Hk st H. unfold mbind, M_bind. specialize (Hm st H).
  destruct (m st) as [[a |] st']; simpl in *; [by apply Hk | done].
Qed.

Lemma hoare_bind {A B : Type} (P R Q : LiftState -> Prop) (m : M A) (k : A -> M B) :
  hoare P m R -> (forall st, R st -> Q st) -> (forall a, hoare R (k a) Q) ->
  hoare P (m ≫= k) Q.
Proof.
  intros Hm HRQ Hk st H. unfold mbind, M_bind. specialize (Hm st H).
  destruct (m st) as [[a |] st']; simpl in *; [by apply Hk | by apply HRQ].
Qed.

Lemma hoare_preserves {A : Type} (P : LiftState -> Prop) (m : M A) :
  preserves P m -> hoare P m P.
Proof. done. Qed.

Lemma Add_grows (s s' : BlockSet) (b : nat) (r : bool) :
  BlockSet_Add s b = Some (r, s') ->
  (forall j, BlockSet_Has s j = true -> BlockSet_Has s' j = true)
  /\ BlockSet_Has s' b = true
  /\ (r = true -> BlockSet_Has s b = false).
Proof.
  unfold BlockSet_Add. intros H.
  destruct (values s !! b) as [v |] eqn:Hb; [| done]. simpl in H.
  destruct v; injection H as <- <-.
  - split_and!; [done | | done]. by rewrite Has_lookup, Hb.
  - split_and!.
    + intros j. rewrite !Has_lookup. simpl.
      destruct (decide (j = b)) as [-> | Hne].
      * by rewrite Hb.
      * by rewrite list_lookup_insert_ne.
    + rewrite Has_lookup. simpl.
      by rewrite list_lookup_insert_eq by (by eapply lookup_lt_Some).
    + intros _. by rewrite Has_lookup, Hb.
Qed.

Lemma add_run (n : SetName) (b : nat) (st : LiftState) :
  add n b st = match BlockSet_Add (getSet n st) b with
               | Some r => (Some r.1, putSet n r.2 st)
               | None => (None, st)
               end.
Proof.
  unfold add, mbind, M_bind, get, orStop. simpl.
  by destruct (BlockSet_Add (getSet n st) b).
Qed.

Section Lifting.
Variable Dominates : nat -> nat -> bool.
Variable blocks : list BasicBlock.
Variable closure : option Closure.closure.
Variables df rdf : list (list nat).
Variable cells : list nat.
Variable alloc : AllocInfo.
Hypothesis fresh : a_cell alloc ∉ cells.

#[local] Abbreviation inv := (lifting cells (a_cell alloc)).

Lemma lifting_grow (st st' : LiftState) :
  newPhis st' = newPhis st -> newSigmas st' = newSigmas st ->
  (forall j, BlockSet_Has (Aphi st) j = true -> BlockSet_Has (Aphi st') j = true) ->
  (forall j, BlockSet_Has (Asigma st) j = true -> BlockSet_Has (Asigma st') j = true) ->
  inv st -> inv st'.
Proof.
  intros Hp Hs Hphi Hsigma [H1 H2]. split.
  - intros j l Hj. rewrite Hp in Hj. destruct (H1 j l Hj) as (? & ? & ?).
    split_and!; [done | done | intros; by apply Hphi; auto].
  - intros j l Hj. rewrite Hs in Hj. destruct (H2 j l Hj) as (? & ? & ?).
    split_and!; [done | done | intros; by apply Hsigma; auto].
Qed.

Lemma lifting_add (n : SetName) (b : nat) : preserves inv (add n b).
Proof.
  intros st H. rewrite add_run.
  destruct (BlockSet_Add (getSet n st) b) as [[r s'] |] eqn:Hadd; simpl; [| done].
  destruct (Add_grows _ _ _ _ Hadd) as (Hgrow & _ & _).
  eapply lifting_grow; [| | | | exact H]; destruct n; simpl; auto.
Qed.

Lemma lifting_add_ (n : SetName) (b : nat) : preserves inv (add n b ;; mret tt).
Proof. apply preserves_bind; [apply lifting_add | intros _; apply preserves_ret]. Qed.

Lemma lifting_setWork (n2 : SetName) : preserves inv (setFrom Work n2).
Proof. apply preserves_modify. intros st. by apply lifting_grow. Qed.

Lemma lifting_takeWork : preserves inv (take_ Work).
Proof.
  apply preserves_bind; [apply preserves_get | intros st].
  apply preserves_bind; [| intros _; apply preserves_ret].
  apply preserves_modify. intros st'. by apply lifting_grow.
Qed.

Lemma lifting_setChange (c : bool) : preserves inv (setChange c).
Proof. apply preserves_modify. intros st. by apply lifting_grow. Qed.

Lemma lifting_phiStep (y : nat) :
  preserves inv (phiStep Dominates blocks closure alloc y).
Proof.
  set (P1 := fun st => inv st
                       /\ BlockSet_Has (Aphi st) y = true
                       /\ forall l, newPhis st !! y = Some l ->
                            a_cell alloc ∉ map np_alloc l).
  assert (HP1inv : forall st, P1 st -> inv st) by (by intros st [? _]).
  unfold phiStep.
  apply (bind_triple_hoare inv inv (fun added st => if added : bool then P1 st else inv st)).
  { intros st0 H0. rewrite add_run.
    destruct (BlockSet_Add (getSet APhi st0) y) as [[added s'] |] eqn:Hadd;
      simpl; [| done].
    destruct (Add_grows _ _ _ _ Hadd) as (Hgrow & Hy & Hwas).
    assert (H1 : inv (putSet APhi s' st0))
      by (by eapply lifting_grow; [| | | | exact H0]).
    destruct added; [| done]. specialize (Hwas eq_refl).
    split_and!; [done | done |]. simpl. intros l Hl Hin.
    destruct H0 as [Hphis _]. destruct (Hphis y l Hl) as (_ & _ & Hhas).
    simpl in Hwas. rewrite (Hhas Hin) in Hwas. done. }
  intros [|]; simpl negb; cbv iota; [| by intros st ?].
  destruct (_ =? _); [by intros st [? _] |].
  apply (hoare_bind P1 P1 inv); [| done |].
  { destruct closure as [c |]; [| by intros st ?].
    by destruct (anyReachable Dominates y _ c (a_referrers alloc)); intros st ?. }
  intros live. destruct (negb live); [by intros st [? _] |].
  apply (hoare_bind P1 P1 inv); [| done |].
  { by destruct (blocks !! y); intros st ?. }
  intros yb. destruct (_ =? _); [by intros st [? _] |].
  apply (hoare_bind P1 inv inv); [| done |].
  { intros st (Hinv & Hhas & Hnew). unfold appendPhi, mbind, M_bind, get. simpl.
    destruct (newPhis st !! y) as [nps |] eqn:Hnps; simpl; [| done].
    destruct Hinv as [Hphis Hsigmas]. split; [| done].
    intros j l Hj. simpl in *.
    destruct (decide (j = y)) as [-> | Hne].
    - rewrite list_lookup_insert_eq in Hj by (by eapply lookup_lt_Some).
      injection Hj as <-. destruct (Hphis y nps Hnps) as (Hnd & Hsub & _).
      rewrite map_app. simpl. split_and!.
      + apply NoDup_app. split_and!; [done | | apply NoDup_singleton].
        intros x Hx ->%list_elem_of_singleton. by apply (Hnew nps).
      + intros x [Hx | ->%list_elem_of_singleton]%elem_of_app; [by apply Hsub | by left].
      + done.
    - rewrite list_lookup_insert_ne in Hj by done. by apply Hphis. }
  intros _. apply hoare_preserves.
  apply preserves_bind.
  { apply preserves_forEach. intros p. apply lifting_add_. }
  intros _. apply preserves_bind; [apply lifting_setChange | intros _].
  apply preserves_bind; [apply lifting_add | intros d].
  destruct d; [apply lifting_add_ | apply preserves_ret].
Qed.

Lemma lifting_sigmaStep (y : nat) :
  preserves inv (sigmaStep Dominates blocks closure alloc y).
Proof.
  set (P1 := fun st => inv st
                       /\ BlockSet_Has (Asigma st) y = true
                       /\ forall l, newSigmas st !! y = Some l ->
                            a_cell alloc ∉ map ns_alloc l).
  assert (HP1inv : forall st, P1 st -> inv st) by (by intros st [? _]).
  unfold sigmaStep.
  apply (bind_triple_hoare inv inv (fun added st => if added : bool then P1 st else inv st)).
  { intros st0 H0. rewrite add_run.
    destruct (BlockSet_Add (getSet ASigma st0) y) as [[added s'] |] eqn:Hadd;
      simpl; [| done].
    destruct (Add_grows _ _ _ _ Hadd) as (Hgrow & Hy & Hwas).
    assert (H1 : inv (putSet ASigma s' st0))
      by (by eapply lifting_grow; [| | | | exact H0]).
    destruct added; [| done]. specialize (Hwas eq_refl).
    split_and!; [done | done |]. simpl. intros l Hl Hin.
    destruct H0 as [_ Hsigmas]. destruct (Hsigmas y l Hl) as (_ & _ & Hhas).
    simpl in Hwas. rewrite (Hhas Hin) in Hwas. done. }
  intros [|]; simpl negb; cbv iota; [| by intros st ?].
  apply (hoare_bind P1 P1 inv); [| done |].
  { by destruct (blocks !! y); intros st ?. }
  intros yb. apply (hoare_bind P1 P1 inv); [| done |].
  { by destruct (sigmasFor _ _ _ _ _); intros st ?. }
  intros r. destruct r.2; [| by intros st [? _]].
  apply (hoare_bind P1 inv inv); [| done |].
  { intros st (Hinv & Hhas & Hnew). unfold appendSigma, mbind, M_bind, get. simpl.
    destruct (newSigmas st !! y) as [nss |] eqn:Hnss; simpl; [| done].
    destruct Hinv as [Hphis Hsigmas]. split; [done |].
    intros j l Hj. simpl in *.
    destruct (decide (j = y)) as [-> | Hne].
    - rewrite list_lookup_insert_eq in Hj by (by eapply lookup_lt_Some).
      injection Hj as <-. destruct (Hsigmas y nss Hnss) as (Hnd & Hsub & _).
      rewrite map_app. simpl. split_and!.
      + apply NoDup_app. split_and!; [done | | apply NoDup_singleton].
        intros x Hx ->%list_elem_of_singleton. by apply (Hnew nss).
      + intros x [Hx | ->%list_elem_of_singleton]%elem_of_app; [by apply Hsub | by left].
      + done.
    - rewrite list_lookup_insert_ne in Hj by done. by apply Hsigmas. }
  intros _. apply hoare_preserves.
  apply preserves_bind.
  { apply preserves_forEach. intros p. apply lifting_add_. }
  intros _. apply preserves_bind; [apply lifting_setChange | intros _].
  apply preserves_bind; [apply lifting_add | intros d].
  destruct d; [apply lifting_add_ | apply preserves_ret].
Qed.

Lemma lifting_worklist (frontier : list (list nat)) (step : nat -> M unit) :
  (forall y, preserves inv (step y)) ->
  forall fuel, preserves inv (worklist blocks fuel frontier step).
Proof.
  intros Hstep. induction fuel as [| fuel IH]; simpl; [apply preserves_stop |].
  apply preserves_bind; [apply lifting_takeWork | intros [i |]];
    [| apply preserves_ret].
  apply preserves_bind; [apply preserves_orStop | intros _].
  apply preserves_bind; [apply preserves_orStop | intros ys].
  apply preserves_bind; [by apply preserves_forEach | by intros _].
Qed.

Lemma lifting_placement :
  forall fuel, preserves inv (placement Dominates blocks closure df rdf fuel alloc).
Proof.
  induction fuel as [| fuel IH]; simpl; [apply preserves_stop |].
  apply preserves_bind; [apply lifting_setChange | intros _].
  apply preserves_bind; [apply lifting_setWork | intros _].
  apply preserves_bind; [apply lifting_worklist, lifting_phiStep | intros _].
  apply preserves_bind; [apply lifting_setWork | intros _].
  apply preserves_bind; [apply lifting_worklist, lifting_sigmaStep | intros _].
  apply preserves_bind; [apply preserves_get | intros st].
  destruct (change st); [apply IH | apply preserves_ret].
Qed.

Lemma lifting_liftAlloc (fuel : nat) (cursors : SetName -> nat) :
  hoare (onePerAlloc cells)
    (liftAlloc Dominates blocks closure df rdf fuel cursors alloc)
    (onePerAlloc (a_cell alloc :: cells)).
Proof.
  assert (Hout : forall st, inv st -> onePerAlloc (a_cell alloc :: cells) st).
  { intros st [H1 H2]. split; intros j l Hj.
    - by destruct (H1 j l Hj) as (? & ? & _).
    - by destruct (H2 j l Hj) as (? & ? & _). }
  unfold liftAlloc.
  apply (hoare_bind _ inv _); [| done |].
  { intros st [H1 H2]. simpl. split; intros j l Hj; simpl in *.
    - destruct (H1 j l Hj) as [Hnd Hsub]. split_and!; [done | |].
      + intros x Hx. right. by apply Hsub.
      + intros Hin. by apply Hsub in Hin.
    - destruct (H2 j l Hj) as [Hnd Hsub]. split_and!; [done | |].
      + intros x Hx. right. by apply Hsub.
      + intros Hin. by apply Hsub in Hin. }
  intros _ st Hst. apply Hout. revert st Hst.
  apply preserves_bind.
  { apply preserves_forEach. intros r.
    destruct (ref_instr r); try apply preserves_ret; [apply lifting_add_ |].
    apply preserves_bind; [apply lifting_add | intros _].
    apply preserves_forEach. intros b. apply lifting_add_. }
  intros _. apply preserves_bind; [apply lifting_add | intros _].
  apply lifting_placement.
Qed.
End Lifting.

Lemma onePerAlloc_mono (cells cells' : list nat) (st : LiftState) :
  (forall c, c ∈ cells -> c ∈ cells') -> onePerAlloc cells st -> onePerAlloc cells' st.
Proof.
  intros Hsub [H1 H2]. split; intros j l Hj.
  - destruct (H1 j l Hj). split; [done | auto].
  - destruct (H2 j l Hj). split; [done | auto].
Qed.

Lemma liftAllocs_onePerAlloc (Dominates : nat -> nat -> bool)
    (blocks : list BasicBlock) (closure : option Closure.closure)
    (df rdf : list (list nat)) (fuel : nat) (cursors : SetName -> nat) :
  forall allocs cells st,
    NoDup (map a_cell allocs) ->
    (forall a, a ∈ allocs -> a_cell a ∉ cells) ->
    onePerAlloc cells st ->
    onePerAlloc (map a_cell allocs ++ cells)
      (forEach allocs (liftAlloc Dominates blocks closure df rdf fuel cursors) st).2.
Proof.
  induction allocs as [| a allocs IH]; intros cells st Hnd Hfresh Hst; [done |].
  apply NoDup_cons in Hnd as [Ha Hnd]. simpl.
  pose proof (lifting_liftAlloc Dominates blocks closure df rdf cells a
                (Hfresh a ltac:(by left)) fuel cursors st Hst) as H1.
  unfold mbind, M_bind.
  destruct (liftAlloc _ _ _ _ _ _ _ a st) as [[[] |] st1]; simpl in *.
  - eapply onePerAlloc_mono; [| apply (IH (a_cell a :: cells) st1 Hnd); [| done]].
    + intros c. simpl. rewrite ?elem_of_app, ?elem_of_cons, ?elem_of_app. tauto.
    + intros a' Ha' [Heq | Hin]%elem_of_cons.
      * apply Ha. rewrite <- Heq. by apply list_elem_of_fmap_2.
      * apply (Hfresh a'); [by right | done].
  - eapply onePerAlloc_mono; [| exact H1].
    intros c. simpl. rewrite ?elem_of_app, ?elem_of_cons, ?elem_of_app. tauto.
Qed.

(** X13: when the Allocs that are lifted are different cells, no block gets two
    phis of one Alloc and no block gets two sigma entries of one Alloc,
    however long the placement runs; and every entry of the two tables
    belongs to one of the lifted Allocs. *)
Theorem liftAlloc_one_phi_per_alloc (Dominates : nat -> nat -> bool)
    (blocks : list BasicBlock) (closure : option Closure.closure)
    (df rdf : list (list nat)) (fuel : nat) (cursors : SetName -> nat)
    (allocs : list AllocInfo) :
  NoDup (map a_cell allocs) ->
  onePerAlloc (map a_cell allocs)
    (liftAllocs Dominates blocks closure df rdf fuel cursors allocs).2.
Proof.
  intros Hnd. unfold liftAllocs.
  rewrite <- (app_nil_r (map a_cell allocs)).
  apply liftAllocs_onePerAlloc; [done | |].
  - intros a _ Hin. by apply elem_of_nil in Hin.
  - split; intros j l Hj; simpl in Hj; apply lookup_replicate in Hj as [-> _];
      (split; [apply NoDup_nil_2 | by intros c Hc%elem_of_nil]).
Qed.

Lemma liftAlloc_one_phi_per_alloc_witness :
  let second :=
    mkAllocInfo 1 0 [mkReferrer (Store (Cell 1) (Const 2)) 2 [];
                     mkReferrer (Load (Cell 1)) 1 [1]] in
  let st :=
    (liftAllocs (fun _ _ => false) Closure.threeBlocks None threeFrontiers
       threePostFrontiers 14 (fun _ => 0) [storedAndLoaded; second]).2 in
  map (map np_alloc) (newPhis st) = [[]; []; [0; 1]]
  /\ map (map ns_alloc) (newSigmas st) = [[0; 1]; []; [0; 1]]
  /\ onePerAlloc (map a_cell [storedAndLoaded; second]) st.
Proof.
  intros second st. split_and!; [reflexivity | reflexivity |].
  apply (liftAlloc_one_phi_per_alloc (fun _ _ => false) Closure.threeBlocks None
           threeFrontiers threePostFrontiers 14 (fun _ => 0)
           [storedAndLoaded; second]).
  simpl. apply NoDup_cons. split; [| apply NoDup_singleton].
  intros Hin. apply list_elem_of_singleton in Hin. discriminate Hin.
Defined.

End PlacementFacts.

(** * The matcher: binding frames and the state across a match *)

Module MatcherFacts.
Import Pattern PatternFacts.

Lemma andThen_Ret (r : result) (k : Matcher -> value -> bool -> result)
    (m' : Matcher) (v : value) (ok : bool) :
  andThen r k = Ret m' v ok ->
  exists m1 v1 ok1, r = Ret m1 v1 ok1 /\ k m1 v1 ok1 = Ret m' v ok.
Proof. destruct r as [m1 v1 ok1 | |]; simpl; [by eexists _, _, _ | done | done]. Qed.

Section Invariant.
Variable okB : string -> Z -> Prop.
Variable okAlt : Node -> Prop.
Variable Q : Matcher -> Matcher -> Prop.
Hypothesis Q_refl : forall m, Q m m.
Hypothesis Q_trans : forall m1 m2 m3, Q m1 m2 -> Q m2 m3 -> Q m1 m3.
Hypothesis Q_set : forall m m1 m2 name idx v,
  okB name idx -> State m !! name = None -> Q m m1 ->
  set m1 name idx v = Some m2 -> Q m m2.
Hypothesis Q_pop : forall m m2 m3, Q (push m) m2 -> pop m2 = Some m3 -> Q m m3.
Hypothesis okAlt_closed : forall a, bindingsOf a = [] -> okAlt a.

Lemma good_List (h t : Node) :
  goodAlts okB okAlt (List h t) -> goodAlts okB okAlt h /\ goodAlts okB okAlt t.
Proof.
  unfold goodAlts, good. simpl. rewrite !Forall_app. tauto.
Qed.

Lemma good_Binding (name : string) (idx : Z) (sub : Node) :
  goodAlts okB okAlt (Binding name idx sub) -> okB name idx /\ goodAlts okB okAlt sub.
Proof.
  unfold goodAlts, good. simpl. intros [H Ha]. apply Forall_cons_1 in H. tauto.
Qed.

Lemma good_Or (n : Node) (ns : list Node) :
  goodAlts okB okAlt (Or (n :: ns)) ->
  okAlt n /\ goodAlts okB okAlt n /\ goodAlts okB okAlt (Or ns).
Proof.
  unfold goodAlts, good. simpl. rewrite Forall_app. intros [[Hb1 Hb2] Ha].
  apply Forall_cons_1 in Ha as [Hn Ha]. apply Forall_app in Ha as [Ha1 Ha2]. done.
Qed.

Lemma good_Struct (ty name : string) (n : Node) (fs : list (string * Node)) :
  goodAlts okB okAlt (Struct ty ((name, n) :: fs)) ->
  goodAlts okB okAlt n /\ goodAlts okB okAlt (Struct ty fs).
Proof.
  unfold goodAlts, good. simpl. rewrite !Forall_app. tauto.
Qed.

Lemma good_Ident (n : Node) :
  goodAlts okB okAlt n -> goodAlts okB okAlt (Struct "Ident" [("Name", n)]).
Proof. unfold goodAlts, good. simpl. by rewrite !app_nil_r. Qed.

Lemma good_leaf (n : Node) :
  bindingsOf n = [] -> altsOf n = [] -> goodAlts okB okAlt n.
Proof. unfold goodAlts, good. by intros -> ->. Qed.

Lemma good_inert (n : Node) :
  bindingsOf n = [] -> Forall (fun a => bindingsOf a = []) (altsOf n) ->
  goodAlts okB okAlt n.
Proof.
  intros Hb Ha. split; [unfold good; by rewrite Hb |].
  eapply Forall_impl; [exact Ha | exact okAlt_closed].
Qed.

Variable info : TypesInfo.
Variable rec : Matcher -> lhs -> value -> result.
Hypothesis rec_keeps : keepsAlts okB okAlt Q rec.
Hypothesis Q_merge : forall alt m r m2 v ok m3,
  okAlt alt -> rec (push m) (LNode alt) r = Ret m2 v ok ->
  Q (push m) m2 -> merge m2 = Some m3 -> Q m m3.

Ltac ret :=
  match goal with
  | H : Ret _ _ _ = Ret _ _ _ |- _ => injection H as <- <- <-
  end; eauto.

Ltac inert :=
  apply good_inert;
  [ reflexivity
  | match goal with
    | |- Forall _ ?t => let t' := eval vm_compute in t in change t with t'
    end;
    repeat first [ apply Forall_nil_2 | apply Forall_cons_2; [reflexivity |] ] ].

Ltac call H :=
  let m1 := fresh "m" in let v1 := fresh "v" in let ok1 := fresh "ok" in
  let Hrec := fresh "Hrec" in
  apply andThen_Ret in H as (m1 & v1 & ok1 & Hrec & H);
  first [ apply rec_keeps in Hrec;
          [| first [ by (simpl; eauto using good_leaf) | by inert ] ]
        | idtac ].

Lemma keeps_Binding m name idx sub node m' v ok :
  goodAlts okB okAlt (Binding name idx sub) ->
  Binding_Match rec m name idx sub node = Ret m' v ok -> Q m m'.
Proof.
  intros [Hb Hsub]%good_Binding. unfold Binding_Match.
  assert (Hstore : forall sub', goodAlts okB okAlt sub' ->
    match State m !! name with
    | Some _ => Panic
    | None =>
      andThen (rec m (LNode sub') node) (fun m new ret =>
        if ret then match set m name idx new with
                    | Some m' => Ret m' new ret
                    | None => Panic
                    end
        else Ret m new ret)
    end = Ret m' v ok -> Q m m').
  { intros sub' Hsub' H. destruct (State m !! name) eqn:Hfree; [done |].
    apply andThen_Ret in H as (m1 & v1 & ok1 & Hrec & H).
    apply rec_keeps in Hrec; [| done].
    destruct ok1; [| ret].
    destruct (set m1 name idx v1) as [m2 |] eqn:Hset; [| done].
    injection H as <- <- <-. by eapply Q_set. }
  destruct (isNil sub).
  - destruct (State m !! name) as [bound |] eqn:Hbound.
    + by apply rec_keeps.
    + intros H. by apply (Hstore Any); [apply good_leaf |].
  - by apply Hstore.
Qed.

Lemma keeps_List m h t node m' v ok :
  goodAlts okB okAlt (List h t) -> List_Match rec m h t node = Ret m' v ok -> Q m m'.
Proof.
  intros [Hh Ht]%good_List. unfold List_Match. intros H.
  destruct node; try ret. destruct (isNil h); [ret |].
  destruct (elemsOf elems); [ret |].
  call H. call H. ret.
Qed.

Lemma keeps_String m s node m' v ok :
  String_Match rec m s node = Ret m' v ok -> Q m m'.
Proof.
  unfold String_Match. intros H. destruct node; try ret.
  destruct (maybeToken s); [| ret]. eapply rec_keeps; [| exact H]. by apply good_leaf.
Qed.

Lemma keeps_Or : forall nodes m node m' v ok,
  goodAlts okB okAlt (Or nodes) -> Or_Match rec m nodes node = Ret m' v ok -> Q m m'.
Proof.
  induction nodes as [| n nodes IH]; intros m node m' v ok Hgood H; simpl in H.
  - ret.
  - apply good_Or in Hgood as (Halt & Hn & Hns).
    apply andThen_Ret in H as (m1 & v1 & ok1 & Hrec & H).
    assert (HQ : Q (push m) m1) by (eapply rec_keeps; [| exact Hrec]; exact Hn).
    destruct ok1.
    + destruct (merge m1) as [m2 |] eqn:Hm; [| done].
      injection H as <- <- <-. by eapply Q_merge.
    + destruct (pop m1) as [m2 |] eqn:Hp; [| done].
      eapply Q_trans; [by eapply Q_pop | by eapply IH].
Qed.

Lemma keeps_Not m n node m' v ok :
  goodAlts okB okAlt (Not n) -> Not_Match rec m n node = Ret m' v ok -> Q m m'.
Proof.
  intros Hn. unfold Not_Match. intros H. call H. destruct ok0; ret.
Qed.

Lemma keeps_Builtin m n node m' v ok :
  goodAlts okB okAlt (Builtin n) -> Builtin_Match info rec m n node = Ret m' v ok -> Q m m'.
Proof.
  intros Hn%good_Ident. unfold Builtin_Match. intros H. call H.
  destruct (negb ok0); [ret |]. destruct (identName v0); [| done].
  destruct (bool_decide _); ret.
Qed.

Lemma keeps_Object m n node m' v ok :
  goodAlts okB okAlt (Object n) -> Object_Match info rec m n node = Ret m' v ok -> Q m m'.
Proof.
  intros Hn. pose proof (good_Ident _ Hn) as Hid. unfold Object_Match. intros H. call H.
  destruct (negb ok0); [ret |]. destruct (identName v0); [| done].
  call H. ret.
Qed.

Lemma keeps_typeNameLoop n : goodAlts okB okAlt n ->
  forall fuel m orig obj m' v ok,
    typeNameLoop info rec fuel m n orig obj = Ret m' v ok -> Q m m'.
Proof.
  intros Hn. induction fuel as [| fuel IH]; intros m orig obj m' v ok H; [done |].
  simpl in H. destruct (negb (tn_pkgLevel obj)); [ret |].
  call H. destruct (ok0 || negb (IsAlias info obj)); [ret |].
  destruct (Unalias (TypeOf info obj)); try ret.
  - apply rec_keeps in H; eauto.
  - apply IH in H; eauto.
  - apply IH in H; eauto.
Qed.

Lemma keeps_Symbol fuel m n node m' v ok :
  goodAlts okB okAlt (Symbol n) -> Symbol_Match info rec fuel m n node = Ret m' v ok -> Q m m'.
Proof.
  intros Hn. unfold Symbol_Match. intros H. call H.
  destruct (negb ok0); [ret |]. destruct (negb (castsTo ExprSlice v0)); [done |].
  match type of H with
  | match ?x with Some _ => _ | None => Panic end = _ =>
    destruct x as [fun_ |]; [| done]
  end.
  match type of H with
  | match ?x with Some _ => _ | None => Panic end = _ =>
    destruct x as [obj |]; [| done]
  end.
  assert (Hfinish : forall name,
    andThen (rec m0 (LNode n) (VString name)) (fun m _ ok =>
      Ret m (objectValue obj) ok) = Ret m' v ok -> Q m m').
  { intros name H'. call H'. ret. }
  destruct obj as [[] |]; try ret; try (by eapply Hfinish).
  - eapply Q_trans; [done |]. eapply (keeps_typeNameLoop n Hn). exact H.
  - destruct pkg; [| ret]. destruct (negb pkgLevel); [ret |]. by eapply Hfinish.
  - destruct pkg; [| ret]. destruct (negb pkgLevel); [ret |]. by eapply Hfinish.
Qed.

Lemma keeps_IntegerLiteral m n node m' v ok :
  goodAlts okB okAlt (IntegerLiteral n) ->
  IntegerLiteral_Match info rec m n node = Ret m' v ok -> Q m m'.
Proof.
  intros Hn. unfold IntegerLiteral_Match. intros H. call H.
  destruct (negb ok0); [ret |]. destruct (negb (castsTo ExprSlice v0)); [done |].
  destruct (Types info v0) as [tv |]; [| ret].
  destruct (tv_Value tv); [| ret]. call H. ret.
Qed.

Lemma keeps_TrulyConstantExpression m n node m' v ok :
  goodAlts okB okAlt (TrulyConstantExpression n) ->
  TrulyConstantExpression_Match info rec m n node = Ret m' v ok -> Q m m'.
Proof.
  intros Hn. unfold TrulyConstantExpression_Match. intros H.
  destruct (negb (castsTo ExprSlice node)); [ret |].
  destruct (Types info node) as [tv |]; [| ret].
  destruct (tv_Value tv); [| ret]. destruct (hasIdent node); [ret |].
  call H. ret.
Qed.

Lemma keeps_matchFields ty : forall fields m b m' v ok,
  goodAlts okB okAlt (Struct ty fields) ->
  matchFields rec m fields b = Ret m' v ok -> Q m m'.
Proof.
  induction fields as [| [name ai] fields IH]; intros m b m' v ok Hgood H; simpl in H.
  - ret.
  - apply good_Struct in Hgood as [Hai Hfs].
    destruct (fieldOf name b) as [bi |]; [| done].
    assert (Hcall : andThen (rec m (LNode ai) bi) (fun m _ ok =>
              if ok then matchFields rec m fields b else Ret m b false)
            = Ret m' v ok -> Q m m').
    { intros H'. call H'. destruct ok0; [| ret].
      eapply Q_trans; [done |]. by eapply IH. }
    destruct ai; try (by apply Hcall). ret.
Qed.

Lemma keeps_matchNodeAST m a b m' v ok :
  goodAlts okB okAlt a -> matchNodeAST rec m a b = Ret m' v ok -> Q m m'.
Proof.
  intros Ha. unfold matchNodeAST. intros H.
  destruct b as [| | | | | | | | k elems | ty fields | | |]; try ret; try done.
  - assert (Hone : match elemsOf elems with
                   | [b0] => rec m (LNode a) b0
                   | _ => Ret m VNil false
                   end = Ret m' v ok -> Q m m').
    { destruct (elemsOf elems) as [| b0 [| ? ?]]; intros H'; try ret.
      by apply rec_keeps in H'. }
    destruct k; try done; by apply Hone.
  - destruct fields; [| done]. destruct a; try done.
    destruct (negb (String.eqb ty0 ty)); [ret |]. by eapply keeps_matchFields.
Qed.

Lemma keeps_matchAll assertNode : forall ln rn m m' ok,
  matchAll rec assertNode m ln rn = inl (Some (m', ok)) -> Q m m'.
Proof.
  induction ln as [| ll ln IH]; intros rn m m' ok H; simpl in H.
  - injection H as <- <-. eauto.
  - destruct rn as [| rr rn]; [done |].
    destruct (assertNode && negb (isAstNode ll && isAstNode rr)); [done |].
    destruct (rec m (LValue ll) rr) as [m1 v1 ok1 | |] eqn:Hrec; try done.
    apply rec_keeps in Hrec; [| done].
    destruct ok1.
    + eapply Q_trans; [done |]. by eapply IH.
    + injection H as <- <-. done.
Qed.

Lemma keeps_allResult assertNode ln rn m x m' v ok :
  allResult (matchAll rec assertNode m ln rn) x = Ret m' v ok -> Q m m'.
Proof.
  destruct (matchAll rec assertNode m ln rn) as [[[m1 ok1] |] | []] eqn:Hall;
    simpl; try done.
  apply keeps_matchAll in Hall. destruct ok1; intros H; ret.
Qed.

Lemma keeps_matchASTFields : forall fa fb m b m' v ok,
  matchASTFields rec m fa fb b = Ret m' v ok -> Q m m'.
Proof.
  induction fa as [| [na af] fa IH]; intros fb m b m' v ok H; simpl in H.
  - ret.
  - destruct fb as [| [nb bf] fb]; [done |].
    assert (Hcall : andThen (rec m (LValue af) bf) (fun m _ ok =>
              if ok then matchASTFields rec m fa fb b else Ret m VNil false)
            = Ret m' v ok -> Q m m').
    { intros H'. call H'. destruct ok0; [| ret].
      eapply Q_trans; [done |]. by eapply IH. }
    destruct af; try done; try (by eapply IH); try (by apply Hcall).
    + destruct bf; try done. destruct (String.eqb s s0); [by eapply IH | ret].
    + destruct bf; try done; (destruct (t =? _)%Z; [by eapply IH | ret]).
    + destruct bf; try done; (destruct (z =? _)%Z; [by eapply IH | ret]).
    + destruct bf; try done. destruct (Bool.eqb b0 b1); [by eapply IH | ret].
    + destruct bf; try done.
      destruct (negb _); [ret |].
      destruct (matchAll rec true m (elemsOf elems) (elemsOf elems0))
        as [[[m1 ok1] |] | []] eqn:Hall; try done.
      apply keeps_matchAll in Hall.
      destruct ok1; [| simpl in H; ret].
      eapply Q_trans; [done |]. by eapply IH.
Qed.

Lemma keeps_matchAST m a b m' v ok :
  matchAST rec m a b = Ret m' v ok -> Q m m'.
Proof.
  unfold matchAST. intros H. destruct a; try done. destruct b; try done.
  destruct (negb _); [ret |].
  destruct fields as [fa |], fields0 as [fb |]; try ret.
  by eapply keeps_matchASTFields.
Qed.

Lemma keeps_matchSlices m k l r res m' v ok :
  matchSlices rec m k l r = Some res -> res = Ret m' v ok -> Q m m'.
Proof.
  unfold matchSlices. intros H ->.
  destruct l, r; try done;
    repeat match type of H with
           | (if ?b then _ else _) = _ => destruct b
           end;
    try done; apply (inj Some) in H;
    repeat match type of H with
           | (if ?b then _ else _) = _ => destruct b
           end;
    try ret; by eapply keeps_allResult.
Qed.

Lemma keeps_dispatch fuel m l r m' v ok :
  goodAltsLhs okB okAlt l -> dispatch info rec fuel m l r = Ret m' v ok -> Q m m'.
Proof.
  intros Hl H. destruct l as [n | lv]; simpl in Hl.
  - destruct n; simpl in H.
    + ret.
    + unfold Any_Match in H. ret.
    + unfold Nil_Match in H. destruct r; ret.
    + by eapply keeps_String.
    + unfold Token_Match in H. destruct r; ret.
    + by eapply keeps_List.
    + by eapply keeps_Binding.
    + by eapply keeps_Or.
    + by eapply keeps_Not.
    + by eapply keeps_Builtin.
    + by eapply keeps_Object.
    + by eapply keeps_Symbol.
    + by eapply keeps_IntegerLiteral.
    + by eapply keeps_TrulyConstantExpression.
    + by eapply keeps_matchNodeAST.
  - assert (Hslices :
      match matchSlices rec m ExprSlice lv r with
      | Some res => res
      | None =>
        match matchSlices rec m StmtSlice lv r with
        | Some res => res
        | None =>
          match matchSlices rec m FieldSlice lv r with
          | Some res => res
          | None => Ret m VNil false
          end
        end
      end = Ret m' v ok -> Q m m').
    { intros H'.
      destruct (matchSlices rec m ExprSlice lv r) eqn:H1;
        [by eapply keeps_matchSlices |].
      destruct (matchSlices rec m StmtSlice lv r) eqn:H2;
        [by eapply keeps_matchSlices |].
      destruct (matchSlices rec m FieldSlice lv r) eqn:H3;
        [by eapply keeps_matchSlices | ret]. }
    destruct lv; unfold dispatch in H; cbv beta iota in H;
      cbn [isAstNode andb] in H; try ret;
      (destruct (isVNil r); [ret |]);
      try (by apply Hslices).
    + destruct (isAstNode r); [by eapply keeps_matchAST | by apply Hslices].
    + destruct r; try ret.
      repeat match type of H with
             | match ?x with _ => _ end = _ => destruct x; try ret; try done
             end.
Qed.

Lemma keeps_match_body fuel m l r m' v ok :
  goodAltsLhs okB okAlt l -> match_body info rec fuel m l r = Ret m' v ok -> Q m m'.
Proof.
  intros Hl. unfold match_body.
  assert (Hafter :
    match
      match r with
      | VNode ty fields =>
        match transparent ty, fields with
        | Some field, Some _ =>
          match fieldOf field r with
          | Some inner => Some (rec m l inner)
          | None => Some Panic
          end
        | Some field, None =>
          if String.eqb ty "BlockStmt" || String.eqb ty "FieldList"
          then Some (rec m l VNil) else Some Panic
        | None, None =>
          if String.eqb ty "BasicLit" then Some (rec m l VNil) else None
        | None, Some _ => None
        end
      | _ => None
      end
    with
    | Some res => res
    | None => dispatch info rec fuel m l r
    end = Ret m' v ok -> Q m m').
  { destruct r; try (by apply keeps_dispatch).
    destruct (transparent ty) as [field |], fields as [fs |].
    - destruct (fieldOf field _); [by apply rec_keeps | done].
    - destruct (_ || _); [by apply rec_keeps | done].
    - by apply keeps_dispatch.
    - destruct (String.eqb ty "BasicLit"); [by apply rec_keeps | by apply keeps_dispatch]. }
  destruct l as [n | lv]; [done |].
  destruct lv; try done.
  destruct (transparent ty) as [field |], fields as [fs |]; try done.
  - destruct (fieldOf field _); [by apply rec_keeps | done].
  - destruct (String.eqb ty "FieldList"); [by apply rec_keeps | done].
Qed.
End Invariant.

Lemma match_keeps_alts (okB : string -> Z -> Prop) (okAlt : Node -> Prop)
    (Q : Matcher -> Matcher -> Prop) (info : TypesInfo) :
  (forall m, Q m m) ->
  (forall m1 m2 m3, Q m1 m2 -> Q m2 m3 -> Q m1 m3) ->
  (forall m m1 m2 name idx v,
     okB name idx -> State m !! name = None -> Q m m1 ->
     set m1 name idx v = Some m2 -> Q m m2) ->
  (forall fuel alt m r m2 v ok m3,
     okAlt alt -> match_ info fuel (push m) (LNode alt) r = Ret m2 v ok ->
     Q (push m) m2 -> merge m2 = Some m3 -> Q m m3) ->
  (forall m m2 m3, Q (push m) m2 -> pop m2 = Some m3 -> Q m m3) ->
  (forall a, bindingsOf a = [] -> okAlt a) ->
  forall fuel, keepsAlts okB okAlt Q (match_ info fuel).
Proof.
  intros Hrefl Htrans Hset Hmerge Hpop Hclosed.
  induction fuel as [| fuel IH]; intros m l r m' v ok Hl H; [done |].
  simpl in H. eapply keeps_match_body; eauto.
Qed.

Lemma good_closed (okB : string -> Z -> Prop) (n : Node) :
  bindingsOf n = [] -> good okB n.
Proof. unfold good. by intros ->. Qed.

Lemma match_keeps (okB : string -> Z -> Prop) (Q : Matcher -> Matcher -> Prop) :
  (forall m, Q m m) ->
  (forall m1 m2 m3, Q m1 m2 -> Q m2 m3 -> Q m1 m3) ->
  (forall m m1 m2 name idx v,
     okB name idx -> State m !! name = None -> Q m m1 ->
     set m1 name idx v = Some m2 -> Q m m2) ->
  (forall m m2 m3, Q (push m) m2 -> merge m2 = Some m3 -> Q m m3) ->
  (forall m m2 m3, Q (push m) m2 -> pop m2 = Some m3 -> Q m m3) ->
  forall info fuel, keeps okB Q (match_ info fuel).
Proof.
  intros Hrefl Htrans Hset Hmerge Hpop info fuel m l r m' v ok Hl H.
  eapply (match_keeps_alts okB (fun _ => True) Q info); eauto.
  destruct l as [n |]; [| done]. split; [done |].
  apply Forall_forall. done.
Qed.

Lemma dropLast_snoc {A : Type} (l : list A) (x : A) : dropLast (l ++ [x]) = l.
Proof.
  unfold dropLast. rewrite length_app. simpl.
  replace (length l + 1 - 1) with (length l) by lia. by rewrite take_app_length.
Qed.

Lemma last_dropLast {A : Type} (l : list A) (x : A) :
  last l = Some x -> l = dropLast l ++ [x].
Proof.
  intros H. destruct (last_Some l x) as [[l' ->] _]; [done |].
  by rewrite dropLast_snoc.
Qed.

Lemma last_is_Some' {A : Type} (l : list A) : 0 < length l -> is_Some (last l).
Proof. destruct l; simpl; [lia |]. intros _. by apply last_is_Some. Qed.

Lemma dropLast_length {A : Type} (l : list A) : length (dropLast l) = length l - 1.
Proof. unfold dropLast. rewrite length_take. lia. Qed.

Lemma set_frames (m m' : Matcher) (name : string) (idx : Z) (v : value) :
  set m name idx v = Some m' ->
  exists top b, last (setBindings m) = Some top /\ bit idx = Some b
    /\ m' = mkMatcher (<[name := v]> (State m)) (bindingsMapping m)
              (dropLast (setBindings m) ++ [Z.lor top b]).
Proof.
  unfold set. intros H.
  destruct (last (setBindings m)) as [top |]; [| done]. simpl in H.
  destruct (bit idx) as [b |]; [| done]. simpl in H. injection H as <-.
  by exists top, b.
Qed.

Lemma sameFrames_refl (m : Matcher) : sameFrames m m.
Proof. done. Qed.

Lemma sameFrames_trans (m1 m2 m3 : Matcher) :
  sameFrames m1 m2 -> sameFrames m2 m3 -> sameFrames m1 m3.
Proof. intros (? & ? & ?) (? & ? & ?). split_and!; congruence. Qed.

Lemma sameFrames_set (m1 m2 : Matcher) (name : string) (idx : Z) (v : value) :
  set m1 name idx v = Some m2 -> sameFrames m1 m2.
Proof.
  intros (top & b & Hlast & _ & ->)%set_frames. split_and!; simpl; [done | |].
  - rewrite length_app, dropLast_length. simpl.
    apply last_dropLast in Hlast. rewrite Hlast at 2. rewrite length_app. simpl.
    rewrite dropLast_length. lia.
  - by rewrite dropLast_snoc.
Qed.

Lemma sameFrames_push_merge (m m2 m3 : Matcher) :
  sameFrames (push m) m2 -> merge m2 = Some m3 ->
  setBindings m3 = setBindings m /\ bindingsMapping m3 = bindingsMapping m
  /\ State m3 = State m2.
Proof.
  intros (Hmap & Hlen & Hdrop). unfold merge.
  destruct (decide _); [done |]. intros [= <-]. simpl in *.
  by rewrite dropLast_snoc in Hdrop.
Qed.

Lemma sameFrames_push_pop (m m2 m3 : Matcher) :
  sameFrames (push m) m2 -> pop m2 = Some m3 ->
  setBindings m3 = setBindings m /\ bindingsMapping m3 = bindingsMapping m.
Proof.
  intros (Hmap & Hlen & Hdrop). unfold pop.
  destruct (last (setBindings m2)); [| done]. simpl. intros [= <-]. simpl in *.
  by rewrite dropLast_snoc in Hdrop.
Qed.

Lemma frames_keeps (info : TypesInfo) (fuel : nat) :
  keeps (fun _ _ => True) sameFrames (match_ info fuel).
Proof.
  apply match_keeps.
  - apply sameFrames_refl.
  - apply sameFrames_trans.
  - intros m m1 m2 name idx v _ _ H1 Hset.
    eapply sameFrames_trans; [done |]. by eapply sameFrames_set.
  - intros m m2 m3 H Hm.
    destruct (sameFrames_push_merge _ _ _ H Hm) as (Hf & Hn & _).
    unfold sameFrames. by rewrite Hf, Hn.
  - intros m m2 m3 H Hp.
    destruct (sameFrames_push_pop _ _ _ H Hp) as (Hf & Hn).
    unfold sameFrames. by rewrite Hf, Hn.
Qed.

Lemma goodLhs_True (l : lhs) : goodLhs (fun _ _ => True) l.
Proof. destruct l; [| done]. apply Forall_forall. by intros. Qed.

(** X14: whenever [match] returns, with success or not, the stack of frames
    is as deep as it was and only its top frame may differ, and the names of
    the bits are untouched: every [push] inside has had its [pop] or
    [merge]. *)
Theorem match_balances_frames (info : TypesInfo) (fuel : nat) (m : Matcher)
    (l : lhs) (r : value) (m' : Matcher) (v : value) (ok : bool) :
  match_ info fuel m l r = Ret m' v ok ->
  bindingsMapping m' = bindingsMapping m
  /\ length (setBindings m') = length (setBindings m)
  /\ dropLast (setBindings m') = dropLast (setBindings m).
Proof. intros H. eapply frames_keeps; [apply goodLhs_True | exact H]. Qed.

Lemma match_balances_frames_witness :
  bindingsMapping (mkMatcher {["x" := ident "foo"]} ["x"] [1%Z])
  = bindingsMapping (fresh ["x"])
  /\ length (setBindings (mkMatcher {["x" := ident "foo"]} ["x"] [1%Z]))
     = length (setBindings (fresh ["x"]))
  /\ dropLast (setBindings (mkMatcher {["x" := ident "foo"]} ["x"] [1%Z]))
     = dropLast (setBindings (fresh ["x"])).
Proof.
  apply (match_balances_frames emptyInfo 2 (fresh ["x"])
           (LNode (Binding "x" 0 NoNode)) (ident "foo") _ (ident "foo") true).
  vm_compute. reflexivity.
Defined.

(** X15: [Matcher.Match] runs the match of the root in a new frame, on top of
    the frames the Matcher came with.  When that match returns, [Match]
    returns its answer with the state it left and an empty stack if the
    Matcher came without a frame, and panics if it came with one; when the
    match of the root panics, so does [Match].  The function [Match], which
    starts from a new Matcher, returns what the match of the root returns. *)
Theorem Matcher_Match_needs_empty_stack (info : TypesInfo) (fuel : nat)
    (m0 : Matcher) (a : Pattern) (b : value) :
  Matcher_Match info fuel m0 a b
  = match match_ info fuel (push (mkMatcher ∅ (Bindings a) (setBindings m0)))
            (LNode (Root a)) b with
    | Ret m v ok =>
      if decide (setBindings m0 = [])
      then Ret (mkMatcher (State m) (Bindings a) []) v ok
      else Panic
    | Panic => Panic
    | OutOfFuel => OutOfFuel
    end
  /\ Match info fuel a b
     = match match_ info fuel (push (mkMatcher ∅ (Bindings a) []))
               (LNode (Root a)) b with
       | Ret m v ok => Ret (mkMatcher (State m) (Bindings a) []) v ok
       | Panic => Panic
       | OutOfFuel => OutOfFuel
       end.
Proof.
  assert (Hany : forall m0,
    Matcher_Match info fuel m0 a b
    = match match_ info fuel (push (mkMatcher ∅ (Bindings a) (setBindings m0)))
              (LNode (Root a)) b with
      | Ret m v ok =>
        if decide (setBindings m0 = [])
        then Ret (mkMatcher (State m) (Bindings a) []) v ok
        else Panic
      | Panic => Panic
      | OutOfFuel => OutOfFuel
      end).
  { clear m0. intros m0. unfold Matcher_Match.
    destruct (match_ info fuel _ _ b) as [m v ok | |] eqn:Hm; simpl; try done.
    destruct (frames_keeps info fuel _ _ _ _ _ _ (goodLhs_True _) Hm)
      as (Hmap & Hlen & Hdrop).
    simpl in *. unfold merge. destruct (decide (setBindings m = [])) as [He | _].
    { rewrite He, length_app in Hlen. simpl in Hlen. lia. }
    simpl. rewrite Hdrop, dropLast_snoc, Hmap.
    destruct (decide (setBindings m0 = [])) as [-> | Hne]; [done |].
    by destruct (decide (setBindings m0 = [])). }
  split; [apply Hany |].
  unfold Match. by rewrite Hany.
Qed.

(** A Matcher that comes with a frame, as one reused after a panic inside a
    match has been recovered: the match of the root succeeds and [Match]
    panics. *)
Lemma Matcher_Match_needs_empty_stack_witness :
  Matcher_Match emptyInfo 2 (mkMatcher ∅ [] [0%Z]) (mkPattern Any []) (ident "foo")
  = Panic
  /\ Matcher_Match emptyInfo 2 (mkMatcher {["x" := ident "bar"]} ["x"] [])
       (mkPattern Any []) (ident "foo")
     = Ret (mkMatcher ∅ [] []) (ident "foo") true
  /\ Match emptyInfo 2 (mkPattern Any []) (ident "foo")
     = Ret (mkMatcher ∅ [] []) (ident "foo") true.
Proof.
  split_and!.
  - by rewrite (proj1 (Matcher_Match_needs_empty_stack emptyInfo 2
                         (mkMatcher ∅ [] [0%Z]) (mkPattern Any []) (ident "foo"))).
  - by rewrite (proj1 (Matcher_Match_needs_empty_stack emptyInfo 2
                         (mkMatcher {["x" := ident "bar"]} ["x"] [])
                         (mkPattern Any []) (ident "foo"))).
  - by rewrite (proj2 (Matcher_Match_needs_empty_stack emptyInfo 2
                         (mkMatcher ∅ [] []) (mkPattern Any []) (ident "foo"))).
Defined.

Lemma unset_lookup (frame : Z) (x : string) : forall names i st,
  (forall k, names !! k = Some x ->
     Z.land frame (uint64 (Z.shiftl 1 (i + Z.of_nat k))) = 0%Z) ->
  unset frame names i st !! x = st !! x.
Proof.
  induction names as [| key names IH]; intros i st Hbits; simpl; [done |].
  rewrite IH.
  - destruct (Z.eqb_spec (Z.land frame (uint64 (Z.shiftl 1 i))) 0) as [| Hset]; [done |].
    destruct (decide (key = x)) as [-> | Hne]; [| by rewrite lookup_delete_ne].
    specialize (Hbits 0 eq_refl). rewrite Z.add_0_r in Hbits. done.
  - intros k Hk. specialize (Hbits (S k) Hk).
    by replace (i + 1 + Z.of_nat k)%Z with (i + Z.of_nat (S k))%Z by lia.
Qed.

Lemma unset_subseteq (frame : Z) (x : string) (v : value) : forall names i st,
  unset frame names i st !! x = Some v -> st !! x = Some v.
Proof.
  induction names as [| key names IH]; intros i st H; simpl in H; [done |].
  apply IH in H. destruct (_ =? _)%Z; [done |].
  by apply lookup_delete_Some in H as [_ ?].
Qed.

Lemma uint64_bit (i : Z) :
  (0 <= i)%Z -> uint64 (Z.shiftl 1 i) = if (i <? 64)%Z then (2 ^ i)%Z else 0%Z.
Proof.
  intros Hi. unfold uint64. rewrite Z.shiftl_1_l.
  destruct (Z.ltb_spec i 64).
  - apply Z.mod_small. split; [apply Z.pow_nonneg; lia |].
    apply Z.pow_lt_mono_r; lia.
  - replace i with (64 + (i - 64))%Z by lia.
    rewrite Z.pow_add_r by lia. rewrite Z.mul_comm. apply Z.mod_mul. lia.
Qed.

Lemma bits_meet (i j : Z) :
  (0 <= i)%Z -> (0 <= j)%Z ->
  Z.land (uint64 (Z.shiftl 1 i)) (uint64 (Z.shiftl 1 j)) <> 0%Z -> i = j.
Proof.
  intros Hi Hj. rewrite !uint64_bit by done.
  destruct (i <? 64)%Z, (j <? 64)%Z; rewrite ?Z.land_0_l, ?Z.land_0_r; try done.
  intros H. destruct (decide (i = j)) as [| Hne]; [done |]. exfalso. apply H.
  apply Z.bits_inj'. intros n Hn.
  rewrite Z.land_spec, !Z.pow2_bits_eqb, Z.bits_0 by lia.
  destruct (Z.eqb_spec i n), (Z.eqb_spec j n); simpl; try done. lia.
Qed.

Lemma land_lor_nonzero (a b c : Z) :
  Z.land (Z.lor a b) c <> 0%Z -> Z.land a c <> 0%Z \/ Z.land b c <> 0%Z.
Proof.
  rewrite Z.land_lor_distr_l. intros H.
  destruct (decide (Z.land a c = 0%Z)) as [Ha | Ha]; [| by left].
  right. intros Hb. apply H. rewrite Ha, Hb. done.
Qed.

Section Extends.
Variable names : list string.

Lemma extends_refl (m : Matcher) : extends names m m.
Proof.
  intros _. split_and!; [apply sameFrames_refl | done |].
  intros top top' i name H1 H2 _ _ Hbit. rewrite H1 in H2. injection H2 as <-.
  by left.
Qed.

Lemma extends_trans (m1 m2 m3 : Matcher) :
  extends names m1 m2 -> extends names m2 m3 -> extends names m1 m3.
Proof.
  intros H12 H23 Hn. destruct (H12 Hn) as (Hf12 & Hs12 & Hb12).
  assert (Hn2 : bindingsMapping m2 = names) by (destruct Hf12 as [-> _]; done).
  destruct (H23 Hn2) as (Hf23 & Hs23 & Hb23).
  split_and!; [by eapply sameFrames_trans | auto |].
  intros top top' i name Hl1 Hl3 Hi Hname Hbit.
  destruct (last_is_Some' (setBindings m2)) as [top2 Hl2].
  { destruct Hf12 as (_ & -> & _). apply last_Some in Hl1 as [l' ->].
    rewrite length_app. simpl. lia. }
  destruct (Hb23 _ _ _ _ Hl2 Hl3 Hi Hname Hbit) as [Hbit2 | Hfree2].
  - by apply (Hb12 _ _ _ _ Hl1 Hl2 Hi Hname).
  - right. destruct (State m1 !! name) as [v |] eqn:Hv; [| done].
    by rewrite (Hs12 _ _ Hv) in Hfree2.
Qed.

Lemma extends_set (m m1 m2 : Matcher) (name : string) (idx : Z) (v : value) :
  numbered names name idx -> State m !! name = None -> extends names m m1 ->
  set m1 name idx v = Some m2 -> extends names m m2.
Proof.
  intros [Hidx Hname] Hfree H1 Hset Hn.
  destruct (H1 Hn) as (Hf1 & Hs1 & Hb1).
  pose proof (sameFrames_set _ _ _ _ _ Hset) as Hf2.
  apply set_frames in Hset as (top1 & b & Hl1 & Hb & ->).
  split_and!; [by eapply sameFrames_trans | |].
  - intros x val Hx. simpl. rewrite lookup_insert_ne; [by apply Hs1 |].
    intros ->. by rewrite Hfree in Hx.
  - intros top top' i name' Hl Hl' Hi Hname' Hbit. simpl in Hl'.
    rewrite last_snoc in Hl'. injection Hl' as <-.
    apply land_lor_nonzero in Hbit as [Hbit | Hbit].
    + by apply (Hb1 _ _ _ _ Hl Hl1 Hi Hname').
    + right. unfold bit in Hb. destruct (idx <? 0)%Z; [done |]. injection Hb as <-.
      apply bits_meet in Hbit; [| done | done]. subst i.
      rewrite Hname in Hname'. by injection Hname' as <-.
Qed.

Lemma extends_merge (m m2 m3 : Matcher) :
  extends names (push m) m2 -> merge m2 = Some m3 -> extends names m m3.
Proof.
  intros H Hm Hn. destruct (H Hn) as (Hf & Hs & _).
  destruct (sameFrames_push_merge _ _ _ Hf Hm) as (Hf3 & Hn3 & Hs3).
  split_and!.
  - unfold sameFrames. by rewrite Hf3, Hn3.
  - intros x v Hx. rewrite Hs3. by apply Hs.
  - intros top top' i name Hl Hl' _ _ Hbit. rewrite Hf3, Hl in Hl'.
    injection Hl' as <-. by left.
Qed.

Lemma extends_pop (m m2 m3 : Matcher) :
  extends names (push m) m2 -> pop m2 = Some m3 -> extends names m m3.
Proof.
  intros H Hp Hn. destruct (H Hn) as (Hf & Hs & Hb).
  destruct (sameFrames_push_pop _ _ _ Hf Hp) as (Hf3 & Hn3).
  split_and!.
  - unfold sameFrames. by rewrite Hf3, Hn3.
  - intros x v Hx. unfold pop in Hp.
    destruct (last (setBindings m2)) as [top2 |] eqn:Hl2; [| done].
    simpl in Hp. injection Hp as <-. simpl.
    destruct (top2 =? 0)%Z; [by apply Hs |].
    rewrite unset_lookup; [by apply Hs |].
    intros k Hk. simpl.
    destruct (decide (Z.land top2 (uint64 (Z.shiftl 1 (Z.of_nat k))) = 0%Z))
      as [| Hbit]; [done |].
    exfalso.
    assert (Hmap2 : bindingsMapping m2 = names) by (destruct Hf as [-> _]; done).
    rewrite Hmap2 in Hk.
    destruct (Hb 0%Z top2 (Z.of_nat k) x) as [H0 | Hfree]; try done.
    + simpl. by rewrite last_snoc.
    + lia.
    + by rewrite Nat2Z.id.
    + simpl in Hfree. by rewrite Hfree in Hx.
  - intros top top' i name Hl Hl' _ _ Hbit. rewrite Hf3, Hl in Hl'.
    injection Hl' as <-. by left.
Qed.

Lemma extends_keeps (info : TypesInfo) (fuel : nat) :
  keeps (numbered names) (extends names) (match_ info fuel).
Proof.
  apply match_keeps.
  - apply extends_refl.
  - apply extends_trans.
  - apply extends_set.
  - apply extends_merge.
  - apply extends_pop.
Qed.
End Extends.

(** X16: when every binding of the pattern has the bit index at which the
    matcher's [bindingsMapping] holds its name, a match that returns, with
    success or not, leaves every binding that was there before it bound to
    the same value: nothing that [pop] removes was bound before the match. *)
Theorem match_keeps_earlier_bindings (info : TypesInfo) (fuel : nat) (m : Matcher)
    (n : Node) (r : value) (m' : Matcher) (v : value) (ok : bool) :
  Forall (fun b => numbered (bindingsMapping m) b.1 b.2) (bindingsOf n) ->
  match_ info fuel m (LNode n) r = Ret m' v ok ->
  forall x val, State m !! x = Some val -> State m' !! x = Some val.
Proof.
  intros Hn H.
  destruct (extends_keeps (bindingsMapping m) info fuel m (LNode n) r m' v ok Hn H
              eq_refl) as (_ & Hs & _).
  exact Hs.
Qed.

Lemma match_keeps_earlier_bindings_witness :
  State (mkMatcher {["x" := ident "foo"; "y" := ident "bar"]} ["x"; "y"] [3%Z]) !! "y"
  = Some (ident "bar").
Proof.
  apply (match_keeps_earlier_bindings emptyInfo 2
           (mkMatcher {["y" := ident "bar"]} ["x"; "y"] [2%Z])
           (Binding "x" 0 NoNode) (ident "foo") _ (ident "foo") true).
  - simpl. constructor; [| constructor]. split; [simpl; lia | reflexivity].
  - vm_compute. reflexivity.
  - reflexivity.
Defined.

Lemma unset_dom (frame : Z) (x : string) : forall names i st,
  is_Some (unset frame names i st !! x) -> is_Some (st !! x).
Proof. intros names i st [v Hv]. exists v. by eapply unset_subseteq. Qed.

Lemma names_only_aux (info : TypesInfo) (fuel : nat) (m : Matcher)
    (n : Node) (r : value) (m' : Matcher) (v : value) (ok : bool) (x : string) :
  match_ info fuel m (LNode n) r = Ret m' v ok ->
  is_Some (State m' !! x) ->
  is_Some (State m !! x) \/ x ∈ (bindingsOf n).*1.
Proof.
  intros H.
  set (S := (bindingsOf n).*1).
  assert (Hk : keeps (fun name _ => name ∈ S)
                 (fun m m' => forall x, is_Some (State m' !! x) ->
                                is_Some (State m !! x) \/ x ∈ S)
                 (match_ info fuel)).
  { apply match_keeps.
    - intros m0 y Hy. by left.
    - intros m1 m2 m3 H12 H23 y Hy.
      destruct (H23 y Hy) as [Hy2 | ?]; [by apply H12 | by right].
    - intros m0 m1 m2 name idx val Hname _ H1 Hset y Hy.
      apply set_frames in Hset as (top & b & _ & _ & ->). simpl in Hy.
      destruct (decide (y = name)) as [-> | Hne]; [by right |].
      rewrite lookup_insert_ne in Hy by done. by apply H1.
    - intros m0 m2 m3 H0 Hm y Hy. unfold merge in Hm.
      destruct (decide _); [done |]. injection Hm as <-. by apply H0.
    - intros m0 m2 m3 H0 Hp y Hy. unfold pop in Hp.
      destruct (last (setBindings m2)); [| done]. simpl in Hp. injection Hp as <-.
      simpl in Hy. apply H0. destruct (_ =? _)%Z; [done |]. by eapply unset_dom. }
  apply (Hk m (LNode n) r m' v ok); [| done].
  apply Forall_forall. intros [name idx] Hin. simpl.
  by apply (list_elem_of_fmap_2 fst) in Hin.
Qed.

(** X17: a match binds no other names than those of the bindings in its
    pattern: a name bound when [match] returns was bound before or is the
    name of a [Binding] of the pattern; so after [Match] every bound name is
    one of the pattern's. *)
Theorem match_binds_pattern_names_only (info : TypesInfo) (fuel : nat) (m : Matcher)
    (n : Node) (r : value) (m' : Matcher) (v : value) (ok : bool) (x : string) :
  match_ info fuel m (LNode n) r = Ret m' v ok ->
  is_Some (State m' !! x) ->
  is_Some (State m !! x) \/ x ∈ (bindingsOf n).*1.
Proof. apply names_only_aux. Qed.

Lemma match_binds_pattern_names_only_witness :
  is_Some (State (fresh ["x"]) !! "x")
  \/ "x" ∈ (bindingsOf (Not bindThenFail)).*1.
Proof.
  eapply (match_binds_pattern_names_only emptyInfo 6 (fresh ["x"])
            (Not bindThenFail) blockOfFoo _ _ _ "x").
  - vm_compute. reflexivity.
  - vm_compute. by eexists.
Defined.

Lemma Not_flips (info : TypesInfo) (fuel : nat) (m : Matcher) (q : Node)
    (m' : Matcher) (ok : bool) : forall r,
  (exists v, match_ info (S fuel) m (LNode (Not q)) r = Ret m' v ok)
  <-> (exists v, match_ info fuel m (LNode q) r = Ret m' v (negb ok)).
Proof.
  induction fuel as [| fuel IH]; intros r.
  - rewrite match_unwrapped. cbn [dispatch]. unfold Not_Match. simpl.
    destruct (unwrapped r) as [[inner |] |]; split; by intros (? & ?).
  - rewrite match_unwrapped.
    destruct (unwrapped r) as [[inner |] |] eqn:Hr.
    + rewrite (match_unwrapped info fuel m q r), Hr. apply IH.
    + rewrite (match_unwrapped info fuel m q r), Hr. split; by intros (? & ?).
    + cbn [dispatch]. unfold Not_Match.
      destruct (match_ info (S fuel) m (LNode q) r) as [mq vq okq | |];
        simpl; [| split; by intros (? & ?) ..].
      destruct okq, ok; split; intros (v & Hv); try done;
        injection Hv as <-; by eexists.
Qed.

(** X18: two [Not]s cancel: [Not{Not{q}}] returns exactly when [q] does, with
    the same answer and the same matcher (what it returns as the matched
    value apart). *)
Theorem Not_Not_is_the_pattern (info : TypesInfo) (fuel : nat) (m : Matcher)
    (q : Node) (r : value) (m' : Matcher) (ok : bool) :
  (exists v, match_ info (S (S fuel)) m (LNode (Not (Not q))) r = Ret m' v ok)
  <-> (exists v, match_ info fuel m (LNode q) r = Ret m' v ok).
Proof.
  rewrite Not_flips, Not_flips. by rewrite negb_involutive.
Qed.

Lemma land_bits (i j : Z) :
  (0 <= i < 64)%Z -> (0 <= j)%Z ->
  (Z.land (Z.lor 0 (uint64 (Z.shiftl 1 i))) (uint64 (Z.shiftl 1 j)) =? 0)%Z
  = negb (i =? j)%Z.
Proof.
  intros Hi Hj. rewrite Z.lor_0_l.
  destruct (Z.eqb_spec i j) as [<- | Hne]; simpl.
  - rewrite Z.land_diag, uint64_bit by lia.
    destruct (Z.ltb_spec i 64); [| lia].
    apply Z.eqb_neq. apply Z.pow_nonzero; lia.
  - apply Z.eqb_eq.
    destruct (decide (Z.land (uint64 (Z.shiftl 1 i)) (uint64 (Z.shiftl 1 j)) = 0%Z))
      as [| Hbit]; [done |].
    apply bits_meet in Hbit; [done | lia | lia].
Qed.

Lemma unset_one_bit (idx : Z) (x : string) : forall names i st,
  (0 <= idx < 64)%Z -> (0 <= i)%Z ->
  (forall k, (i + Z.of_nat k)%Z = idx -> names !! k = Some x) ->
  unset (Z.lor 0 (uint64 (Z.shiftl 1 idx))) names i st
  = if decide (i <= idx < i + Z.of_nat (length names))%Z then delete x st else st.
Proof.
  induction names as [| key names IH]; intros i st Hidx Hi Hx; simpl.
  - destruct (decide _); [lia | done].
  - rewrite land_bits by lia. rewrite IH; [| done | lia |].
    + destruct (Z.eqb_spec idx i) as [-> | Hne]; simpl.
      * specialize (Hx 0 ltac:(lia)). injection Hx as ->.
        destruct (decide _); [lia |]. destruct (decide _); [done | lia].
      * destruct (decide _), (decide _); try done; lia.
    + intros k Hk. apply (Hx (S k)). lia.
Qed.

(** X19: a binding made in a fresh frame and rolled back. When the name was
    not bound and its bit index is its position in [bindingsMapping] and
    below 64, [push], [set], [pop] give back the matcher as it was.  With a
    bit index of 64 or more, [1 << idx] is 0 in a [uint64]: the frame records
    nothing and [pop] leaves the name bound. *)
Theorem push_set_pop_round_trip (m : Matcher) (name : string) (idx : Z) (v : value) :
  numbered (bindingsMapping m) name idx ->
  State m !! name = None ->
  exists m1, set (push m) name idx v = Some m1
    /\ pop m1 = Some (if (idx <? 64)%Z then m
                      else mkMatcher (<[name := v]> (State m)) (bindingsMapping m)
                             (setBindings m)).
Proof.
  intros [Hidx Hname] Hfree. unfold set, push. simpl.
  rewrite last_snoc. simpl. unfold bit.
  destruct (Z.ltb_spec idx 0) as [| _]; [lia |]. simpl.
  eexists. split; [reflexivity |].
  unfold pop. simpl. rewrite !dropLast_snoc, last_snoc. simpl.
  destruct (Z.ltb_spec idx 64) as [Hsmall | Hlarge].
  - assert (Hnz : (Z.lor 0 (uint64 (Z.shiftl 1 idx)) =? 0)%Z = false).
    { rewrite Z.lor_0_l, uint64_bit by lia.
      destruct (Z.ltb_spec idx 64); [| lia].
      apply Z.eqb_neq, Z.pow_nonzero; lia. }
    rewrite Hnz. rewrite (unset_one_bit idx name) by
      (try lia; intros k Hk; by replace k with (Z.to_nat idx) by lia).
    assert (Hlen : (Z.to_nat idx < length (bindingsMapping m))%nat)
      by (by eapply lookup_lt_Some).
    destruct (decide _); [| lia].
    rewrite delete_insert_eq, delete_id by done. by destruct m.
  - rewrite uint64_bit by lia. destruct (Z.ltb_spec idx 64); [lia |].
    simpl. done.
Qed.

Lemma push_set_pop_round_trip_witness :
  exists m1, set (push (fresh ["x"])) "x" 0 (ident "foo") = Some m1
    /\ pop m1 = Some (if (0 <? 64)%Z then fresh ["x"]
                      else mkMatcher (<["x" := ident "foo"]> (State (fresh ["x"])))
                             (bindingsMapping (fresh ["x"]))
                             (setBindings (fresh ["x"]))).
Proof.
  apply (push_set_pop_round_trip (fresh ["x"]) "x" 0 (ident "foo")).
  - split; [lia | reflexivity].
  - reflexivity.
Defined.

(** X20: a list pattern of [k] element patterns (none of them nil) that ends
    in the empty list matches a slice only if the slice has exactly [k]
    elements, whatever the element patterns are. *)
Theorem List_matches_exact_length (info : TypesInfo) (ps : list Node) :
  Forall (fun p => isNil p = false) ps ->
  forall fuel m k elems m' v,
    match_ info fuel m (LNode (listOf ps)) (VSlice k elems) = Ret m' v true ->
    length (elemsOf elems) = length ps.
Proof.
  induction 1 as [| p ps Hp _ IH]; intros fuel m k elems m' v H;
    (destruct fuel as [| fuel]; [done |]);
    rewrite match_unwrapped in H; cbn [unwrapped listOf foldr dispatch] in H;
    unfold List_Match in H.
  - simpl in H. injection H as _ _ Hlen. by apply Nat.eqb_eq in Hlen.
  - rewrite Hp in H. destruct (elemsOf elems) as [| first rest]; [done |].
    apply andThen_Ret in H as (m1 & v1 & ok1 & _ & H).
    apply andThen_Ret in H as (m2 & v2 & ok2 & Hrest & H).
    injection H as _ _ Hok. apply andb_true_iff in Hok as [_ ->].
    apply IH in Hrest. simpl in *. by rewrite Hrest.
Qed.

Lemma List_matches_exact_length_witness :
  length (elemsOf (Some [ident "a"; ident "b"])) = length [Any; Binding "x" 0 NoNode].
Proof.
  eapply (List_matches_exact_length emptyInfo [Any; Binding "x" 0 NoNode]
            ltac:(by repeat constructor) 6 (fresh ["x"]) ExprSlice).
  vm_compute. reflexivity.
Defined.

Lemma hasBit_lor (top b i : Z) : hasBit top i -> hasBit (Z.lor top b) i.
Proof.
  unfold hasBit. rewrite Z.land_lor_distr_l. intros H Hz.
  apply Z.lor_eq_0_iff in Hz as [Hz _]. done.
Qed.

Lemma hasBit_lor_self (top idx : Z) :
  (0 <= idx < 64)%Z -> hasBit (Z.lor top (uint64 (Z.shiftl 1 idx))) idx.
Proof.
  intros Hidx. unfold hasBit. rewrite Z.land_lor_distr_l, Z.land_diag. intros Hz.
  apply Z.lor_eq_0_iff in Hz as [_ Hz]. rewrite uint64_bit in Hz by lia.
  destruct (Z.ltb_spec idx 64); [| lia]. revert Hz. apply Z.pow_nonzero; lia.
Qed.

Lemma unset_None (frame : Z) (x : string) (names : list string) (i : Z)
    (st : gmap string value) :
  st !! x = None -> unset frame names i st !! x = None.
Proof.
  intros Hx. destruct (unset frame names i st !! x) as [v |] eqn:H; [| done].
  apply unset_subseteq in H. by rewrite Hx in H.
Qed.

Lemma unset_deletes (frame : Z) (x : string) : forall names i k st,
  names !! k = Some x -> hasBit frame (i + Z.of_nat k) ->
  unset frame names i st !! x = None.
Proof.
  induction names as [| key names IH]; intros i k st Hk Hbit; [done |].
  simpl. destruct k as [| k]; simpl in Hk.
  - injection Hk as ->. rewrite Z.add_0_r in Hbit.
    destruct (Z.eqb_spec (Z.land frame (uint64 (Z.shiftl 1 i))) 0) as [Hz | _];
      [done |].
    apply unset_None. apply lookup_delete_eq.
  - apply (IH _ k); [done |].
    by replace (i + 1 + Z.of_nat k)%Z with (i + Z.of_nat (S k))%Z by lia.
Qed.

Lemma merge_push (m m' : Matcher) : merge (push m) = Some m' -> m' = m.
Proof.
  unfold merge, push. simpl. destruct (decide _); [done |].
  rewrite dropLast_snoc. intros [= <-]. by destruct m.
Qed.

Lemma pop_push (m m' : Matcher) : pop (push m) = Some m' -> m' = m.
Proof.
  unfold pop, push. simpl. rewrite last_snoc. simpl.
  rewrite dropLast_snoc. intros [= <-]. by destruct m.
Qed.

(** A pattern without bindings leaves the matcher as it was. *)
Lemma closed_unchanged (info : TypesInfo) (fuel : nat) (m : Matcher) (n : Node)
    (r : value) (m' : Matcher) (v : value) (ok : bool) :
  bindingsOf n = [] -> match_ info fuel m (LNode n) r = Ret m' v ok -> m' = m.
Proof.
  intros Hn H. symmetry.
  eapply (match_keeps (fun _ _ => False) eq); [..| exact H]; try done.
  - intros m1 m2 m3 -> ->. done.
  - intros m1 m2 m3 <- Hm. symmetry. by apply merge_push.
  - intros m1 m2 m3 <- Hp. symmetry. by apply pop_push.
  - simpl. by apply good_closed.
Qed.

(** X21: a pattern without bindings never touches the matcher: when its match
    returns, with success or not, the state, the names of the bits and the
    frames are exactly those before. *)
Theorem match_without_bindings_keeps_matcher (info : TypesInfo) (fuel : nat)
    (m : Matcher) (n : Node) (r : value) (m' : Matcher) (v : value) (ok : bool) :
  bindingsOf n = [] ->
  match_ info fuel m (LNode n) r = Ret m' v ok ->
  m' = m.
Proof. apply closed_unchanged. Qed.

Lemma match_without_bindings_keeps_matcher_witness :
  mkMatcher ∅ [] [0%Z] = fresh [].
Proof.
  eapply (match_without_bindings_keeps_matcher emptyInfo 6 (fresh [])
            (Or [List Any (List NoNode NoNode); Nil]) blockOfFoo
            (mkMatcher ∅ [] [0%Z]) _ true).
  - reflexivity.
  - vm_compute. reflexivity.
Defined.

Section Recorded.
Variable names : list string.

Lemma recorded_refl (m : Matcher) : recorded names m m.
Proof.
  split; [apply extends_refl |]. intros _ top top' H1 H2.
  rewrite H1 in H2. injection H2 as <-. split; [done |].
  intros x Hx [v Hv]. by rewrite Hx in Hv.
Qed.

Lemma extends_top (m m' : Matcher) (top : Z) :
  bindingsMapping m = names -> extends names m m' ->
  last (setBindings m) = Some top ->
  bindingsMapping m' = names /\ is_Some (last (setBindings m')).
Proof.
  intros Hn He Hl. destruct (He Hn) as ((Hmap & Hlen & _) & _).
  split; [congruence |]. apply last_is_Some'. rewrite Hlen.
  apply last_Some in Hl as [l' ->]. rewrite length_app. simpl. lia.
Qed.

Lemma recorded_trans (m1 m2 m3 : Matcher) :
  recorded names m1 m2 -> recorded names m2 m3 -> recorded names m1 m3.
Proof.
  intros [He12 H12] [He23 H23]. split; [by eapply extends_trans |].
  intros Hn top top' Hl1 Hl3.
  destruct (extends_top m1 m2 top Hn He12 Hl1) as [Hn2 [top2 Hl2]].
  destruct (H12 Hn top top2 Hl1 Hl2) as [Hmono12 Hnew12].
  destruct (H23 Hn2 top2 top' Hl2 Hl3) as [Hmono23 Hnew23].
  split; [auto |]. intros x Hx Hx3.
  destruct (State m2 !! x) as [v2 |] eqn:Hx2.
  - destruct (Hnew12 x Hx) as (idx & Hnum & Hlt & Hbit); [by eexists |].
    exists idx. auto.
  - by apply Hnew23.
Qed.

Lemma recorded_set (m m1 m2 : Matcher) (name : string) (idx : Z) (v : value) :
  numbered names name idx /\ (idx < 64)%Z -> State m !! name = None ->
  recorded names m m1 -> set m1 name idx v = Some m2 -> recorded names m m2.
Proof.
  intros [Hnum Hlt] Hfree [He1 H1] Hset.
  split; [by eapply extends_set |].
  intros Hn top top' Hl Hl'.
  destruct (extends_top m m1 top Hn He1 Hl) as [Hn1 [top1 Hl1]].
  destruct (H1 Hn top top1 Hl Hl1) as [Hmono1 Hnew1].
  apply set_frames in Hset as (top1' & b & Hl1' & Hb & ->).
  rewrite Hl1 in Hl1'. injection Hl1' as <-.
  simpl in Hl'. rewrite last_snoc in Hl'. injection Hl' as <-.
  unfold bit in Hb. destruct Hnum as [Hidx Hname].
  destruct (Z.ltb_spec idx 0); [lia |]. injection Hb as <-.
  split.
  - intros i Hi. apply hasBit_lor. auto.
  - intros x Hx Hx2. simpl in Hx2.
    destruct (decide (x = name)) as [-> | Hne].
    + exists idx. split; [done |]. split; [done |]. apply hasBit_lor_self. lia.
    + rewrite lookup_insert_ne in Hx2 by done.
      destruct (Hnew1 x Hx Hx2) as (i & Hnum & Hi & Hbit).
      exists i. split; [done |]. split; [done |]. by apply hasBit_lor.
Qed.

(** What [pop] undoes: everything a match has recorded in the frame that was
    pushed for it. *)
Lemma pop_undoes (m m2 : Matcher) :
  bindingsMapping m = names -> recorded names (push m) m2 -> pop m2 = Some m.
Proof.
  intros Hn [He H].
  destruct (extends_top (push m) m2 0 Hn He) as [Hn2 [top2 Hl2]].
  { simpl. by rewrite last_snoc. }
  destruct (H Hn 0%Z top2) as [_ Hnew]; [simpl; by rewrite last_snoc | done |].
  destruct (pop m2) as [m3 |] eqn:Hp; [| unfold pop in Hp; by rewrite Hl2 in Hp].
  destruct (He Hn) as (Hf & Hold & _).
  destruct (sameFrames_push_pop _ _ _ Hf Hp) as [Hframes Hmap].
  assert (Hkeep : forall x val, State m !! x = Some val -> State m3 !! x = Some val).
  { destruct (extends_pop names m m2 m3 He Hp Hn) as (_ & Hs & _). exact Hs. }
  f_equal. destruct m3 as [st3 map3 frames3], m as [st map frames]. simpl in *.
  f_equal; [| done | done].
  apply map_eq. intros x. destruct (st !! x) as [val |] eqn:Hx; [by apply Hkeep |].
  unfold pop in Hp. rewrite Hl2 in Hp. simpl in Hp. injection Hp as <- _ _.
  destruct (State m2 !! x) as [val2 |] eqn:Hx2.
  - destruct (Hnew x Hx) as (idx & [Hidx Hname] & Hlt & Hbit); [by eexists |].
    destruct (Z.eqb_spec top2 0) as [-> | _].
    { unfold hasBit in Hbit. by rewrite Z.land_0_l in Hbit. }
    apply (unset_deletes top2 x _ 0 (Z.to_nat idx)); [by rewrite Hn2 |].
    by rewrite Z2Nat.id by lia.
  - destruct (top2 =? 0)%Z; [done |]. by apply unset_None.
Qed.

Lemma recorded_pop (m m2 m3 : Matcher) :
  recorded names (push m) m2 -> pop m2 = Some m3 -> recorded names m m3.
Proof.
  intros H Hp. split.
  - destruct H as [He _]. by eapply extends_pop.
  - intros Hn. rewrite (pop_undoes m m2 Hn H) in Hp. injection Hp as <-.
    by apply recorded_refl.
Qed.

Lemma recorded_keeps (info : TypesInfo) (fuel : nat) :
  keepsAlts (fun name idx => numbered names name idx /\ (idx < 64)%Z)
    (fun a => bindingsOf a = []) (recorded names) (match_ info fuel).
Proof.
  apply match_keeps_alts.
  - apply recorded_refl.
  - apply recorded_trans.
  - apply recorded_set.
  - intros fuel' alt m r m2 v ok m3 Halt Hrun _ Hm.
    apply (closed_unchanged _ _ _ _ _ _ _ _ Halt) in Hrun. subst m2.
    apply merge_push in Hm. subst m3. apply recorded_refl.
  - apply recorded_pop.
  - done.
Qed.
End Recorded.

Lemma pop_undoes_flat (info : TypesInfo) (fuel : nat) (m : Matcher)
    (alt : Node) (r : value) (m2 : Matcher) (v : value) (ok : bool) :
  flat (bindingsMapping m) alt ->
  match_ info fuel (push m) (LNode alt) r = Ret m2 v ok ->
  pop m2 = Some m.
Proof.
  intros Halt Hrun. apply (pop_undoes (bindingsMapping m)); [done |].
  by eapply recorded_keeps; [| exact Hrun].
Qed.

(** X22: [pop] undoes a match exactly. When the bindings of a pattern are
    numbered by [bindingsMapping] with bit indices below 64 and none of its
    [Or]s holds a binding, then after [push] and the match of the pattern,
    whatever it returns, [pop] gives back the matcher as it was before the
    [push]. *)
Theorem pop_undoes_the_match (info : TypesInfo) (fuel : nat) (m : Matcher)
    (alt : Node) (r : value) (m2 : Matcher) (v : value) (ok : bool) :
  flat (bindingsMapping m) alt ->
  match_ info fuel (push m) (LNode alt) r = Ret m2 v ok ->
  pop m2 = Some m.
Proof. apply pop_undoes_flat. Qed.

Lemma pop_undoes_the_match_witness :
  pop (mkMatcher {["x" := ident "foo"]} ["x"] [0; 1]%Z)
  = Some (mkMatcher ∅ ["x"] [0%Z]).
Proof.
  apply (pop_undoes_the_match emptyInfo 6 (mkMatcher ∅ ["x"] [0%Z]) bindThenFail
           blockOfFoo _
           (VSlice StmtSlice (Some [VNode "ExprStmt" (Some [("X", ident "foo")])]))
           false).
  - split; [| by apply Forall_nil_2].
    simpl. apply Forall_cons_2; [| by apply Forall_nil_2].
    split; [split; [simpl; lia | reflexivity] | simpl; lia].
  - vm_compute. reflexivity.
Defined.

(** X23: [Or] tries every alternative on the matcher as it was. When the
    alternatives have their bindings numbered by [bindingsMapping] with bit
    indices below 64 and hold no binding under an [Or] of their own, an [Or]
    that fails has run every alternative from the matcher it was given (in a
    fresh frame) and leaves that matcher unchanged; an [Or] that succeeds has
    done so for the alternatives before the first one that matches, and
    returns the result of that one, merged. *)
Theorem Or_tries_each_alternative_afresh (info : TypesInfo) (fuel : nat)
    (m : Matcher) (alts : list Node) (node : value) (m' : Matcher) (v : value)
    (ok : bool) :
  Forall (flat (bindingsMapping m)) alts ->
  Or_Match (match_ info fuel) m alts node = Ret m' v ok ->
  exists pre post,
    Forall (fun a => exists m1 v1,
              match_ info fuel (push m) (LNode a) node = Ret m1 v1 false) pre
    /\ if ok
       then exists alt m2,
              alts = pre ++ alt :: post
              /\ match_ info fuel (push m) (LNode alt) node = Ret m2 v true
              /\ merge m2 = Some m'
       else alts = pre /\ post = [] /\ m' = m.
Proof.
  induction 1 as [| a alts Ha _ IH]; simpl; intros H.
  { injection H as <- _ <-. by exists [], []. }
  apply andThen_Ret in H as (m1 & v1 & ok1 & Hrun & H).
  destruct ok1.
  - destruct (merge m1) as [m2 |] eqn:Hm; [| done]. injection H as <- <- <-.
    exists [], alts. split; [done |]. by exists a, m1.
  - rewrite (pop_undoes_flat _ _ _ _ _ _ _ _ Ha Hrun) in H.
    destruct (IH H) as (pre & post & Hpre & Hres).
    exists (a :: pre), post. split; [apply Forall_cons_2; [by eexists _, _ | done] |].
    destruct ok.
    + destruct Hres as (alt & m2 & -> & Hrun2 & Hm). by exists alt, m2.
    + destruct Hres as (-> & -> & ->). done.
Qed.

Lemma Or_tries_each_alternative_afresh_witness :
  exists pre post,
    Forall (fun a => exists m1 v1,
              match_ emptyInfo 6 (push (fresh ["x"])) (LNode a) blockOfFoo
              = Ret m1 v1 false) pre
    /\ exists alt m2,
         [bindThenFail; Binding "x" 0 Any] = pre ++ alt :: post
         /\ match_ emptyInfo 6 (push (fresh ["x"])) (LNode alt) blockOfFoo
            = Ret m2 (VSlice StmtSlice
                        (Some [VNode "ExprStmt" (Some [("X", ident "foo")])])) true
         /\ merge m2
            = Some (mkMatcher
                      {["x" := VSlice StmtSlice
                                 (Some [VNode "ExprStmt" (Some [("X", ident "foo")])])]}
                      ["x"] [0%Z]).
Proof.
  apply (Or_tries_each_alternative_afresh emptyInfo 6 (fresh ["x"])
           [bindThenFail; Binding "x" 0 Any] blockOfFoo _ _ true).
  - assert (Hx : numbered ["x"] "x" 0 /\ (0 < 64)%Z).
    { split; [split; [lia | reflexivity] | lia]. }
    repeat (apply Forall_cons_2; [split; simpl; auto |]); apply Forall_nil_2.
  - vm_compute. reflexivity.
Defined.

End MatcherFacts.

(** * The placement ends, and places on the frontiers *)

Module FrontierFacts.
Import IR LiftingFacts BlockSetFacts PlacementFacts.

Lemma bind_run {A B : Type} (m : M A) (k : A -> M B) (st : LiftState) :
  (m ≫= k) st = match m st with
                | (Some a, st') => k a st'
                | (None, st') => (None, st')
                end.
Proof. reflexivity. Qed.

#[local] Instance SetName_eq_dec : EqDecision SetName.
Proof. solve_decision. Defined.

Lemma getSet_putSet (name name' : SetName) (s : BlockSet) (st : LiftState) :
  getSet name' (putSet name s st) = if decide (name' = name) then s else getSet name' st.
Proof. by destruct name, name'. Qed.

Lemma sized_putSet (n : nat) (name : SetName) (s : BlockSet) (st : LiftState) :
  sized n st -> length (values s) = n -> sized n (putSet name s st).
Proof.
  intros (Hs & Hp & Hq) Hlen. split; [| by destruct name].
  intros name'. rewrite getSet_putSet. by destruct (decide _).
Qed.

Lemma sized_lt (n : nat) (name : SetName) (st : LiftState) (y : nat) :
  sized n st -> y < n -> y < length (values (getSet name st)).
Proof. intros Hs Hy. by rewrite (proj1 Hs name). Qed.

(** What [Add] does to [values]. *)
Lemma Add_values (s : BlockSet) (b : nat) :
  b < length (values s) ->
  exists s', BlockSet_Add s b = Some (negb (default false (values s !! b)), s')
    /\ values s' = <[b := true]> (values s).
Proof.
  intros Hb. unfold BlockSet_Add.
  destruct (lookup_lt_is_Some_2 _ _ Hb) as [v Hv]. rewrite Hv. simpl.
  destruct v; eexists; (split; [reflexivity |]); simpl; [| done].
  by rewrite list_insert_id.
Qed.

Lemma add_values (n : nat) (name : SetName) (b : nat) (st : LiftState) :
  sized n st -> b < n ->
  exists s', add name b st
             = (Some (negb (default false (values (getSet name st) !! b))),
                putSet name s' st)
    /\ values s' = <[b := true]> (values (getSet name st)).
Proof.
  intros Hs Hb. rewrite add_run.
  destruct (Add_values (getSet name st) b) as (s' & -> & Hv); [by rewrite (proj1 Hs) |].
  by exists s'.
Qed.

(** What [Take] does to [values]. *)
Lemma Take_values (s : BlockSet) :
  match BlockSet_Take s with
  | (Some i, s') => values s !! i = Some true /\ values s' = <[i := false]> (values s)
  | (None, s') => s' = s /\ forall k, values s !! k <> Some true
  end.
Proof.
  unfold BlockSet_Take.
  destruct (firstTrueFrom (drop (idx s) (values s)) (idx s)) as [i |] eqn:H1.
  - apply firstTrueFrom_Some in H1 as (Hle & Hi & _).
    rewrite lookup_drop in Hi. replace (idx s + (i - idx s)) with i in Hi by lia. done.
  - destruct (firstTrueFrom (take (idx s) (values s)) 0) as [i |] eqn:H2.
    + apply firstTrueFrom_Some in H2 as (_ & Hi & _).
      rewrite Nat.sub_0_r in Hi. apply lookup_take_Some in Hi as [Hi _]. done.
    + split; [done |]. intros k Hk.
      destruct (decide (k < idx s)) as [Hlt | Hge].
      * apply (firstTrueFrom_None _ _ H2 k). by rewrite lookup_take_lt.
      * apply (firstTrueFrom_None _ _ H1 (k - idx s)). rewrite lookup_drop.
        by replace (idx s + (k - idx s)) with k by lia.
Qed.

Lemma members_nonneg (s : BlockSet) : (0 <= members s)%Z.
Proof. apply countTrue_nonneg. Qed.

Lemma countTrue_le_length (v : list bool) : (countTrue v <= Z.of_nat (length v))%Z.
Proof. induction v as [| [] v IH]; simpl; lia. Qed.

Lemma countTrue_insert_true (v : list bool) (i : nat) :
  i < length v ->
  countTrue (<[i := true]> v)
  = (countTrue v + (if default false (v !! i) then 0 else 1))%Z.
Proof.
  intros Hi. destruct (lookup_lt_is_Some_2 _ _ Hi) as [old Hold].
  rewrite (countTrue_insert _ _ _ _ Hold), Hold. destruct old; simpl; lia.
Qed.

Lemma putSet_getSet (name : SetName) (st : LiftState) :
  putSet name (getSet name st) st = st.
Proof. by destruct name, st. Qed.

Lemma putSet_putSet (name : SetName) (s s' : BlockSet) (st : LiftState) :
  putSet name s' (putSet name s st) = putSet name s' st.
Proof. by destruct name, st. Qed.

Lemma mem_insert (v : list bool) (b x : nat) :
  b < length v ->
  (<[b := true]> v !! x = Some true <-> v !! x = Some true \/ x = b).
Proof.
  intros Hb. destruct (decide (x = b)) as [-> | Hne].
  - rewrite list_lookup_insert_eq by done. naive_solver.
  - rewrite list_lookup_insert_ne by done. naive_solver.
Qed.

(** A loop that adds the blocks of a list to one set. *)
Lemma forEach_add (n : nat) (name : SetName) (l : list nat) :
  inBlocks n l ->
  forall st, sized n st ->
    exists s', forEach l (fun p => add name p ;; mret tt) st
               = (Some tt, putSet name s' st)
      /\ length (values s') = n
      /\ forall x, mem s' x <-> mem (getSet name st) x \/ x ∈ l.
Proof.
  induction 1 as [| b l Hb _ IH]; intros st Hs.
  - exists (getSet name st). rewrite putSet_getSet. split; [done |].
    split; [apply Hs |]. intros x. rewrite elem_of_nil. tauto.
  - destruct (add_values n name b st Hs Hb) as (s1 & Hrun & Hv1).
    assert (Hs1 : sized n (putSet name s1 st)).
    { apply sized_putSet; [done |]. rewrite Hv1, length_insert. apply Hs. }
    destruct (IH _ Hs1) as (s' & Hrun' & Hlen & Hmem).
    exists s'. cbn [forEach]. rewrite !bind_run, Hrun. cbn [mret M_ret].
    rewrite Hrun', putSet_putSet. split; [done |]. split; [done |].
    intros x. rewrite Hmem, getSet_putSet, decide_True by done.
    unfold mem. rewrite Hv1, mem_insert by (by rewrite (proj1 Hs)).
    rewrite elem_of_cons. tauto.
Qed.

Section Total.
Variable Dominates : nat -> nat -> bool.
Variable blocks : list BasicBlock.
Variable closure : option Closure.closure.
Variables df rdf : list (list nat).
Variable alloc : AllocInfo.
Hypothesis input : wellFormed Dominates blocks closure df rdf alloc.

#[local] Abbreviation n := (length blocks).

Lemma anyReachable_total (from : nat) (keep : Referrer -> bool) (c : Closure.closure)
    (refs : list Referrer) :
  closure = Some c -> from < n ->
  Forall (fun r => ref_block r < n) refs ->
  is_Some (anyReachable Dominates from keep c refs).
Proof.
  intros Hc Hfrom. induction 1 as [| r refs Hr _ IH]; simpl; [by eexists |].
  destruct (keep r); [| done].
  destruct input as (_ & _ & _ & _ & _ & _ & _ & Hhas).
  destruct (Hhas c from (ref_block r) Hc Hfrom Hr) as [h ->]. simpl.
  destruct h; [by eexists | done].
Qed.

Lemma referrers_in_blocks :
  Forall (fun r => ref_block r < n) (a_referrers alloc).
Proof.
  destruct input as (_ & _ & _ & _ & _ & _ & Hrefs & _).
  eapply Forall_impl; [exact Hrefs |]. by intros r [H _].
Qed.

Lemma appendPhi_run (y : nat) (np : newPhi) (st : LiftState) :
  y < length (newPhis st) ->
  exists l, newPhis st !! y = Some l /\ appendPhi y np st
    = (Some tt, mkLiftState (defblocks st) (useblocks st) (Aphi st) (Asigma st)
                  (W st) (<[y := l ++ [np]]> (newPhis st)) (newSigmas st) (change st)).
Proof.
  intros Hy. destruct (lookup_lt_is_Some_2 _ _ Hy) as [nps Hnps].
  exists nps. split; [done |]. unfold appendPhi. rewrite bind_run. cbn [get].
  rewrite bind_run, Hnps. reflexivity.
Qed.

Lemma appendSigma_run (y : nat) (ns : newSigma) (st : LiftState) :
  y < length (newSigmas st) ->
  exists l, newSigmas st !! y = Some l /\ appendSigma y ns st
    = (Some tt, mkLiftState (defblocks st) (useblocks st) (Aphi st) (Asigma st)
                  (W st) (newPhis st) (<[y := l ++ [ns]]> (newSigmas st)) (change st)).
Proof.
  intros Hy. destruct (lookup_lt_is_Some_2 _ _ Hy) as [nss Hnss].
  exists nss. split; [done |]. unfold appendSigma. rewrite bind_run. cbn [get].
  rewrite bind_run, Hnss. reflexivity.
Qed.

Lemma lookup_false (v : list bool) (y : nat) :
  y < length v -> default false (v !! y) = false -> v !! y = Some false.
Proof.
  intros Hy H. destruct (lookup_lt_is_Some_2 _ _ Hy) as [b Hb].
  rewrite Hb in H. simpl in H. by subst.
Qed.

Lemma block_of (y : nat) : y < n -> is_Some (blocks !! y).
Proof. apply lookup_lt_is_Some_2. Qed.

(** One step of the phi worklist at block [y]. *)
Lemma phiStep_spec (y : nat) (st : LiftState) :
  sized n st -> y < n ->
  exists st', phiStep Dominates blocks closure alloc y st = (Some tt, st')
    /\ sized n st'
    /\ values (Aphi st') = <[y := true]> (values (Aphi st))
    /\ values (Asigma st') = values (Asigma st)
    /\ (forall x, mem (useblocks st) x -> mem (useblocks st') x)
    /\ (values (defblocks st') = values (defblocks st)
        /\ values (W st') = values (W st)
        \/ values (defblocks st) !! y = Some false
           /\ values (defblocks st') = <[y := true]> (values (defblocks st))
           /\ values (W st') = <[y := true]> (values (W st)))
    /\ (change st' = change st
        \/ change st' = true /\ values (Aphi st) !! y = Some false)
    /\ newSigmas st' = newSigmas st
    /\ appended np_alloc (a_cell alloc) y (default false (values (Aphi st) !! y))
         (wantsPhi Dominates blocks closure alloc y) (newPhis st) (newPhis st')
    /\ spread blocks Preds y (default false (values (Aphi st) !! y))
         (wantsPhi Dominates blocks closure alloc y)
         (defblocks st) (defblocks st') (useblocks st) (useblocks st').
Proof.
  intros Hs Hy. unfold phiStep. rewrite bind_run.
  destruct (add_values n APhi y st Hs Hy) as (sP & -> & HvP).
  assert (HlP : length (values sP) = n).
  { rewrite HvP, length_insert. apply (proj1 Hs APhi). }
  pose proof (sized_putSet n APhi sP st Hs HlP) as Hs1.
  assert (Hout :
    negb (default false (values (Aphi st) !! y))
    && wantsPhi Dominates blocks closure alloc y = false ->
    exists st', (Some tt, putSet APhi sP st) = (Some tt, st')
    /\ sized n st'
    /\ values (Aphi st') = <[y := true]> (values (Aphi st))
    /\ values (Asigma st') = values (Asigma st)
    /\ (forall x, mem (useblocks st) x -> mem (useblocks st') x)
    /\ (values (defblocks st') = values (defblocks st)
        /\ values (W st') = values (W st)
        \/ values (defblocks st) !! y = Some false
           /\ values (defblocks st') = <[y := true]> (values (defblocks st))
           /\ values (W st') = <[y := true]> (values (W st)))
    /\ (change st' = change st
        \/ change st' = true /\ values (Aphi st) !! y = Some false)
    /\ newSigmas st' = newSigmas st
    /\ appended np_alloc (a_cell alloc) y (default false (values (Aphi st) !! y))
         (wantsPhi Dominates blocks closure alloc y) (newPhis st) (newPhis st')
    /\ spread blocks Preds y (default false (values (Aphi st) !! y))
         (wantsPhi Dominates blocks closure alloc y)
         (defblocks st) (defblocks st') (useblocks st) (useblocks st')).
  { intros Hno. eexists. split; [reflexivity |]. split; [done |].
    unfold appended, spread. rewrite Hno. destruct st; simpl in *. auto 12. }
  destruct (default false (values (getSet APhi st) !! y)) eqn:Hold;
    cbn [negb]; cbv iota.
  { apply Hout. simpl in Hold. by rewrite Hold. }
  destruct (length (a_referrers alloc) =? 0) eqn:Hrefs.
  { apply Hout. unfold wantsPhi. rewrite Hrefs. simpl. apply andb_false_r. }
  rewrite bind_run.
  assert (Hlive : exists live,
    liveAt Dominates closure alloc y = Some live /\
    (match closure with
     | None => mret true
     | Some c => orStop (anyReachable Dominates y (fun r => is_Load (ref_instr r)) c
                           (a_referrers alloc))
     end : M bool) (putSet APhi sP st) = (Some live, putSet APhi sP st)).
  { pose proof (fun c => anyReachable_total y (fun r => is_Load (ref_instr r)) c
                             (a_referrers alloc)) as Htot.
    pose proof referrers_in_blocks as Hin. unfold liveAt.
    destruct closure as [c |]; [| by eexists].
    destruct (Htot c eq_refl Hy Hin) as [live ->]. by eexists. }
  destruct Hlive as (live & HliveAt & ->).
  destruct live; cbn [negb]; cbv iota.
  2:{ apply Hout. unfold wantsPhi. rewrite HliveAt.
      rewrite bool_decide_eq_false_2 by done. simpl.
      rewrite andb_false_r. apply andb_false_r. }
  rewrite bind_run. destruct (block_of y Hy) as [yb Hyb]. rewrite Hyb.
  cbn [orStop mret M_ret].
  destruct (length (Preds yb) =? 0) eqn:Hpreds.
  { apply Hout. unfold wantsPhi. rewrite Hyb, Hpreds. simpl.
    rewrite andb_false_r. apply andb_false_r. }
  clear Hout.
  assert (Hwants : wantsPhi Dominates blocks closure alloc y = true).
  { unfold wantsPhi. rewrite Hrefs, HliveAt, Hyb, Hpreds.
    by rewrite bool_decide_eq_true_2. }
  assert (HoldP : values (Aphi st) !! y = Some false).
  { apply lookup_false; [by apply (sized_lt n APhi) | done]. }
  destruct (appendPhi_run y (mkNewPhi (mkPhi (replicate (length (Preds yb)) None)
                                          (Some y) false) (a_cell alloc))
              (putSet APhi sP st)) as (l & Hl & Hrun).
  { rewrite (proj1 (proj2 Hs1)). done. }
  rewrite bind_run, Hrun. clear Hrun.
  set (st2 := mkLiftState _ _ _ _ _ _ _ _).
  assert (Hs2 : sized n st2).
  { destruct Hs1 as (H1 & H2 & H3). split; [| split].
    - intros name. specialize (H1 name). by destruct name.
    - subst st2. cbn [newPhis]. by rewrite length_insert.
    - done. }
  assert (Hpin : inBlocks n (Preds yb)).
  { destruct input as (_ & _ & _ & _ & Hedges & _). by apply (Hedges y yb). }
  destruct (forEach_add n Useblocks (Preds yb) Hpin st2 Hs2) as (sU & HrunU & HlU & HmU).
  rewrite bind_run, HrunU. clear HrunU.
  rewrite bind_run. cbn [setChange modify].
  set (st3 := mkLiftState _ _ _ _ _ _ _ _).
  assert (Hs3 : sized n st3).
  { pose proof (sized_putSet n Useblocks sU st2 Hs2 HlU) as (H1 & H2 & H3).
    split; [| split]; [| done | done].
    intros name. specialize (H1 name). by destruct name. }
  destruct (add_values n Defblocks y st3 Hs3 Hy) as (sD & HrunD & HvD).
  rewrite bind_run, HrunD. clear HrunD.
  assert (HlD : length (values sD) = n).
  { rewrite HvD, length_insert. apply (proj1 Hs3 Defblocks). }
  pose proof (sized_putSet n Defblocks sD st3 Hs3 HlD) as Hs4.
  assert (HmU' : forall x, mem (useblocks st) x -> mem sU x).
  { intros x Hx. apply HmU. left. subst st2. by destruct st. }
  assert (Happ : appended np_alloc (a_cell alloc) y
                   (default false (values (Aphi st) !! y))
                   (wantsPhi Dominates blocks closure alloc y) (newPhis st)
                   (<[y := l ++ [mkNewPhi (mkPhi (replicate (length (Preds yb)) None)
                                             (Some y) false) (a_cell alloc)]]>
                      (newPhis st))).
  { unfold appended. rewrite HoldP, Hwants. simpl. eexists l, _.
    split; [| split; [| reflexivity]]; [by destruct st | done]. }
  assert (Hspr : spread blocks Preds y (default false (values (Aphi st) !! y))
                   (wantsPhi Dominates blocks closure alloc y)
                   (defblocks st) sD (useblocks st) sU).
  { unfold spread. rewrite HoldP, Hwants. simpl. split.
    - intros x. unfold mem. rewrite HvD.
      apply (mem_insert (values (defblocks st))). by apply (sized_lt n Defblocks).
    - exists yb. split; [done |]. intros x. rewrite HmU. subst st2. by destruct st. }
  destruct (default false (values (getSet Defblocks st3) !! y)) eqn:HoldD;
    cbn [negb]; cbv iota.
  - eexists. split; [reflexivity |]. split; [done |].
    assert (HD : values sD = values (defblocks st)).
    { rewrite HvD. subst st3 st2. destruct st as [D U P S Wk nP nS ch]; simpl in *.
      apply list_insert_id.
      destruct (values D !! y) as [[] |] eqn:E; simpl in HoldD; done. }
    subst st3 st2. destruct st; simpl in *. auto 12.
  - destruct (add_values n Work y _ Hs4 Hy) as (sW & HrunW & HvW).
    rewrite bind_run, HrunW. clear HrunW. cbn [mret M_ret].
    eexists. split; [reflexivity |].
    assert (HlW : length (values sW) = n).
    { rewrite HvW, length_insert. apply (proj1 Hs4 Work). }
    split; [by apply sized_putSet |].
    assert (HDf : values (defblocks st) !! y = Some false).
    { apply lookup_false; [by apply (sized_lt n Defblocks) |].
      subst st3 st2. by destruct st. }
    subst st3 st2. destruct st; simpl in *. auto 12.
Qed.

Lemma sigmasFor_total (y : nat) (succs : list nat) :
  inBlocks n succs -> is_Some (sigmasFor Dominates closure alloc y succs).
Proof.
  pose proof (fun from c => anyReachable_total from (fun _ => true) c
                              (a_referrers alloc)) as Htot.
  pose proof referrers_in_blocks as Hin.
  induction 1 as [| succ succs Hsucc _ [rest IH]]; simpl; [by eexists |].
  rewrite IH. destruct closure as [c |]; simpl; [| by eexists].
  destruct (Htot succ c eq_refl Hsucc Hin) as [live ->]. by eexists.
Qed.

(** One step of the sigma worklist at block [y]. *)
Lemma sigmaStep_spec (y : nat) (st : LiftState) :
  sized n st -> y < n ->
  exists st', sigmaStep Dominates blocks closure alloc y st = (Some tt, st')
    /\ sized n st'
    /\ values (Asigma st') = <[y := true]> (values (Asigma st))
    /\ values (Aphi st') = values (Aphi st)
    /\ (forall x, mem (defblocks st) x -> mem (defblocks st') x)
    /\ (values (defblocks st') = values (defblocks st) \/ change st' = true)
    /\ (values (useblocks st') = values (useblocks st)
        /\ values (W st') = values (W st)
        \/ values (useblocks st) !! y = Some false
           /\ values (useblocks st') = <[y := true]> (values (useblocks st))
           /\ values (W st') = <[y := true]> (values (W st)))
    /\ (change st' = change st
        \/ change st' = true /\ values (Asigma st) !! y = Some false)
    /\ newPhis st' = newPhis st
    /\ appended ns_alloc (a_cell alloc) y (default false (values (Asigma st) !! y))
         (wantsSigma Dominates blocks closure alloc y) (newSigmas st) (newSigmas st')
    /\ spread blocks Succs y (default false (values (Asigma st) !! y))
         (wantsSigma Dominates blocks closure alloc y)
         (useblocks st) (useblocks st') (defblocks st) (defblocks st').
Proof.
  intros Hs Hy. unfold sigmaStep. rewrite bind_run.
  destruct (add_values n ASigma y st Hs Hy) as (sS & -> & HvS).
  assert (HlS : length (values sS) = n).
  { rewrite HvS, length_insert. apply (proj1 Hs ASigma). }
  pose proof (sized_putSet n ASigma sS st Hs HlS) as Hs1.
  assert (Hout :
    negb (default false (values (Asigma st) !! y))
    && wantsSigma Dominates blocks closure alloc y = false ->
    exists st', (Some tt, putSet ASigma sS st) = (Some tt, st')
    /\ sized n st'
    /\ values (Asigma st') = <[y := true]> (values (Asigma st))
    /\ values (Aphi st') = values (Aphi st)
    /\ (forall x, mem (defblocks st) x -> mem (defblocks st') x)
    /\ (values (defblocks st') = values (defblocks st) \/ change st' = true)
    /\ (values (useblocks st') = values (useblocks st)
        /\ values (W st') = values (W st)
        \/ values (useblocks st) !! y = Some false
           /\ values (useblocks st') = <[y := true]> (values (useblocks st))
           /\ values (W st') = <[y := true]> (values (W st)))
    /\ (change st' = change st
        \/ change st' = true /\ values (Asigma st) !! y = Some false)
    /\ newPhis st' = newPhis st
    /\ appended ns_alloc (a_cell alloc) y (default false (values (Asigma st) !! y))
         (wantsSigma Dominates blocks closure alloc y) (newSigmas st) (newSigmas st')
    /\ spread blocks Succs y (default false (values (Asigma st) !! y))
         (wantsSigma Dominates blocks closure alloc y)
         (useblocks st) (useblocks st') (defblocks st) (defblocks st')).
  { intros Hno. eexists. split; [reflexivity |]. split; [done |].
    unfold appended, spread. rewrite Hno. destruct st; simpl in *. auto 12. }
  destruct (default false (values (getSet ASigma st) !! y)) eqn:Hold;
    cbn [negb]; cbv iota.
  { apply Hout. simpl in Hold. by rewrite Hold. }
  rewrite bind_run. destruct (block_of y Hy) as [yb Hyb]. rewrite Hyb.
  cbn [orStop mret M_ret].
  assert (Hsin : inBlocks n (Succs yb)).
  { destruct input as (_ & _ & _ & _ & Hedges & _). by apply (Hedges y yb). }
  rewrite bind_run. destruct (sigmasFor_total y (Succs yb) Hsin) as [r Hr]. rewrite Hr.
  cbn [orStop mret M_ret].
  destruct (r.2) eqn:Hr2.
  2:{ apply Hout. unfold wantsSigma. rewrite Hyb, Hr, Hr2. apply andb_false_r. }
  clear Hout.
  assert (Hwants : wantsSigma Dominates blocks closure alloc y = true).
  { unfold wantsSigma. by rewrite Hyb, Hr. }
  assert (HoldS : values (Asigma st) !! y = Some false).
  { apply lookup_false; [by apply (sized_lt n ASigma) | done]. }
  destruct (appendSigma_run y (mkNewSigma (a_cell alloc) r.1) (putSet ASigma sS st))
    as (l & Hl & Hrun).
  { rewrite (proj2 (proj2 Hs1)). done. }
  rewrite bind_run, Hrun. clear Hrun.
  set (st2 := mkLiftState _ _ _ _ _ _ _ _).
  assert (Hs2 : sized n st2).
  { destruct Hs1 as (H1 & H2 & H3). split; [| split].
    - intros name. specialize (H1 name). by destruct name.
    - done.
    - subst st2. cbn [newSigmas]. by rewrite length_insert. }
  destruct (forEach_add n Defblocks (Succs yb) Hsin st2 Hs2) as (sD & HrunD & HlD & HmD).
  rewrite bind_run, HrunD. clear HrunD.
  rewrite bind_run. cbn [setChange modify].
  set (st3 := mkLiftState _ _ _ _ _ _ _ _).
  assert (Hs3 : sized n st3).
  { pose proof (sized_putSet n Defblocks sD st2 Hs2 HlD) as (H1 & H2 & H3).
    split; [| split]; [| done | done].
    intros name. specialize (H1 name). by destruct name. }
  destruct (add_values n Useblocks y st3 Hs3 Hy) as (sU & HrunU & HvU).
  rewrite bind_run, HrunU. clear HrunU.
  assert (HlU : length (values sU) = n).
  { rewrite HvU, length_insert. apply (proj1 Hs3 Useblocks). }
  pose proof (sized_putSet n Useblocks sU st3 Hs3 HlU) as Hs4.
  assert (HmD' : forall x, mem (defblocks st) x -> mem sD x).
  { intros x Hx. apply HmD. left. subst st2. by destruct st. }
  assert (Happ : appended ns_alloc (a_cell alloc) y
                   (default false (values (Asigma st) !! y))
                   (wantsSigma Dominates blocks closure alloc y) (newSigmas st)
                   (<[y := l ++ [mkNewSigma (a_cell alloc) r.1]]> (newSigmas st))).
  { unfold appended. rewrite HoldS, Hwants. simpl. eexists l, _.
    split; [| split; [| reflexivity]]; [by destruct st | done]. }
  assert (Hspr : spread blocks Succs y (default false (values (Asigma st) !! y))
                   (wantsSigma Dominates blocks closure alloc y)
                   (useblocks st) sU (defblocks st) sD).
  { unfold spread. rewrite HoldS, Hwants. simpl. split.
    - intros x. unfold mem. rewrite HvU.
      apply (mem_insert (values (useblocks st))). by apply (sized_lt n Useblocks).
    - exists yb. split; [done |]. intros x. rewrite HmD. subst st2. by destruct st. }
  destruct (default false (values (getSet Useblocks st3) !! y)) eqn:HoldU;
    cbn [negb]; cbv iota.
  - eexists. split; [reflexivity |]. split; [done |].
    assert (HU : values sU = values (useblocks st)).
    { rewrite HvU. subst st3 st2. destruct st as [D U P S Wk nP nS ch]; simpl in *.
      apply list_insert_id.
      destruct (values U !! y) as [[] |] eqn:E; simpl in HoldU; done. }
    subst st3 st2. destruct st; simpl in *. auto 12.
  - destruct (add_values n Work y _ Hs4 Hy) as (sW & HrunW & HvW).
    rewrite bind_run, HrunW. clear HrunW. cbn [mret M_ret].
    eexists. split; [reflexivity |].
    assert (HlW : length (values sW) = n).
    { rewrite HvW, length_insert. apply (proj1 Hs4 Work). }
    split; [by apply sized_putSet |].
    assert (HUf : values (useblocks st) !! y = Some false).
    { apply lookup_false; [by apply (sized_lt n Useblocks) |].
      subst st3 st2. by destruct st. }
    subst st3 st2. destruct st; simpl in *. auto 12.
Qed.

End Total.

Lemma take_run (st : LiftState) :
  take_ Work st = (Some (BlockSet_Take (W st)).1, putSet Work (BlockSet_Take (W st)).2 st).
Proof. reflexivity. Qed.

(** The worklist loop ends: a loop invariant [Inv], its form [Mid i done]
    while the frontier of block [i] is being gone through, and a measure
    that every [Take] lowers and no step raises. *)
Section Worklist.
Variable blocks : list BasicBlock.
Variable frontier : list (list nat).
Variable step : nat -> M unit.
Variable Inv : LiftState -> Prop.
Variable Mid : nat -> list nat -> LiftState -> Prop.
Variable mu : LiftState -> Z.
Hypothesis frontier_len : length frontier = length blocks.
Hypothesis mu_nonneg : forall st, Inv st -> (0 <= mu st)%Z.
Hypothesis Inv_sized : forall st, Inv st -> length (values (W st)) = length blocks.
Hypothesis take_Mid : forall st i sW,
  Inv st -> values (W st) !! i = Some true ->
  values sW = <[i := false]> (values (W st)) ->
  Mid i [] (putSet Work sW st) /\ (mu (putSet Work sW st) < mu st)%Z.
Hypothesis step_Mid : forall i ys done y st,
  frontier !! i = Some ys -> y ∈ ys -> Mid i done st ->
  exists st', step y st = (Some tt, st') /\ Mid i (done ++ [y]) st'
              /\ (mu st' <= mu st)%Z.
Hypothesis Mid_Inv : forall i ys st, frontier !! i = Some ys -> Mid i ys st -> Inv st.

Lemma forEach_Mid (i : nat) (ys : list nat) :
  frontier !! i = Some ys ->
  forall rest done st,
    ys = done ++ rest -> Mid i done st ->
    exists st', forEach rest step st = (Some tt, st') /\ Mid i ys st'
                /\ (mu st' <= mu st)%Z.
Proof.
  intros Hys. induction rest as [| y rest IH]; intros done st Heq HM.
  - rewrite app_nil_r in Heq. subst done. exists st. split; [done |]. split; [done | lia].
  - destruct (step_Mid i ys done y st Hys) as (st1 & Hrun & HM1 & Hmu1); [| done |].
    { rewrite Heq. set_solver. }
    destruct (IH (done ++ [y]) st1) as (st2 & Hrun2 & HM2 & Hmu2); [| done |].
    { by rewrite <- app_assoc. }
    exists st2. cbn [forEach]. rewrite bind_run, Hrun. split; [done |].
    split; [done | lia].
Qed.

Lemma worklist_ends (fuel : nat) :
  forall st, Inv st -> (mu st < Z.of_nat fuel)%Z ->
    exists st', worklist blocks fuel frontier step st = (Some tt, st')
      /\ Inv st' /\ (forall k, ~ mem (W st') k) /\ (mu st' <= mu st)%Z.
Proof.
  induction fuel as [| fuel IH]; intros st HI Hmu.
  { pose proof (mu_nonneg st HI). lia. }
  cbn [worklist]. rewrite bind_run, take_run.
  pose proof (Take_values (W st)) as HT.
  destruct (BlockSet_Take (W st)) as [[i |] sW]; cbn [fst snd].
  - destruct HT as [Hi HsW].
    destruct (take_Mid st i sW HI Hi HsW) as [HM Hlt].
    assert (Hin : i < length blocks).
    { rewrite <- (Inv_sized st HI). by eapply lookup_lt_Some. }
    destruct (lookup_lt_is_Some_2 blocks i Hin) as [b Hb].
    destruct (lookup_lt_is_Some_2 frontier i) as [ys Hys]; [by rewrite frontier_len |].
    rewrite bind_run, Hb. cbn [orStop mret M_ret].
    rewrite bind_run, Hys. cbn [orStop mret M_ret].
    destruct (forEach_Mid i ys Hys ys [] (putSet Work sW st) eq_refl HM)
      as (st1 & Hrun & HM1 & Hmu1).
    rewrite bind_run, Hrun.
    destruct (IH st1) as (st2 & Hrun2 & HI2 & Hempty & Hmu2);
      [by eapply Mid_Inv | lia |].
    exists st2. split; [done |]. split; [done |]. split; [done | lia].
  - destruct HT as [-> Hnone]. rewrite putSet_getSet.
    exists st. split; [done |]. split; [done |]. split; [| lia].
    intros k. apply Hnone.
Qed.

End Worklist.

Lemma members_insert (s s' : BlockSet) (y : nat) :
  y < length (values s) ->
  values s' = <[y := true]> (values s) ->
  members s' = (members s + (if default false (values s !! y) then 0 else 1))%Z.
Proof. intros Hy Hv. unfold members. rewrite Hv. by apply countTrue_insert_true. Qed.

Lemma members_le (n : nat) (s : BlockSet) :
  length (values s) = n -> (0 <= members s <= Z.of_nat n)%Z.
Proof.
  intros <-. unfold members. pose proof (countTrue_nonneg (values s)).
  pose proof (countTrue_le_length (values s)). lia.
Qed.

Lemma mem_values (s s' : BlockSet) (x : nat) :
  values s' = values s -> mem s' x <-> mem s x.
Proof. unfold mem. by intros ->. Qed.

Lemma mem_added (s s' : BlockSet) (y x : nat) :
  y < length (values s) ->
  values s' = <[y := true]> (values s) ->
  mem s' x <-> mem s x \/ x = y.
Proof. intros Hy Hv. unfold mem. rewrite Hv. by apply mem_insert. Qed.

Lemma inFrontier_mono (frontier : list (list nat)) (s s' : BlockSet) (y : nat) :
  (forall x, mem s x -> mem s' x) -> inFrontier frontier s y -> inFrontier frontier s' y.
Proof. intros Hsub (x & ys & Hx & Hys & Hy). exists x, ys. auto. Qed.

Lemma frontierIn_mono (frontier : list (list nat)) (a a' : BlockSet) (x : nat) :
  (forall y, mem a y -> mem a' y) -> frontierIn frontier a x -> frontierIn frontier a' x.
Proof. intros Hsub Hc ys y Hys Hy. apply Hsub. by eapply Hc. Qed.

Lemma appended_match {X : Type} (key : X -> nat) (cell y : nat) (w : nat -> bool)
    (base : nat -> Prop) (a a' : list bool) (t t' : list (list X)) :
  y < length a -> a' = <[y := true]> a ->
  appended key cell y (default false (a !! y)) (w y) t t' ->
  (forall z, (exists l, t !! z = Some l /\ cell ∈ map key l)
             <-> base z \/ a !! z = Some true /\ w z = true) ->
  (forall z, (exists l, t' !! z = Some l /\ cell ∈ map key l)
             <-> base z \/ a' !! z = Some true /\ w z = true).
Proof.
  intros Hy -> Happ Hold z. unfold appended in Happ.
  destruct (lookup_lt_is_Some_2 _ _ Hy) as [old Hy'].
  rewrite Hy' in Happ. simpl in Happ.
  destruct (decide (z = y)) as [-> | Hne].
  2:{ rewrite list_lookup_insert_ne by done. rewrite <- Hold.
      destruct (negb old && w y).
      - destruct Happ as (l & e & _ & _ & ->). by rewrite list_lookup_insert_ne.
      - by subst t'. }
  rewrite list_lookup_insert_eq by done.
  destruct (negb old && w y) eqn:Hcase.
  - destruct Happ as (l & e & Hl & He & ->).
    apply andb_true_iff in Hcase as [_ Hw].
    rewrite list_lookup_insert_eq by (by eapply lookup_lt_Some).
    split; [auto |]. intros _. exists (l ++ [e]). split; [done |].
    rewrite map_app, elem_of_app. right. simpl. rewrite He. apply list_elem_of_singleton.
    done.
  - subst t'. rewrite Hold, Hy'.
    destruct old; simpl in Hcase; [naive_solver |].
    rewrite Hcase. naive_solver.
Qed.

Lemma members_values (s s' : BlockSet) :
  values s' = values s -> members s' = members s.
Proof. unfold members. by intros ->. Qed.

Lemma psi_step (n : nat) (a a' b b' : BlockSet) (c c' : bool) (y : nat) :
  y < length (values a) ->
  values a' = <[y := true]> (values a) ->
  values b' = values b ->
  (c' = c \/ c' = true /\ values a !! y = Some false) ->
  (free n a' + free n b' + (if c' then 1 else 0)
   <= free n a + free n b + (if c then 1 else 0))%Z.
Proof.
  intros Hy Ha Hb Hc. unfold free.
  rewrite (members_insert a a' y Hy Ha), (members_values b b' Hb).
  destruct Hc as [-> | [-> Hnew]].
  - destruct (default false (values a !! y)), c; lia.
  - rewrite Hnew. simpl. destruct c; lia.
Qed.

Section Phases.
Variable Dominates : nat -> nat -> bool.
Variable blocks : list BasicBlock.
Variable closure : option Closure.closure.
Variables df rdf : list (list nat).
Variable alloc : AllocInfo.
Hypothesis input : wellFormed Dominates blocks closure df rdf alloc.
Variables seedD seedU baseP baseS : nat -> Prop.
Variable p0 : Z.

#[local] Abbreviation n := (length blocks).
#[local] Abbreviation P :=
  (placing Dominates blocks closure alloc df rdf seedD seedU baseP baseS p0).

Lemma df_in_blocks (i y : nat) (ys : list nat) :
  df !! i = Some ys -> y ∈ ys -> y < n.
Proof.
  destruct input as (_ & _ & Hdf & _). intros Hys Hy.
  specialize (Hdf i ys Hys). unfold inBlocks in Hdf. rewrite Forall_forall in Hdf. auto.
Qed.

Lemma rdf_in_blocks (i y : nat) (ys : list nat) :
  rdf !! i = Some ys -> y ∈ ys -> y < n.
Proof.
  destruct input as (_ & _ & _ & Hrdf & _). intros Hys Hy.
  specialize (Hrdf i ys Hys). unfold inBlocks in Hrdf. rewrite Forall_forall in Hrdf. auto.
Qed.

Lemma phi_take (st : LiftState) (i : nat) (sW : BlockSet) :
  P st /\ phiInv df st ->
  values (W st) !! i = Some true ->
  values sW = <[i := false]> (values (W st)) ->
  (P (putSet Work sW st) /\ phiMid df i [] (putSet Work sW st))
  /\ (phiMu n (putSet Work sW st) < phiMu n st)%Z.
Proof.
  intros [(Hs & HsD & HsU & Hpsi & HfP & HfS & HT & HL) [HWD Hcov]] Hi HsW.
  assert (Hsub : forall x, mem sW x -> mem (W st) x).
  { intros x. unfold mem. rewrite HsW. intros Hx.
    destruct (decide (x = i)) as [-> | Hne]; [done |].
    by rewrite list_lookup_insert_ne in Hx. }
  assert (Hback : forall x, mem (W st) x -> mem sW x \/ x = i).
  { intros x Hx. destruct (decide (x = i)) as [-> | Hne]; [by right |].
    left. unfold mem. by rewrite HsW, list_lookup_insert_ne. }
  assert (Hlen : length (values sW) = n).
  { rewrite HsW, length_insert. apply (proj1 Hs Work). }
  split; [split |].
  - split; [by apply sized_putSet |]. destruct st; simpl in *. done.
  - destruct st as [D U A S Wk nP nS ch]; simpl in *.
    split; [auto |]. split; [by apply HWD |]. split; [| by intros y Hy%elem_of_nil].
    intros x Hx. destruct (Hcov x Hx) as [HxW | Hc]; [| auto].
    destruct (Hback x HxW); auto.
  - unfold phiMu. replace (defblocks (putSet Work sW st)) with (defblocks st)
      by (by destruct st).
    replace (W (putSet Work sW st)) with sW by (by destruct st).
    unfold members. rewrite HsW, (countTrue_insert _ _ true false Hi). lia.
Qed.

Lemma phi_step (i : nat) (ys done_ : list nat) (y : nat) (st : LiftState) :
  df !! i = Some ys -> y ∈ ys ->
  P st /\ phiMid df i done_ st ->
  exists st', phiStep Dominates blocks closure alloc y st = (Some tt, st')
    /\ (P st' /\ phiMid df i (done_ ++ [y]) st')
    /\ (phiMu n st' <= phiMu n st)%Z.
Proof.
  intros Hys Hy [(Hs & HsD & HsU & Hpsi & HfP & HfS & HT & HL) (HWD & Hi & Hcov & Hdone)].
  pose proof (df_in_blocks i y ys Hys Hy) as Hyn.
  destruct (phiStep_spec Dominates blocks closure df rdf alloc input y st Hs Hyn)
    as (st' & Hrun & Hs' & HvP & HvS & HU & HDW & Hch & HnS & Happ & Hspr).
  exists st'. split; [done |].
  assert (HyP : y < length (values (Aphi st))) by (by apply (sized_lt n APhi)).
  assert (HyD : y < length (values (defblocks st))) by (by apply (sized_lt n Defblocks)).
  assert (HyW : y < length (values (W st))) by (by apply (sized_lt n Work)).
  assert (HP : forall x, mem (Aphi st) x -> mem (Aphi st') x).
  { intros x Hx. apply (mem_added _ _ y x HyP HvP). by left. }
  assert (HD : forall x, mem (defblocks st) x -> mem (defblocks st') x).
  { intros x Hx. destruct HDW as [[HvD _] | (_ & HvD & _)].
    - by apply (mem_values _ _ x HvD).
    - apply (mem_added _ _ y x HyD HvD). by left. }
  split; [split |].
  - split; [done |]. split; [auto |]. split; [auto |]. split.
    { unfold psi in *. etrans; [| exact Hpsi]. by apply (psi_step n _ _ _ _ _ _ y). }
    split; [| split; [| split]].
    + intros x Hx. apply (mem_added _ _ y x HyP HvP) in Hx as [Hx | ->].
      * eapply inFrontier_mono; [exact HD | auto].
      * exists i, ys. auto.
    + intros x Hx. apply (mem_values _ _ x HvS) in Hx.
      eapply inFrontier_mono; [exact HU | auto].
    + destruct HT as [HTp HTs]. split.
      * apply (appended_match np_alloc (a_cell alloc) y
                 (wantsPhi Dominates blocks closure alloc) baseP (values (Aphi st))
                 (values (Aphi st')) (newPhis st) (newPhis st') HyP HvP Happ HTp).
      * intros z. unfold hasSigma, mem. rewrite HnS, HvS. apply HTs.
    + destruct HL as (HR5 & HR6 & HB). unfold spread in Hspr. split; [| split].
      * intros y0 yb0 Hy0 Hw0 Hb0.
        apply (mem_added _ _ y y0 HyP HvP) in Hy0 as [Hy0 | ->].
        { destruct (HR5 y0 yb0 Hy0 Hw0 Hb0) as [H1 H2]. split; [auto |].
          intros x Hx. apply HU. auto. }
        rewrite Hw0 in Hspr.
        destruct (values (Aphi st) !! y) as [[] |] eqn:Hold; simpl in Hspr.
        -- destruct (HR5 y yb0 Hold Hw0 Hb0) as [H1 H2]. split; [auto |].
           intros x Hx. apply HU. auto.
        -- destruct Hspr as [Hown (yb & Hyb & Hfar)].
           rewrite Hb0 in Hyb. injection Hyb as <-.
           split; [apply Hown; by right | intros x Hx; apply Hfar; by right].
        -- apply lookup_ge_None in Hold. lia.
      * intros y0 yb0 Hy0 Hw0 Hb0. apply (mem_values _ _ y0 HvS) in Hy0.
        destruct (HR6 y0 yb0 Hy0 Hw0 Hb0) as [H1 H2]. split; [auto |].
        intros x Hx. apply HD. auto.
      * intros D U Pq S Hclosed.
        destruct (HB D U Pq S Hclosed) as (BD & BU & BP & BS).
        pose proof Hclosed as (_ & _ & c3 & _ & c5 & _).
        assert (HPy : Pq y) by (apply (c3 i ys y); auto).
        assert (BP' : forall x, mem (Aphi st') x -> Pq x).
        { intros x Hx. apply (mem_added _ _ y x HyP HvP) in Hx as [Hx | ->]; auto. }
        assert (BS' : forall x, mem (Asigma st') x -> S x).
        { intros x Hx. apply (mem_values _ _ x HvS) in Hx. auto. }
        destruct (negb (default false (values (Aphi st) !! y))
                  && wantsPhi Dominates blocks closure alloc y) eqn:Hcase.
        -- destruct Hspr as [Hown (yb & Hyb & Hfar)].
           apply andb_true_iff in Hcase as [_ Hw].
           destruct (c5 y yb HPy Hw Hyb) as [HDy HUp].
           split; [| split; [| done]].
           ++ intros x Hx. apply Hown in Hx as [Hx | ->]; auto.
           ++ intros x Hx. apply Hfar in Hx as [Hx | Hx]; auto.
        -- destruct Hspr as [Hvd Hvu]. split; [| split; [| done]].
           ++ intros x Hx. apply (mem_values _ _ x Hvd) in Hx. auto.
           ++ intros x Hx. apply (mem_values _ _ x Hvu) in Hx. auto.
  - split; [| split; [auto | split]].
    + intros x Hx. destruct HDW as [[HvD HvW] | (_ & HvD & HvW)].
      * apply (mem_values _ _ x HvD). apply HWD. by apply (mem_values _ _ x HvW).
      * apply (mem_added _ _ y x HyD HvD).
        apply (mem_added _ _ y x HyW HvW) in Hx as [Hx | ->]; auto.
    + intros x Hx. destruct HDW as [[HvD HvW] | (_ & HvD & HvW)].
      * apply (mem_values _ _ x HvD) in Hx.
        destruct (Hcov x Hx) as [HxW | [-> | Hc]].
        -- left. by apply (mem_values _ _ x HvW).
        -- auto.
        -- right. right. by eapply frontierIn_mono.
      * apply (mem_added _ _ y x HyD HvD) in Hx as [Hx | ->].
        -- destruct (Hcov x Hx) as [HxW | [-> | Hc]].
           ++ left. apply (mem_added _ _ y x HyW HvW). by left.
           ++ auto.
           ++ right. right. by eapply frontierIn_mono.
        -- left. apply (mem_added _ _ y y HyW HvW). by right.
    + intros x Hx. apply elem_of_app in Hx as [Hx | Hx].
      * auto.
      * apply list_elem_of_singleton in Hx as ->.
        apply (mem_added _ _ y y HyP HvP). by right.
  - unfold phiMu, free. destruct HDW as [[HvD HvW] | (HDf & HvD & HvW)].
    + rewrite (members_values _ _ HvD), (members_values _ _ HvW). lia.
    + rewrite (members_insert _ _ y HyD HvD), (members_insert _ _ y HyW HvW), HDf.
      simpl. destruct (default false (values (W st) !! y)); lia.
Qed.

Lemma phi_mid_inv (i : nat) (ys : list nat) (st : LiftState) :
  df !! i = Some ys -> P st /\ phiMid df i ys st -> P st /\ phiInv df st.
Proof.
  intros Hys [HP (HWD & Hi & Hcov & Hdone)]. split; [done |]. split; [done |].
  intros x Hx. destruct (Hcov x Hx) as [HxW | [-> | Hc]]; [auto | | auto].
  right. intros ys' y Hys' Hy. rewrite Hys in Hys'. injection Hys' as <-. auto.
Qed.

Lemma phiMu_nonneg (st : LiftState) : sized n st -> (0 <= phiMu n st)%Z.
Proof.
  intros Hs. unfold phiMu, free.
  pose proof (members_le n _ (proj1 Hs Defblocks)).
  pose proof (members_le n _ (proj1 Hs Work)). simpl in *. lia.
Qed.

(** The phi worklist ends, with [W] empty and the frontier of every block of
    [defblocks] inside [Aphi]. *)
Lemma phi_worklist (fuel : nat) (st : LiftState) :
  P st -> phiInv df st -> (phiMu n st < Z.of_nat fuel)%Z ->
  exists st', worklist blocks fuel df (phiStep Dominates blocks closure alloc) st
              = (Some tt, st')
    /\ P st' /\ (forall k, ~ mem (W st') k)
    /\ (forall x, mem (defblocks st') x -> frontierIn df (Aphi st') x).
Proof.
  intros HP HI Hmu.
  destruct (worklist_ends blocks df (phiStep Dominates blocks closure alloc)
              (fun st => P st /\ phiInv df st)
              (fun i done_ st => P st /\ phiMid df i done_ st) (phiMu n))
    with (fuel := fuel) (st := st) as (st' & Hrun & [HP' HI'] & Hempty & _).
  - by destruct input as (? & _).
  - intros st0 [H0 _]. apply phiMu_nonneg, H0.
  - intros st0 [H0 _]. apply (proj1 (proj1 H0) Work).
  - apply phi_take.
  - apply phi_step.
  - apply phi_mid_inv.
  - done.
  - done.
  - exists st'. split; [done |]. split; [done |]. split; [done |].
    intros x Hx. destruct (proj2 HI' x Hx) as [HxW | Hc]; [| done].
    by apply Hempty in HxW.
Qed.

Lemma sigma_take (st : LiftState) (i : nat) (sW : BlockSet) :
  P st /\ sigmaInv df rdf st ->
  values (W st) !! i = Some true ->
  values sW = <[i := false]> (values (W st)) ->
  (P (putSet Work sW st) /\ sigmaMid df rdf i [] (putSet Work sW st))
  /\ (sigmaMu n (putSet Work sW st) < sigmaMu n st)%Z.
Proof.
  intros [(Hs & HsD & HsU & Hpsi & HfP & HfS & HT & HL) (HWU & Hcov & Hcl)] Hi HsW.
  assert (Hback : forall x, mem (W st) x -> mem sW x \/ x = i).
  { intros x Hx. destruct (decide (x = i)) as [-> | Hne]; [by right |].
    left. unfold mem. by rewrite HsW, list_lookup_insert_ne. }
  assert (Hsub : forall x, mem sW x -> mem (W st) x).
  { intros x. unfold mem. rewrite HsW. intros Hx.
    destruct (decide (x = i)) as [-> | Hne]; [done |].
    by rewrite list_lookup_insert_ne in Hx. }
  assert (Hlen : length (values sW) = n).
  { rewrite HsW, length_insert. apply (proj1 Hs Work). }
  split; [split |].
  - split; [by apply sized_putSet |]. destruct st; simpl in *. done.
  - destruct st as [D U A S Wk nP nS ch]; simpl in *.
    split; [auto |]. split; [by apply HWU |]. split; [| split; [| done]].
    + intros x Hx. destruct (Hcov x Hx) as [HxW | Hc]; [| auto].
      destruct (Hback x HxW); auto.
    + by intros y Hy%elem_of_nil.
  - unfold sigmaMu. replace (useblocks (putSet Work sW st)) with (useblocks st)
      by (by destruct st).
    replace (W (putSet Work sW st)) with sW by (by destruct st).
    unfold members. rewrite HsW, (countTrue_insert _ _ true false Hi). lia.
Qed.

Lemma sigma_step (i : nat) (ys done_ : list nat) (y : nat) (st : LiftState) :
  rdf !! i = Some ys -> y ∈ ys ->
  P st /\ sigmaMid df rdf i done_ st ->
  exists st', sigmaStep Dominates blocks closure alloc y st = (Some tt, st')
    /\ (P st' /\ sigmaMid df rdf i (done_ ++ [y]) st')
    /\ (sigmaMu n st' <= sigmaMu n st)%Z.
Proof.
  intros Hys Hy [(Hs & HsD & HsU & Hpsi & HfP & HfS & HT & HL)
                 (HWU & Hi & Hcov & Hdone & Hcl)].
  pose proof (rdf_in_blocks i y ys Hys Hy) as Hyn.
  destruct (sigmaStep_spec Dominates blocks closure df rdf alloc input y st Hs Hyn)
    as (st' & Hrun & Hs' & HvS & HvP & HD & HDch & HUW & Hch & HnP & Happ & Hspr).
  exists st'. split; [done |].
  assert (HyS : y < length (values (Asigma st))) by (by apply (sized_lt n ASigma)).
  assert (HyU : y < length (values (useblocks st))) by (by apply (sized_lt n Useblocks)).
  assert (HyW : y < length (values (W st))) by (by apply (sized_lt n Work)).
  assert (HS : forall x, mem (Asigma st) x -> mem (Asigma st') x).
  { intros x Hx. apply (mem_added _ _ y x HyS HvS). by left. }
  assert (HU : forall x, mem (useblocks st) x -> mem (useblocks st') x).
  { intros x Hx. destruct HUW as [[HvU _] | (_ & HvU & _)].
    - by apply (mem_values _ _ x HvU).
    - apply (mem_added _ _ y x HyU HvU). by left. }
  split; [split |].
  - split; [done |]. split; [auto |]. split; [auto |]. split.
    { unfold psi in *. etrans; [| exact Hpsi].
      pose proof (psi_step n _ _ _ _ (change st) (change st') y HyS HvS HvP Hch). lia. }
    split; [| split; [| split]].
    + intros x Hx. apply (mem_values _ _ x HvP) in Hx.
      eapply inFrontier_mono; [exact HD | auto].
    + intros x Hx. apply (mem_added _ _ y x HyS HvS) in Hx as [Hx | ->].
      * eapply inFrontier_mono; [exact HU | auto].
      * exists i, ys. auto.
    + destruct HT as [HTp HTs]. split.
      * intros z. unfold hasPhi, mem. rewrite HnP, HvP. apply HTp.
      * apply (appended_match ns_alloc (a_cell alloc) y
                 (wantsSigma Dominates blocks closure alloc) baseS (values (Asigma st))
                 (values (Asigma st')) (newSigmas st) (newSigmas st') HyS HvS Happ HTs).
    + destruct HL as (HR5 & HR6 & HB). unfold spread in Hspr. split; [| split].
      * intros y0 yb0 Hy0 Hw0 Hb0. apply (mem_values _ _ y0 HvP) in Hy0.
        destruct (HR5 y0 yb0 Hy0 Hw0 Hb0) as [H1 H2]. split; [auto |].
        intros x Hx. apply HU. auto.
      * intros y0 yb0 Hy0 Hw0 Hb0.
        apply (mem_added _ _ y y0 HyS HvS) in Hy0 as [Hy0 | ->].
        { destruct (HR6 y0 yb0 Hy0 Hw0 Hb0) as [H1 H2]. split; [auto |].
          intros x Hx. apply HD. auto. }
        rewrite Hw0 in Hspr.
        destruct (values (Asigma st) !! y) as [[] |] eqn:Hold; simpl in Hspr.
        -- destruct (HR6 y yb0 Hold Hw0 Hb0) as [H1 H2]. split; [auto |].
           intros x Hx. apply HD. auto.
        -- destruct Hspr as [Hown (yb & Hyb & Hfar)].
           rewrite Hb0 in Hyb. injection Hyb as <-.
           split; [apply Hown; by right | intros x Hx; apply Hfar; by right].
        -- apply lookup_ge_None in Hold. lia.
      * intros D U Pq S Hclosed.
        destruct (HB D U Pq S Hclosed) as (BD & BU & BP & BS).
        pose proof Hclosed as (_ & _ & _ & c4 & _ & c6).
        assert (HSy : S y) by (apply (c4 i ys y); auto).
        assert (BS' : forall x, mem (Asigma st') x -> S x).
        { intros x Hx. apply (mem_added _ _ y x HyS HvS) in Hx as [Hx | ->]; auto. }
        assert (BP' : forall x, mem (Aphi st') x -> Pq x).
        { intros x Hx. apply (mem_values _ _ x HvP) in Hx. auto. }
        destruct (negb (default false (values (Asigma st) !! y))
                  && wantsSigma Dominates blocks closure alloc y) eqn:Hcase.
        -- destruct Hspr as [Hown (yb & Hyb & Hfar)].
           apply andb_true_iff in Hcase as [_ Hw].
           destruct (c6 y yb HSy Hw Hyb) as [HUy HDs].
           split; [| split; [| done]].
           ++ intros x Hx. apply Hfar in Hx as [Hx | Hx]; auto.
           ++ intros x Hx. apply Hown in Hx as [Hx | ->]; auto.
        -- destruct Hspr as [Hvu Hvd]. split; [| split; [| done]].
           ++ intros x Hx. apply (mem_values _ _ x Hvd) in Hx. auto.
           ++ intros x Hx. apply (mem_values _ _ x Hvu) in Hx. auto.
  - split; [| split; [auto | split; [| split]]].
    + intros x Hx. destruct HUW as [[HvU HvW] | (_ & HvU & HvW)].
      * apply (mem_values _ _ x HvU). apply HWU. by apply (mem_values _ _ x HvW).
      * apply (mem_added _ _ y x HyU HvU).
        apply (mem_added _ _ y x HyW HvW) in Hx as [Hx | ->]; auto.
    + intros x Hx. destruct HUW as [[HvU HvW] | (_ & HvU & HvW)].
      * apply (mem_values _ _ x HvU) in Hx.
        destruct (Hcov x Hx) as [HxW | [-> | Hc]].
        -- left. by apply (mem_values _ _ x HvW).
        -- auto.
        -- right. right. by eapply frontierIn_mono.
      * apply (mem_added _ _ y x HyU HvU) in Hx as [Hx | ->].
        -- destruct (Hcov x Hx) as [HxW | [-> | Hc]].
           ++ left. apply (mem_added _ _ y x HyW HvW). by left.
           ++ auto.
           ++ right. right. by eapply frontierIn_mono.
        -- left. apply (mem_added _ _ y y HyW HvW). by right.
    + intros x Hx. apply elem_of_app in Hx as [Hx | Hx].
      * auto.
      * apply list_elem_of_singleton in Hx as ->.
        apply (mem_added _ _ y y HyS HvS). by right.
    + destruct HDch as [HvD | Htrue]; [| by left].
      destruct Hcl as [Hold | Hold].
      * left. destruct Hch as [-> | [-> _]]; done.
      * right. intros x Hx. apply (mem_values _ _ x HvD) in Hx.
        eapply frontierIn_mono; [| by apply Hold].
        intros z Hz. by apply (mem_values _ _ z HvP).
  - unfold sigmaMu, free. destruct HUW as [[HvU HvW] | (HUf & HvU & HvW)].
    + rewrite (members_values _ _ HvU), (members_values _ _ HvW). lia.
    + rewrite (members_insert _ _ y HyU HvU), (members_insert _ _ y HyW HvW), HUf.
      simpl. destruct (default false (values (W st) !! y)); lia.
Qed.

Lemma sigma_mid_inv (i : nat) (ys : list nat) (st : LiftState) :
  rdf !! i = Some ys -> P st /\ sigmaMid df rdf i ys st -> P st /\ sigmaInv df rdf st.
Proof.
  intros Hys [HP (HWU & Hi & Hcov & Hdone & Hcl)].
  split; [done |]. split; [done |]. split; [| done].
  intros x Hx. destruct (Hcov x Hx) as [HxW | [-> | Hc]]; [auto | | auto].
  right. intros ys' y Hys' Hy. rewrite Hys in Hys'. injection Hys' as <-. auto.
Qed.

Lemma sigmaMu_nonneg (st : LiftState) : sized n st -> (0 <= sigmaMu n st)%Z.
Proof.
  intros Hs. unfold sigmaMu, free.
  pose proof (members_le n _ (proj1 Hs Useblocks)).
  pose proof (members_le n _ (proj1 Hs Work)). simpl in *. lia.
Qed.

(** The sigma worklist ends, with [W] empty and the frontier of every block
    of [useblocks] inside [Asigma]; if it has added to [defblocks], [change]
    is set. *)
Lemma sigma_worklist (fuel : nat) (st : LiftState) :
  P st -> sigmaInv df rdf st -> (sigmaMu n st < Z.of_nat fuel)%Z ->
  exists st', worklist blocks fuel rdf (sigmaStep Dominates blocks closure alloc) st
              = (Some tt, st')
    /\ P st' /\ (forall k, ~ mem (W st') k)
    /\ (forall x, mem (useblocks st') x -> frontierIn rdf (Asigma st') x)
    /\ (change st' = true \/ forall x, mem (defblocks st') x -> frontierIn df (Aphi st') x).
Proof.
  intros HP HI Hmu.
  destruct (worklist_ends blocks rdf (sigmaStep Dominates blocks closure alloc)
              (fun st => P st /\ sigmaInv df rdf st)
              (fun i done_ st => P st /\ sigmaMid df rdf i done_ st) (sigmaMu n))
    with (fuel := fuel) (st := st) as (st' & Hrun & [HP' HI'] & Hempty & _).
  - by destruct input as (_ & ? & _).
  - intros st0 [H0 _]. apply sigmaMu_nonneg, H0.
  - intros st0 [H0 _]. apply (proj1 (proj1 H0) Work).
  - apply sigma_take.
  - apply sigma_step.
  - apply sigma_mid_inv.
  - done.
  - done.
  - exists st'. split; [done |]. split; [done |]. split; [done |].
    destruct HI' as (_ & Hcov & Hcl). split; [| done].
    intros x Hx. destruct (Hcov x Hx) as [HxW | Hc]; [| done].
    by apply Hempty in HxW.
Qed.

End Phases.

Lemma copy_same_length {A : Type} (dst src : list A) :
  length dst = length src -> copy dst src = src.
Proof.
  intros Hlen. unfold copy. rewrite Hlen, firstn_all, drop_ge by lia. apply app_nil_r.
Qed.

Section Placement.
Variable Dominates : nat -> nat -> bool.
Variable blocks : list BasicBlock.
Variable closure : option Closure.closure.
Variables df rdf : list (list nat).
Variable alloc : AllocInfo.
Hypothesis input : wellFormed Dominates blocks closure df rdf alloc.
Variables seedD seedU baseP baseS : nat -> Prop.

#[local] Abbreviation n := (length blocks).

(** The outer loop ends: a round that sets [change] has put a block into
    [Aphi] or [Asigma]. *)
Lemma placement_ends (fuel : nat) :
  forall st p0,
    placing Dominates blocks closure alloc df rdf seedD seedU baseP baseS p0 st ->
    (free n (Aphi st) + free n (Asigma st) + 2 * Z.of_nat n + 2 <= Z.of_nat fuel)%Z ->
    exists st', placement Dominates blocks closure df rdf fuel alloc st = (Some tt, st')
      /\ placed Dominates blocks closure alloc df rdf seedD seedU baseP baseS st'.
Proof.
  induction fuel as [| fuel IH]; intros st p0 (Hs & HsD & HsU & _ & HfP & HfS) Hfuel.
  { pose proof (members_le n _ (proj1 Hs APhi)).
    pose proof (members_le n _ (proj1 Hs ASigma)). unfold free in Hfuel. simpl in *. lia. }
  pose proof (members_le n _ (proj1 Hs APhi)) as HmP.
  pose proof (members_le n _ (proj1 Hs ASigma)) as HmS.
  pose proof (members_le n _ (proj1 Hs Defblocks)) as HmD.
  pose proof (members_le n _ (proj1 Hs Useblocks)) as HmU.
  cbn [placement]. rewrite bind_run. cbn [setChange modify].
  rewrite bind_run. cbn [setFrom modify].
  set (st2 := putSet Work _ _).
  set (q := (free n (Aphi st) + free n (Asigma st))%Z).
  assert (Hcopy : copy (values (W st)) (values (defblocks st)) = values (defblocks st)).
  { apply copy_same_length.
    pose proof (proj1 Hs Work) as H1. pose proof (proj1 Hs Defblocks) as H2.
    simpl in H1, H2. by rewrite H1, H2. }
  assert (HW2 : values (W st2) = values (defblocks st)).
  { etrans; [| exact Hcopy]. subst st2. destruct st. reflexivity. }
  assert (HP2 : placing Dominates blocks closure alloc df rdf seedD seedU baseP baseS q st2).
  { split.
    { split; [| pose proof (proj2 Hs) as Ht; subst st2; by destruct st].
      intros name. pose proof (proj1 Hs name) as Hn.
      destruct name; try (subst st2; by destruct st).
      change (length (values (W st2)) = n). rewrite HW2. apply (proj1 Hs Defblocks). }
    subst st2 q. unfold psi. destruct st; simpl in *.
    split; [done |]. split; [done |]. split; [lia |]. done. }
  assert (HI2 : phiInv df st2).
  { split; intros x Hx.
    - apply (mem_values _ _ x HW2) in Hx. subst st2. by destruct st.
    - left. apply (mem_values _ _ x HW2). subst st2. by destruct st. }
  destruct (phi_worklist Dominates blocks closure df rdf alloc input seedD seedU
              baseP baseS q fuel st2 HP2 HI2) as (st3 & Hrun3 & HP3 & Hempty3 & Hcl3).
  { unfold phiMu, free. rewrite (members_values _ _ HW2).
    replace (defblocks st2) with (defblocks st) by (subst st2; by destruct st).
    subst q. unfold free in *. simpl in *. lia. }
  rewrite bind_run, Hrun3. clear Hrun3.
  rewrite bind_run. cbn [setFrom modify].
  set (st4 := putSet Work _ _).
  destruct HP3 as (Hs3 & HsD3 & HsU3 & Hpsi3 & HfP3 & HfS3 & HT3).
  assert (Hcopy3 : copy (values (W st3)) (values (useblocks st3))
                   = values (useblocks st3)).
  { apply copy_same_length.
    pose proof (proj1 Hs3 Work) as H1. pose proof (proj1 Hs3 Useblocks) as H2.
    simpl in H1, H2. by rewrite H1, H2. }
  assert (HW4 : values (W st4) = values (useblocks st3)).
  { etrans; [| exact Hcopy3]. subst st4. destruct st3. reflexivity. }
  assert (HP4 : placing Dominates blocks closure alloc df rdf seedD seedU baseP baseS q st4).
  { split.
    { split; [| pose proof (proj2 Hs3) as Ht; subst st4; by destruct st3].
      intros name. pose proof (proj1 Hs3 name) as Hn.
      destruct name; try (subst st4; by destruct st3).
      change (length (values (W st4)) = n). rewrite HW4. apply (proj1 Hs3 Useblocks). }
    subst st4. unfold psi in *. destruct st3; simpl in *. done. }
  assert (HI4 : sigmaInv df rdf st4).
  { split; [| split].
    - intros x Hx. apply (mem_values _ _ x HW4) in Hx. subst st4. by destruct st3.
    - intros x Hx. left. apply (mem_values _ _ x HW4). subst st4. by destruct st3.
    - right. subst st4. destruct st3; simpl in *. done. }
  pose proof (members_le n _ (proj1 Hs3 Useblocks)) as HmU3.
  destruct (sigma_worklist Dominates blocks closure df rdf alloc input seedD seedU
              baseP baseS q fuel st4 HP4 HI4) as (st5 & Hrun5 & HP5 & Hempty5 & Hcl5 & Hch5).
  { unfold sigmaMu, free. rewrite (members_values _ _ HW4).
    replace (useblocks st4) with (useblocks st3) by (subst st4; by destruct st3).
    subst q. unfold free in *. simpl in *. lia. }
  rewrite bind_run, Hrun5. clear Hrun5.
  rewrite bind_run. cbn [get].
  destruct (change st5) eqn:Hchange.
  - apply (IH st5 q HP5).
    destruct HP5 as (_ & _ & _ & Hpsi5 & _). unfold psi in Hpsi5.
    rewrite Hchange in Hpsi5. subst q. lia.
  - exists st5. split; [done |].
    destruct HP5 as (Hs5 & HsD5 & HsU5 & _ & HfP5 & HfS5 & HT5).
    destruct Hch5 as [Hch5 | Hcl]; [congruence |].
    split; [done |]. split; [done |]. split; [done |].
    split; [| split; [| done]].
    + intros y. split; [auto |]. intros (x & ys & Hx & Hys & Hy). by eapply Hcl.
    + intros y. split; [auto |]. intros (x & ys & Hx & Hys & Hy). by eapply Hcl5.
Qed.

End Placement.

Section Seeds.
Variable blocks : list BasicBlock.

#[local] Abbreviation n := (length blocks).

(** The loop over the referrers of the Alloc: Stores go to [defblocks],
    Loads and their users to [useblocks], and nothing else changes. *)
Lemma seeds_run (refs : list Referrer) :
  Forall (fun r => ref_block r < n /\ inBlocks n (ref_users r)) refs ->
  forall st, sized n st ->
    exists st',
      forEach refs (fun instr =>
        match ref_instr instr with
        | Store _ _ => add Defblocks (ref_block instr) ;; mret tt
        | Load _ =>
          add Useblocks (ref_block instr) ;;
          forEach (ref_users instr) (fun b => add Useblocks b ;; mret tt)
        | _ => mret tt
        end) st = (Some tt, st')
      /\ sized n st'
      /\ Aphi st' = Aphi st /\ Asigma st' = Asigma st
      /\ newPhis st' = newPhis st /\ newSigmas st' = newSigmas st
      /\ (forall x, mem (defblocks st') x
                    <-> mem (defblocks st) x
                        \/ exists r, r ∈ refs /\ is_Store (ref_instr r) = true
                                      /\ ref_block r = x)
      /\ (forall x, mem (useblocks st') x
                    <-> mem (useblocks st) x
                        \/ exists r, r ∈ refs /\ is_Load (ref_instr r) = true
                                      /\ (ref_block r = x \/ x ∈ ref_users r)).
Proof.
  induction 1 as [| r refs [Hr Hu] _ IH]; intros st Hs.
  { exists st. do 6 (split; [done |]).
    split; intros x; (split; [by left | intros [Hx | (r & Hr%elem_of_nil & _)]; done]). }
  cbn [forEach]. rewrite bind_run.
  assert (Hstep : exists st1,
    (match ref_instr r with
     | Store _ _ => add Defblocks (ref_block r) ;; mret tt
     | Load _ =>
       add Useblocks (ref_block r) ;;
       forEach (ref_users r) (fun b => add Useblocks b ;; mret tt)
     | _ => mret tt
     end : M unit) st = (Some tt, st1)
    /\ sized n st1
    /\ Aphi st1 = Aphi st /\ Asigma st1 = Asigma st
    /\ newPhis st1 = newPhis st /\ newSigmas st1 = newSigmas st
    /\ (forall x, mem (defblocks st1) x
                  <-> mem (defblocks st) x
                      \/ is_Store (ref_instr r) = true /\ ref_block r = x)
    /\ (forall x, mem (useblocks st1) x
                  <-> mem (useblocks st) x
                      \/ is_Load (ref_instr r) = true
                         /\ (ref_block r = x \/ x ∈ ref_users r))).
  { assert (Hsame : is_Store (ref_instr r) = false -> is_Load (ref_instr r) = false ->
      exists st1, (Some tt, st) = (Some tt, st1)
      /\ sized n st1
      /\ Aphi st1 = Aphi st /\ Asigma st1 = Asigma st
      /\ newPhis st1 = newPhis st /\ newSigmas st1 = newSigmas st
      /\ (forall x, mem (defblocks st1) x
                    <-> mem (defblocks st) x
                        \/ is_Store (ref_instr r) = true /\ ref_block r = x)
      /\ (forall x, mem (useblocks st1) x
                    <-> mem (useblocks st) x
                        \/ is_Load (ref_instr r) = true
                           /\ (ref_block r = x \/ x ∈ ref_users r))).
    { intros -> ->. exists st. do 6 (split; [done |]). split; intros x; naive_solver. }
    destruct (ref_instr r); try (by apply Hsame); clear Hsame; cbn [is_Store is_Load].
    - destruct (add_values n Defblocks (ref_block r) st Hs Hr) as (sD & Hrun & HvD).
      rewrite bind_run, Hrun. eexists. split; [reflexivity |].
      assert (Hlen : ref_block r < length (values (defblocks st)))
        by (by apply (sized_lt n Defblocks)).
      split; [apply sized_putSet; [done |]; rewrite HvD, length_insert;
              apply (proj1 Hs Defblocks) |].
      pose proof (fun x => mem_added (defblocks st) sD (ref_block r) x Hlen HvD) as Hm.
      destruct st as [D U A S Wk nP nS ch]; simpl in *.
      do 4 (split; [done |]). split; intros x; [rewrite Hm |]; naive_solver.
    - destruct (add_values n Useblocks (ref_block r) st Hs Hr) as (sU & Hrun & HvU).
      rewrite bind_run, Hrun.
      assert (Hlen : ref_block r < length (values (useblocks st)))
        by (by apply (sized_lt n Useblocks)).
      assert (Hs1 : sized n (putSet Useblocks sU st)).
      { apply sized_putSet; [done |]. rewrite HvU, length_insert.
        apply (proj1 Hs Useblocks). }
      destruct (forEach_add n Useblocks (ref_users r) Hu _ Hs1) as (sU' & Hrun' & HlU' & HmU').
      rewrite Hrun', putSet_putSet. eexists. split; [reflexivity |].
      split; [by apply sized_putSet |].
      pose proof (fun x => mem_added (useblocks st) sU (ref_block r) x Hlen HvU) as Hm.
      assert (Hm' : forall x,
                mem sU' x
                <-> mem (useblocks st) x \/ x = ref_block r \/ x ∈ ref_users r).
      { intros x. rewrite HmU', getSet_putSet, decide_True by done. rewrite Hm. tauto. }
      destruct st as [D U A S Wk nP nS ch]; simpl in *.
      do 4 (split; [done |]). split; intros x; [| rewrite Hm']; naive_solver. }
  destruct Hstep as (st1 & -> & Hs1 & HP1 & HS1 & HnP1 & HnS1 & HD1 & HU1).
  destruct (IH st1 Hs1) as (st' & Hrun & Hs' & HP & HS & HnP & HnS & HD & HU).
  exists st'. split; [done |]. split; [done |].
  do 4 (split; [congruence |]).
  split; intros x; [rewrite HD, HD1 | rewrite HU, HU1]; set_solver.
Qed.

End Seeds.

(** [liftAlloc] returns, and what it leaves. *)
Lemma liftAlloc_placed (Dominates : nat -> nat -> bool) (blocks : list BasicBlock)
    (closure : option Closure.closure) (df rdf : list (list nat)) (fuel : nat)
    (cursors : SetName -> nat) (alloc : AllocInfo) (st : LiftState) :
  wellFormed Dominates blocks closure df rdf alloc ->
  length (newPhis st) = length blocks ->
  length (newSigmas st) = length blocks ->
  4 * length blocks + 2 <= fuel ->
  exists st',
    liftAlloc Dominates blocks closure df rdf fuel cursors alloc st = (Some tt, st')
    /\ placed Dominates blocks closure alloc df rdf (seedsDef alloc) (seedsUse alloc)
         (hasPhi (a_cell alloc) st) (hasSigma (a_cell alloc) st) st'.
Proof.
  intros Hin HnP HnS Hfuel. unfold liftAlloc.
  rewrite bind_run. cbn [modify].
  set (st0 := mkLiftState _ _ _ _ _ _ _ _).
  assert (Hs0 : sized (length blocks) st0).
  { split; [| done]. intros name. destruct name; simpl; apply length_replicate. }
  pose proof Hin as (_ & _ & _ & _ & _ & Hblock & Hrefs & _).
  destruct (seeds_run blocks (a_referrers alloc) Hrefs st0 Hs0)
    as (st1 & Hrun1 & Hs1 & HP1 & HS1 & HnP1 & HnS1 & HD1 & HU1).
  rewrite bind_run, Hrun1. clear Hrun1.
  destruct (add_values (length blocks) Defblocks (a_block alloc) st1 Hs1 Hblock)
    as (sD & Hrun2 & HvD).
  rewrite bind_run, Hrun2. clear Hrun2.
  assert (Hlen : a_block alloc < length (values (defblocks st1)))
    by (by apply (sized_lt (length blocks) Defblocks)).
  assert (HlD : length (values sD) = length blocks).
  { rewrite HvD, length_insert. apply (proj1 Hs1 Defblocks). }
  assert (Hempty : forall c y, ~ mem (blockset blocks c) y).
  { intros c y. unfold mem. simpl. by intros [Heq _]%lookup_replicate. }
  assert (HeP : forall y, ~ mem (Aphi st1) y) by (intros y; rewrite HP1; apply Hempty).
  assert (HeS : forall y, ~ mem (Asigma st1) y) by (intros y; rewrite HS1; apply Hempty).
  assert (HfP : free (length blocks) (Aphi st1) = Z.of_nat (length blocks)).
  { unfold free, members. rewrite HP1. simpl. rewrite countTrue_replicate. lia. }
  assert (HfS : free (length blocks) (Asigma st1) = Z.of_nat (length blocks)).
  { unfold free, members. rewrite HS1. simpl. rewrite countTrue_replicate. lia. }
  assert (HD : forall x, mem sD x <-> seedsDef alloc x).
  { intros x. rewrite (mem_added _ _ _ x Hlen HvD), HD1. unfold seedsDef.
    split; [intros [[Hx | Hx] | ->] | intros [-> | Hx]]; auto.
    by apply Hempty in Hx. }
  assert (HU : forall x, mem (useblocks st1) x <-> seedsUse alloc x).
  { intros x. rewrite HU1. unfold seedsUse.
    split; [intros [Hx | Hx] | intros Hx]; auto. by apply Hempty in Hx. }
  apply (placement_ends Dominates blocks closure df rdf alloc Hin (seedsDef alloc)
           (seedsUse alloc) (hasPhi (a_cell alloc) st) (hasSigma (a_cell alloc) st)
           fuel (putSet Defblocks sD st1) (psi (length blocks) (putSet Defblocks sD st1))).
  - split; [by apply sized_putSet |].
    destruct st1 as [D U A S Wk nP nS ch]; simpl in *.
    split; [by intros x Hx; apply HD |]. split; [by intros x Hx; apply HU |].
    split; [lia |]. split; [by intros y Hy; apply HeP in Hy |].
    split; [by intros y Hy; apply HeS in Hy |]. split.
    + subst nP nS. split; intros y; (split; [by left | intros [Hy | [Hy _]]; [done |]]).
      * by apply HeP in Hy.
      * by apply HeS in Hy.
    + split; [| split].
      * intros y yb Hy. by apply HeP in Hy.
      * intros y yb Hy. by apply HeS in Hy.
      * intros Dq Uq Pq Sq (c1 & c2 & _). split; [| split; [| split]].
        -- intros x Hx. apply c1. by apply HD.
        -- intros x Hx. apply c2. by apply HU.
        -- intros x Hx. by apply HeP in Hx.
        -- intros x Hx. by apply HeS in Hx.
  - replace (Aphi (putSet Defblocks sD st1)) with (Aphi st1) by (by destruct st1).
    replace (Asigma (putSet Defblocks sD st1)) with (Asigma st1) by (by destruct st1).
    lia.
Qed.

Lemma forEach_liftAlloc (Dominates : nat -> nat -> bool) (blocks : list BasicBlock)
    (closure : option Closure.closure) (df rdf : list (list nat)) (fuel : nat)
    (cursors : SetName -> nat) (allocs : list AllocInfo) :
  Forall (wellFormed Dominates blocks closure df rdf) allocs ->
  4 * length blocks + 2 <= fuel ->
  forall st,
    length (newPhis st) = length blocks ->
    length (newSigmas st) = length blocks ->
    exists st',
      forEach allocs (liftAlloc Dominates blocks closure df rdf fuel cursors) st
      = (Some tt, st')
      /\ length (newPhis st') = length blocks
      /\ length (newSigmas st') = length blocks.
Proof.
  intros Hall Hfuel. induction Hall as [| alloc allocs Hin _ IH]; intros st HnP HnS.
  { by exists st. }
  destruct (liftAlloc_placed Dominates blocks closure df rdf fuel cursors alloc st
              Hin HnP HnS Hfuel) as (st1 & Hrun & (_ & HnP1 & HnS1) & _).
  destruct (IH st1 HnP1 HnS1) as (st' & Hrun' & Hlen).
  exists st'. cbn [forEach]. by rewrite bind_run, Hrun.
Qed.

Lemma wellFormed_three :
  wellFormed (fun _ _ => false) Closure.threeBlocks None threeFrontiers
    threePostFrontiers storedAndLoaded.
Proof.
  unfold wellFormed, inBlocks. simpl.
  split; [done |]. split; [done |].
  split; [| split; [| split; [| split; [lia | split; [| done]]]]].
  - intros [| [| [| i]]] ys Hys; simpl in Hys; try done;
      injection Hys as <-; repeat constructor.
  - intros [| [| [| i]]] ys Hys; simpl in Hys; try done;
      injection Hys as <-; repeat constructor; lia.
  - intros [| [| [| i]]] b Hb; simpl in Hb; try done;
      injection Hb as <-; simpl; split; repeat constructor; lia.
  - repeat (first [apply Forall_nil_2 | apply Forall_cons_2 | split | lia]; simpl).
Qed.

(** X24: the placement returns. When the frontiers have one entry per block and
    every block they, the edges, the Allocs and their referrers name is a
    block of the function, and [closure.has] answers on these blocks, no step
    of [liftAlloc] panics and its loops end, for every Alloc of the list:
    4n + 2 units of fuel (n the number of blocks) are enough, where the fuel
    bounds the rounds of the outer loop and the blocks each worklist loop
    takes; the tables still have one entry per block. *)
Theorem liftAlloc_loops_end (Dominates : nat -> nat -> bool)
    (blocks : list BasicBlock) (closure : option Closure.closure)
    (df rdf : list (list nat)) (fuel : nat) (cursors : SetName -> nat)
    (allocs : list AllocInfo) :
  Forall (wellFormed Dominates blocks closure df rdf) allocs ->
  4 * length blocks + 2 <= fuel ->
  exists st',
    liftAllocs Dominates blocks closure df rdf fuel cursors allocs = (Some tt, st')
    /\ length (newPhis st') = length blocks
    /\ length (newSigmas st') = length blocks.
Proof.
  intros Hall Hfuel. unfold liftAllocs.
  apply forEach_liftAlloc; [done | done | |]; simpl; apply length_replicate.
Qed.

Lemma liftAlloc_loops_end_witness :
  exists st',
    liftAllocs (fun _ _ => false) Closure.threeBlocks None threeFrontiers
      threePostFrontiers 14 (fun _ => 0) [storedAndLoaded; storedAndLoaded]
    = (Some tt, st')
    /\ length (newPhis st') = length Closure.threeBlocks
    /\ length (newSigmas st') = length Closure.threeBlocks.
Proof.
  apply (liftAlloc_loops_end (fun _ _ => false) Closure.threeBlocks None
           threeFrontiers threePostFrontiers 14 (fun _ => 0)
           [storedAndLoaded; storedAndLoaded]).
  - apply Forall_cons_2; [apply wellFormed_three |].
    apply Forall_cons_2; [apply wellFormed_three | apply Forall_nil_2].
  - simpl. lia.
Defined.

(** X25: when [liftAlloc] returns (it does, on an input as above), [defblocks]
    holds the block of the Alloc and of every Store to it, [useblocks] the
    block of every Load of it and of every user of such a Load, [Aphi] is
    exactly the set of the blocks in the dominance frontier of a block of
    [defblocks], and [Asigma] exactly the set of the blocks in the
    post-dominance frontier of a block of [useblocks]. *)
Theorem liftAlloc_closes_frontiers (Dominates : nat -> nat -> bool)
    (blocks : list BasicBlock) (closure : option Closure.closure)
    (df rdf : list (list nat)) (fuel : nat) (cursors : SetName -> nat)
    (alloc : AllocInfo) (st : LiftState) :
  wellFormed Dominates blocks closure df rdf alloc ->
  length (newPhis st) = length blocks ->
  length (newSigmas st) = length blocks ->
  4 * length blocks + 2 <= fuel ->
  exists st',
    liftAlloc Dominates blocks closure df rdf fuel cursors alloc st = (Some tt, st')
    /\ (forall x, seedsDef alloc x -> mem (defblocks st') x)
    /\ (forall x, seedsUse alloc x -> mem (useblocks st') x)
    /\ (forall y, mem (Aphi st') y <-> inFrontier df (defblocks st') y)
    /\ (forall y, mem (Asigma st') y <-> inFrontier rdf (useblocks st') y).
Proof.
  intros Hin HnP HnS Hfuel.
  destruct (liftAlloc_placed Dominates blocks closure df rdf fuel cursors alloc st
              Hin HnP HnS Hfuel) as (st' & Hrun & _ & HD & HU & HP & HS & _).
  by exists st'.
Qed.

Lemma liftAlloc_closes_frontiers_witness :
  exists st',
    liftAlloc (fun _ _ => false) Closure.threeBlocks None threeFrontiers
      threePostFrontiers 14 (fun _ => 0) storedAndLoaded
      (initialState Closure.threeBlocks) = (Some tt, st')
    /\ (forall x, seedsDef storedAndLoaded x -> mem (defblocks st') x)
    /\ (forall x, seedsUse storedAndLoaded x -> mem (useblocks st') x)
    /\ (forall y, mem (Aphi st') y <-> inFrontier threeFrontiers (defblocks st') y)
    /\ (forall y, mem (Asigma st') y
                  <-> inFrontier threePostFrontiers (useblocks st') y).
Proof.
  apply (liftAlloc_closes_frontiers (fun _ _ => false) Closure.threeBlocks None
           threeFrontiers threePostFrontiers 14 (fun _ => 0) storedAndLoaded
           (initialState Closure.threeBlocks) wellFormed_three);
    [reflexivity | reflexivity | simpl; lia].
Defined.

(** X26: when [liftAlloc] returns (it does, on an input as above), the blocks
    with a phi of the Alloc in [newPhis] are those that had one before and
    the blocks of the dominance frontier of a block of [defblocks] at which
    the Alloc has referrers and is live and which have a predecessor; the
    blocks with sigmas of the Alloc in [newSigmas] are those that had some
    before and the blocks of the post-dominance frontier of a block of
    [useblocks] with a successor at which the Alloc is live. *)
Theorem liftAlloc_places_where_wanted (Dominates : nat -> nat -> bool)
    (blocks : list BasicBlock) (closure : option Closure.closure)
    (df rdf : list (list nat)) (fuel : nat) (cursors : SetName -> nat)
    (alloc : AllocInfo) (st : LiftState) :
  wellFormed Dominates blocks closure df rdf alloc ->
  length (newPhis st) = length blocks ->
  length (newSigmas st) = length blocks ->
  4 * length blocks + 2 <= fuel ->
  exists st',
    liftAlloc Dominates blocks closure df rdf fuel cursors alloc st = (Some tt, st')
    /\ (forall y, hasPhi (a_cell alloc) st' y
                  <-> hasPhi (a_cell alloc) st y
                      \/ inFrontier df (defblocks st') y
                         /\ wantsPhi Dominates blocks closure alloc y = true)
    /\ (forall y, hasSigma (a_cell alloc) st' y
                  <-> hasSigma (a_cell alloc) st y
                      \/ inFrontier rdf (useblocks st') y
                         /\ wantsSigma Dominates blocks closure alloc y = true).
Proof.
  intros Hin HnP HnS Hfuel.
  destruct (liftAlloc_placed Dominates blocks closure df rdf fuel cursors alloc st
              Hin HnP HnS Hfuel)
    as (st' & Hrun & _ & _ & _ & HP & HS & _ & _ & (HTp & HTs) & _).
  exists st'. split; [done |].
  split; intros y; [rewrite HTp, HP | rewrite HTs, HS]; done.
Qed.

Lemma liftAlloc_places_where_wanted_witness :
  exists st',
    liftAlloc (fun _ _ => false) Closure.threeBlocks None threeFrontiers
      threePostFrontiers 14 (fun _ => 0) storedAndLoaded
      (initialState Closure.threeBlocks) = (Some tt, st')
    /\ (forall y, hasPhi 0 st' y
                  <-> hasPhi 0 (initialState Closure.threeBlocks) y
                      \/ inFrontier threeFrontiers (defblocks st') y
                         /\ wantsPhi (fun _ _ => false) Closure.threeBlocks None
                              storedAndLoaded y = true)
    /\ (forall y, hasSigma 0 st' y
                  <-> hasSigma 0 (initialState Closure.threeBlocks) y
                      \/ inFrontier threePostFrontiers (useblocks st') y
                         /\ wantsSigma (fun _ _ => false) Closure.threeBlocks None
                              storedAndLoaded y = true).
Proof.
  apply (liftAlloc_places_where_wanted (fun _ _ => false) Closure.threeBlocks None
           threeFrontiers threePostFrontiers 14 (fun _ => 0) storedAndLoaded
           (initialState Closure.threeBlocks) wellFormed_three);
    [reflexivity | reflexivity | simpl; lia].
Defined.

(** X27: when [liftAlloc] returns (it does, on an input as above), its four sets
    are the least sets closed under the rules of the placement: they hold the
    seeds, [Aphi] holds the dominance frontier of [defblocks] and [Asigma]
    the post-dominance frontier of [useblocks], a block of [Aphi] that gets a
    phi is in [defblocks] and its predecessors are in [useblocks], a block of
    [Asigma] that gets sigmas is in [useblocks] and its successors are in
    [defblocks]; and any four sets closed under these rules contain them. *)
Theorem liftAlloc_sets_are_least (Dominates : nat -> nat -> bool)
    (blocks : list BasicBlock) (closure : option Closure.closure)
    (df rdf : list (list nat)) (fuel : nat) (cursors : SetName -> nat)
    (alloc : AllocInfo) (st : LiftState) :
  wellFormed Dominates blocks closure df rdf alloc ->
  length (newPhis st) = length blocks ->
  length (newSigmas st) = length blocks ->
  4 * length blocks + 2 <= fuel ->
  exists st',
    liftAlloc Dominates blocks closure df rdf fuel cursors alloc st = (Some tt, st')
    /\ closedSets Dominates blocks closure df rdf alloc (mem (defblocks st'))
         (mem (useblocks st')) (mem (Aphi st')) (mem (Asigma st'))
    /\ forall D U P S,
         closedSets Dominates blocks closure df rdf alloc D U P S ->
         (forall x, mem (defblocks st') x -> D x)
         /\ (forall x, mem (useblocks st') x -> U x)
         /\ (forall x, mem (Aphi st') x -> P x)
         /\ (forall x, mem (Asigma st') x -> S x).
Proof.
  intros Hin HnP HnS Hfuel.
  destruct (liftAlloc_placed Dominates blocks closure df rdf fuel cursors alloc st
              Hin HnP HnS Hfuel)
    as (st' & Hrun & _ & HD & HU & HP & HS & _ & _ & _ & HR5 & HR6 & HB).
  exists st'. split; [done |]. split; [| done].
  split; [done |]. split; [done |]. split; [| split; [| done]].
  - intros x ys y Hx Hys Hy. apply HP. by exists x, ys.
  - intros x ys y Hx Hys Hy. apply HS. by exists x, ys.
Qed.

Lemma liftAlloc_sets_are_least_witness :
  exists st',
    liftAlloc (fun _ _ => false) Closure.threeBlocks None threeFrontiers
      threePostFrontiers 14 (fun _ => 0) storedAndLoaded
      (initialState Closure.threeBlocks) = (Some tt, st')
    /\ closedSets (fun _ _ => false) Closure.threeBlocks None threeFrontiers
         threePostFrontiers storedAndLoaded (mem (defblocks st'))
         (mem (useblocks st')) (mem (Aphi st')) (mem (Asigma st'))
    /\ forall D U P S,
         closedSets (fun _ _ => false) Closure.threeBlocks None threeFrontiers
           threePostFrontiers storedAndLoaded D U P S ->
         (forall x, mem (defblocks st') x -> D x)
         /\ (forall x, mem (useblocks st') x -> U x)
         /\ (forall x, mem (Aphi st') x -> P x)
         /\ (forall x, mem (Asigma st') x -> S x).
Proof.
  apply (liftAlloc_sets_are_least (fun _ _ => false) Closure.threeBlocks None
           threeFrontiers threePostFrontiers 14 (fun _ => 0) storedAndLoaded
           (initialState Closure.threeBlocks) wellFormed_three);
    [reflexivity | reflexivity | simpl; lia].
Defined.

End FrontierFacts.
